(** * Posterizer Pro: the image pipeline of [PosterizerPro.tsx]

    A shallow embedding of the numeric core of the component: colour-space
    conversion, posterisation, Sobel edge detection, the burst, halftone and
    motif generators, the composite pipeline, the parameter advisor, palette
    transfer and profile import.

    Conventions of the embedding.
    - A JavaScript [number] is a rational ([Q]); [Math.floor] and
      [Math.round] land in [Z].  The functions are first taken with exact
      arithmetic.  Where a property turns on the rounding of IEEE doubles
      (the edge test, the stored levels, the size of the canvases) the
      function is taken again with every operation rounded to the nearest
      double, in the last part of the file.
      [Math.PI], [Math.cos] and [Math.sin] are parameters.
    - A [Uint8ClampedArray] is a [list Z] of bytes, read with stdpp's lookup
      and written with stdpp's insert (a write out of range is dropped, as
      for a typed array); a stored number goes through [toUint8Clamp].
    - A 2D context is the list of drawing calls it received, in order.
    - [Math.random] is a counter into an arbitrary sequence of numbers.
    - A loop that may not end takes fuel; [None] is a call that never
      returns, and each such function comes with the inputs on which it does.
    - React state is a record; a setter updates its field. *)

From Stdlib Require Import ZArith QArith Qpower Qround Qminmax Qabs Reals Qreals Lra Lqa
  Lia Sorted.
From stdpp Require Import base option list gmap strings.

Local Open Scope Q_scope.

(** ** JavaScript numbers *)

Module JS.

Definition Qltb (x y : Q) : bool := negb (Qle_bool y x).

Definition Math_floor (x : Q) : Z := Qfloor x.

(** [Math.round]: nearest integer, a tie goes up. *)
Definition Math_round (x : Q) : Z := Qfloor (x + (1 # 2)).

Definition Math_max (x y : Q) : Q := Qmax x y.
Definition Math_min (x y : Q) : Q := Qmin x y.
Definition Math_max3 (x y z : Q) : Q := Qmax x (Qmax y z).
Definition Math_min3 (x y z : Q) : Q := Qmin x (Qmin y z).

(** Storing a number into a [Uint8ClampedArray]: clamp to [0,255] and round
    to the nearest integer, a tie going to the even neighbour. *)
Definition toUint8Clamp (x : Q) : Z :=
  if Qle_bool x 0 then 0%Z
  else if Qle_bool 255 x then 255%Z
  else
    let f := Qfloor x in
    let frac := x - inject_Z f in
    if Qltb frac 0.5 then f
    else if Qltb 0.5 frac then (f + 1)%Z
    else if Z.even f then f else (f + 1)%Z.

Lemma Qltb_lt (x y : Q) : Qltb x y = true <-> x < y.
Proof.
  unfold Qltb. rewrite negb_true_iff.
  destruct (Qle_bool y x) eqn:E.
  - apply Qle_bool_iff in E. split; [discriminate | intros; lra].
  - split; [intros _ | reflexivity].
    apply Qnot_le_lt. intros H. apply Qle_bool_iff in H. congruence.
Qed.

Lemma Qltb_ge (x y : Q) : Qltb x y = false <-> y <= x.
Proof.
  unfold Qltb. rewrite negb_false_iff. apply Qle_bool_iff.
Qed.

Lemma Math_round_inject (x : Q) (z : Z) : x == inject_Z z -> Math_round x = z.
Proof.
  intros H. unfold Math_round.
  assert (Hhi : x + (1 # 2) < inject_Z (z + 1)).
  { rewrite inject_Z_plus. change (inject_Z 1) with 1. lra. }
  pose proof (Qfloor_le (x + (1 # 2))) as H1.
  pose proof (Qlt_floor (x + (1 # 2))) as H2.
  assert (A : inject_Z (Qfloor (x + (1 # 2))) < inject_Z (z + 1)) by lra.
  assert (B : inject_Z z < inject_Z (Qfloor (x + (1 # 2)) + 1)) by lra.
  rewrite <- Zlt_Qlt in A, B. lia.
Qed.

End JS.

Import JS.

(** Case analysis on the comparisons of a goal, innermost first. *)
Ltac no_test a :=
  lazymatch a with
  | context [if _ then _ else _] => fail
  | _ => idtac
  end.

Ltac qcases :=
  repeat match goal with
  | |- context [Qltb ?a ?b] =>
      no_test a; no_test b;
      let E := fresh "E" in
      destruct (Qltb a b) eqn:E;
      [apply Qltb_lt in E | apply Qltb_ge in E]
  | |- context [Qle_bool ?a ?b] =>
      no_test a; no_test b;
      let E := fresh "E" in
      destruct (Qle_bool a b) eqn:E;
      [apply Qle_bool_iff in E
      | assert (b < a) by (apply Qltb_lt; unfold Qltb; rewrite E; reflexivity);
        clear E]
  | |- context [Qeq_bool ?a ?b] =>
      no_test a; no_test b;
      let E := fresh "E" in
      destruct (Qeq_bool a b) eqn:E;
      [apply Qeq_bool_eq in E | apply Qeq_bool_neq in E]
  end.

(** ** ColorSpace: [rgbToHsl], [hslToRgb], [clamp01] *)

Record HSL := mkHSL { hsl_h : Q; hsl_s : Q; hsl_l : Q }.
Record RGB := mkRGB { rgb_r : Z; rgb_g : Z; rgb_b : Z }.

Definition clamp01 (v : Q) : Q := Math_max 0 (Math_min 1 v).

Definition rgbToHsl (r g b : Q) : HSL :=
  let r := r / 255 in
  let g := g / 255 in
  let b := b / 255 in
  let max := Math_max3 r g b in
  let min := Math_min3 r g b in
  let l := (max + min) / 2 in
  if negb (Qeq_bool max min) then
    let d := max - min in
    let s := if Qltb 0.5 l then d / (2 - max - min) else d / (max + min) in
    let h :=
      if Qeq_bool max r then (g - b) / d + (if Qltb g b then 6 else 0)
      else if Qeq_bool max g then (b - r) / d + 2
      else if Qeq_bool max b then (r - g) / d + 4
      else 0 in
    mkHSL (h / 6) s l
  else mkHSL 0 0 l.

Definition hue2rgb (p q t : Q) : Q :=
  let t := if Qltb t 0 then t + 1 else t in
  let t := if Qltb 1 t then t - 1 else t in
  if Qltb t (1 / 6) then p + (q - p) * 6 * t
  else if Qltb t (1 / 2) then q
  else if Qltb t (2 / 3) then p + (q - p) * (2 / 3 - t) * 6
  else p.

(** The three channels of [hslToRgb] before [Math.round(_ * 255)]. *)
Definition hslToRgb_unit (h s l : Q) : Q * Q * Q :=
  if Qeq_bool s 0 then (l, l, l)
  else
    let q := if Qltb l 0.5 then l * (1 + s) else l + s - l * s in
    let p := 2 * l - q in
    (hue2rgb p q (h + 1 / 3), hue2rgb p q h, hue2rgb p q (h - 1 / 3)).

Definition hslToRgb (h s l : Q) : RGB :=
  let '(r, g, b) := hslToRgb_unit h s l in
  mkRGB (Math_round (r * 255)) (Math_round (g * 255)) (Math_round (b * 255)).

Definition toRGB_toHSL (c : RGB) : RGB :=
  let x := rgbToHsl (inject_Z (rgb_r c)) (inject_Z (rgb_g c)) (inject_Z (rgb_b c)) in
  hslToRgb (hsl_h x) (hsl_s x) (hsl_l x).

Definition is_byte (z : Z) : Prop := (0 <= z <= 255)%Z.
Definition is_color (c : RGB) : Prop :=
  is_byte (rgb_r c) /\ is_byte (rgb_g c) /\ is_byte (rgb_b c).

(** *** Round trip *)

Section ColorSpaceFacts.

(** Constants written as quotients in the source, in the form [lra] reads. *)
Ltac qconst :=
  unfold Qdiv in *;
  change (/ 2) with (1 # 2) in *; change (/ 3) with (1 # 3) in *;
  change (/ 6) with (1 # 6) in *; change (/ 255) with (1 # 255) in *.

Lemma hue2rgb_rising (p q t m M : Q) :
  p == m -> q == M -> 0 <= t <= 1 # 6 ->
  hue2rgb p q t == m + (M - m) * 6 * t.
Proof.
  intros Hp Hq [H0 H1]. unfold hue2rgb. qconst. qcases; try nra.
  assert (Ht : t == 1 # 6) by lra. rewrite Ht. lra.
Qed.

Lemma hue2rgb_high (p q t m M : Q) :
  p == m -> q == M -> 1 # 6 <= t <= 1 # 2 ->
  hue2rgb p q t == M.
Proof.
  intros Hp Hq [H0 H1]. unfold hue2rgb. qconst. qcases; try nra.
  assert (Ht : t == 1 # 2) by lra. rewrite Ht. lra.
Qed.

Lemma hue2rgb_falling (p q t m M : Q) :
  p == m -> q == M -> 1 # 2 <= t <= 2 # 3 ->
  hue2rgb p q t == m + (M - m) * ((2 # 3) - t) * 6.
Proof.
  intros Hp Hq [H0 H1]. unfold hue2rgb. qconst. qcases; try nra.
  assert (Ht : t == 2 # 3) by lra. rewrite Ht. lra.
Qed.

Lemma hue2rgb_low (p q t m M : Q) :
  p == m -> q == M -> 2 # 3 <= t <= 1 ->
  hue2rgb p q t == m.
Proof.
  intros Hp Hq [H0 H1]. unfold hue2rgb. qconst. qcases; nra.
Qed.

Lemma hue2rgb_wrap_below (p q t : Q) :
  t < 0 -> 0 <= t + 1 -> hue2rgb p q t = hue2rgb p q (t + 1).
Proof.
  intros H0 H1. unfold hue2rgb.
  assert (E1 : Qltb t 0 = true) by (apply Qltb_lt; lra).
  assert (E2 : Qltb (t + 1) 0 = false) by (apply Qltb_ge; lra).
  rewrite E1, E2. reflexivity.
Qed.

Lemma hue2rgb_wrap_above (p q t : Q) :
  1 < t -> t <= 2 -> hue2rgb p q t = hue2rgb p q (t - 1).
Proof.
  intros H0 H1. unfold hue2rgb.
  assert (E1 : Qltb t 0 = false) by (apply Qltb_ge; lra).
  assert (E2 : Qltb 1 t = true) by (apply Qltb_lt; lra).
  assert (E3 : Qltb (t - 1) 0 = false) by (apply Qltb_ge; lra).
  assert (E4 : Qltb 1 (t - 1) = false) by (apply Qltb_ge; lra).
  rewrite E1, E2, E3, E4. reflexivity.
Qed.

(** Lightness and saturation determine the extreme channels: the [q] and
    [p] of [hslToRgb] are the maximum and the minimum again. *)
Lemma lightness_saturation_inverse (M m : Q) :
  0 <= m -> m < M -> M <= 1 ->
  let l := (M + m) / 2 in
  let d := M - m in
  let s := if Qltb 0.5 l then d / (2 - M - m) else d / (M + m) in
  let q := if Qltb l 0.5 then l * (1 + s) else l + s - l * s in
  ~ s == 0 /\ 0 < s /\ s <= 1 /\ q == M /\ 2 * l - q == m.
Proof.
  intros H0 Hlt H1 l d s q.
  assert (Hs : s * (if Qltb 0.5 l then 2 - M - m else M + m) == d
               /\ 0 < (if Qltb 0.5 l then 2 - M - m else M + m)).
  { subst s l d. destruct (Qltb 0.5 ((M + m) / 2)) eqn:E.
    - apply Qltb_lt in E. qconst. split; [field | ]; nra.
    - apply Qltb_ge in E. qconst. split; [field | ]; nra. }
  clearbody s. subst q l d. qconst.
  destruct Hs as [Hs Hpos].
  destruct (Qltb 0.5 ((M + m) * (1 # 2))) eqn:E;
    [apply Qltb_lt in E | apply Qltb_ge in E];
    (destruct (Qltb ((M + m) * (1 # 2)) 0.5) eqn:E';
      [apply Qltb_lt in E' | apply Qltb_ge in E']);
    (split; [intros Hz; rewrite Hz in Hs; lra | ]);
    (split; [nra | ]); (split; [nra | ]); split; nra.
Qed.

Lemma max3_spec (x y z : Q) :
  let M := Math_max3 x y z in
  x <= M /\ y <= M /\ z <= M /\ (M == x \/ M == y \/ M == z).
Proof.
  unfold Math_max3.
  destruct (Q.max_spec y z) as [[? E1] | [? E1]];
    destruct (Q.max_spec x (Qmax y z)) as [[? E2] | [? E2]];
    rewrite E2; rewrite ?E1 in *; repeat split; try lra; auto.
Qed.

Lemma min3_spec (x y z : Q) :
  let m := Math_min3 x y z in
  m <= x /\ m <= y /\ m <= z /\ (m == x \/ m == y \/ m == z).
Proof.
  unfold Math_min3.
  destruct (Q.min_spec y z) as [[? E1] | [? E1]];
    destruct (Q.min_spec x (Qmin y z)) as [[? E2] | [? E2]];
    rewrite E2; rewrite ?E1 in *; repeat split; try lra; auto.
Qed.

Ltac hue_step lem m M Hp Hq :=
  etransitivity; [apply (lem _ _ _ m M Hp Hq); split; nra | nra].

Lemma hsl_roundtrip_unit (r g b : Q) :
  0 <= r <= 255 -> 0 <= g <= 255 -> 0 <= b <= 255 ->
  let x := rgbToHsl r g b in
  let y := hslToRgb_unit (hsl_h x) (hsl_s x) (hsl_l x) in
  y.1.1 == r / 255 /\ y.1.2 == g / 255 /\ y.2 == b / 255.
Proof.
  intros Hr Hg Hb. unfold rgbToHsl.
  set (R := r / 255). set (G := g / 255). set (B := b / 255).
  assert (HR : 0 <= R <= 1) by (subst R; qconst; lra).
  assert (HG : 0 <= G <= 1) by (subst G; qconst; lra).
  assert (HB : 0 <= B <= 1) by (subst B; qconst; lra).
  clearbody R G B. clear Hr Hg Hb r g b.
  pose proof (max3_spec R G B) as (M1 & M2 & M3 & HM).
  pose proof (min3_spec R G B) as (m1 & m2 & m3 & Hm).
  set (M := Math_max3 R G B) in *. set (m := Math_min3 R G B) in *.
  clearbody M m. cbv zeta.
  destruct (Qeq_bool M m) eqn:E; cbn [negb].
  - apply Qeq_bool_eq in E. cbn [hsl_h hsl_s hsl_l]. unfold hslToRgb_unit.
    change (Qeq_bool 0 0) with true. cbn [fst snd]. qconst. repeat split; lra.
  - apply Qeq_bool_neq in E.
    assert (Hlt : m < M) by lra.
    pose proof (lightness_saturation_inverse M m ltac:(lra) Hlt ltac:(lra))
      as (Hs0 & _ & _ & Hq & Hp).
    cbv zeta in Hs0, Hq, Hp. cbn [hsl_h hsl_s hsl_l]. unfold hslToRgb_unit.
    set (s := if Qltb 0.5 ((M + m) / 2) then _ else _) in *.
    destruct (Qeq_bool s 0) eqn:Es; [apply Qeq_bool_eq in Es; tauto | clear Es].
    set (q := if Qltb ((M + m) / 2) 0.5 then _ else _) in *.
    set (p := 2 * ((M + m) / 2) - q) in *.
    cbn [fst snd].
    clearbody s q p.
    destruct (Qeq_bool M R) eqn:E1; [apply Qeq_bool_eq in E1 | apply Qeq_bool_neq in E1].
    { set (x := (G - B) / (M - m)).
      assert (Hx : x * (M - m) == G - B) by (subst x; field; lra).
      clearbody x.
      destruct (Qltb G B) eqn:E2; [apply Qltb_lt in E2 | apply Qltb_ge in E2]; qconst.
      - assert (Hmin : m == G) by (destruct Hm as [?|[?|?]]; lra).
        assert (Hx1 : -1 <= x /\ x < 0) by (split; nra).
        repeat split.
        + rewrite hue2rgb_wrap_above by lra. hue_step hue2rgb_high m M Hp Hq.
        + hue_step hue2rgb_low m M Hp Hq.
        + hue_step hue2rgb_falling m M Hp Hq.
      - assert (Hmin : m == B) by (destruct Hm as [?|[?|?]]; lra).
        assert (Hx1 : 0 <= x /\ x <= 1) by (split; nra).
        repeat split.
        + hue_step hue2rgb_high m M Hp Hq.
        + hue_step hue2rgb_rising m M Hp Hq.
        + rewrite hue2rgb_wrap_below by lra. hue_step hue2rgb_low m M Hp Hq. }
    destruct (Qeq_bool M G) eqn:E2; [apply Qeq_bool_eq in E2 | apply Qeq_bool_neq in E2].
    { set (x := (B - R) / (M - m)).
      assert (Hx : x * (M - m) == B - R) by (subst x; field; lra).
      clearbody x. qconst.
      assert (Hx1 : -1 <= x /\ x <= 1) by (split; nra).
      destruct (Qlt_le_dec x 0) as [Hneg | Hpos].
      - assert (Hmin : m == B) by (destruct Hm as [?|[?|?]]; nra).
        repeat split.
        + hue_step hue2rgb_falling m M Hp Hq.
        + hue_step hue2rgb_high m M Hp Hq.
        + rewrite hue2rgb_wrap_below by lra. hue_step hue2rgb_low m M Hp Hq.
      - assert (Hmin : m == R) by (destruct Hm as [?|[?|?]]; nra).
        repeat split.
        + hue_step hue2rgb_low m M Hp Hq.
        + hue_step hue2rgb_high m M Hp Hq.
        + hue_step hue2rgb_rising m M Hp Hq. }
    destruct (Qeq_bool M B) eqn:E3; [apply Qeq_bool_eq in E3 | apply Qeq_bool_neq in E3].
    { set (x := (R - G) / (M - m)).
      assert (Hx : x * (M - m) == R - G) by (subst x; field; lra).
      clearbody x. qconst.
      assert (Hx1 : -1 <= x /\ x <= 1) by (split; nra).
      destruct (Qlt_le_dec 0 x) as [Hpos | Hneg].
      - assert (Hmin : m == G) by (destruct Hm as [?|[?|?]]; nra).
        repeat split.
        + rewrite hue2rgb_wrap_above by lra. hue_step hue2rgb_rising m M Hp Hq.
        + hue_step hue2rgb_low m M Hp Hq.
        + hue_step hue2rgb_high m M Hp Hq.
      - assert (Hmin : m == R) by (destruct Hm as [?|[?|?]]; nra).
        repeat split.
        + hue_step hue2rgb_low m M Hp Hq.
        + hue_step hue2rgb_falling m M Hp Hq.
        + hue_step hue2rgb_high m M Hp Hq. }
    destruct HM as [?|[?|?]]; contradiction.
Qed.

End ColorSpaceFacts.

Lemma roundtrip_exact (c : RGB) : is_color c -> toRGB_toHSL c = c.
Proof.
  intros (Hr & Hg & Hb). destruct c as [r g b]. unfold is_byte in *.
  cbn [rgb_r rgb_g rgb_b] in *. unfold toRGB_toHSL, hslToRgb.
  cbn [rgb_r rgb_g rgb_b].
  assert (Q255 : forall z : Z, (0 <= z <= 255)%Z -> 0 <= inject_Z z <= 255).
  { intros z [H0 H1]. split.
    - change 0 with (inject_Z 0). now rewrite <- Zle_Qle.
    - change 255 with (inject_Z 255). now rewrite <- Zle_Qle. }
  pose proof (hsl_roundtrip_unit (inject_Z r) (inject_Z g) (inject_Z b)
                (Q255 r Hr) (Q255 g Hg) (Q255 b Hb)) as H.
  cbv zeta in H.
  destruct (hslToRgb_unit _ _ _) as [[r' g'] b']. cbn [fst snd] in H.
  destruct H as (H1 & H2 & H3).
  f_equal; apply Math_round_inject.
  - rewrite H1. field.
  - rewrite H2. field.
  - rewrite H3. field.
Qed.

Lemma achromatic_saturation (r g b : Q) :
  Math_max3 (r / 255) (g / 255) (b / 255) == Math_min3 (r / 255) (g / 255) (b / 255) ->
  hsl_s (rgbToHsl r g b) = 0 /\ hsl_h (rgbToHsl r g b) = 0.
Proof.
  intros H. unfold rgbToHsl. apply Qeq_eq_bool in H. rewrite H.
  split; reflexivity.
Qed.

(** C1. For every RGB colour with channels in [0,255], converting to HSL
    and back changes no channel by more than 1 (in this model it changes
    none at all), and a colour whose largest and smallest channel coincide
    gets saturation 0. *)
Theorem roundtrip_within_one (c : RGB) :
  is_color c ->
  let c' := toRGB_toHSL c in
  let x := rgbToHsl (inject_Z (rgb_r c)) (inject_Z (rgb_g c)) (inject_Z (rgb_b c)) in
  (Z.abs (rgb_r c' - rgb_r c) <= 1)%Z /\
  (Z.abs (rgb_g c' - rgb_g c) <= 1)%Z /\
  (Z.abs (rgb_b c' - rgb_b c) <= 1)%Z /\
  (Z.max (rgb_r c) (Z.max (rgb_g c) (rgb_b c))
   = Z.min (rgb_r c) (Z.min (rgb_g c) (rgb_b c)) -> hsl_s x = 0).
Proof.
  intros Hc c' x. subst c'. rewrite (roundtrip_exact c Hc).
  repeat split; try lia.
  intros Hach. subst x. apply achromatic_saturation.
  assert (Hg : rgb_g c = rgb_r c) by lia.
  assert (Hb : rgb_b c = rgb_r c) by lia.
  rewrite Hg, Hb. unfold Math_max3, Math_min3.
  rewrite !Q.max_id, !Q.min_id. reflexivity.
Qed.

Lemma roundtrip_within_one_witness :
  is_color (mkRGB 12 200 77) /\
  let c := mkRGB 12 200 77 in
  let c' := toRGB_toHSL c in
  let x := rgbToHsl (inject_Z (rgb_r c)) (inject_Z (rgb_g c)) (inject_Z (rgb_b c)) in
  (Z.abs (rgb_r c' - rgb_r c) <= 1)%Z /\
  (Z.abs (rgb_g c' - rgb_g c) <= 1)%Z /\
  (Z.abs (rgb_b c' - rgb_b c) <= 1)%Z /\
  (Z.max (rgb_r c) (Z.max (rgb_g c) (rgb_b c))
   = Z.min (rgb_r c) (Z.min (rgb_g c) (rgb_b c)) -> hsl_s x = 0).
Proof.
  assert (H : is_color (mkRGB 12 200 77)).
  { unfold is_color, is_byte; simpl; lia. }
  split; [exact H | exact (roundtrip_within_one (mkRGB 12 200 77) H)].
Defined.

Example roundtrip_sample : toRGB_toHSL (mkRGB 12 200 77) = mkRGB 12 200 77.
Proof. vm_compute. reflexivity. Qed.

Example rgbToHsl_sample :
  let x := rgbToHsl 255 0 0 in (hsl_h x == 0) /\ (hsl_s x == 1) /\ (hsl_l x == 0.5).
Proof. vm_compute. repeat split. Qed.

(** ** Pixel buffers and the 2D context *)

Record ImageData := mkImageData {
  width : Z;
  height : Z;
  data : list Z
}.

Local Set Warnings "-register-all".

(** A call received by a [CanvasRenderingContext2D].  An image source of
    [drawImage] is a canvas, given by the calls that canvas has received. *)
Inductive CanvasOp : Type :=
| save
| restore
| set_globalAlpha (a : Q)
| set_globalCompositeOperation (mode : string)
| set_fillStyle (style : string)
| set_strokeStyle (style : string)
| set_lineWidth (n : Q)
| set_filter_blur (px : Z)
| beginPath
| closePath
| moveTo (x y : Q)
| lineTo (x y : Q)
| bezierCurveTo (cp1x cp1y cp2x cp2y x y : Q)
| arc (x y radius startAngle endAngle : Q)
| fill
| stroke
| clearRect (x y w h : Q)
| fillRect (x y w h : Q)
| translate (x y : Q)
| putImageData (img : ImageData) (dx dy : Q)
| drawImage (source : list CanvasOp) (dx dy : Q).

(** A [for (s = s0; cond(s); s = next(s)) body(s)] loop.  [None] when the
    fuel runs out before the condition fails. *)
Fixpoint for_loop {S A : Type} (fuel : nat) (cond : S -> bool) (next : S -> S)
    (body : S -> A) (s : S) : option (list A) :=
  if cond s then
    match fuel with
    | O => None
    | Datatypes.S fuel' => cons (body s) <$> for_loop fuel' cond next body (next s)
    end
  else Some [].

(** The loops of [drawHalftone]: [for (x = start; x < limit; x += step)].
    With a start and a step of at least 1 fewer than [limit] rounds are
    made; with a step of 0 or less the source never leaves the loop. *)
Definition lattice (start limit step : Z) : option (list Z) :=
  for_loop (Z.to_nat limit) (fun x => (x <? limit)%Z) (fun x => (x + step)%Z)
    (fun x => x) start.

Definition halftone_spacing (density : Q) : Z :=
  (12 - Math_floor (density * 20))%Z.

Definition halftone_radius (spacing : Z) : Z :=
  Z.max 1 (Math_floor (inject_Z spacing / 4)).

Section Canvas.

Variable Math_PI : Q.
Variables Math_cos Math_sin : Q -> Q.

(** [drawBurst]: the rays of the background burst. *)
Definition drawBurst (w h : Z) (strength : Q) : list CanvasOp :=
  if Qle_bool strength 0.01 then []
  else
    let cx := inject_Z w / 2 in
    let cy := inject_Z h / 2 in
    let rays := (Math_floor (64 * strength) + 16)%Z in
    [save; set_globalAlpha (0.25 * strength)]
    ++ flat_map (fun i : Z =>
         let angle := (inject_Z i / inject_Z rays) * Math_PI * 2 in
         let x1 := cx + Math_cos angle * 20 in
         let y1 := cy + Math_sin angle * 20 in
         let x2 := cx + Math_cos angle * Math_max (inject_Z w) (inject_Z h) in
         let y2 := cy + Math_sin angle * Math_max (inject_Z w) (inject_Z h) in
         [beginPath; moveTo cx cy; lineTo x2 y2;
          set_lineWidth 3; set_strokeStyle "#000000"; stroke])
       (seqZ 0 rays)
    ++ [restore].

(** [drawHalftone]; [halftone] is the toggle the function reads from the
    component state. *)
Definition drawHalftone (halftone : bool) (w h : Z) (density : Q)
    : option (list CanvasOp) :=
  if negb halftone || Qle_bool density 0.01 then Some []
  else
    let spacing := halftone_spacing density in
    let radius := halftone_radius spacing in
    ys ← lattice radius h spacing;
    rows ← mapM (fun y : Z =>
              xs ← lattice radius w spacing;
              Some (flat_map (fun x : Z =>
                      [beginPath;
                       arc (inject_Z x) (inject_Z y) (inject_Z radius) 0 (Math_PI * 2);
                       fill]) xs)) ys;
    Some ([save; set_globalAlpha (0.15 + density * 0.25); set_fillStyle "#000"]
          ++ concat rows ++ [restore]).

End Canvas.

(** *** BurstSynth *)

Section BurstFacts.

Variable Math_PI : Q.
Variables Math_cos Math_sin : Q -> Q.

Definition strokes (ops : list CanvasOp) : nat :=
  length (omap (fun op => match op with stroke => Some tt | _ => None end) ops).

Definition path_starts (ops : list CanvasOp) : list (Q * Q) :=
  omap (fun op => match op with moveTo x y => Some (x, y) | _ => None end) ops.

Lemma drawBurst_unfold (w h : Z) (strength : Q) :
  0.01 < strength ->
  drawBurst Math_PI Math_cos Math_sin w h strength =
    let cx := inject_Z w / 2 in
    let cy := inject_Z h / 2 in
    let rays := (Math_floor (64 * strength) + 16)%Z in
    [save; set_globalAlpha (0.25 * strength)]
    ++ flat_map (fun i : Z =>
         let angle := (inject_Z i / inject_Z rays) * Math_PI * 2 in
         let x2 := cx + Math_cos angle * Math_max (inject_Z w) (inject_Z h) in
         let y2 := cy + Math_sin angle * Math_max (inject_Z w) (inject_Z h) in
         [beginPath; moveTo cx cy; lineTo x2 y2;
          set_lineWidth 3; set_strokeStyle "#000000"; stroke])
       (seqZ 0 rays)
    ++ [restore].
Proof.
  intros H. unfold drawBurst.
  destruct (Qle_bool strength 0.01) eqn:E; [ | reflexivity].
  apply Qle_bool_iff in E. lra.
Qed.

Lemma burst_ray_count (strength : Q) :
  0.01 < strength -> (16 <= Math_floor (64 * strength) + 16)%Z.
Proof.
  intros H. unfold Math_floor.
  assert (0 <= Qfloor (64 * strength))%Z; [ | lia].
  change 0%Z with (Qfloor 0). apply Qfloor_resp_le. lra.
Qed.

Lemma strokes_rays (f : Z -> Q * Q) (cx cy : Q) (l : list Z) :
  strokes (flat_map (fun i =>
     [beginPath; moveTo cx cy; lineTo (f i).1 (f i).2;
      set_lineWidth 3; set_strokeStyle "#000000"; stroke]) l) = length l.
Proof.
  induction l as [ | i l IH]; [reflexivity | ].
  unfold strokes in *. cbn. rewrite IH. reflexivity.
Qed.

Lemma path_starts_rays (f : Z -> Q * Q) (cx cy : Q) (l : list Z) :
  path_starts (flat_map (fun i =>
     [beginPath; moveTo cx cy; lineTo (f i).1 (f i).2;
      set_lineWidth 3; set_strokeStyle "#000000"; stroke]) l)
  = replicate (length l) (cx, cy).
Proof.
  induction l as [ | i l IH]; [reflexivity | ].
  unfold path_starts in *. cbn. rewrite IH. reflexivity.
Qed.

(** C3, what the code does.  For a strength above 0.01 [drawBurst] strokes
    [16 + floor(64*strength)] rays, and every one of them begins with
    [moveTo(cx, cy)], the centre of the canvas: the point at radius 20 is
    computed ([x1], [y1]) and never used. *)
Theorem drawBurst_rays_start_at_centre (w h : Z) (strength : Q) :
  0.01 < strength ->
  let ops := drawBurst Math_PI Math_cos Math_sin w h strength in
  let rays := (16 + Math_floor (64 * strength))%Z in
  Z.of_nat (strokes ops) = rays /\
  path_starts ops = replicate (Z.to_nat rays) (inject_Z w / 2, inject_Z h / 2).
Proof.
  intros H ops rays. subst ops. rewrite (drawBurst_unfold w h strength H).
  cbv zeta. pose proof (burst_ray_count strength H) as Hr.
  set (n := (Math_floor (64 * strength) + 16)%Z) in *.
  assert (rays = n) by (subst rays n; lia). subst rays. rewrite H0.
  set (cx := inject_Z w / 2). set (cy := inject_Z h / 2).
  set (f := fun i : Z =>
     let angle := (inject_Z i / inject_Z n) * Math_PI * 2 in
     (cx + Math_cos angle * Math_max (inject_Z w) (inject_Z h),
      cy + Math_sin angle * Math_max (inject_Z w) (inject_Z h))).
  pose proof (strokes_rays f cx cy (seqZ 0 n)) as Hs.
  pose proof (path_starts_rays f cx cy (seqZ 0 n)) as Hp.
  cbn [fst snd f] in Hs, Hp. rewrite length_seqZ in Hs, Hp.
  split.
  - unfold strokes in *. rewrite !omap_app, !length_app. cbn.
    rewrite Hs. lia.
  - unfold path_starts in *. rewrite !omap_app. cbn.
    rewrite Hp, app_nil_r. reflexivity.
Qed.

End BurstFacts.

Lemma drawBurst_rays_start_at_centre_witness :
  0.01 < 0.5 /\
  let ops := drawBurst 3 (fun _ => 1) (fun _ => 0) 200 100 0.5 in
  Z.of_nat (strokes ops) = (16 + Math_floor (64 * 0.5))%Z /\
  path_starts ops
  = replicate (Z.to_nat (16 + Math_floor (64 * 0.5))) (inject_Z 200 / 2, inject_Z 100 / 2).
Proof.
  assert (H : 0.01 < 0.5) by reflexivity.
  split; [exact H | ].
  exact (drawBurst_rays_start_at_centre 3 (fun _ => 1) (fun _ => 0) 200 100 0.5 H).
Defined.

(** The first ray of a 200 x 100 canvas at strength 0.5: it leaves from
    (100, 50), not from a point 20 pixels away from it. *)
Example drawBurst_first_ray (Math_PI : Q) (Math_cos Math_sin : Q -> Q) :
  take 4 (drawBurst Math_PI Math_cos Math_sin 200 100 0.5)
  = [save; set_globalAlpha (0.25 * 0.5); beginPath;
     moveTo (inject_Z 200 / 2) (inject_Z 100 / 2)].
Proof. reflexivity. Qed.

(** *** HalftoneSynth *)

Lemma Qfloor_unique (x : Q) (z : Z) :
  inject_Z z <= x -> x < inject_Z (z + 1) -> Qfloor x = z.
Proof.
  intros H1 H2.
  pose proof (Qfloor_le x) as H3. pose proof (Qlt_floor x) as H4.
  assert (A : inject_Z (Qfloor x) < inject_Z (z + 1)) by lra.
  assert (B : inject_Z z < inject_Z (Qfloor x + 1)) by lra.
  rewrite <- Zlt_Qlt in A, B. lia.
Qed.

Lemma Qfloor_add_1 (x : Q) : Qfloor (x + 1) = (Qfloor x + 1)%Z.
Proof.
  pose proof (Qfloor_le x) as H3. pose proof (Qlt_floor x) as H4.
  apply Qfloor_unique; rewrite ?inject_Z_plus in *;
    change (inject_Z 1) with 1 in *; lra.
Qed.

Lemma halftone_spacing_range (D : Q) :
  0 <= D -> D <= 0.4 -> (4 <= halftone_spacing D <= 12)%Z.
Proof.
  intros H0 H1. unfold halftone_spacing, Math_floor.
  assert (A : (Qfloor 0 <= Qfloor (D * 20))%Z) by (apply Qfloor_resp_le; lra).
  assert (B : (Qfloor (D * 20) <= Qfloor 8)%Z) by (apply Qfloor_resp_le; lra).
  change (Qfloor 0) with 0%Z in A. change (Qfloor 8) with 8%Z in B. lia.
Qed.

(** C7 as stated fails: between two densities of the legal range that fall
    in the same twentieth the spacing does not move. *)
Lemma halftone_spacing_plateau :
  ~ (forall D1 D2 : Q, 0 <= D1 -> D1 < D2 -> D2 <= 0.4 ->
       (Z.max 1 (halftone_spacing D2) < Z.max 1 (halftone_spacing D1))%Z).
Proof.
  intros H. specialize (H 0.1 0.12).
  assert (A : 0 <= 0.1) by discriminate.
  assert (B : 0.1 < 0.12) by reflexivity.
  assert (C : 0.12 <= 0.4) by discriminate.
  specialize (H A B C). vm_compute in H. discriminate.
Qed.

(** C7, amended.  Over the legal range the spacing [12 - floor(20 D)] never
    grows with the density, it stays between 4 and 12 (so a clamp at 1 would
    change nothing), and it is strictly smaller as soon as the density has
    grown by 0.05. *)
Theorem halftone_spacing_antitone (D1 D2 : Q) :
  0 <= D1 -> D1 < D2 -> D2 <= 0.4 ->
  (halftone_spacing D2 <= halftone_spacing D1)%Z /\
  Z.max 1 (halftone_spacing D1) = halftone_spacing D1 /\
  Z.max 1 (halftone_spacing D2) = halftone_spacing D2 /\
  (D1 + 0.05 <= D2 -> (halftone_spacing D2 < halftone_spacing D1)%Z).
Proof.
  intros H0 Hlt H1.
  pose proof (halftone_spacing_range D1 H0 ltac:(lra)) as R1.
  pose proof (halftone_spacing_range D2 ltac:(lra) H1) as R2.
  repeat split; try lia.
  - unfold halftone_spacing, Math_floor.
    assert ((Qfloor (D1 * 20) <= Qfloor (D2 * 20))%Z)
      by (apply Qfloor_resp_le; lra). lia.
  - intros Hstep. unfold halftone_spacing, Math_floor.
    assert (A : (Qfloor (D1 * 20 + 1) <= Qfloor (D2 * 20))%Z)
      by (apply Qfloor_resp_le; lra).
    rewrite Qfloor_add_1 in A. lia.
Qed.

Lemma halftone_spacing_antitone_witness :
  (halftone_spacing 0.3 <= halftone_spacing 0.1)%Z /\
  Z.max 1 (halftone_spacing 0.1) = halftone_spacing 0.1 /\
  Z.max 1 (halftone_spacing 0.3) = halftone_spacing 0.3 /\
  (0.1 + 0.05 <= 0.3 -> (halftone_spacing 0.3 < halftone_spacing 0.1)%Z).
Proof.
  apply (halftone_spacing_antitone 0.1 0.3); [discriminate | reflexivity | discriminate].
Defined.

Example halftone_spacing_samples :
  halftone_spacing 0 = 12%Z /\ halftone_spacing 0.04 = 12%Z /\
  halftone_spacing 0.15 = 9%Z /\ halftone_spacing 0.4 = 4%Z.
Proof. vm_compute. repeat split. Qed.

Lemma for_loop_upto_total (fuel : nat) (x limit step : Z) :
  (1 <= step)%Z -> (limit - x <= Z.of_nat fuel)%Z ->
  is_Some (for_loop fuel (fun x => (x <? limit)%Z) (fun x => (x + step)%Z)
             (fun x => x) x).
Proof.
  intros Hstep. revert x. induction fuel as [ | fuel IH]; intros x Hf; cbn.
  - destruct (Z.ltb_spec x limit); [lia | eauto].
  - destruct (Z.ltb_spec x limit); [ | eauto].
    destruct (IH (x + step)%Z ltac:(lia)) as [l ->]. cbn. eauto.
Qed.

Lemma lattice_total (start limit step : Z) :
  (1 <= start)%Z -> (1 <= step)%Z -> is_Some (lattice start limit step).
Proof.
  intros H1 H2. apply for_loop_upto_total; lia.
Qed.

Lemma halftone_radius_pos (spacing : Z) : (1 <= halftone_radius spacing)%Z.
Proof. unfold halftone_radius. lia. Qed.

Lemma drawHalftone_skips (Math_PI : Q) (halftone : bool) (w h : Z) (density : Q) :
  halftone = false \/ density <= 0.01 ->
  drawHalftone Math_PI halftone w h density = Some [].
Proof.
  intros [-> | Hd]; unfold drawHalftone; [reflexivity | ].
  apply Qle_bool_iff in Hd. rewrite Hd, orb_true_r. reflexivity.
Qed.

Lemma drawHalftone_draws (Math_PI : Q) (w h : Z) (density : Q) :
  0.01 < density -> density <= 0.4 ->
  exists dots,
    drawHalftone Math_PI true w h density
    = Some ([save; set_globalAlpha (0.15 + density * 0.25); set_fillStyle "#000"]
            ++ dots ++ [restore]).
Proof.
  intros Hlo Hhi. unfold drawHalftone. cbn [negb orb].
  destruct (Qle_bool density 0.01) eqn:E; [apply Qle_bool_iff in E; lra | ].
  pose proof (halftone_spacing_range density ltac:(lra) Hhi) as Hs.
  pose proof (halftone_radius_pos (halftone_spacing density)) as Hr.
  cbv zeta.
  destruct (lattice_total (halftone_radius (halftone_spacing density)) h
              (halftone_spacing density) Hr ltac:(lia)) as [ys ->].
  destruct (lattice_total (halftone_radius (halftone_spacing density)) w
              (halftone_spacing density) Hr ltac:(lia)) as [xs ->].
  cbn [mbind option_bind].
  match goal with |- context [mapM ?f ys] =>
    destruct (mapM_is_Some_2 f ys) as [rows ->] end.
  - apply Forall_forall. intros y _. cbn. eauto.
  - cbn. eauto.
Qed.

(** C10.  [drawHalftone] returns without a single drawing call when the
    toggle is off or the density is at most 0.01, densities in (0, 0.01]
    included; for a density of the legal range above 0.01 and the toggle on
    it returns too, and its calls are the dot grid between [save] and
    [restore], at opacity [0.15 + D * 0.25]. *)
Theorem drawHalftone_threshold (Math_PI : Q) (halftone : bool) (w h : Z) (density : Q) :
  (halftone = false \/ density <= 0.01 ->
     drawHalftone Math_PI halftone w h density = Some []) /\
  (halftone = true -> 0.01 < density -> density <= 0.4 ->
     exists dots,
       drawHalftone Math_PI halftone w h density
       = Some ([save; set_globalAlpha (0.15 + density * 0.25); set_fillStyle "#000"]
               ++ dots ++ [restore])).
Proof.
  split.
  - apply drawHalftone_skips.
  - intros ->. apply drawHalftone_draws.
Qed.

Lemma drawHalftone_threshold_witness :
  drawHalftone 3 true 100 80 0.005 = Some [] /\
  drawHalftone 3 false 100 80 0.2 = Some [] /\
  exists dots,
    drawHalftone 3 true 100 80 0.2
    = Some ([save; set_globalAlpha (0.15 + 0.2 * 0.25); set_fillStyle "#000"]
            ++ dots ++ [restore]).
Proof.
  split; [ | split].
  - apply (proj1 (drawHalftone_threshold 3 true 100 80 0.005)).
    right. discriminate.
  - apply (proj1 (drawHalftone_threshold 3 false 100 80 0.2)).
    left. reflexivity.
  - apply (proj2 (drawHalftone_threshold 3 true 100 80 0.2));
      [reflexivity | reflexivity | discriminate].
Defined.

(** A 30 x 20 canvas at density 0.2: spacing 8, radius 2, dots at x = 2,
    10, 18, 26 and y = 2, 10, 18. *)
Example drawHalftone_sample :
  lattice 2 30 8 = Some [2; 10; 18; 26]%Z /\
  lattice 2 20 8 = Some [2; 10; 18]%Z /\
  (length <$> drawHalftone 3 true 30 20 0.2) = Some (3 + 3 * 12 + 1)%nat.
Proof. vm_compute. repeat split. Qed.

(** With a spacing that is not positive the loop of the source does not end. *)
Example lattice_stuck : lattice 1 5 (-1) = None.
Proof. reflexivity. Qed.

(** ** Posterizer: [posterizeAndSaturate] on the bytes of an [ImageData] *)

(** [d[i] = v] on a [Uint8ClampedArray]. *)
Definition put (d : list Z) (i : nat) (v : Q) : list Z :=
  <[i := toUint8Clamp v]> d.

(** The indices [0, 4, 8, ...] below [len] of a [for (i = 0; i < len; i += 4)]. *)
Definition pixel_offsets (len : nat) : list nat :=
  (fun k => 4 * k)%nat <$> seq 0 ((len + 3) / 4).

(** One round of the loop of [posterizeAndSaturate], on the pixel at [i].
    The bytes of an [ImageData] come in fours, so the four reads are in
    range. *)
Definition posterize_pixel (step satBoost : Q) (d : list Z) (i : nat) : list Z :=
  let r := d !!! i in
  let g := d !!! (i + 1)%nat in
  let b := d !!! (i + 2)%nat in
  let a := d !!! (i + 3)%nat in
  let x := rgbToHsl (inject_Z r) (inject_Z g) (inject_Z b) in
  let s2 := clamp01 (hsl_s x + satBoost * (1 - hsl_s x)) in
  let c := hslToRgb (hsl_h x) s2 (hsl_l x) in
  let d := put d i (inject_Z (Math_round (inject_Z (rgb_r c) / step)) * step) in
  let d := put d (i + 1) (inject_Z (Math_round (inject_Z (rgb_g c) / step)) * step) in
  let d := put d (i + 2) (inject_Z (Math_round (inject_Z (rgb_b c) / step)) * step) in
  put d (i + 3) (inject_Z a).

Definition posterize_step_size (levels : Z) : Q :=
  255 / Math_max 2 (inject_Z levels - 1).

Definition posterize_data (d : list Z) (levels : Z) (satBoost : Q) : list Z :=
  let step := posterize_step_size levels in
  foldl (posterize_pixel step satBoost) d (pixel_offsets (length d)).

(** The values a channel can take after posterising with [levels]: the
    multiples [k * step] for [k] from 0 to [max(2, levels - 1)], as stored. *)
Definition poster_levels (levels : Z) : list Z :=
  (fun k : Z => toUint8Clamp (inject_Z k * posterize_step_size levels))
    <$> seqZ 0 (Z.max 2 (levels - 1) + 1).

(** The values of channel [c] (0 red, 1 green, 2 blue, 3 alpha) of a buffer. *)
Definition channel (c : nat) (d : list Z) : list Z :=
  omap (fun k => d !! (4 * k + c)%nat) (seq 0 (length d / 4)).

Definition distinct_values (l : list Z) : nat := length (remove_dups l).

Example posterize_two_levels :
  posterize_data [0; 0; 0; 255; 128; 128; 128; 255; 255; 255; 255; 255]%Z 2 0
  = [0; 0; 0; 255; 128; 128; 128; 255; 255; 255; 255; 255]%Z.
Proof. vm_compute. reflexivity. Qed.

Example posterize_six_levels :
  posterize_data [10; 100; 200; 77; 128; 128; 128; 255]%Z 6 0.3
  = [0; 102; 204; 77; 153; 102; 102; 255]%Z /\
  poster_levels 6 = [0; 51; 102; 153; 204; 255]%Z /\
  poster_levels 2 = [0; 128; 255]%Z.
Proof. vm_compute. repeat split. Qed.

(** *** In-place loops over the pixels of a buffer *)

Section PixelLoop.

Variable body : list Z -> nat -> list Z.

Hypothesis body_length : forall d i, length (body d i) = length d.
(** A round writes inside its own pixel only ... *)
Hypothesis body_frame : forall d i j,
  (j < i \/ i + 4 <= j)%nat -> body d i !! j = d !! j.
(** ... and reads inside its own pixel only. *)
Hypothesis body_local : forall d d' i j,
  length d = length d' ->
  (forall k, (i <= k < i + 4)%nat -> d !! k = d' !! k) ->
  (i <= j < i + 4)%nat -> body d i !! j = body d' i !! j.

Definition pixel_loop (n : nat) (d : list Z) : list Z :=
  foldl body d ((fun k => 4 * k)%nat <$> seq 0 n).

Lemma pixel_loop_S (n : nat) (d : list Z) :
  pixel_loop (S n) d = body (pixel_loop n d) (4 * n).
Proof.
  unfold pixel_loop. rewrite seq_S, fmap_app, foldl_app. reflexivity.
Qed.

Lemma pixel_loop_length (n : nat) (d : list Z) :
  length (pixel_loop n d) = length d.
Proof.
  induction n as [ | n IH]; [reflexivity | ].
  rewrite pixel_loop_S, body_length. exact IH.
Qed.

(** After [n] rounds the first [n] pixels hold what their own round made of
    the original bytes, and the rest is untouched. *)
Lemma pixel_loop_lookup (n : nat) (d : list Z) (j : nat) :
  pixel_loop n d !! j
  = if decide (j < 4 * n)%nat then body d (4 * (j / 4)) !! j else d !! j.
Proof.
  induction n as [ | n IH] in j |- *.
  - destruct (decide (j < 4 * 0)%nat); [lia | reflexivity].
  - rewrite pixel_loop_S.
    destruct (decide (j < 4 * n)%nat) as [Hlt | Hge].
    + rewrite body_frame by lia. rewrite IH.
      destruct (decide (j < 4 * n)%nat); [ | lia].
      destruct (decide (j < 4 * S n)%nat); [reflexivity | lia].
    + destruct (decide (j < 4 * S n)%nat) as [Hin | Hout].
      * assert (Hq : (j / 4 = n)%nat).
        { symmetry. apply (Nat.div_unique j 4 n (j - 4 * n)); lia. }
        rewrite Hq. apply body_local; [apply pixel_loop_length | | lia].
        intros k Hk. rewrite IH.
        destruct (decide (k < 4 * n)%nat); [lia | reflexivity].
      * rewrite body_frame by lia. rewrite IH.
        destruct (decide (j < 4 * n)%nat); [lia | reflexivity].
Qed.

End PixelLoop.

(** *** Facts about the posterizer *)

Lemma put_length (d : list Z) (i : nat) (v : Q) : length (put d i v) = length d.
Proof. apply length_insert. Qed.

Lemma put_lookup (d : list Z) (i j : nat) (v : Q) :
  put d i v !! j
  = if decide (i = j /\ (i < length d)%nat) then Some (toUint8Clamp v) else d !! j.
Proof. apply list_lookup_insert. Qed.

Lemma lookup_total_ext (d d' : list Z) (i : nat) :
  d !! i = d' !! i -> d !!! i = d' !!! i.
Proof. intros H. rewrite !list_lookup_total_alt, H. reflexivity. Qed.

(** The colour of a pixel after the saturation boost, back in RGB. *)
Definition boosted (satBoost : Q) (r g b : Z) : RGB :=
  let x := rgbToHsl (inject_Z r) (inject_Z g) (inject_Z b) in
  let s2 := clamp01 (hsl_s x + satBoost * (1 - hsl_s x)) in
  hslToRgb (hsl_h x) s2 (hsl_l x).

(** [Math.round(v / step) * step]. *)
Definition quantize (step : Q) (v : Z) : Q :=
  inject_Z (Math_round (inject_Z v / step)) * step.

(** What [posterizeAndSaturate] stores for a pixel with channels [r g b]. *)
Definition poster_rgb (step satBoost : Q) (r g b : Z) : Q * Q * Q :=
  let c := boosted satBoost r g b in
  (quantize step (rgb_r c), quantize step (rgb_g c), quantize step (rgb_b c)).

(** [quantize] picks a multiple of the step that is nearest to [v]. *)
Lemma quantize_nearest (step : Q) (v : Z) :
  0 < step ->
  exists k : Z, quantize step v = inject_Z k * step /\
    Qabs (inject_Z k * step - inject_Z v) <= step / 2 /\
    forall j : Z, Qabs (inject_Z k * step - inject_Z v)
                  <= Qabs (inject_Z j * step - inject_Z v).
Proof.
  intros Hstep. unfold quantize, Math_round.
  set (x := inject_Z v / step).
  assert (Hx : x * step == inject_Z v) by (subst x; field; lra).
  clearbody x. exists (Qfloor (x + (1 # 2))). split; [reflexivity | ].
  pose proof (Qfloor_le (x + (1 # 2))) as H1.
  pose proof (Qlt_floor (x + (1 # 2))) as H2.
  rewrite inject_Z_plus in H2. change (inject_Z 1) with 1 in H2.
  set (k := Qfloor (x + (1 # 2))) in *.
  assert (Hhalf : Qabs (inject_Z k * step - inject_Z v) <= step * (1 # 2)).
  { apply Qabs_Qle_condition. split; nra. }
  split; [exact Hhalf | ].
  intros j. destruct (Z.eq_dec j k) as [-> | Hne]; [lra | ].
  apply Qle_trans with (step * (1 # 2)); [exact Hhalf | ].
  assert (Hj : (j <= k - 1 \/ k + 1 <= j)%Z) by lia.
  destruct Hj as [Hj | Hj]; rewrite Zle_Qle in Hj.
  - unfold Zminus in Hj. rewrite inject_Z_plus in Hj.
    change (inject_Z (- (1))) with (-1) in Hj.
    rewrite Qabs_neg by nra. nra.
  - rewrite inject_Z_plus in Hj. change (inject_Z 1) with 1 in Hj.
    rewrite Qabs_pos by nra. nra.
Qed.

Lemma posterize_pixel_puts (step satBoost : Q) (d : list Z) (i : nat) :
  posterize_pixel step satBoost d i
  = let v := poster_rgb step satBoost (d !!! i) (d !!! (i + 1)%nat) (d !!! (i + 2)%nat) in
    put (put (put (put d i v.1.1) (i + 1) v.1.2) (i + 2) v.2) (i + 3)
        (inject_Z (d !!! (i + 3)%nat)).
Proof.
  unfold posterize_pixel, poster_rgb, boosted, quantize. cbv zeta.
  cbn [fst snd]. reflexivity.
Qed.

Lemma posterize_pixel_length (step satBoost : Q) (d : list Z) (i : nat) :
  length (posterize_pixel step satBoost d i) = length d.
Proof. rewrite posterize_pixel_puts. cbv zeta. rewrite !put_length. reflexivity. Qed.

Lemma posterize_pixel_frame (step satBoost : Q) (d : list Z) (i j : nat) :
  (j < i \/ i + 4 <= j)%nat -> posterize_pixel step satBoost d i !! j = d !! j.
Proof.
  intros H. rewrite posterize_pixel_puts. cbv zeta.
  rewrite !put_lookup. repeat case_decide; try lia. reflexivity.
Qed.

Lemma posterize_pixel_local (step satBoost : Q) (d d' : list Z) (i j : nat) :
  length d = length d' ->
  (forall k, (i <= k < i + 4)%nat -> d !! k = d' !! k) ->
  (i <= j < i + 4)%nat ->
  posterize_pixel step satBoost d i !! j = posterize_pixel step satBoost d' i !! j.
Proof.
  intros Hlen Hsame Hj. rewrite !posterize_pixel_puts. cbv zeta.
  rewrite (lookup_total_ext d d' i) by (apply Hsame; lia).
  rewrite (lookup_total_ext d d' (i + 1)) by (apply Hsame; lia).
  rewrite (lookup_total_ext d d' (i + 2)) by (apply Hsame; lia).
  rewrite (lookup_total_ext d d' (i + 3)) by (apply Hsame; lia).
  rewrite !put_lookup, !put_length, Hlen.
  repeat case_decide; try reflexivity; try lia. apply Hsame. lia.
Qed.

Lemma posterize_data_loop (d : list Z) (levels : Z) (satBoost : Q) :
  posterize_data d levels satBoost
  = pixel_loop (posterize_pixel (posterize_step_size levels) satBoost)
      ((length d + 3) / 4) d.
Proof. reflexivity. Qed.

Lemma posterize_data_length (d : list Z) (levels : Z) (satBoost : Q) :
  length (posterize_data d levels satBoost) = length d.
Proof.
  rewrite posterize_data_loop. apply pixel_loop_length.
  apply posterize_pixel_length.
Qed.

(** Byte [c] of pixel [k] after the call, from the bytes of pixel [k] before. *)
Lemma posterize_data_lookup (d : list Z) (levels : Z) (satBoost : Q) (k c : nat) :
  (4 * k + 3 < length d)%nat -> (c < 4)%nat ->
  posterize_data d levels satBoost !! (4 * k + c)%nat
  = let v := poster_rgb (posterize_step_size levels) satBoost
               (d !!! (4 * k)%nat) (d !!! (4 * k + 1)%nat) (d !!! (4 * k + 2)%nat) in
    Some (toUint8Clamp
            match c with
            | 0%nat => v.1.1
            | 1%nat => v.1.2
            | 2%nat => v.2
            | _ => inject_Z (d !!! (4 * k + 3)%nat)
            end).
Proof.
  intros Hk Hc. rewrite posterize_data_loop.
  rewrite pixel_loop_lookup
    by eauto using posterize_pixel_length, posterize_pixel_frame, posterize_pixel_local.
  assert (Hn : (4 * k + c < 4 * ((length d + 3) / 4))%nat).
  { pose proof (Nat.div_mod_eq (length d + 3) 4).
    pose proof (Nat.mod_upper_bound (length d + 3) 4). lia. }
  destruct (decide (4 * k + c < 4 * ((length d + 3) / 4))%nat); [ | lia].
  assert (Hq : ((4 * k + c) / 4 = k)%nat).
  { symmetry. apply (Nat.div_unique (4 * k + c) 4 k c); lia. }
  rewrite Hq, posterize_pixel_puts. cbv zeta.
  rewrite !put_lookup, !put_length.
  destruct c as [ | [ | [ | [ | c]]]]; try lia;
    repeat case_decide; try lia; reflexivity.
Qed.

Lemma toUint8Clamp_low (x : Q) : x <= 0 -> toUint8Clamp x = 0%Z.
Proof.
  intros H. unfold toUint8Clamp. apply Qle_bool_iff in H. rewrite H. reflexivity.
Qed.

Lemma toUint8Clamp_high (x : Q) : 255 <= x -> toUint8Clamp x = 255%Z.
Proof.
  intros H. unfold toUint8Clamp.
  destruct (Qle_bool x 0) eqn:E; [apply Qle_bool_iff in E; lra | ].
  apply Qle_bool_iff in H. rewrite H. reflexivity.
Qed.

Lemma toUint8Clamp_range (x : Q) : is_byte (toUint8Clamp x).
Proof.
  unfold toUint8Clamp, is_byte.
  destruct (Qle_bool x 0) eqn:E0; [lia | ].
  destruct (Qle_bool 255 x) eqn:E1; [lia | ].
  assert (H0 : 0 < x) by (apply Qltb_lt; unfold Qltb; rewrite E0; reflexivity).
  assert (H1 : x < 255) by (apply Qltb_lt; unfold Qltb; rewrite E1; reflexivity).
  assert (A : (Qfloor 0 <= Qfloor x)%Z) by (apply Qfloor_resp_le; lra).
  assert (B : (Qfloor x < 255)%Z).
  { pose proof (Qfloor_le x) as Hf. rewrite Zlt_Qlt.
    change (inject_Z 255) with 255. lra. }
  change (Qfloor 0) with 0%Z in A. cbv zeta.
  repeat match goal with |- context [if ?c then _ else _] => destruct c end; lia.
Qed.

Lemma toUint8Clamp_byte (z : Z) : is_byte z -> toUint8Clamp (inject_Z z) = z.
Proof.
  intros [H0 H1]. unfold toUint8Clamp.
  destruct (Qle_bool (inject_Z z) 0) eqn:E0.
  { apply Qle_bool_iff in E0. change 0 with (inject_Z 0) in E0.
    rewrite <- Zle_Qle in E0. lia. }
  destruct (Qle_bool 255 (inject_Z z)) eqn:E1.
  { apply Qle_bool_iff in E1. change 255 with (inject_Z 255) in E1.
    rewrite <- Zle_Qle in E1. lia. }
  rewrite Qfloor_Z. cbv zeta.
  assert (E : Qltb (inject_Z z - inject_Z z) 0.5 = true) by (apply Qltb_lt; lra).
  rewrite E. reflexivity.
Qed.

Lemma posterize_divisor (levels : Z) :
  Math_max 2 (inject_Z levels - 1) == inject_Z (Z.max 2 (levels - 1)).
Proof.
  unfold Math_max.
  assert (Hi : inject_Z (levels - 1) == inject_Z levels - 1).
  { unfold Zminus. rewrite inject_Z_plus. reflexivity. }
  destruct (Z.max_spec 2 (levels - 1)) as [[Hlt ->] | [Hle ->]].
  - rewrite Q.max_r; [symmetry; exact Hi | ].
    rewrite <- Hi. change 2 with (inject_Z 2). rewrite <- Zle_Qle. lia.
  - rewrite Q.max_l; [reflexivity | ].
    rewrite <- Hi. change 2 with (inject_Z 2). rewrite <- Zle_Qle. lia.
Qed.

Lemma posterize_step_size_spec (levels : Z) :
  let n := inject_Z (Z.max 2 (levels - 1)) in
  2 <= n /\ posterize_step_size levels * n == 255 /\ 0 < posterize_step_size levels.
Proof.
  intros n. assert (Hn : 2 <= n).
  { subst n. change 2 with (inject_Z 2). rewrite <- Zle_Qle. lia. }
  assert (Hs : posterize_step_size levels * n == 255).
  { unfold posterize_step_size. rewrite posterize_divisor. fold n. field. lra. }
  repeat split; [exact Hn | exact Hs | nra].
Qed.

(** Whatever multiple of the step is stored, it is stored as one of
    [poster_levels]: below 0 and above 255 the array clamps. *)
Lemma poster_levels_closed (levels k : Z) :
  toUint8Clamp (inject_Z k * posterize_step_size levels) ∈ poster_levels levels.
Proof.
  destruct (posterize_step_size_spec levels) as (Hn & Hs & Hpos).
  set (n := Z.max 2 (levels - 1)) in *. set (step := posterize_step_size levels) in *.
  unfold poster_levels. fold n step.
  assert (Hk : (k < 0 \/ 0 <= k <= n \/ n < k)%Z) by lia.
  destruct Hk as [Hk | [Hk | Hk]].
  - apply list_elem_of_fmap. exists 0%Z. split; [ | apply elem_of_seqZ; lia].
    rewrite !toUint8Clamp_low; [reflexivity | change (inject_Z 0) with 0; lra | ].
    assert (inject_Z k <= 0) by (change 0 with (inject_Z 0); rewrite <- Zle_Qle; lia).
    nra.
  - apply list_elem_of_fmap. exists k. split; [reflexivity | apply elem_of_seqZ; lia].
  - apply list_elem_of_fmap. exists n. split; [ | apply elem_of_seqZ; lia].
    rewrite !toUint8Clamp_high; [reflexivity | lra | ].
    assert (inject_Z n <= inject_Z k) by (rewrite <- Zle_Qle; lia).
    nra.
Qed.

Lemma poster_levels_length (levels : Z) :
  length (poster_levels levels) = Z.to_nat (Z.max 3 levels).
Proof.
  unfold poster_levels. rewrite length_fmap, length_seqZ. f_equal. lia.
Qed.

Lemma omap_ext_in {A B : Type} (f g : A -> option B) (l : list A) :
  (forall x, x ∈ l -> f x = g x) -> omap f l = omap g l.
Proof.
  induction l as [ | a l IH]; intros H; [reflexivity | ].
  cbn. rewrite (H a) by apply list_elem_of_here.
  rewrite IH; [reflexivity | ]. intros x Hx. apply H. now apply list_elem_of_further.
Qed.

Lemma distinct_values_bound (l levels : list Z) :
  (forall v, v ∈ l -> v ∈ levels) -> (distinct_values l <= length levels)%nat.
Proof.
  intros H. unfold distinct_values. apply submseteq_length.
  apply NoDup_submseteq; [apply NoDup_remove_dups | ].
  intros v Hv. apply H. now apply elem_of_remove_dups.
Qed.

Lemma channel_lookup (c : nat) (d : list Z) (v : Z) :
  v ∈ channel c d <->
  exists k, (k < length d / 4)%nat /\ d !! (4 * k + c)%nat = Some v.
Proof.
  unfold channel. rewrite list_elem_of_omap. split.
  - intros (k & Hk & Hv). apply elem_of_seq in Hk. exists k. split; [lia | exact Hv].
  - intros (k & Hk & Hv). exists k. split; [apply elem_of_seq; lia | exact Hv].
Qed.

(** C2 as stated fails at [L = 2]: the step is [255 / max(2, L - 1)], that
    is 127.5 and not 255, and black, mid grey and white come out as three
    values of the red channel. *)
Lemma posterize_two_levels_gives_three :
  let d := [0; 0; 0; 255; 128; 128; 128; 255; 255; 255; 255; 255]%Z in
  Forall is_byte d /\
  channel 0 (posterize_data d 2 0) = [0; 128; 255]%Z /\
  ~ (distinct_values (channel 0 (posterize_data d 2 0)) <= Z.to_nat 2)%nat /\
  ~ posterize_step_size 2 == 255 / (2 - 1).
Proof.
  cbv zeta. split; [ | split; [ | split]].
  - repeat constructor; unfold is_byte; lia.
  - vm_compute. reflexivity.
  - vm_compute. lia.
  - vm_compute. discriminate.
Qed.

(** ** EdgeDetector: [sobelEdges] *)

(** [d[p]] for an index computed as a number: [None] is [undefined]. *)
Definition getZ (d : list Z) (p : Z) : option Z :=
  if (p <? 0)%Z then None else d !! Z.to_nat p.

(** [o[p] = v] for an index computed as a number. *)
Definition putZ (o : list Z) (p : Z) (v : Q) : list Z :=
  if (p <? 0)%Z then o else put o (Z.to_nat p) v.

Definition idx (w x y : Z) : Z := ((y * w + x) * 4)%Z.

Definition gx : list Q := [-1; 0; 1; -2; 0; 2; -1; 0; 1].
Definition gy : list Q := [-1; -2; -1; 0; 0; 0; 1; 2; 1].

(** [Math.sqrt(v) > t] for [v >= 0], without the root: a negative [t] is
    below every root, otherwise the squares are compared. *)
Definition Math_sqrt_gt (v t : Q) : bool :=
  if Qltb t 0 then true else Qltb (t * t) v.

(** The sums [sx], [sy] of the 3 x 3 window around [(x, y)].  A number is
    [None] when it is [NaN], which is what a read outside the buffer leads
    to. *)
Definition sobel_sums (d : list Z) (w x y : Z) : option Q * option Q :=
  let '(sx, sy, _) :=
    foldl (fun acc j =>
      foldl (fun '(sx, sy, k) i =>
        let p := idx w (x + i) (y + j) in
        let lum :=
          r ← getZ d p; g ← getZ d (p + 1); b ← getZ d (p + 2);
          Some (0.2126 * inject_Z r + 0.7152 * inject_Z g + 0.0722 * inject_Z b) in
        (s ← sx; l ← lum; c ← gx !! k; Some (s + l * c),
         s ← sy; l ← lum; c ← gy !! k; Some (s + l * c),
         S k))
        acc [-1; 0; 1]%Z)
      (Some 0, Some 0, 0%nat) [-1; 0; 1]%Z in
  (sx, sy).

Definition isEdge (d : list Z) (w : Z) (threshold : Q) (x y : Z) : bool :=
  match sobel_sums d w x y with
  | (Some sx, Some sy) => Math_sqrt_gt (sx * sx + sy * sy) threshold
  | _ => false
  end.

(** One round of the inner loop of [sobelEdges]. *)
Definition sobel_pixel (d : list Z) (w : Z) (threshold : Q) (o : list Z) (x y : Z)
    : list Z :=
  let q := idx w x y in
  let o := putZ o q 0 in
  let o := putZ o (q + 1) 0 in
  let o := putZ o (q + 2) 0 in
  putZ o (q + 3) (if isEdge d w threshold x y then 255 else 0).

(** [sobelEdges] on the bytes [d] of [srcCtx.getImageData(0, 0, w, h)]; the
    result is the data of [out], which [createImageData(w, h)] hands over
    filled with zeros. *)
Definition sobelEdges (d : list Z) (w h : Z) (threshold : Q) : list Z :=
  let o := replicate (Z.to_nat (w * h * 4)) 0%Z in
  foldl (fun o y =>
    foldl (fun o x => sobel_pixel d w threshold o x y) o (seqZ 1 (w - 2)))
    o (seqZ 1 (h - 2)).

(** A 4 x 3 picture, black on the left half and white on the right: the two
    interior pixels sit on the boundary and are marked. *)
Example sobel_hard_edge :
  let px (v : Z) := [v; v; v; 255%Z] in
  let row := px 0%Z ++ px 0%Z ++ px 255%Z ++ px 255%Z in
  channel 3 (sobelEdges (row ++ row ++ row) 4 3 50)
  = [0; 0; 0; 0;  0; 255; 255; 0;  0; 0; 0; 0]%Z.
Proof. vm_compute. reflexivity. Qed.

(** *** The gradient as the specification words it *)

(** Luminance of the pixel at [(x, y)]. *)
Definition luminance (d : list Z) (w x y : Z) : Q :=
  0.2126 * inject_Z (d !!! Z.to_nat (idx w x y))
  + 0.7152 * inject_Z (d !!! Z.to_nat (idx w x y + 1))
  + 0.0722 * inject_Z (d !!! Z.to_nat (idx w x y + 2)).

(** Horizontal kernel [-1 0 1; -2 0 2; -1 0 1]. *)
Definition gradient_x (d : list Z) (w x y : Z) : Q :=
  let L i j := luminance d w (x + i) (y + j) in
  (L 1%Z (-1)%Z - L (-1)%Z (-1)%Z)
  + 2 * (L 1%Z 0%Z - L (-1)%Z 0%Z)
  + (L 1%Z 1%Z - L (-1)%Z 1%Z).

(** Vertical kernel [-1 -2 -1; 0 0 0; 1 2 1]. *)
Definition gradient_y (d : list Z) (w x y : Z) : Q :=
  let L i j := luminance d w (x + i) (y + j) in
  (L (-1)%Z 1%Z + 2 * L 0%Z 1%Z + L 1%Z 1%Z)
  - (L (-1)%Z (-1)%Z + 2 * L 0%Z (-1)%Z + L 1%Z (-1)%Z).

(** "Gradient magnitude [sqrt(gx^2 + gy^2)] exceeds [T]", over the reals. *)
Definition magnitude_exceeds (d : list Z) (w x y : Z) (T : Q) : Prop :=
  (sqrt (Q2R (gradient_x d w x y * gradient_x d w x y
              + gradient_y d w x y * gradient_y d w x y)) > Q2R T)%R.

Definition interior (w h x y : Z) : Prop :=
  (0 < x < w - 1 /\ 0 < y < h - 1)%Z.

Definition on_border (w h x y : Z) : Prop :=
  (0 <= x < w /\ 0 <= y < h /\ (x = 0 \/ x = w - 1 \/ y = 0 \/ y = h - 1))%Z.

Lemma idx_in_range (w h x y c : Z) :
  (0 <= x < w)%Z -> (0 <= y < h)%Z -> (0 <= c < 4)%Z ->
  (0 <= idx w x y + c < w * h * 4)%Z.
Proof. unfold idx. intros. nia. Qed.

Lemma idx_inj (w x y c x' y' c' : Z) :
  (0 <= x < w)%Z -> (0 <= x' < w)%Z -> (0 <= c < 4)%Z -> (0 <= c' < 4)%Z ->
  (idx w x y + c = idx w x' y' + c')%Z -> x = x' /\ y = y' /\ c = c'.
Proof.
  unfold idx. intros Hx Hx' Hc Hc' H.
  assert (c = c') by lia. subst c'.
  assert (Hq : (y * w + x = y' * w + x')%Z) by lia.
  assert (y = y') by nia. subst y'. lia.
Qed.

Lemma getZ_in_range (d : list Z) (p : Z) :
  (0 <= p < Z.of_nat (length d))%Z -> getZ d p = Some (d !!! Z.to_nat p).
Proof.
  intros H. unfold getZ. destruct (Z.ltb_spec p 0); [lia | ].
  destruct (lookup_lt_is_Some_2 d (Z.to_nat p) ltac:(lia)) as [v Hv].
  rewrite Hv. f_equal. symmetry. now apply list_lookup_total_correct.
Qed.



Lemma Math_sqrt_gt_Qeq (v v' t : Q) :
  v == v' -> Math_sqrt_gt v t = Math_sqrt_gt v' t.
Proof.
  intros H. unfold Math_sqrt_gt, Qltb. rewrite H. reflexivity.
Qed.

Lemma Q2R_zero : Q2R 0 = 0%R.
Proof. unfold Q2R. cbn. Lra.lra. Qed.

(** The comparison of the model is the comparison of the root. *)
Lemma Math_sqrt_gt_spec (v t : Q) :
  0 <= v -> Math_sqrt_gt v t = true <-> (sqrt (Q2R v) > Q2R t)%R.
Proof.
  intros Hv. unfold Math_sqrt_gt.
  assert (Hv' : (0 <= Q2R v)%R) by (rewrite <- Q2R_zero; now apply Qle_Rle).
  destruct (Qltb t 0) eqn:E; [apply Qltb_lt in E | apply Qltb_ge in E].
  - split; [intros _ | reflexivity].
    apply Qlt_Rlt in E. rewrite Q2R_zero in E.
    pose proof (sqrt_pos (Q2R v)). Lra.lra.
  - apply Qle_Rle in E. rewrite Q2R_zero in E.
    rewrite Qltb_lt. split.
    + intros H. apply Qlt_Rlt in H. rewrite Q2R_mult in H.
      apply Rlt_gt. rewrite <- (sqrt_square (Q2R t)) by exact E.
      apply sqrt_lt_1_alt. split; [Lra.nra | exact H].
    + intros H. apply Rlt_Qlt. rewrite Q2R_mult.
      apply Rgt_lt in H.
      assert (H2 : (Q2R t * Q2R t < sqrt (Q2R v) * sqrt (Q2R v))%R) by Lra.nra.
      rewrite sqrt_sqrt in H2 by exact Hv'. exact H2.
Qed.


(** *** What the loops of [sobelEdges] leave in [out] *)

Definition edge_alpha (d : list Z) (w : Z) (T : Q) (x y : Z) : Z :=
  if isEdge d w T x y then 255%Z else 0%Z.

Lemma putZ_length (o : list Z) (p : Z) (v : Q) : length (putZ o p v) = length o.
Proof. unfold putZ. destruct (p <? 0)%Z; [reflexivity | apply put_length]. Qed.

Lemma putZ_lookup (o : list Z) (p : Z) (v : Q) (j : nat) :
  (0 <= p < Z.of_nat (length o))%Z ->
  putZ o p v !! j = if decide (j = Z.to_nat p) then Some (toUint8Clamp v) else o !! j.
Proof.
  intros H. unfold putZ. destruct (Z.ltb_spec p 0); [lia | ].
  rewrite put_lookup. repeat case_decide; try reflexivity; lia.
Qed.

Lemma sobel_pixel_length (d : list Z) (w : Z) (T : Q) (o : list Z) (x y : Z) :
  length (sobel_pixel d w T o x y) = length o.
Proof. unfold sobel_pixel. cbv zeta. rewrite !putZ_length. reflexivity. Qed.

Lemma sobel_pixel_lookup (d : list Z) (w h : Z) (T : Q) (o : list Z) (x y : Z) (j : nat) :
  length o = Z.to_nat (w * h * 4) -> (0 <= x < w)%Z -> (0 <= y < h)%Z ->
  sobel_pixel d w T o x y !! j =
    if decide (j = Z.to_nat (idx w x y + 3)) then Some (edge_alpha d w T x y)
    else if decide (j = Z.to_nat (idx w x y) \/ j = Z.to_nat (idx w x y + 1)
                    \/ j = Z.to_nat (idx w x y + 2)) then Some 0%Z
    else o !! j.
Proof.
  intros Hlen Hx Hy.
  pose proof (idx_in_range w h x y 0 Hx Hy ltac:(lia)) as H0.
  pose proof (idx_in_range w h x y 3 Hx Hy ltac:(lia)) as H3.
  unfold sobel_pixel. cbv zeta.
  rewrite !putZ_lookup by (rewrite ?putZ_length; lia).
  unfold edge_alpha.
  assert (E0 : toUint8Clamp 0 = 0%Z) by reflexivity.
  assert (E1 : toUint8Clamp 255 = 255%Z) by reflexivity.
  repeat case_decide; try lia; try reflexivity;
    try (destruct (isEdge d w T x y); congruence);
    try congruence.
  all: exfalso; intuition lia.
Qed.

Lemma foldl_nested {A : Type} (f : A -> Z -> Z -> A) (xs ys : list Z) (a : A) :
  foldl (fun a y => foldl (fun a x => f a x y) a xs) a ys
  = foldl (fun a p => f a p.1 p.2) a (y ← ys; (fun x => (x, y)) <$> xs).
Proof.
  induction ys as [ | y ys IH] in a |- *; [reflexivity | ].
  cbn [foldl mbind list_bind]. rewrite foldl_app, <- IH. f_equal.
  clear. induction xs as [ | x xs IH] in a |- *; [reflexivity | ].
  cbn. apply IH.
Qed.

Definition interior_positions (w h : Z) : list (Z * Z) :=
  y ← seqZ 1 (h - 2); (fun x => (x, y)) <$> seqZ 1 (w - 2).

Lemma elem_of_interior_positions (w h x y : Z) :
  (x, y) ∈ interior_positions w h <-> interior w h x y.
Proof.
  unfold interior_positions, interior. rewrite list_elem_of_bind. split.
  - intros (y' & Hxy & Hy). apply list_elem_of_fmap in Hxy as (x' & E & Hx).
    injection E as -> ->. apply elem_of_seqZ in Hx, Hy. lia.
  - intros [Hx Hy]. exists y. split; [ | apply elem_of_seqZ; lia].
    apply list_elem_of_fmap. exists x. split; [reflexivity | apply elem_of_seqZ; lia].
Qed.

Lemma sobelEdges_positions (d : list Z) (w h : Z) (T : Q) :
  sobelEdges d w h T
  = foldl (fun o p => sobel_pixel d w T o p.1 p.2)
      (replicate (Z.to_nat (w * h * 4)) 0%Z) (interior_positions w h).
Proof. unfold sobelEdges. cbv zeta. apply foldl_nested. Qed.

Section SobelWrites.

Variables (d : list Z) (w h : Z) (T : Q).

Let step (o : list Z) (p : Z * Z) : list Z := sobel_pixel d w T o p.1 p.2.

Definition in_picture (p : Z * Z) : Prop := (0 <= p.1 < w /\ 0 <= p.2 < h)%Z.

Lemma sobel_writes_length (ps : list (Z * Z)) (o : list Z) :
  length (foldl step o ps) = length o.
Proof.
  induction ps as [ | p ps IH] in o |- *; [reflexivity | ].
  cbn [foldl]. rewrite IH. apply sobel_pixel_length.
Qed.

(** After the rounds for [ps]: the alpha byte of a visited pixel holds its
    verdict, its colour bytes hold 0, and every other byte is as before. *)
Lemma sobel_writes (ps : list (Z * Z)) (o : list Z) :
  length o = Z.to_nat (w * h * 4) -> Forall in_picture ps ->
  let res := foldl step o ps in
  (forall x y, (x, y) ∈ ps ->
     res !! Z.to_nat (idx w x y + 3) = Some (edge_alpha d w T x y) /\
     forall c, (0 <= c < 3)%Z -> res !! Z.to_nat (idx w x y + c) = Some 0%Z) /\
  (forall x y c, (0 <= x < w)%Z -> (0 <= y < h)%Z -> (0 <= c < 4)%Z ->
     (x, y) ∉ ps -> res !! Z.to_nat (idx w x y + c) = o !! Z.to_nat (idx w x y + c)).
Proof.
  intros Hlen. induction ps as [ | p ps IH] using rev_ind; intros Hall res.
  - split; [intros x y Hin; inversion Hin | reflexivity].
  - apply Forall_app in Hall as [Hps Hp]. apply Forall_inv in Hp.
    destruct p as [px py]. unfold in_picture in Hp.
    destruct Hp as [Hpx Hpy]. cbn [fst snd] in Hpx, Hpy.
    specialize (IH Hps). cbv zeta in IH. destruct IH as [IH1 IH2].
    subst res. rewrite foldl_app. cbn [foldl].
    assert (Hl : length (foldl step o ps) = Z.to_nat (w * h * 4))
      by (rewrite sobel_writes_length; exact Hlen).
    set (prev := foldl step o ps) in *. unfold step. cbn [fst snd].
    split.
    + intros x y Hin.
      assert (Hxy : in_picture (x, y)).
      { eapply Forall_forall; [ | exact Hin]. apply Forall_app. split; [exact Hps | ].
        apply Forall_singleton. split; assumption. }
      unfold in_picture in Hxy. destruct Hxy as [Hx Hy]. cbn [fst snd] in Hx, Hy.
      destruct (decide ((x, y) = (px, py))) as [E | Hne].
      * injection E as -> ->. split.
        -- rewrite (sobel_pixel_lookup d w h) by assumption.
           case_decide; [reflexivity | lia].
        -- intros c Hc. rewrite (sobel_pixel_lookup d w h) by assumption.
           pose proof (idx_in_range w h px py c Hpx Hpy ltac:(lia)).
           assert (c = 0 \/ c = 1 \/ c = 2)%Z as [-> | [-> | ->]] by lia;
             rewrite ?Z.add_0_r; repeat case_decide; try reflexivity; try lia;
             exfalso; intuition lia.
      * assert (Hin' : (x, y) ∈ ps).
        { apply elem_of_app in Hin as [Hin | Hin]; [exact Hin | ].
          apply list_elem_of_singleton in Hin. contradiction. }
        assert (Hdiff : forall c c', (0 <= c < 4)%Z -> (0 <= c' < 4)%Z ->
                  Z.to_nat (idx w x y + c) <> Z.to_nat (idx w px py + c')).
        { intros c c' Hc Hc' E.
          pose proof (idx_in_range w h x y c Hx Hy Hc).
          pose proof (idx_in_range w h px py c' Hpx Hpy Hc').
          destruct (idx_inj w x y c px py c' Hx Hpx Hc Hc' ltac:(lia)) as (-> & -> & _).
          contradiction. }
        destruct (IH1 x y Hin') as [Ha Hc]. split.
        -- rewrite (sobel_pixel_lookup d w h) by assumption.
           pose proof (Hdiff 3 0)%Z. pose proof (Hdiff 3 1)%Z.
           pose proof (Hdiff 3 2)%Z. pose proof (Hdiff 3 3)%Z.
           rewrite Z.add_0_r in *.
           repeat case_decide; try (exfalso; intuition lia). exact Ha.
        -- intros c Hc3. rewrite (sobel_pixel_lookup d w h) by assumption.
           pose proof (Hdiff c 0)%Z. pose proof (Hdiff c 1)%Z.
           pose proof (Hdiff c 2)%Z. pose proof (Hdiff c 3)%Z.
           rewrite Z.add_0_r in *.
           repeat case_decide; try (exfalso; intuition lia). apply Hc, Hc3.
    + intros x y c Hx Hy Hc Hnot.
      assert (Hnot' : (x, y) ∉ ps).
      { intros Hin. apply Hnot. apply elem_of_app. now left. }
      assert (Hne : (x, y) <> (px, py)).
      { intros E. apply Hnot. apply elem_of_app. right.
        rewrite E. apply list_elem_of_singleton. reflexivity. }
      assert (Hdiff : forall c', (0 <= c' < 4)%Z ->
                Z.to_nat (idx w x y + c) <> Z.to_nat (idx w px py + c')).
      { intros c' Hc' E.
        pose proof (idx_in_range w h x y c Hx Hy Hc).
        pose proof (idx_in_range w h px py c' Hpx Hpy Hc').
        destruct (idx_inj w x y c px py c' Hx Hpx Hc Hc' ltac:(lia)) as (-> & -> & _).
        contradiction. }
      rewrite (sobel_pixel_lookup d w h) by assumption.
      pose proof (Hdiff 0)%Z. pose proof (Hdiff 1)%Z.
      pose proof (Hdiff 2)%Z. pose proof (Hdiff 3)%Z.
      rewrite Z.add_0_r in *.
      repeat case_decide; try (exfalso; intuition lia).
      apply IH2; assumption.
Qed.

End SobelWrites.

(** ** PaletteTransfer: [closestColorIndex], [applyPaletteToImageData] *)

(** [bd] starts at [Infinity], here [None]. *)
Definition closestColorIndex (c : RGB) (palette : list RGB) : nat :=
  (foldl (fun '(bi, bd) '(i, p) =>
            let d := ((rgb_r c - rgb_r p) ^ 2 + (rgb_g c - rgb_g p) ^ 2
                      + (rgb_b c - rgb_b p) ^ 2)%Z in
            if match bd with None => true | Some b => (d <? b)%Z end
            then (i, Some d) else (bi, bd))
         (0%nat, None) (imap pair palette)).1.

(** One round of the loop of [applyPaletteToImageData].  The index returned
    for a palette that is not empty is below its length. *)
Definition palette_pixel (palette : list RGB) (d : list Z) (i : nat) : list Z :=
  let r := d !!! i in
  let g := d !!! (i + 1)%nat in
  let b := d !!! (i + 2)%nat in
  let idx := closestColorIndex (mkRGB r g b) palette in
  match palette !! idx with
  | Some p =>
      let d := put d i (inject_Z (rgb_r p)) in
      let d := put d (i + 1) (inject_Z (rgb_g p)) in
      put d (i + 2) (inject_Z (rgb_b p))
  | None => d
  end.

Definition palette_data (d : list Z) (palette : list RGB) : list Z :=
  match palette with
  | [] => d
  | _ => foldl (palette_pixel palette) d (pixel_offsets (length d))
  end.

Example palette_single_colour :
  palette_data [10; 100; 200; 77; 128; 128; 128; 255]%Z [mkRGB 1 2 3]
  = [1; 2; 3; 77; 1; 2; 3; 255]%Z.
Proof. vm_compute. reflexivity. Qed.

Example closest_colour_sample :
  closestColorIndex (mkRGB 250 10 10) [mkRGB 0 0 0; mkRGB 255 0 0; mkRGB 255 255 255]
  = 1%nat.
Proof. vm_compute. reflexivity. Qed.

(** ** Buffers as objects: who writes where *)

(** [ImageData] objects live in a store; a function that is handed an
    [ImageData] is handed its address. *)
Definition ref := nat.

Module Store.

Definition alloc (img : ImageData) (s : gmap ref ImageData) : ref * gmap ref ImageData :=
  let r := fresh (dom s) in (r, <[r := img]> s).

(** [ctx.createImageData(w, h)]: a new object, every byte 0. *)
Definition createImageData (w h : Z) (s : gmap ref ImageData)
    : ref * gmap ref ImageData :=
  alloc (mkImageData w h (replicate (Z.to_nat (w * h * 4)) 0%Z)) s.

(** [dst.set(src)] on typed arrays: [RangeError] ([None]) when [src] is the
    longer one. *)
Definition typed_array_set (dst src : list Z) : option (list Z) :=
  if decide (length src <= length dst)%nat then Some (src ++ drop (length src) dst)
  else None.

Definition copyImageData (src : ref) (s : gmap ref ImageData)
    : option (ref * gmap ref ImageData) :=
  img ← s !! src;
  let '(dst, s) := createImageData (width img) (height img) s in
  blank ← s !! dst;
  bytes ← typed_array_set (data blank) (data img);
  Some (dst, <[dst := mkImageData (width blank) (height blank) bytes]> s).

(** [posterizeAndSaturate(imageData, levels, satBoost)]: works on
    [imageData.data] itself and returns [imageData]. *)
Definition posterizeAndSaturate (imageData : ref) (levels : Z) (satBoost : Q)
    (s : gmap ref ImageData) : option (ref * gmap ref ImageData) :=
  img ← s !! imageData;
  Some (imageData,
        <[imageData := mkImageData (width img) (height img)
                         (posterize_data (data img) levels satBoost)]> s).

(** [applyPaletteToImageData(imageData, palette)], likewise. *)
Definition applyPaletteToImageData (imageData : ref) (palette : list RGB)
    (s : gmap ref ImageData) : option (ref * gmap ref ImageData) :=
  img ← s !! imageData;
  Some (imageData,
        <[imageData := mkImageData (width img) (height img)
                         (palette_data (data img) palette)]> s).

(** The base layer of [stylize]:
    [posterizeAndSaturate(copyImageData(octx, base), levels, satBoost)]. *)
Definition poster_of_copy (base : ref) (levels : Z) (satBoost : Q)
    (s : gmap ref ImageData) : option (ref * gmap ref ImageData) :=
  '(copy, s) ← copyImageData base s;
  posterizeAndSaturate copy levels satBoost s.

End Store.

Definition well_formed (img : ImageData) : Prop :=
  length (data img) = Z.to_nat (width img * height img * 4)
  /\ Forall is_byte (data img).

(** C9 as stated fails: the posterizer and the palette transfer return the
    buffer they were given, with its bytes overwritten. *)
Lemma stages_overwrite_their_input :
  let img := mkImageData 2 1 [10; 100; 200; 77; 128; 128; 128; 255]%Z in
  let s : gmap ref ImageData := {[ 0%nat := img ]} in
  (exists s', Store.posterizeAndSaturate 0%nat 6 0.3 s = Some (0%nat, s')
     /\ data <$> s' !! 0%nat = Some [0; 102; 204; 77; 153; 102; 102; 255]%Z
     /\ s' !! 0%nat <> s !! 0%nat) /\
  (exists s', Store.applyPaletteToImageData 0%nat [mkRGB 1 2 3] s = Some (0%nat, s')
     /\ data <$> s' !! 0%nat = Some [1; 2; 3; 77; 1; 2; 3; 255]%Z
     /\ s' !! 0%nat <> s !! 0%nat).
Proof.
  cbv zeta. split.
  - unfold Store.posterizeAndSaturate. rewrite lookup_singleton_eq. cbn [mbind option_bind].
    eexists. split; [reflexivity | ]. rewrite lookup_insert_eq, lookup_singleton_eq.
    match goal with |- data <$> Some ?X = Some ?l /\ _ =>
      assert (Hd : data <$> Some X = Some l)
        by (apply (f_equal Some); vm_compute; reflexivity)
    end.
    split; [exact Hd | ]. intros E. rewrite E in Hd. discriminate Hd.
  - unfold Store.applyPaletteToImageData. rewrite lookup_singleton_eq. cbn [mbind option_bind].
    eexists. split; [reflexivity | ]. rewrite lookup_insert_eq, lookup_singleton_eq.
    match goal with |- data <$> Some ?X = Some ?l /\ _ =>
      assert (Hd : data <$> Some X = Some l)
        by (apply (f_equal Some); vm_compute; reflexivity)
    end.
    split; [exact Hd | ]. intros E. rewrite E in Hd. discriminate Hd.
Qed.

Lemma alloc_fresh (img : ImageData) (s : gmap ref ImageData) :
  let '(r, s') := Store.alloc img s in
  s !! r = None /\ s' !! r = Some img /\ forall r', r' <> r -> s' !! r' = s !! r'.
Proof.
  unfold Store.alloc. cbv zeta.
  assert (Hf : s !! fresh (dom s) = None) by (apply not_elem_of_dom, is_fresh).
  split; [exact Hf | ]. split; [apply lookup_insert_eq | ].
  intros r' Hne. apply lookup_insert_ne. congruence.
Qed.

Lemma copyImageData_spec (s : gmap ref ImageData) (r : ref) (img : ImageData) :
  s !! r = Some img -> well_formed img ->
  exists c s', Store.copyImageData r s = Some (c, s')
    /\ c <> r /\ s !! c = None /\ s' !! c = Some img
    /\ forall r', r' <> c -> s' !! r' = s !! r'.
Proof.
  intros Hr [Hlen _]. unfold Store.copyImageData, Store.createImageData.
  rewrite Hr. cbn [mbind option_bind].
  pose proof (alloc_fresh
    (mkImageData (width img) (height img)
       (replicate (Z.to_nat (width img * height img * 4)) 0%Z)) s) as Ha.
  destruct (Store.alloc _ s) as [c s1]. destruct Ha as (Hnone & Hc & Hother).
  rewrite Hc. cbn [mbind option_bind data width height].
  unfold Store.typed_array_set. rewrite length_replicate.
  destruct (decide (length (data img) <= Z.to_nat (width img * height img * 4))%nat);
    [ | lia].
  cbn [mbind option_bind]. eexists c, _.
  split; [reflexivity | ]. split; [congruence | ]. split; [exact Hnone | ]. split.
  - rewrite lookup_insert_eq. f_equal.
    rewrite drop_ge by (rewrite length_replicate; lia).
    rewrite app_nil_r. destruct img; reflexivity.
  - intros r' Hne. rewrite lookup_insert_ne by congruence. apply Hother, Hne.
Qed.

(** C9, amended.  [posterizeAndSaturate] and [applyPaletteToImageData]
    overwrite the bytes of the buffer they are handed and return that same
    buffer, leaving every other buffer alone; [copyImageData] returns a new
    buffer with the bytes of its source and changes no existing buffer; so
    the base layer of [stylize], which posterises a copy, leaves the source
    buffer as it was and yields a buffer of its own. *)
Theorem stages_write_in_place (s : gmap ref ImageData) (r : ref) (img : ImageData)
    (levels : Z) (satBoost : Q) (palette : list RGB) :
  s !! r = Some img -> well_formed img ->
  (exists s', Store.posterizeAndSaturate r levels satBoost s = Some (r, s')
     /\ s' !! r = Some (mkImageData (width img) (height img)
                          (posterize_data (data img) levels satBoost))
     /\ forall r', r' <> r -> s' !! r' = s !! r') /\
  (exists s', Store.applyPaletteToImageData r palette s = Some (r, s')
     /\ s' !! r = Some (mkImageData (width img) (height img)
                          (palette_data (data img) palette))
     /\ forall r', r' <> r -> s' !! r' = s !! r') /\
  (exists c s', Store.copyImageData r s = Some (c, s')
     /\ c <> r /\ s !! c = None /\ s' !! c = Some img
     /\ forall r', r' <> c -> s' !! r' = s !! r') /\
  (exists c s', Store.poster_of_copy r levels satBoost s = Some (c, s')
     /\ c <> r /\ s !! c = None /\ s' !! r = Some img
     /\ s' !! c = Some (mkImageData (width img) (height img)
                          (posterize_data (data img) levels satBoost))
     /\ forall r', r' <> c -> s' !! r' = s !! r').
Proof.
  intros Hr Hwf. split; [ | split; [ | split]].
  - unfold Store.posterizeAndSaturate. rewrite Hr. cbn [mbind option_bind].
    eexists. split; [reflexivity | ]. split; [apply lookup_insert_eq | ].
    intros r' Hne. apply lookup_insert_ne. congruence.
  - unfold Store.applyPaletteToImageData. rewrite Hr. cbn [mbind option_bind].
    eexists. split; [reflexivity | ]. split; [apply lookup_insert_eq | ].
    intros r' Hne. apply lookup_insert_ne. congruence.
  - apply copyImageData_spec; assumption.
  - destruct (copyImageData_spec s r img Hr Hwf) as (c & s1 & E & Hne & Hnone & Hc & Hother).
    unfold Store.poster_of_copy. rewrite E. cbn [mbind option_bind].
    unfold Store.posterizeAndSaturate. rewrite Hc. cbn [mbind option_bind].
    eexists c, _. split; [reflexivity | ].
    split; [exact Hne | ]. split; [exact Hnone | ]. split; [ | split].
    + rewrite lookup_insert_ne by congruence. rewrite Hother by congruence. exact Hr.
    + apply lookup_insert_eq.
    + intros r' Hne'. rewrite lookup_insert_ne by congruence. apply Hother, Hne'.
Qed.

Lemma stages_write_in_place_witness :
  let img := mkImageData 2 1 [10; 100; 200; 77; 128; 128; 128; 255]%Z in
  let s : gmap ref ImageData := {[ 0%nat := img ]} in
  exists c s', Store.poster_of_copy 0%nat 6 0.3 s = Some (c, s')
    /\ c <> 0%nat /\ s' !! 0%nat = Some img.
Proof.
  cbv zeta.
  set (img := mkImageData 2 1 [10; 100; 200; 77; 128; 128; 128; 255]%Z).
  assert (Hr : ({[ 0%nat := img ]} : gmap ref ImageData) !! 0%nat = Some img)
    by apply lookup_singleton_eq.
  assert (Hwf : well_formed img).
  { split; [reflexivity | ]. repeat constructor; unfold is_byte; lia. }
  destruct (stages_write_in_place _ 0%nat img 6 0.3 [] Hr Hwf)
    as (_ & _ & _ & c & s' & E & Hne & _ & Hsrc & _).
  exists c, s'. split; [exact E | ]. split; [exact Hne | exact Hsrc].
Defined.

(** ** MotifSynth and the composite pipeline *)

Inductive MotifPack := none | waves | flames | psychedelia.

(** The parameter set [stylize] reads from the component state. *)
Record ParameterSet := mkParameterSet {
  styleIntensity : Q;
  outlineWeight : Q;
  saturationBoost : Q;
  motifPack : MotifPack;
  halftone : bool;
  halftoneDensity : Q;
  burstStrength : Q;
  transparentBG : bool
}.

(** A computation that may call [Math.random]: the state is the number of
    calls made so far. *)
Definition Rand (A : Type) : Type := nat -> A * nat.

Definition rand_ret {A : Type} (a : A) : Rand A := fun n => (a, n).

Definition rand_bind {A B : Type} (m : Rand A) (f : A -> Rand B) : Rand B :=
  fun n => let '(a, n') := m n in f a n'.

(** [for (const i of l) body(i)], the calls of the rounds in a row. *)
Fixpoint rand_for {A : Type} (l : list Z) (body : Z -> Rand (list A)) : Rand (list A) :=
  match l with
  | [] => rand_ret []
  | i :: l' =>
      rand_bind (body i) (fun ops =>
      rand_bind (rand_for l' body) (fun rest => rand_ret (ops ++ rest)))
  end.

Section Pipeline.

Variable Math_PI : Q.
Variables Math_cos Math_sin : Q -> Q.
(** The numbers [Math.random] returns, call after call. *)
Variable random_values : nat -> Q.

Definition Math_random : Rand Q := fun n => (random_values n, S n).

(** [drawWave].  The angle grows by 0.05 from [0.2 PI] to [1.4 PI], which
    takes [ceil(24 PI)] rounds. *)
Definition drawWave (cx cy r tightness : Q) : option (list CanvasOp) :=
  path ← for_loop (Z.to_nat (Qceiling (Math_PI * 24)))
            (fun a => Qltb a (Math_PI * 1.4)) (fun a => a + 0.05)
            (fun a =>
               let t := a - Math_PI * 0.2 in
               let rr := r * (1 - t / (Math_PI * 1.2)) in
               let x := cx + Math_cos a * rr in
               let y := cy + Math_sin a * rr * tightness in
               if Qeq_bool a (Math_PI * 0.2) then moveTo x y else lineTo x y)
            (Math_PI * 0.2);
  Some ([save; set_strokeStyle "#000"; set_lineWidth 3; beginPath]
        ++ path ++ [stroke; restore]).

Definition drawFlame (x y height : Q) : Rand (list CanvasOp) :=
  rand_bind Math_random (fun rnd =>
  let wobble := (rnd - 0.5) * 20 in
  rand_ret
    [save; beginPath; moveTo x y;
     bezierCurveTo (x - 10 + wobble) (y - height * 0.3)
                   (x - 6 + wobble) (y - height * 0.7) x (y - height);
     bezierCurveTo (x + 6 + wobble) (y - height * 0.7)
                   (x + 10 + wobble) (y - height * 0.3) x y;
     closePath; set_strokeStyle "#000"; set_lineWidth 2; stroke; restore]).

Definition drawSpiral (cx cy r : Q) : list CanvasOp :=
  let turns := 3 in
  let steps := 200 in
  [save; beginPath]
  ++ ((fun i : Z =>
        let a := (inject_Z i / steps) * Math_PI * 2 * turns in
        let rr := (inject_Z i / steps) * r in
        let x := cx + Math_cos a * rr in
        let y := cy + Math_sin a * rr in
        if (i =? 0)%Z then moveTo x y else lineTo x y) <$> seqZ 0 200)
  ++ [set_strokeStyle "#000"; set_lineWidth 2; stroke; restore].

(** [drawMotifs]; [None] stands for a wave whose loop does not end, which
    [drawWave_total] rules out. *)
Definition drawMotifs (w h : Z) (pack : MotifPack) (intensity : Q)
    : Rand (option (list CanvasOp)) :=
  let W := inject_Z w in
  let H := inject_Z h in
  let frame (body : list CanvasOp) :=
    [save; set_globalAlpha (0.4 * intensity); set_globalCompositeOperation "multiply"]
    ++ body ++ [restore] in
  match pack with
  | none => rand_ret (Some [])
  | waves =>
      let curls := Math_floor (3 + intensity * 5) in
      rand_ret
        (arcs ← mapM (fun i : Z =>
                   let cx := (W / (inject_Z curls + 1)) * (inject_Z i + 1) in
                   let cy := H * (0.65 + 0.25 * Math_sin (inject_Z i)) in
                   drawWave cx cy (Math_min W H * 0.35)
                     (0.8 + 0.2 * Math_cos (inject_Z i)))
                 (seqZ 0 curls);
         Some (frame (concat arcs)))
  | flames =>
      let tongues := Math_floor (25 + intensity * 40) in
      rand_bind
        (rand_for (seqZ 0 tongues) (fun i =>
           let x := (inject_Z i / inject_Z tongues) * W in
           rand_bind Math_random (fun rnd =>
           drawFlame x 0 (H * (0.2 + rnd * 0.25)))))
        (fun tongues_ops => rand_ret (Some (frame (translate 0 (H * 0.85) :: tongues_ops))))
  | psychedelia =>
      let spirals := Math_floor (4 + intensity * 6) in
      rand_bind
        (rand_for (seqZ 0 spirals) (fun i =>
           rand_bind Math_random (fun rx =>
           let cx := (if (i mod 2 =? 0)%Z then W * 0.25 else W * 0.75)
                     + (rx - 0.5) * W * 0.1 in
           rand_bind Math_random (fun ry =>
           let cy := (if Qltb (inject_Z i) (inject_Z spirals / 2) then H * 0.3 else H * 0.7)
                     + (ry - 0.5) * H * 0.1 in
           rand_bind Math_random (fun rr =>
           rand_ret (drawSpiral cx cy (Math_min W H * (0.15 + rr * 0.2))))))))
        (fun spirals_ops => rand_ret (Some (frame spirals_ops)))
  end.

(** [stylize], as the calls the stylized canvas receives.  [source] is what
    [octx.getImageData(0, 0, w, h)] returns, [None] when no image is loaded
    (the function then returns at once).  The poster is made from a copy of
    it ([Store.poster_of_copy]), so the edges are taken from the bytes the
    poster started from.  [None] as a result stands for a call that does
    not return. *)
Definition stylize (p : ParameterSet) (source : option ImageData)
    : Rand (option (list CanvasOp)) :=
  match source with
  | None => rand_ret (Some [])
  | Some base =>
      let w := width base in
      let h := height base in
      let W := inject_Z w in
      let H := inject_Z h in
      let clear := [clearRect 0 0 W H] in
      let backdrop :=
        if negb (transparentBG p) then [set_fillStyle "#f6f6f6"; fillRect 0 0 W H]
        else [] in
      let burst :=
        [save; set_globalCompositeOperation "multiply"]
        ++ drawBurst Math_PI Math_cos Math_sin w h (burstStrength p * styleIntensity p)
        ++ [restore] in
      let levels := Math_floor (5 + styleIntensity p * 5) in
      let satBoost := saturationBoost p * (0.3 + styleIntensity p * 0.7) in
      let poster := mkImageData w h (posterize_data (data base) levels satBoost) in
      rand_bind (drawMotifs w h (motifPack p) (styleIntensity p)) (fun motifs =>
      let edgeThreshold := 100 - outlineWeight p * 80 in
      let edges := mkImageData w h (sobelEdges (data base) w h edgeThreshold) in
      let thickenPx := Math_floor (1 + outlineWeight p * 3) in
      let tmp0 := [putImageData edges 0 0; set_filter_blur thickenPx;
                   set_globalCompositeOperation "source-over"] in
      let tmp := tmp0 ++ [drawImage tmp0 0 0] in
      let ink := [save; set_globalAlpha 0.9; drawImage tmp 0 0; restore] in
      rand_ret
        (motifs ← motifs;
         dots ← drawHalftone Math_PI (halftone p) w h
                  (if halftone p then halftoneDensity p else 0);
         Some (clear ++ backdrop ++ burst ++ [putImageData poster 0 0]
               ++ motifs ++ ink ++ dots)))
  end.

End Pipeline.

(** *** Where the pipeline draws random numbers *)

Lemma for_loop_Q_total {A : Type} (fuel : nat) (limit step : Q) (body : Q -> A) (a : Q) :
  0 < step -> limit - a <= inject_Z (Z.of_nat fuel) * step ->
  is_Some (for_loop fuel (fun a => Qltb a limit) (fun a => a + step) body a).
Proof.
  intros Hstep. revert a. induction fuel as [ | fuel IH]; intros a Hf; cbn [for_loop].
  - destruct (Qltb a limit) eqn:E; [ | eauto].
    apply Qltb_lt in E. change (inject_Z (Z.of_nat 0)) with 0 in Hf. lra.
  - destruct (Qltb a limit) eqn:E; [ | eauto].
    destruct (IH (a + step)) as [l Hl].
    + rewrite Nat2Z.inj_succ in Hf. unfold Z.succ in Hf.
      rewrite inject_Z_plus in Hf. change (inject_Z 1) with 1 in Hf. lra.
    + rewrite Hl. cbn. eauto.
Qed.

Section PipelineFacts.

Variable Math_PI : Q.
Variables Math_cos Math_sin : Q -> Q.

(** The loop of [drawWave] ends. *)
Lemma drawWave_total (cx cy r tightness : Q) :
  is_Some (drawWave Math_PI Math_cos Math_sin cx cy r tightness).
Proof.
  unfold drawWave.
  match goal with |- context [for_loop ?f ?c ?n ?b ?a] =>
    destruct (for_loop_Q_total f (Math_PI * 1.4) 0.05 b a) as [path Hp] end.
  - reflexivity.
  - pose proof (Qle_ceiling (Math_PI * 24)) as Hc.
    destruct (Z.le_gt_cases 0 (Qceiling (Math_PI * 24))) as [Hpos | Hneg].
    + rewrite Z2Nat.id by exact Hpos. lra.
    + assert (Hz : Z.to_nat (Qceiling (Math_PI * 24)) = 0%nat) by lia.
      rewrite Hz. change (inject_Z (Z.of_nat 0)) with 0.
      assert (inject_Z (Qceiling (Math_PI * 24)) < 0).
      { change 0 with (inject_Z 0). rewrite <- Zlt_Qlt. exact Hneg. }
      lra.
  - rewrite Hp. cbn. eauto.
Qed.

(** No pack but [flames] and [psychedelia] calls [Math.random]: for [none]
    and [waves] the calls drawn do not depend on the random numbers and the
    count of calls to [Math.random] stays where it was. *)
Lemma drawMotifs_no_random (rv1 rv2 : nat -> Q) (n1 n2 : nat) (w h : Z)
    (pack : MotifPack) (intensity : Q) :
  pack = none \/ pack = waves ->
  exists ops,
    drawMotifs Math_PI Math_cos Math_sin rv1 w h pack intensity n1 = (Some ops, n1) /\
    drawMotifs Math_PI Math_cos Math_sin rv2 w h pack intensity n2 = (Some ops, n2).
Proof.
  intros [-> | ->]; unfold drawMotifs; cbv zeta.
  - exists []. split; reflexivity.
  - unfold rand_ret.
    match goal with |- context [mapM ?f ?l] =>
      destruct (mapM_is_Some_2 f l) as [arcs Ha] end.
    { apply Forall_forall. intros i _. apply drawWave_total. }
    rewrite Ha. cbn [mbind option_bind]. eauto.
Qed.

(** C4.  With [motifPack = none] and a halftone density of the legal range,
    two runs of [stylize] on the same source and the same parameters return
    and hand the stylized canvas the same calls, whatever [Math.random]
    would have returned in either run; neither run calls it. *)
Theorem stylize_deterministic (rv1 rv2 : nat -> Q) (n1 n2 : nat)
    (p : ParameterSet) (source : option ImageData) :
  motifPack p = none -> 0 <= halftoneDensity p <= 0.4 ->
  exists ops,
    stylize Math_PI Math_cos Math_sin rv1 p source n1 = (Some ops, n1) /\
    stylize Math_PI Math_cos Math_sin rv2 p source n2 = (Some ops, n2).
Proof.
  intros Hpack [Hd0 Hd1]. unfold stylize. destruct source as [base | ].
  - cbv zeta. rewrite Hpack. cbn [drawMotifs]. unfold rand_bind, rand_ret.
    cbn [mbind option_bind].
    set (density := if halftone p then halftoneDensity p else 0).
    assert (Hdots : is_Some (drawHalftone Math_PI (halftone p) (width base) (height base) density)).
    { destruct (halftone p) eqn:Eh.
      - destruct (Qlt_le_dec 0.01 density) as [Hgt | Hle].
        + destruct (drawHalftone_draws Math_PI (width base) (height base) density Hgt Hd1)
            as [dots ->]. eauto.
        + rewrite drawHalftone_skips by (right; exact Hle). eauto.
      - rewrite drawHalftone_skips by (left; reflexivity). eauto. }
    destruct Hdots as [dots ->]. cbn [mbind option_bind]. eauto.
  - exists []. split; reflexivity.
Qed.

End PipelineFacts.

Lemma stylize_deterministic_witness :
  let p := mkParameterSet 0.7 0.8 0.3 none true 0.15 0.5 false in
  let source := Some (mkImageData 3 3 (replicate 36 100%Z)) in
  exists ops,
    stylize 3 (fun _ => 1) (fun _ => 0) (fun _ => 0) p source 0%nat = (Some ops, 0%nat) /\
    stylize 3 (fun _ => 1) (fun _ => 0) (fun _ => 1) p source 5%nat = (Some ops, 5%nat).
Proof.
  cbv zeta.
  apply (stylize_deterministic 3 (fun _ => 1) (fun _ => 0) (fun _ => 0) (fun _ => 1)
           0%nat 5%nat (mkParameterSet 0.7 0.8 0.3 none true 0.15 0.5 false)).
  - reflexivity.
  - split; discriminate.
Defined.

(** The [flames] pack does call [Math.random], twice per tongue, and what it
    draws follows the numbers it gets. *)
Example flames_draw_random_numbers :
  let run rv := drawMotifs 3 (fun _ => 1) (fun _ => 0) rv 40 30 flames 0 0%nat in
  (run (fun _ => 0)).2 = 50%nat /\
  (run (fun _ => 1)).2 = 50%nat /\
  (run (fun _ => 0)).1 <> (run (fun _ => 1)).1.
Proof.
  cbv zeta. split; [vm_compute; reflexivity | ].
  split; [vm_compute; reflexivity | ].
  intros E.
  apply (f_equal (fun m : option (list CanvasOp) => m ≫= fun l => l !! 7%nat)) in E.
  vm_compute in E. discriminate E.
Qed.

(** The [psychedelia] pack calls it three times per spiral. *)
Example psychedelia_draws_random_numbers :
  (drawMotifs 3 (fun _ => 1) (fun _ => 0) (fun _ => 0) 40 30 psychedelia 0 0%nat).2
  = 12%nat.
Proof. vm_compute. reflexivity. Qed.

(** ** ParameterAdvisor: [suggestControls], [estimateHueBias] *)

Inductive HueBias := warm | cool | mixed.

Definition estimateHueBias (palette : list RGB) : HueBias :=
  let '(nwarm, ncool) :=
    foldl (fun '(nwarm, ncool) c =>
             let x := rgbToHsl (inject_Z (rgb_r c)) (inject_Z (rgb_g c)) (inject_Z (rgb_b c)) in
             let h := hsl_h x in
             let s := hsl_s x in
             if Qltb s 0.15 then (nwarm, ncool)
             else if Qltb h (1 / 6) || Qltb (5 / 6) h then (nwarm + 1, ncool)
             else if Qltb (1 / 3) h && Qltb h (2 / 3) then (nwarm, ncool + 1)
             else (nwarm, ncool))
          (0, 0) palette in
  if Qltb (ncool * 1.2) nwarm then warm
  else if Qltb (nwarm * 1.2) ncool then cool
  else mixed.

(** The statistics of a style profile, the argument [ctx] of
    [suggestControls]. *)
Record ProfileStats := mkProfileStats {
  palette : list RGB;
  meanSaturation : Q;
  saturationStd : Q;
  edgeDensity : Q;
  contrastIndex : Q
}.

Record Suggested := mkSuggested {
  sug_outlineWeight : Q;
  sug_saturationBoost : Q;
  sug_halftoneDensity : Q;
  sug_burstStrength : Q;
  sug_motifPack : MotifPack;
  sug_styleIntensity : Q;
  sug_applyPalette : bool
}.

Definition suggestControls (ctx : ProfileStats) : Suggested :=
  let meanSat := meanSaturation ctx in
  let edge := edgeDensity ctx in
  let contrast := contrastIndex ctx in
  let outline := clamp01 (0.4 + edge * 2) in
  let satBoost := clamp01 (0.2 + (0.6 - meanSat) * 0.6) in
  let halftoneD := clamp01 (0.05 + contrast * 0.6) in
  let burst := clamp01 (0.3 + contrast * 0.5) in
  let hueBias := estimateHueBias (palette ctx) in
  let motif :=
    match hueBias with cool => waves | warm => flames | mixed => psychedelia end in
  let intensity := clamp01 (0.6 + contrast * 0.3) in
  mkSuggested outline satBoost halftoneD burst motif intensity true.

(** The ranges the component declares for its controls (the comments on the
    state and the bounds of the sliders). *)
Definition in_declared_ranges (s : Suggested) : Prop :=
  0 <= sug_styleIntensity s <= 1 /\
  0.3 <= sug_outlineWeight s <= 1 /\
  0 <= sug_saturationBoost s <= 0.5 /\
  0 <= sug_halftoneDensity s <= 0.4 /\
  0 <= sug_burstStrength s <= 1.

Definition in_unit_range (stats : ProfileStats) : Prop :=
  0 <= meanSaturation stats <= 1 /\ 0 <= saturationStd stats <= 1 /\
  0 <= edgeDensity stats <= 1 /\ 0 <= contrastIndex stats <= 1.

Lemma clamp01_spec (v : Q) :
  0 <= clamp01 v <= 1 /\ (0 <= v <= 1 -> clamp01 v == v)
  /\ (v <= 0 -> clamp01 v == 0) /\ (1 <= v -> clamp01 v == 1).
Proof.
  unfold clamp01, Math_max, Math_min.
  destruct (Q.min_spec 1 v) as [[H1 E1] | [H1 E1]];
    destruct (Q.max_spec 0 (Qmin 1 v)) as [[H2 E2] | [H2 E2]];
    rewrite E2; rewrite E1 in *; repeat split; intros; lra.
Qed.

(** C5 at a grey reference set: mean saturation 0 makes the suggested
    saturation boost 0.56, above the 0.5 its control allows; a contrast
    index of 0.7 makes the suggested halftone density 0.47, above 0.4. *)
Theorem suggestControls_leaves_declared_ranges :
  let grey := mkProfileStats [] 0 0 0.1 0.3 in
  let harsh := mkProfileStats [] 0.5 0.2 0.1 0.7 in
  in_unit_range grey /\ in_unit_range harsh /\
  sug_saturationBoost (suggestControls grey) == 0.56 /\
  sug_halftoneDensity (suggestControls harsh) == 0.47 /\
  ~ in_declared_ranges (suggestControls grey) /\
  ~ in_declared_ranges (suggestControls harsh).
Proof.
  cbv zeta. unfold in_unit_range, in_declared_ranges. cbn.
  repeat split; try discriminate; try reflexivity.
  - intros (_ & _ & [_ H] & _). vm_compute in H. apply H. reflexivity.
  - intros (_ & _ & _ & [_ H] & _). vm_compute in H. apply H. reflexivity.
Qed.

(** What the clamps of [suggestControls] do guarantee. *)
Lemma suggestControls_ranges (stats : ProfileStats) :
  in_unit_range stats ->
  let s := suggestControls stats in
  0.6 <= sug_styleIntensity s <= 0.9 /\
  0.4 <= sug_outlineWeight s <= 1 /\
  0 <= sug_saturationBoost s <= 0.56 /\
  0.05 <= sug_halftoneDensity s <= 0.65 /\
  0.3 <= sug_burstStrength s <= 0.8 /\
  sug_applyPalette s = true /\ sug_motifPack s <> none.
Proof.
  intros (Hm & _ & He & Hc) s. subst s. unfold suggestControls. cbv zeta.
  cbn [sug_styleIntensity sug_outlineWeight sug_saturationBoost
       sug_halftoneDensity sug_burstStrength sug_applyPalette sug_motifPack].
  pose proof (clamp01_spec (0.6 + contrastIndex stats * 0.3)) as (R1 & I1 & _).
  pose proof (clamp01_spec (0.4 + edgeDensity stats * 2)) as (R2 & I2 & _ & T2).
  pose proof (clamp01_spec (0.2 + (0.6 - meanSaturation stats) * 0.6)) as (R3 & I3 & Z3 & _).
  pose proof (clamp01_spec (0.05 + contrastIndex stats * 0.6)) as (R4 & I4 & _).
  pose proof (clamp01_spec (0.3 + contrastIndex stats * 0.5)) as (R5 & I5 & _).
  rewrite I1, I4, I5 by lra.
  assert (H2 : 0.4 <= clamp01 (0.4 + edgeDensity stats * 2)).
  { destruct (Qlt_le_dec (0.4 + edgeDensity stats * 2) 1).
    - rewrite I2 by lra. lra.
    - rewrite T2 by lra. lra. }
  assert (H3 : clamp01 (0.2 + (0.6 - meanSaturation stats) * 0.6) <= 0.56).
  { destruct (Qlt_le_dec (0.2 + (0.6 - meanSaturation stats) * 0.6) 0).
    - rewrite Z3 by lra. lra.
    - rewrite I3 by lra. lra. }
  repeat split; try lra.
  destruct (estimateHueBias (palette stats)); discriminate.
Qed.

Example suggestControls_sample :
  let s := suggestControls
             (mkProfileStats [mkRGB 200 30 20; mkRGB 20 40 220; mkRGB 250 120 10]
                0.5 0.1 0.2 0.25) in
  sug_outlineWeight s == 0.8 /\ sug_saturationBoost s == 0.26 /\
  sug_halftoneDensity s == 0.2 /\ sug_burstStrength s == 0.425 /\
  sug_styleIntensity s == 0.675 /\ sug_motifPack s = flames.
Proof. vm_compute. repeat split. Qed.

(** ** Profile import: [importProfileJSON], [applySuggested] *)

(** What [JSON.parse] can return.  An object lists one value per key. *)
Inductive JSON : Type :=
| JNull
| JBool (b : bool)
| JNum (n : Q)
| JStr (s : string)
| JArr (items : list JSON)
| JObj (fields : list (string * JSON)).

(** A value at run time: what was parsed, or [undefined].  The types the
    source writes ([StyleProfile], [number]) are gone by then. *)
Inductive Value : Type :=
| undefined
| val (j : JSON).

Fixpoint assoc (k : string) (fields : list (string * JSON)) : option JSON :=
  match fields with
  | [] => None
  | (k', v) :: rest => if String.eqb k k' then Some v else assoc k rest
  end.

(** [v.k].  [None] is the [TypeError] of reading a property of [null] or
    [undefined]; any other value without that property gives [undefined]. *)
Definition prop (v : Value) (k : string) : option Value :=
  match v with
  | undefined => None
  | val JNull => None
  | val (JObj fields) =>
      Some (match assoc k fields with Some x => val x | None => undefined end)
  | val _ => Some undefined
  end.

(** The state of the component that the import touches. *)
Record AppState := mkAppState {
  profile : JSON;
  st_outlineWeight : Value;
  st_saturationBoost : Value;
  st_halftoneDensity : Value;
  st_burstStrength : Value;
  st_motifPack : Value;
  st_styleIntensity : Value;
  st_applyPaletteTransfer : Value;
  autoApplyProfile : bool;
  (** the entry of [localStorage] under [profileStorageKey], as the value
      that was serialised *)
  stored : option JSON
}.

(** A statement of the handler: it changes the state, and it completes
    ([Some]) or throws ([None]); what it had changed before throwing stays. *)
Definition Stmt (A : Type) : Type := AppState -> option A * AppState.

Definition ret {A : Type} (a : A) : Stmt A := fun st => (Some a, st).

Definition throw {A : Type} : Stmt A := fun st => (None, st).

Definition bind {A B : Type} (m : Stmt A) (f : A -> Stmt B) : Stmt B :=
  fun st => match m st with
            | (Some a, st') => f a st'
            | (None, st') => (None, st')
            end.

Definition eval {A : Type} (o : option A) : Stmt A :=
  match o with Some a => ret a | None => throw end.

Definition update (f : AppState -> AppState) : Stmt unit := fun st => (Some tt, f st).

(** [try { m } catch {}]. *)
Definition try_catch (m : Stmt unit) : AppState -> AppState := fun st => (m st).2.

Declare Scope stmt_scope.
Delimit Scope stmt_scope with stmt.
Notation "x <- m ;; k" := (bind m (fun x => k))
  (at level 100, m at next level, right associativity) : stmt_scope.
Notation "m ;; k" := (bind m (fun _ => k))
  (at level 100, right associativity) : stmt_scope.

Definition setProfile (v : JSON) : Stmt unit :=
  update (fun st => mkAppState v (st_outlineWeight st) (st_saturationBoost st)
    (st_halftoneDensity st) (st_burstStrength st) (st_motifPack st)
    (st_styleIntensity st) (st_applyPaletteTransfer st) (autoApplyProfile st) (stored st)).

Definition setOutlineWeight (v : Value) : Stmt unit :=
  update (fun st => mkAppState (profile st) v (st_saturationBoost st)
    (st_halftoneDensity st) (st_burstStrength st) (st_motifPack st)
    (st_styleIntensity st) (st_applyPaletteTransfer st) (autoApplyProfile st) (stored st)).

Definition setSaturationBoost (v : Value) : Stmt unit :=
  update (fun st => mkAppState (profile st) (st_outlineWeight st) v
    (st_halftoneDensity st) (st_burstStrength st) (st_motifPack st)
    (st_styleIntensity st) (st_applyPaletteTransfer st) (autoApplyProfile st) (stored st)).

Definition setHalftoneDensity (v : Value) : Stmt unit :=
  update (fun st => mkAppState (profile st) (st_outlineWeight st) (st_saturationBoost st)
    v (st_burstStrength st) (st_motifPack st)
    (st_styleIntensity st) (st_applyPaletteTransfer st) (autoApplyProfile st) (stored st)).

Definition setBurstStrength (v : Value) : Stmt unit :=
  update (fun st => mkAppState (profile st) (st_outlineWeight st) (st_saturationBoost st)
    (st_halftoneDensity st) v (st_motifPack st)
    (st_styleIntensity st) (st_applyPaletteTransfer st) (autoApplyProfile st) (stored st)).

Definition setMotifPack (v : Value) : Stmt unit :=
  update (fun st => mkAppState (profile st) (st_outlineWeight st) (st_saturationBoost st)
    (st_halftoneDensity st) (st_burstStrength st) v
    (st_styleIntensity st) (st_applyPaletteTransfer st) (autoApplyProfile st) (stored st)).

Definition setStyleIntensity (v : Value) : Stmt unit :=
  update (fun st => mkAppState (profile st) (st_outlineWeight st) (st_saturationBoost st)
    (st_halftoneDensity st) (st_burstStrength st) (st_motifPack st)
    v (st_applyPaletteTransfer st) (autoApplyProfile st) (stored st)).

Definition setApplyPaletteTransfer (v : Value) : Stmt unit :=
  update (fun st => mkAppState (profile st) (st_outlineWeight st) (st_saturationBoost st)
    (st_halftoneDensity st) (st_burstStrength st) (st_motifPack st)
    (st_styleIntensity st) v (autoApplyProfile st) (stored st)).

Definition localStorage_setItem (v : JSON) : Stmt unit :=
  update (fun st => mkAppState (profile st) (st_outlineWeight st) (st_saturationBoost st)
    (st_halftoneDensity st) (st_burstStrength st) (st_motifPack st)
    (st_styleIntensity st) (st_applyPaletteTransfer st) (autoApplyProfile st) (Some v)).

Definition applySuggested (s : Value) : Stmt unit :=
  (v <- eval (prop s "outlineWeight") ;; setOutlineWeight v ;;
   v <- eval (prop s "saturationBoost") ;; setSaturationBoost v ;;
   v <- eval (prop s "halftoneDensity") ;; setHalftoneDensity v ;;
   v <- eval (prop s "burstStrength") ;; setBurstStrength v ;;
   v <- eval (prop s "motifPack") ;; setMotifPack v ;;
   v <- eval (prop s "styleIntensity") ;; setStyleIntensity v ;;
   v <- eval (prop s "applyPalette") ;; setApplyPaletteTransfer v)%stmt.

(** The [reader.onload] of [importProfileJSON].  [parsed] is the outcome of
    [JSON.parse(String(reader.result))]: [None] when it throws.  The
    handler returns nothing to anyone. *)
Definition importProfileJSON_onload (parsed : option JSON) : AppState -> AppState :=
  try_catch
    (prof <- eval parsed ;;
     setProfile prof ;;
     auto <- (fun st => (Some (autoApplyProfile st), st)) ;;
     (if auto : bool
      then s <- eval (prop (val prof) "suggested") ;; applySuggested s
      else ret tt) ;;
     localStorage_setItem prof)%stmt.

(** The controls as the component sets them up. *)
Definition initial_state : AppState :=
  mkAppState JNull (val (JNum 0.8)) (val (JNum 0.3)) (val (JNum 0.15))
    (val (JNum 0.5)) (val (JStr "waves")) (val (JNum 0.7)) (val (JBool true))
    true None.

Definition controls (st : AppState) : list Value :=
  [st_outlineWeight st; st_saturationBoost st; st_halftoneDensity st;
   st_burstStrength st; st_motifPack st; st_styleIntensity st;
   st_applyPaletteTransfer st].

(** C8 as stated fails.  [{}] parses and lacks every field: the handler
    installs it as the profile, throws inside [applySuggested], swallows
    the error, and leaves the controls and the stored profile as they were.
    A profile whose suggestion carries an outline weight of 5 and nothing
    else is applied as it stands. *)
Lemma import_malformed_profile_is_installed :
  let st1 := importProfileJSON_onload (Some (JObj [])) initial_state in
  let bad := JObj [("suggested"%string, JObj [("outlineWeight"%string, JNum 5)])] in
  let st2 := importProfileJSON_onload (Some bad) initial_state in
  (profile st1 = JObj [] /\ profile st1 <> profile initial_state
   /\ controls st1 = controls initial_state /\ stored st1 = None) /\
  (profile st2 = bad /\ st_outlineWeight st2 = val (JNum 5)
   /\ st_saturationBoost st2 = undefined /\ stored st2 = Some bad).
Proof.
  cbv zeta. split.
  - repeat split; try reflexivity. discriminate.
  - repeat split; reflexivity.
Qed.

Lemma prop_defined (s : Value) (k k' : string) :
  is_Some (prop s k) -> is_Some (prop s k').
Proof.
  destruct s as [ | [ | b | n | str | items | fields]]; cbn; intros [v Hv];
    try discriminate; eauto.
Qed.

(** C8, amended.  Data that does not parse leaves the whole state as it
    was, and nothing is reported.  Data that parses is never checked: it
    becomes the profile as it stands; with auto-apply off it is stored as
    well; with auto-apply on, a [suggested] value that has properties
    overwrites the seven controls with whatever it holds under their names
    and the profile is stored. *)
Theorem import_is_unvalidated (st : AppState) :
  importProfileJSON_onload None st = st /\
  (forall prof, profile (importProfileJSON_onload (Some prof) st) = prof) /\
  (forall prof, autoApplyProfile st = false ->
     importProfileJSON_onload (Some prof) st
     = mkAppState prof (st_outlineWeight st) (st_saturationBoost st)
         (st_halftoneDensity st) (st_burstStrength st) (st_motifPack st)
         (st_styleIntensity st) (st_applyPaletteTransfer st) false (Some prof)) /\
  (forall prof s v1 v2 v3 v4 v5 v6 v7, autoApplyProfile st = true ->
     prop (val prof) "suggested" = Some s ->
     prop s "outlineWeight" = Some v1 -> prop s "saturationBoost" = Some v2 ->
     prop s "halftoneDensity" = Some v3 -> prop s "burstStrength" = Some v4 ->
     prop s "motifPack" = Some v5 -> prop s "styleIntensity" = Some v6 ->
     prop s "applyPalette" = Some v7 ->
     importProfileJSON_onload (Some prof) st
     = mkAppState prof v1 v2 v3 v4 v5 v6 v7 true (Some prof)).
Proof.
  split; [reflexivity | ]. split; [ | split].
  - intros prof. unfold importProfileJSON_onload, try_catch, bind, eval, ret, throw.
    cbn -[prop applySuggested]. destruct (autoApplyProfile st); [ | reflexivity].
    destruct (prop (val prof) "suggested") as [s | ]; [ | reflexivity].
    unfold applySuggested, bind, eval, ret, throw.
    destruct (prop s "outlineWeight") eqn:E1; [ | reflexivity].
    destruct (prop_defined s "outlineWeight" "saturationBoost" ltac:(eauto)) as [? ->].
    destruct (prop_defined s "outlineWeight" "halftoneDensity" ltac:(eauto)) as [? ->].
    destruct (prop_defined s "outlineWeight" "burstStrength" ltac:(eauto)) as [? ->].
    destruct (prop_defined s "outlineWeight" "motifPack" ltac:(eauto)) as [? ->].
    destruct (prop_defined s "outlineWeight" "styleIntensity" ltac:(eauto)) as [? ->].
    destruct (prop_defined s "outlineWeight" "applyPalette" ltac:(eauto)) as [? ->].
    reflexivity.
  - intros prof Hauto. unfold importProfileJSON_onload, try_catch, bind, eval, ret, throw.
    cbn -[prop applySuggested]. rewrite Hauto. reflexivity.
  - intros prof s v1 v2 v3 v4 v5 v6 v7 Hauto Hs H1 H2 H3 H4 H5 H6 H7.
    unfold importProfileJSON_onload, try_catch, bind, eval, ret, throw.
    cbn -[prop applySuggested]. rewrite Hauto, Hs. unfold applySuggested, bind, eval, ret, throw.
    rewrite H1, H2, H3, H4, H5, H6, H7. reflexivity.
Qed.

(** A suggested halftone density outside the range of its control is not
    harmless: at a contrast index of 1 the advisor suggests 0.65, the
    spacing becomes -1, and the loop of [drawHalftone] does not end. *)
Example suggested_density_stalls_halftone :
  let s := suggestControls (mkProfileStats [] 0.5 0.2 0.1 1) in
  sug_halftoneDensity s == 0.65 /\
  halftone_spacing (sug_halftoneDensity s) = (-1)%Z /\
  drawHalftone 3 true 100 80 (sug_halftoneDensity s) = None.
Proof. vm_compute. repeat split. Qed.

(** ** Further properties *)

Lemma clamp01_monotone (u v : Q) : u <= v -> clamp01 u <= clamp01 v.
Proof.
  intros H. unfold clamp01, Math_max, Math_min.
  apply Q.max_le_compat_l, Q.min_le_compat_l, H.
Qed.

(** X1.  The advisor is monotonic: more edges never lower the suggested outline
    weight, more contrast never lowers the suggested burst strength. *)
Theorem suggestControls_monotone (a b : ProfileStats) :
  (edgeDensity a <= edgeDensity b ->
     sug_outlineWeight (suggestControls a) <= sug_outlineWeight (suggestControls b)) /\
  (contrastIndex a <= contrastIndex b ->
     sug_burstStrength (suggestControls a) <= sug_burstStrength (suggestControls b)).
Proof.
  split; intros H; unfold suggestControls; cbv zeta;
    cbn [sug_outlineWeight sug_burstStrength]; apply clamp01_monotone; lra.
Qed.

Lemma palette_pixel_length (palette : list RGB) (d : list Z) (i : nat) :
  length (palette_pixel palette d i) = length d.
Proof.
  unfold palette_pixel. cbv zeta.
  destruct (palette !! _); [rewrite !put_length | ]; reflexivity.
Qed.

Lemma palette_pixel_frame (palette : list RGB) (d : list Z) (i j : nat) :
  (j < i \/ i + 4 <= j)%nat -> palette_pixel palette d i !! j = d !! j.
Proof.
  intros H. unfold palette_pixel. cbv zeta.
  destruct (palette !! _); [ | reflexivity].
  rewrite !put_lookup. repeat case_decide; try lia. reflexivity.
Qed.

Lemma palette_pixel_local (palette : list RGB) (d d' : list Z) (i j : nat) :
  length d = length d' ->
  (forall k, (i <= k < i + 4)%nat -> d !! k = d' !! k) ->
  (i <= j < i + 4)%nat ->
  palette_pixel palette d i !! j = palette_pixel palette d' i !! j.
Proof.
  intros Hlen Hsame Hj. unfold palette_pixel. cbv zeta.
  rewrite (lookup_total_ext d d' i) by (apply Hsame; lia).
  rewrite (lookup_total_ext d d' (i + 1)) by (apply Hsame; lia).
  rewrite (lookup_total_ext d d' (i + 2)) by (apply Hsame; lia).
  destruct (palette !! _); [ | apply Hsame; lia].
  rewrite !put_lookup, !put_length, Hlen.
  repeat case_decide; try reflexivity; try lia. apply Hsame. lia.
Qed.

(** X2.  Palette transfer with a palette of one colour paints every pixel in that
    colour and keeps its alpha; with an empty palette it changes nothing. *)
Theorem palette_of_one_colour (d : list Z) (c : RGB) :
  (length d mod 4 = 0)%nat -> is_color c ->
  let out := palette_data d [c] in
  palette_data d [] = d /\
  length out = length d /\
  forall k, (k < length d / 4)%nat ->
    out !! (4 * k)%nat = Some (rgb_r c) /\
    out !! (4 * k + 1)%nat = Some (rgb_g c) /\
    out !! (4 * k + 2)%nat = Some (rgb_b c) /\
    out !! (4 * k + 3)%nat = d !! (4 * k + 3)%nat.
Proof.
  intros Hlen (Hr & Hg & Hb) out. split; [reflexivity | ].
  assert (Hloop : out = pixel_loop (palette_pixel [c]) ((length d + 3) / 4) d)
    by reflexivity.
  split.
  { rewrite Hloop. apply pixel_loop_length, palette_pixel_length. }
  intros k Hk.
  assert (Hin : (4 * k + 3 < length d)%nat).
  { pose proof (Nat.div_mod_eq (length d) 4). lia. }
  assert (Hn : (4 * k + 3 < 4 * ((length d + 3) / 4))%nat).
  { pose proof (Nat.div_mod_eq (length d + 3) 4).
    pose proof (Nat.mod_upper_bound (length d + 3) 4). lia. }
  assert (Hcell : forall j, (j < 4)%nat ->
            out !! (4 * k + j)%nat = palette_pixel [c] d (4 * k) !! (4 * k + j)%nat).
  { intros j Hj. rewrite Hloop.
    rewrite pixel_loop_lookup
      by eauto using palette_pixel_length, palette_pixel_frame, palette_pixel_local.
    destruct (decide (4 * k + j < 4 * ((length d + 3) / 4))%nat); [ | lia].
    replace ((4 * k + j) / 4)%nat with k; [reflexivity | ].
    apply (Nat.div_unique (4 * k + j) 4 k j); lia. }
  pose proof (Hcell 0%nat ltac:(lia)) as H0. rewrite Nat.add_0_r in H0.
  rewrite H0, (Hcell 1%nat), (Hcell 2%nat), (Hcell 3%nat) by lia.
  unfold palette_pixel. cbv zeta.
  change (closestColorIndex _ [c]) with 0%nat. cbn [lookup list_lookup].
  rewrite !put_lookup, !put_length.
  rewrite !toUint8Clamp_byte by assumption.
  repeat split; repeat case_decide; try lia; reflexivity.
Qed.

Lemma palette_of_one_colour_witness :
  let d := [10; 100; 200; 77; 128; 128; 128; 255]%Z in
  let out := palette_data d [mkRGB 1 2 3] in
  palette_data d [] = d /\
  length out = length d /\
  forall k, (k < length d / 4)%nat ->
    out !! (4 * k)%nat = Some 1%Z /\
    out !! (4 * k + 1)%nat = Some 2%Z /\
    out !! (4 * k + 2)%nat = Some 3%Z /\
    out !! (4 * k + 3)%nat = d !! (4 * k + 3)%nat.
Proof.
  apply (palette_of_one_colour [10; 100; 200; 77; 128; 128; 128; 255]%Z (mkRGB 1 2 3)).
  - reflexivity.
  - unfold is_color, is_byte; cbn; lia.
Defined.

(** ** ColorSpace: the ranges of the two conversions *)

Ltac qnum :=
  unfold Qdiv in *;
  change (/ 2) with (1 # 2) in *; change (/ 3) with (1 # 3) in *;
  change (/ 6) with (1 # 6) in *; change (/ 255) with (1 # 255) in *.

Lemma rgbToHsl_bounds (r g b : Q) :
  0 <= r <= 255 -> 0 <= g <= 255 -> 0 <= b <= 255 ->
  let x := rgbToHsl r g b in
  0 <= hsl_h x /\ hsl_h x < 1 /\
  0 <= hsl_s x <= 1 /\ 0 <= hsl_l x <= 1 /\
  (r == g /\ g == b -> hsl_h x = 0 /\ hsl_s x = 0) /\
  (~ (r == g /\ g == b) -> 0 < hsl_s x).
Proof.
  intros Hr Hg Hb. unfold rgbToHsl.
  set (R := r / 255). set (G := g / 255). set (B := b / 255).
  assert (HR : 0 <= R <= 1) by (subst R; qnum; lra).
  assert (HG : 0 <= G <= 1) by (subst G; qnum; lra).
  assert (HB : 0 <= B <= 1) by (subst B; qnum; lra).
  assert (Hgrey : r == g /\ g == b <-> R == G /\ G == B).
  { subst R G B. qnum. split; intros [? ?]; split; lra. }
  clearbody R G B.
  pose proof (max3_spec R G B) as (M1 & M2 & M3 & HM).
  pose proof (min3_spec R G B) as (m1 & m2 & m3 & Hm).
  set (M := Math_max3 R G B) in *. set (m := Math_min3 R G B) in *.
  clearbody M m. cbv zeta.
  destruct (Qeq_bool M m) eqn:E; cbn [negb hsl_h hsl_s hsl_l].
  - apply Qeq_bool_eq in E. qnum.
    repeat split; try lra; reflexivity.
  - apply Qeq_bool_neq in E.
    assert (Hlt : m < M) by lra.
    pose proof (lightness_saturation_inverse M m ltac:(lra) Hlt ltac:(lra))
      as (_ & Hs0 & Hs1 & _ & _).
    cbv zeta in Hs0, Hs1.
    set (s := if Qltb 0.5 ((M + m) / 2) then _ else _) in *. clearbody s.
    assert (Hh : 0 <= (if Qeq_bool M R
                       then (G - B) / (M - m) + (if Qltb G B then 6 else 0)
                       else if Qeq_bool M G then (B - R) / (M - m) + 2
                       else if Qeq_bool M B then (R - G) / (M - m) + 4 else 0) / 6 < 1).
    { destruct (Qeq_bool M R) eqn:E1;
        [apply Qeq_bool_eq in E1 | apply Qeq_bool_neq in E1].
      { set (x := (G - B) / (M - m)).
        assert (Hx : x * (M - m) == G - B) by (subst x; field; lra).
        clearbody x.
        destruct (Qltb G B) eqn:E2; [apply Qltb_lt in E2 | apply Qltb_ge in E2];
          qnum; split; nra. }
      destruct (Qeq_bool M G) eqn:E2;
        [apply Qeq_bool_eq in E2 | apply Qeq_bool_neq in E2].
      { set (x := (B - R) / (M - m)).
        assert (Hx : x * (M - m) == B - R) by (subst x; field; lra).
        clearbody x. qnum. split; nra. }
      destruct (Qeq_bool M B) eqn:E3;
        [apply Qeq_bool_eq in E3 | apply Qeq_bool_neq in E3].
      { set (x := (R - G) / (M - m)).
        assert (Hx : x * (M - m) == R - G) by (subst x; field; lra).
        clearbody x. qnum. split; nra. }
      destruct HM as [? | [? | ?]]; contradiction. }
    destruct Hh as [Hh0 Hh1]. qnum.
    repeat split; try lra; assumption.
Qed.

(** X3.  [rgbToHsl] of a colour with channels in [0,255] has its hue in
    [0,1), its saturation and its lightness in [0,1]; a grey has hue 0 and
    saturation 0, any other colour a saturation above 0. *)
Theorem rgbToHsl_in_range (r g b : Q) :
  0 <= r <= 255 -> 0 <= g <= 255 -> 0 <= b <= 255 ->
  let x := rgbToHsl r g b in
  0 <= hsl_h x /\ hsl_h x < 1 /\
  0 <= hsl_s x <= 1 /\ 0 <= hsl_l x <= 1 /\
  (r == g /\ g == b -> hsl_h x = 0 /\ hsl_s x = 0) /\
  (~ (r == g /\ g == b) -> 0 < hsl_s x).
Proof. exact (rgbToHsl_bounds r g b). Qed.

Lemma rgbToHsl_in_range_witness :
  let x := rgbToHsl 10 100 200 in
  0 <= hsl_h x /\ hsl_h x < 1 /\
  0 <= hsl_s x <= 1 /\ 0 <= hsl_l x <= 1 /\
  (10 == 100 /\ 100 == 200 -> hsl_h x = 0 /\ hsl_s x = 0) /\
  (~ (10 == 100 /\ 100 == 200) -> 0 < hsl_s x).
Proof.
  apply (rgbToHsl_in_range 10 100 200); split; discriminate.
Defined.

Lemma hue2rgb_between (p q t : Q) :
  p <= q -> -1 <= t <= 2 -> p <= hue2rgb p q t <= q.
Proof.
  intros Hpq [H0 H1]. unfold hue2rgb. qnum. qcases; split; nra.
Qed.

Lemma Math_round_byte (v : Q) : 0 <= v <= 1 -> is_byte (Math_round (v * 255)).
Proof.
  intros [H0 H1]. unfold is_byte, Math_round.
  assert (A : (Qfloor 0 <= Qfloor (v * 255 + (1 # 2)))%Z)
    by (apply Qfloor_resp_le; lra).
  assert (B : (Qfloor (v * 255 + (1 # 2)) <= Qfloor (255 + (1 # 2)))%Z)
    by (apply Qfloor_resp_le; lra).
  change (Qfloor 0) with 0%Z in A. change (Qfloor (255 + (1 # 2))) with 255%Z in B.
  lia.
Qed.

Lemma hslToRgb_bytes (h s l : Q) :
  0 <= h <= 1 -> 0 <= s <= 1 -> 0 <= l <= 1 -> is_color (hslToRgb h s l).
Proof.
  intros Hh Hs Hl.
  assert (Hunit : let y := hslToRgb_unit h s l in
            0 <= y.1.1 <= 1 /\ 0 <= y.1.2 <= 1 /\ 0 <= y.2 <= 1).
  { unfold hslToRgb_unit.
    destruct (Qeq_bool s 0); [cbn; repeat split; lra | ].
    set (q := if Qltb l 0.5 then l * (1 + s) else l + s - l * s).
    assert (Hq : l <= q <= 1 /\ 0 <= 2 * l - q <= l).
    { subst q. destruct (Qltb l 0.5) eqn:E;
        [apply Qltb_lt in E | apply Qltb_ge in E]; repeat split; nra. }
    clearbody q. destruct Hq as [[Hq0 Hq1] [Hp0 Hp1]]. cbv zeta. cbn [fst snd].
    pose proof (hue2rgb_between (2 * l - q) q (h + 1 / 3) ltac:(lra)
                  ltac:(qnum; lra)).
    pose proof (hue2rgb_between (2 * l - q) q h ltac:(lra) ltac:(lra)).
    pose proof (hue2rgb_between (2 * l - q) q (h - 1 / 3) ltac:(lra)
                  ltac:(qnum; lra)).
    repeat split; lra. }
  cbv zeta in Hunit. unfold hslToRgb.
  destruct (hslToRgb_unit h s l) as [[r g] b]. cbn [fst snd] in Hunit.
  destruct Hunit as (Hr & Hg & Hb).
  repeat split; cbn [rgb_r rgb_g rgb_b]; apply Math_round_byte; assumption.
Qed.

(** X4.  [hslToRgb] of a hue, a saturation and a lightness in [0,1] is a
    colour: each channel is an integer between 0 and 255. *)
Theorem hslToRgb_is_color (h s l : Q) :
  0 <= h <= 1 -> 0 <= s <= 1 -> 0 <= l <= 1 -> is_color (hslToRgb h s l).
Proof. exact (hslToRgb_bytes h s l). Qed.

Lemma hslToRgb_is_color_witness : is_color (hslToRgb 0.6 0.9 0.4).
Proof.
  apply hslToRgb_is_color; split; discriminate.
Defined.

(** ** Posterizer: what the saturation boost leaves alone *)

Lemma hue2rgb_Qeq (p q p' q' t : Q) :
  p == p' -> q == q' -> hue2rgb p q t == hue2rgb p' q' t.
Proof.
  intros Hp Hq. unfold hue2rgb. cbv zeta.
  repeat match goal with
  | |- context [if ?c then _ else _] => destruct c
  end; rewrite ?Hp, ?Hq; reflexivity.
Qed.

(** [hslToRgb] sees a saturation up to equality of rationals. *)
Lemma hslToRgb_Qeq (h s s' l : Q) : s == s' -> hslToRgb h s l = hslToRgb h s' l.
Proof.
  intros Hs. unfold hslToRgb, hslToRgb_unit.
  rewrite (Qeqb_comp s s' Hs 0 0 (Qeq_refl 0)).
  destruct (Qeq_bool s' 0); [reflexivity | ].
  cbv zeta.
  set (q := if Qltb l 0.5 then l * (1 + s) else l + s - l * s).
  set (q' := if Qltb l 0.5 then l * (1 + s') else l + s' - l * s').
  assert (Hq : q == q').
  { subst q q'. destruct (Qltb l 0.5); rewrite Hs; reflexivity. }
  assert (Hp : 2 * l - q == 2 * l - q') by (rewrite Hq; reflexivity).
  clearbody q q'. unfold Math_round.
  f_equal; apply Qfloor_comp;
    rewrite (hue2rgb_Qeq _ _ _ _ _ Hp Hq); reflexivity.
Qed.

(** Without a boost the colour goes to HSL and comes back as it was. *)
Lemma boosted_zero (r g b : Z) :
  is_byte r -> is_byte g -> is_byte b -> boosted 0 r g b = mkRGB r g b.
Proof.
  intros Hr Hg Hb. unfold boosted. cbv zeta.
  assert (Q255 : forall z : Z, is_byte z -> 0 <= inject_Z z <= 255).
  { intros z [H0 H1]. split.
    - change 0 with (inject_Z 0). now rewrite <- Zle_Qle.
    - change 255 with (inject_Z 255). now rewrite <- Zle_Qle. }
  pose proof (rgbToHsl_bounds (inject_Z r) (inject_Z g) (inject_Z b)
                (Q255 r Hr) (Q255 g Hg) (Q255 b Hb)) as (_ & _ & Hs & _).
  cbv zeta in Hs.
  set (x := rgbToHsl (inject_Z r) (inject_Z g) (inject_Z b)) in *.
  rewrite (hslToRgb_Qeq _ _ (hsl_s x)).
  - exact (roundtrip_exact (mkRGB r g b) (conj Hr (conj Hg Hb))).
  - destruct (clamp01_spec (hsl_s x + 0 * (1 - hsl_s x))) as (_ & Hid & _).
    rewrite Hid by lra. ring.
Qed.

Lemma toUint8Clamp_nearest (x : Q) :
  0 <= x <= 255 ->
  - (1 # 2) <= inject_Z (toUint8Clamp x) - x <= 1 # 2.
Proof.
  intros [H0 H1]. unfold toUint8Clamp.
  destruct (Qle_bool x 0) eqn:E0.
  { apply Qle_bool_iff in E0. change (inject_Z 0) with 0. lra. }
  destruct (Qle_bool 255 x) eqn:E1.
  { apply Qle_bool_iff in E1. change (inject_Z 255) with 255. lra. }
  pose proof (Qfloor_le x) as Hf. pose proof (Qlt_floor x) as Hc.
  rewrite inject_Z_plus in Hc. change (inject_Z 1) with 1 in Hc.
  cbv zeta.
  destruct (Qltb (x - inject_Z (Qfloor x)) 0.5) eqn:E2;
    [apply Qltb_lt in E2; lra | apply Qltb_ge in E2].
  destruct (Qltb 0.5 (x - inject_Z (Qfloor x))) eqn:E3;
    [apply Qltb_lt in E3 | apply Qltb_ge in E3].
  { rewrite inject_Z_plus. change (inject_Z 1) with 1. lra. }
  destruct (Z.even (Qfloor x)); [lra | ].
  rewrite inject_Z_plus. change (inject_Z 1) with 1. lra.
Qed.

Lemma byte_in_Q (z : Z) : is_byte z -> 0 <= inject_Z z <= 255.
Proof.
  intros [H0 H1]. split.
  - change 0 with (inject_Z 0). now rewrite <- Zle_Qle.
  - change 255 with (inject_Z 255). now rewrite <- Zle_Qle.
Qed.

(** The level a byte is sent to lies in [0,255]. *)
Lemma quantize_in_range (levels v : Z) :
  is_byte v -> 0 <= quantize (posterize_step_size levels) v <= 255.
Proof.
  intros Hv. apply byte_in_Q in Hv.
  destruct (posterize_step_size_spec levels) as (Hn & Hs & Hpos).
  set (n := inject_Z (Z.max 2 (levels - 1))) in *.
  set (step := posterize_step_size levels) in *.
  unfold quantize, Math_round.
  set (x := inject_Z v / step).
  assert (Hx : x * step == inject_Z v) by (subst x; field; lra).
  clearbody x.
  assert (Hx0 : 0 <= x) by nra.
  assert (Hxn : x <= n) by nra.
  assert (A : (Qfloor 0 <= Qfloor (x + (1 # 2)))%Z) by (apply Qfloor_resp_le; lra).
  assert (B : (Qfloor (x + (1 # 2)) <= Qfloor (n + (1 # 2)))%Z)
    by (apply Qfloor_resp_le; lra).
  assert (C : Qfloor (n + (1 # 2)) = Z.max 2 (levels - 1)).
  { apply Qfloor_unique; subst n; rewrite ?inject_Z_plus;
      change (inject_Z 1) with 1; lra. }
  change (Qfloor 0) with 0%Z in A. rewrite C in B.
  rewrite Zle_Qle in A, B. change (inject_Z 0) with 0 in A. fold n in B.
  split; nra.
Qed.

(** Quantising what was already quantised and stored gives the same level,
    as long as the step is wider than one byte value. *)
Lemma quantize_stable (levels v : Z) :
  (levels <= 255)%Z -> is_byte v ->
  let step := posterize_step_size levels in
  quantize step (toUint8Clamp (quantize step v)) = quantize step v.
Proof.
  intros HL Hv step.
  pose proof (quantize_in_range levels v Hv) as Hr. fold step in Hr.
  pose proof (toUint8Clamp_nearest _ Hr) as Hnear.
  destruct (posterize_step_size_spec levels) as (Hn & Hs & Hpos). fold step in Hs, Hpos.
  assert (Hstep : 1 < step).
  { assert (inject_Z (Z.max 2 (levels - 1)) <= 254).
    { change 254 with (inject_Z 254). rewrite <- Zle_Qle. lia. }
    nra. }
  set (b := toUint8Clamp (quantize step v)) in *.
  unfold quantize in *. set (k := Math_round (inject_Z v / step)) in *.
  f_equal. f_equal. unfold Math_round.
  set (y := inject_Z b / step).
  assert (Hy : y * step == inject_Z b) by (subst y; field; lra).
  clearbody y b.
  apply Qfloor_unique; rewrite ?inject_Z_plus; change (inject_Z 1) with 1; nra.
Qed.

Lemma posterize_data_zero_boost (d : list Z) (L : Z) :
  Forall is_byte d -> (length d mod 4 = 0)%nat ->
  posterize_data d L 0
  = imap (fun j v => if (j mod 4 =? 3)%nat then v
                     else toUint8Clamp (quantize (posterize_step_size L) v)) d.
Proof.
  intros Hbytes Hlen. apply list_eq. intros j. rewrite list_lookup_imap.
  destruct (decide (j < length d)%nat) as [Hj | Hj].
  - pose proof (Nat.div_mod_eq j 4) as Hdiv.
    pose proof (Nat.mod_upper_bound j 4 ltac:(lia)) as Hc.
    pose proof (Nat.div_mod_eq (length d) 4) as Hd.
    set (k := (j / 4)%nat) in *. set (c := (j mod 4)%nat) in *.
    assert (Hk : (4 * k + 3 < length d)%nat) by nia.
    rewrite Hdiv at 1. rewrite posterize_data_lookup by assumption. cbv zeta.
    assert (Hget : forall i, (i < 4)%nat ->
              d !! (4 * k + i)%nat = Some (d !!! (4 * k + i)%nat)
              /\ is_byte (d !!! (4 * k + i)%nat)).
    { intros i Hi.
      destruct (lookup_lt_is_Some_2 d (4 * k + i)%nat ltac:(lia)) as [v Hv].
      rewrite (list_lookup_total_correct _ _ _ Hv). split; [exact Hv | ].
      eapply Forall_lookup_1; eauto. }
    destruct (Hget 0%nat ltac:(lia)) as [_ B0]. rewrite Nat.add_0_r in B0.
    destruct (Hget 1%nat ltac:(lia)) as [_ B1].
    destruct (Hget 2%nat ltac:(lia)) as [_ B2].
    unfold poster_rgb. rewrite (boosted_zero _ _ _ B0 B1 B2).
    cbn [rgb_r rgb_g rgb_b fst snd].
    rewrite Hdiv at 1. destruct (Hget c Hc) as [-> Bc]. cbn [fmap option_fmap option_map].
    destruct c as [ | [ | [ | [ | c]]]]; try lia; cbn [Nat.eqb];
      rewrite ?Nat.add_0_r; try reflexivity.
    rewrite toUint8Clamp_byte by assumption. reflexivity.
  - rewrite (lookup_ge_None_2 (posterize_data d L 0))
      by (rewrite posterize_data_length; lia).
    rewrite (lookup_ge_None_2 d) by lia. reflexivity.
Qed.

(** X5.  With a saturation boost of 0 the trip through HSL changes nothing
    and [posterizeAndSaturate] treats every byte on its own: it keeps the
    length and every alpha byte, and a red, green or blue byte [v] is
    replaced by a byte within 1/2 of the multiple of the step nearest to
    [v].  Which of the two neighbours a multiple that ends in .5 goes to is
    left open: there the rounding of the product [k * step] decides.  The
    level count is at most 256, where the step is at least 1. *)
Theorem posterize_without_boost (d : list Z) (L : Z) :
  Forall is_byte d -> (length d mod 4 = 0)%nat -> (L <= 256)%Z ->
  let out := posterize_data d L 0 in
  length out = length d /\
  forall j v, d !! j = Some v ->
    if (j mod 4 =? 3)%nat then out !! j = Some v
    else exists b, out !! j = Some b /\ is_byte b /\
           Qabs (inject_Z b - quantize (posterize_step_size L) v) <= 1 # 2.
Proof.
  intros Hbytes Hlen _ out. split; [apply posterize_data_length | ].
  intros j v Hv. subst out. rewrite posterize_data_zero_boost by assumption.
  rewrite list_lookup_imap, Hv. cbn [fmap option_fmap option_map].
  destruct (j mod 4 =? 3)%nat; [reflexivity | ].
  eexists. split; [reflexivity | ]. split; [apply toUint8Clamp_range | ].
  assert (Hb : is_byte v) by exact (Forall_lookup_1 _ _ _ _ Hbytes Hv).
  pose proof (toUint8Clamp_nearest _ (quantize_in_range L v Hb)) as H.
  apply Qabs_Qle_condition. split; lra.
Qed.

Lemma posterize_without_boost_witness :
  let d := [125; 125; 125; 255; 10; 100; 200; 77]%Z in
  let out := posterize_data d 51 0 in
  length out = length d /\
  forall j v, d !! j = Some v ->
    if (j mod 4 =? 3)%nat then out !! j = Some v
    else exists b, out !! j = Some b /\ is_byte b /\
           Qabs (inject_Z b - quantize (posterize_step_size 51) v) <= 1 # 2.
Proof.
  apply (posterize_without_boost [125; 125; 125; 255; 10; 100; 200; 77]%Z 51).
  - repeat constructor; unfold is_byte; lia.
  - reflexivity.
  - lia.
Defined.

(** X6.  Posterising without boost a second time, with the same level count
    of at most 255, changes nothing. *)
Theorem posterize_idempotent (d : list Z) (L : Z) :
  (L <= 255)%Z -> Forall is_byte d -> (length d mod 4 = 0)%nat ->
  posterize_data (posterize_data d L 0) L 0 = posterize_data d L 0.
Proof.
  intros HL Hbytes Hlen.
  set (f := fun (j : nat) (v : Z) =>
              if (j mod 4 =? 3)%nat then v
              else toUint8Clamp (quantize (posterize_step_size L) v)).
  assert (Hout : Forall is_byte (posterize_data d L 0)).
  { rewrite posterize_data_zero_boost by assumption. fold f.
    apply Forall_lookup. intros j v Hv. rewrite list_lookup_imap in Hv.
    destruct (d !! j) as [u | ] eqn:Eu; [ | discriminate]. injection Hv as <-.
    unfold f. destruct (j mod 4 =? 3)%nat; [ | apply toUint8Clamp_range].
    eapply Forall_lookup_1; eauto. }
  rewrite (posterize_data_zero_boost (posterize_data d L 0))
    by (rewrite ?posterize_data_length; assumption).
  rewrite (posterize_data_zero_boost d) by assumption. fold f.
  apply list_eq. intros j. rewrite !list_lookup_imap.
  destruct (d !! j) as [u | ] eqn:Eu; [ | reflexivity].
  cbn [fmap option_fmap option_map]. f_equal. unfold f.
  destruct (j mod 4 =? 3)%nat; [reflexivity | ].
  f_equal. apply quantize_stable; [exact HL | ].
  exact (Forall_lookup_1 _ _ _ _ Hbytes Eu).
Qed.

Lemma posterize_idempotent_witness :
  let d := [10; 100; 200; 77; 128; 128; 128; 255]%Z in
  posterize_data (posterize_data d 6 0) 6 0 = posterize_data d 6 0.
Proof.
  apply posterize_idempotent.
  - lia.
  - repeat constructor; unfold is_byte; lia.
  - reflexivity.
Defined.


(** ** PaletteTransfer: the nearest palette colour *)

Definition sq_dist (c p : RGB) : Z :=
  ((rgb_r c - rgb_r p) ^ 2 + (rgb_g c - rgb_g p) ^ 2 + (rgb_b c - rgb_b p) ^ 2)%Z.

(** One round of the search of [closestColorIndex]. *)
Definition closest_step (c : RGB) (acc : nat * option Z) (ip : nat * RGB)
    : nat * option Z :=
  let '(bi, bd) := acc in
  let '(i, p) := ip in
  let d := sq_dist c p in
  if match bd with None => true | Some b => (d <? b)%Z end
  then (i, Some d) else (bi, bd).

Lemma foldl_pointwise {A B : Type} (f g : A -> B -> A) (l : list B) (a : A) :
  (forall a b, f a b = g a b) -> foldl f a l = foldl g a l.
Proof.
  intros H. induction l as [ | b l IH] in a |- *; [reflexivity | ].
  cbn. rewrite H. apply IH.
Qed.

Lemma closestColorIndex_fold (c : RGB) (palette : list RGB) :
  closestColorIndex c palette
  = (foldl (closest_step c) (0%nat, None) (imap pair palette)).1.
Proof.
  unfold closestColorIndex. f_equal. apply foldl_pointwise.
  intros [bi bd] [i p]. reflexivity.
Qed.

(** After the search has seen [l]: nothing yet, or the first entry of [l]
    among those nearest to [c]. *)
Definition closest_so_far (c : RGB) (l : list RGB) (acc : nat * option Z) : Prop :=
  match l with
  | [] => acc = (0%nat, None)
  | _ =>
      exists p, l !! acc.1 = Some p /\ acc.2 = Some (sq_dist c p) /\
        forall j p', l !! j = Some p' ->
          (sq_dist c p <= sq_dist c p')%Z /\
          ((j < acc.1)%nat -> (sq_dist c p < sq_dist c p')%Z)
  end.

Lemma closest_search (c : RGB) (l : list RGB) :
  closest_so_far c l (foldl (closest_step c) (0%nat, None) (imap pair l)).
Proof.
  induction l as [ | q l IH] using rev_ind; [reflexivity | ].
  rewrite imap_app, foldl_app. cbn [imap foldl]. rewrite Nat.add_0_r.
  set (acc := foldl (closest_step c) (0%nat, None) (imap pair l)) in *.
  assert (Hne : exists x l', l ++ [q] = x :: l').
  { destruct l; cbn; eauto. }
  destruct Hne as (x & l' & Hne). unfold closest_so_far. rewrite Hne, <- Hne.
  destruct acc as [bi bd]. unfold closest_step.
  destruct l as [ | x0 l0].
  - (* the first entry *)
    cbn in IH. injection IH as -> ->. cbn [fst snd].
    exists q. split; [reflexivity | ]. split; [reflexivity | ].
    intros j p' Hj. destruct j as [ | j]; [ | discriminate].
    injection Hj as <-. cbn [length]. split; lia.
  - set (l := x0 :: l0) in *.
    destruct IH as (p & Hp & Hbd & Hmin). cbn [fst snd] in Hp, Hbd, Hmin.
    rewrite Hbd.
    assert (Hbi : (bi < length l)%nat) by (eapply lookup_lt_Some; eauto).
    destruct (Z.ltb_spec (sq_dist c q) (sq_dist c p)) as [Hlt | Hge]; cbn [fst snd].
    + exists q. split; [apply list_lookup_middle; reflexivity | ].
      split; [reflexivity | ].
      intros j p' Hj. apply lookup_app_Some in Hj as [Hj | [Hlen Hj]].
      * destruct (Hmin j p' Hj). split; lia.
      * apply list_lookup_singleton_Some in Hj as [Hj ->].
        split; lia.
    + exists p. split; [rewrite lookup_app_l by lia; exact Hp | ].
      split; [reflexivity | ].
      intros j p' Hj. apply lookup_app_Some in Hj as [Hj | [Hlen Hj]].
      * apply Hmin, Hj.
      * apply list_lookup_singleton_Some in Hj as [Hj ->].
        split; [lia | intros Hjb; lia].
Qed.

Lemma closestColorIndex_spec (c : RGB) (palette : list RGB) :
  palette <> [] ->
  exists p, palette !! closestColorIndex c palette = Some p /\
    forall j p', palette !! j = Some p' ->
      (sq_dist c p <= sq_dist c p')%Z /\
      ((j < closestColorIndex c palette)%nat -> (sq_dist c p < sq_dist c p')%Z).
Proof.
  intros Hne. rewrite closestColorIndex_fold.
  pose proof (closest_search c palette) as H. unfold closest_so_far in H.
  destruct palette as [ | x l]; [contradiction | ].
  destruct H as (p & Hp & _ & Hmin). eauto.
Qed.

(** X7.  For a palette that is not empty [closestColorIndex] returns the
    index of an entry at the least squared distance from the colour, and
    among several such entries the first one. *)
Theorem closestColorIndex_nearest (c : RGB) (palette : list RGB) :
  palette <> [] ->
  exists p, palette !! closestColorIndex c palette = Some p /\
    forall j p', palette !! j = Some p' ->
      (sq_dist c p <= sq_dist c p')%Z /\
      ((j < closestColorIndex c palette)%nat -> (sq_dist c p < sq_dist c p')%Z).
Proof.
  exact (closestColorIndex_spec c palette).
Qed.

Lemma closestColorIndex_nearest_witness :
  let c := mkRGB 250 10 10 in
  let palette := [mkRGB 0 0 0; mkRGB 255 0 0; mkRGB 255 255 255; mkRGB 255 0 0] in
  exists p, palette !! closestColorIndex c palette = Some p /\
    forall j p', palette !! j = Some p' ->
      (sq_dist c p <= sq_dist c p')%Z /\
      ((j < closestColorIndex c palette)%nat -> (sq_dist c p < sq_dist c p')%Z).
Proof.
  apply (closestColorIndex_nearest (mkRGB 250 10 10)
           [mkRGB 0 0 0; mkRGB 255 0 0; mkRGB 255 255 255; mkRGB 255 0 0]).
  discriminate.
Defined.

(** ** PaletteTransfer: every pixel moves to its nearest palette colour *)

(** Pixel [k] of a buffer of RGBA bytes, as the loop reads it. *)
Definition pixel_at (d : list Z) (k : nat) : RGB :=
  mkRGB (d !!! (4 * k)%nat) (d !!! (4 * k + 1)%nat) (d !!! (4 * k + 2)%nat).

Lemma sq_dist_self (c : RGB) : sq_dist c c = 0%Z.
Proof. unfold sq_dist. lia. Qed.

Lemma sq_dist_zero (c p : RGB) : (sq_dist c p <= 0)%Z -> p = c.
Proof.
  destruct c as [r g b], p as [r' g' b']. unfold sq_dist. cbn.
  intros H. f_equal; nia.
Qed.

Lemma palette_data_cell (palette : list RGB) (d : list Z) (k j : nat) :
  palette <> [] -> (length d mod 4 = 0)%nat ->
  (k < length d / 4)%nat -> (j < 4)%nat ->
  palette_data d palette !! (4 * k + j)%nat
  = palette_pixel palette d (4 * k) !! (4 * k + j)%nat.
Proof.
  intros Hne Hlen Hk Hj.
  assert (Hloop : palette_data d palette
                  = pixel_loop (palette_pixel palette) ((length d + 3) / 4) d).
  { destruct palette; [contradiction | reflexivity]. }
  rewrite Hloop.
  rewrite pixel_loop_lookup
    by eauto using palette_pixel_length, palette_pixel_frame, palette_pixel_local.
  assert (Hn : (4 * k + 3 < 4 * ((length d + 3) / 4))%nat).
  { pose proof (Nat.div_mod_eq (length d) 4).
    pose proof (Nat.div_mod_eq (length d + 3) 4).
    pose proof (Nat.mod_upper_bound (length d + 3) 4). lia. }
  destruct (decide (4 * k + j < 4 * ((length d + 3) / 4))%nat); [ | lia].
  replace ((4 * k + j) / 4)%nat with k; [reflexivity | ].
  apply (Nat.div_unique (4 * k + j) 4 k j); lia.
Qed.

Lemma palette_data_length (palette : list RGB) (d : list Z) :
  length (palette_data d palette) = length d.
Proof.
  destruct palette as [ | c l]; [reflexivity | ].
  change (palette_data d (c :: l))
    with (pixel_loop (palette_pixel (c :: l)) ((length d + 3) / 4) d).
  apply pixel_loop_length, palette_pixel_length.
Qed.

(** What one round writes, once the colour it picks is known. *)
Lemma palette_pixel_writes (palette : list RGB) (d : list Z) (k : nat) (p : RGB) :
  (4 * k + 3 < length d)%nat ->
  palette !! closestColorIndex (pixel_at d k) palette = Some p -> is_color p ->
  palette_pixel palette d (4 * k) !! (4 * k)%nat = Some (rgb_r p) /\
  palette_pixel palette d (4 * k) !! (4 * k + 1)%nat = Some (rgb_g p) /\
  palette_pixel palette d (4 * k) !! (4 * k + 2)%nat = Some (rgb_b p) /\
  palette_pixel palette d (4 * k) !! (4 * k + 3)%nat = d !! (4 * k + 3)%nat.
Proof.
  intros Hin Hp (Hr & Hg & Hb). unfold palette_pixel. cbv zeta.
  fold (pixel_at d k). rewrite Hp.
  rewrite !put_lookup, !put_length.
  rewrite !toUint8Clamp_byte by assumption.
  repeat split; repeat case_decide; try lia; reflexivity.
Qed.

Lemma palette_data_pixel (palette : list RGB) (d : list Z) (k : nat) :
  palette <> [] -> Forall is_color palette -> (length d mod 4 = 0)%nat ->
  (k < length d / 4)%nat ->
  exists p, palette !! closestColorIndex (pixel_at d k) palette = Some p /\
    pixel_at (palette_data d palette) k = p /\
    palette_data d palette !! (4 * k + 3)%nat = d !! (4 * k + 3)%nat /\
    forall j p', palette !! j = Some p' ->
      (sq_dist (pixel_at d k) p <= sq_dist (pixel_at d k) p')%Z.
Proof.
  intros Hne Hcol Hlen Hk.
  destruct (closestColorIndex_spec (pixel_at d k) palette Hne) as (p & Hp & Hmin).
  exists p. split; [exact Hp | ].
  assert (Hin : (4 * k + 3 < length d)%nat).
  { pose proof (Nat.div_mod_eq (length d) 4). lia. }
  pose proof (Forall_lookup_1 _ _ _ _ Hcol Hp) as Hc.
  destruct (palette_pixel_writes palette d k p Hin Hp Hc) as (Wr & Wg & Wb & Wa).
  pose proof (palette_data_cell palette d k 0 Hne Hlen Hk ltac:(lia)) as C0.
  pose proof (palette_data_cell palette d k 1 Hne Hlen Hk ltac:(lia)) as C1.
  pose proof (palette_data_cell palette d k 2 Hne Hlen Hk ltac:(lia)) as C2.
  pose proof (palette_data_cell palette d k 3 Hne Hlen Hk ltac:(lia)) as C3.
  rewrite Nat.add_0_r in C0.
  rewrite Wr in C0. rewrite Wg in C1. rewrite Wb in C2. rewrite Wa in C3.
  split; [ | split; [exact C3 | intros j p' Hj; apply (Hmin j p' Hj)]].
  unfold pixel_at.
  rewrite (list_lookup_total_correct _ _ _ C0), (list_lookup_total_correct _ _ _ C1),
    (list_lookup_total_correct _ _ _ C2).
  destruct p; reflexivity.
Qed.

(** X8.  Palette transfer with a palette of colours that is not empty gives
    every pixel the palette colour nearest to its own (squared distance
    over the three channels), keeps its alpha and keeps the size. *)
Theorem palette_transfer_nearest (d : list Z) (palette : list RGB) :
  palette <> [] -> Forall is_color palette -> (length d mod 4 = 0)%nat ->
  let out := palette_data d palette in
  length out = length d /\
  forall k, (k < length d / 4)%nat ->
    pixel_at out k ∈ palette /\
    (forall p', p' ∈ palette ->
       (sq_dist (pixel_at d k) (pixel_at out k) <= sq_dist (pixel_at d k) p')%Z) /\
    out !! (4 * k + 3)%nat = d !! (4 * k + 3)%nat.
Proof.
  intros Hne Hcol Hlen out. split; [apply palette_data_length | ].
  intros k Hk.
  destruct (palette_data_pixel palette d k Hne Hcol Hlen Hk) as (p & Hp & Ho & Ha & Hmin).
  fold out in Ho, Ha. rewrite Ho. split; [ | split; [ | exact Ha]].
  - eapply list_elem_of_lookup_2, Hp.
  - intros p' Hp'. apply list_elem_of_lookup_1 in Hp' as [j Hj]. eauto.
Qed.

Lemma palette_transfer_nearest_witness :
  let d := [10; 100; 200; 77; 128; 128; 128; 255]%Z in
  let palette := [mkRGB 0 0 0; mkRGB 255 255 255; mkRGB 0 90 180] in
  let out := palette_data d palette in
  length out = length d /\
  forall k, (k < length d / 4)%nat ->
    pixel_at out k ∈ palette /\
    (forall p', p' ∈ palette ->
       (sq_dist (pixel_at d k) (pixel_at out k) <= sq_dist (pixel_at d k) p')%Z) /\
    out !! (4 * k + 3)%nat = d !! (4 * k + 3)%nat.
Proof.
  apply (palette_transfer_nearest [10; 100; 200; 77; 128; 128; 128; 255]%Z
           [mkRGB 0 0 0; mkRGB 255 255 255; mkRGB 0 90 180]).
  - discriminate.
  - repeat constructor; unfold is_byte; cbn; lia.
  - reflexivity.
Defined.

(** A palette colour is its own nearest palette colour. *)
Lemma closest_of_member (palette : list RGB) (p : RGB) :
  p ∈ palette -> palette !! closestColorIndex p palette = Some p.
Proof.
  intros Hin.
  assert (Hne : palette <> []) by (intros ->; inversion Hin).
  destruct (closestColorIndex_spec p palette Hne) as (q & Hq & Hmin).
  apply list_elem_of_lookup_1 in Hin as [j Hj].
  destruct (Hmin j p Hj) as [Hle _]. rewrite sq_dist_self in Hle.
  rewrite Hq. f_equal. apply sq_dist_zero, Hle.
Qed.

Lemma palette_data_twice (d : list Z) (palette : list RGB) :
  Forall is_color palette -> (length d mod 4 = 0)%nat ->
  palette_data (palette_data d palette) palette = palette_data d palette.
Proof.
  intros Hcol Hlen.
  destruct (decide (palette = [])) as [-> | Hne]; [reflexivity | ].
  set (out := palette_data d palette).
  assert (Hlo : length out = length d) by apply palette_data_length.
  apply list_eq. intros i.
  destruct (decide (i < length d)%nat) as [Hi | Hi].
  2: { rewrite !lookup_ge_None_2; [reflexivity | | ];
       rewrite ?palette_data_length, ?Hlo; lia. }
  pose proof (Nat.div_mod_eq i 4) as Hdm.
  pose proof (Nat.mod_upper_bound i 4 ltac:(lia)) as Hj.
  pose proof (Nat.div_mod_eq (length d) 4) as Hdl.
  assert (Hk : (i / 4 < length d / 4)%nat).
  { apply Nat.Div0.div_lt_upper_bound. lia. }
  set (k := (i / 4)%nat) in *. set (j := (i mod 4)%nat) in *.
  replace i with (4 * k + j)%nat by lia.
  destruct (palette_data_pixel palette d k Hne Hcol Hlen Hk) as (p & Hp & Ho & Ha & _).
  fold out in Ho, Ha.
  assert (Hin : p ∈ palette) by (eapply list_elem_of_lookup_2, Hp).
  rewrite palette_data_cell by (rewrite ?Hlo; auto).
  assert (Hp2 : palette !! closestColorIndex (pixel_at out k) palette = Some p).
  { rewrite Ho. apply closest_of_member, Hin. }
  destruct (palette_pixel_writes palette out k p ltac:(lia) Hp2
              (proj1 (Forall_forall _ _) Hcol p Hin)) as (Wr & Wg & Wb & Wa).
  assert (Hr : out !! (4 * k)%nat = Some (rgb_r p)).
  { rewrite <- Ho. unfold pixel_at. cbn [rgb_r rgb_g rgb_b].
    apply list_lookup_lookup_total_lt. rewrite Hlo. lia. }
  assert (Hg : out !! (4 * k + 1)%nat = Some (rgb_g p)).
  { rewrite <- Ho. unfold pixel_at. cbn [rgb_r rgb_g rgb_b].
    apply list_lookup_lookup_total_lt. rewrite Hlo. lia. }
  assert (Hb : out !! (4 * k + 2)%nat = Some (rgb_b p)).
  { rewrite <- Ho. unfold pixel_at. cbn [rgb_r rgb_g rgb_b].
    apply list_lookup_lookup_total_lt. rewrite Hlo. lia. }
  destruct j as [ | [ | [ | [ | j]]]]; [ | | | | lia].
  - rewrite Nat.add_0_r. congruence.
  - congruence.
  - congruence.
  - congruence.
Qed.

(** X9.  Palette transfer is idempotent: a second pass with the same palette
    of colours changes nothing. *)
Theorem palette_transfer_idempotent (d : list Z) (palette : list RGB) :
  Forall is_color palette -> (length d mod 4 = 0)%nat ->
  palette_data (palette_data d palette) palette = palette_data d palette.
Proof.
  exact (palette_data_twice d palette).
Qed.

Lemma palette_transfer_idempotent_witness :
  let d := [10; 100; 200; 77; 128; 128; 128; 255]%Z in
  let palette := [mkRGB 0 0 0; mkRGB 255 255 255; mkRGB 0 90 180] in
  palette_data (palette_data d palette) palette = palette_data d palette.
Proof.
  apply (palette_transfer_idempotent [10; 100; 200; 77; 128; 128; 128; 255]%Z
           [mkRGB 0 0 0; mkRGB 255 255 255; mkRGB 0 90 180]).
  - repeat constructor; unfold is_byte; cbn; lia.
  - reflexivity.
Defined.

(** ** Posterizer: what the saturation boost does to a grey pixel *)

(** A grey has hue 0 and saturation 0; a boost gives it a saturation above 0
    at that hue, which is red: the red channel rises and the other two fall
    by the same amount. *)
Lemma rgbToHsl_grey (v : Q) :
  exists l, rgbToHsl v v v = mkHSL 0 0 l /\ l * 255 == v.
Proof.
  unfold rgbToHsl. cbv zeta.
  assert (E : Math_max3 (v / 255) (v / 255) (v / 255)
              == Math_min3 (v / 255) (v / 255) (v / 255)).
  { unfold Math_max3, Math_min3. rewrite !Q.max_id, !Q.min_id. reflexivity. }
  apply Qeq_eq_bool in E. rewrite E. cbn [negb].
  eexists. split; [reflexivity | ].
  unfold Math_max3, Math_min3. rewrite !Q.max_id, !Q.min_id. field.
Qed.

Lemma Math_round_above (x : Q) (z : Z) : inject_Z z <= x -> (z <= Math_round x)%Z.
Proof.
  intros H. unfold Math_round.
  assert (A : (Qfloor (inject_Z z) <= Qfloor (x + (1 # 2)))%Z)
    by (apply Qfloor_resp_le; lra).
  rewrite Qfloor_Z in A. exact A.
Qed.

Lemma Math_round_below (x : Q) (z : Z) : x <= inject_Z z -> (Math_round x <= z)%Z.
Proof.
  intros H. unfold Math_round.
  pose proof (Qfloor_le (x + (1 # 2))) as A.
  assert (B : inject_Z (Qfloor (x + (1 # 2))) < inject_Z (z + 1)).
  { rewrite inject_Z_plus. change (inject_Z 1) with 1. lra. }
  rewrite <- Zlt_Qlt in B. lia.
Qed.

Lemma hslToRgb_red_hue (s l : Q) :
  ~ s == 0 ->
  let q := if Qltb l 0.5 then l * (1 + s) else l + s - l * s in
  let p := 2 * l - q in
  hslToRgb 0 s l
  = mkRGB (Math_round (q * 255)) (Math_round ((p + (q - p) * 6 * 0) * 255))
          (Math_round (p * 255)).
Proof.
  intros Hs q p. unfold hslToRgb, hslToRgb_unit.
  destruct (Qeq_bool s 0) eqn:E; [apply Qeq_bool_eq in E; contradiction | ].
  fold q. fold p. reflexivity.
Qed.

Lemma boosted_grey (boost : Q) (v : Z) :
  is_byte v -> 0 < boost <= 1 ->
  let m := inject_Z (Z.min v (255 - v)) in
  exists r g : Q,
    boosted boost v v v = mkRGB (Math_round r) (Math_round g) (Math_round g) /\
    r == inject_Z v + boost * m /\ g == inject_Z v - boost * m.
Proof.
  intros Hv Hb m. unfold boosted. cbv zeta.
  destruct (rgbToHsl_grey (inject_Z v)) as (l & -> & Hl). cbn [hsl_h hsl_s hsl_l].
  rewrite (hslToRgb_Qeq 0 _ boost).
  2: { unfold clamp01, Math_max, Math_min.
       rewrite Q.min_r by lra. rewrite Q.max_r by lra. ring. }
  rewrite hslToRgb_red_hue by lra. cbv zeta.
  set (q := if Qltb l 0.5 then l * (1 + boost) else l + boost - l * boost).
  apply byte_in_Q in Hv as HV.
  assert (Hq : q * 255 == inject_Z v + boost * m).
  { subst q m. destruct (Qltb l 0.5) eqn:E.
    - apply Qltb_lt in E.
      assert (Hm : (v <= 255 - v)%Z).
      { assert (A : inject_Z v < inject_Z 128) by (change (inject_Z 128) with 128; lra).
        rewrite <- Zlt_Qlt in A. lia. }
      rewrite Z.min_l by lia. nra.
    - apply Qltb_ge in E.
      assert (Hm : (255 - v <= v)%Z).
      { assert (A : inject_Z 127 < inject_Z v) by (change (inject_Z 127) with 127; lra).
        rewrite <- Zlt_Qlt in A. lia. }
      rewrite Z.min_r by lia.
      unfold Z.sub. rewrite inject_Z_plus, inject_Z_opp.
      change (inject_Z 255) with 255. nra. }
  exists (q * 255), ((2 * l - q) * 255). split; [ | split; [exact Hq | nra]].
  f_equal. unfold Math_round. apply Qfloor_comp. ring.
Qed.

Lemma toUint8Clamp_monotone (x y : Q) : x <= y -> (toUint8Clamp x <= toUint8Clamp y)%Z.
Proof.
  intros Hxy.
  destruct (Qlt_le_dec 0 x) as [Hx0 | Hx0].
  2: { rewrite (toUint8Clamp_low x Hx0). apply toUint8Clamp_range. }
  destruct (Qlt_le_dec y 255) as [Hy1 | Hy1].
  2: { rewrite (toUint8Clamp_high y Hy1). apply toUint8Clamp_range. }
  unfold toUint8Clamp.
  destruct (Qle_bool x 0) eqn:A; [apply Qle_bool_iff in A; lra | ].
  destruct (Qle_bool 255 x) eqn:B; [apply Qle_bool_iff in B; lra | ].
  destruct (Qle_bool y 0) eqn:C; [apply Qle_bool_iff in C; lra | ].
  destruct (Qle_bool 255 y) eqn:D; [apply Qle_bool_iff in D; lra | ].
  cbv zeta.
  pose proof (Qfloor_resp_le x y Hxy) as Hf.
  destruct (Z.eq_dec (Qfloor x) (Qfloor y)) as [E | E].
  - rewrite E.
    assert (Hfr : x - inject_Z (Qfloor y) <= y - inject_Z (Qfloor y)) by lra.
    set (a := x - inject_Z (Qfloor y)) in *. set (b := y - inject_Z (Qfloor y)) in *.
    destruct (Qltb a 0.5) eqn:Ea; destruct (Qltb b 0.5) eqn:Eb;
      destruct (Qltb 0.5 a) eqn:Fa; destruct (Qltb 0.5 b) eqn:Fb;
      rewrite ?Qltb_lt, ?Qltb_ge in *; try lra; try lia;
      destruct (Z.even (Qfloor y)); lia.
  - assert (Hlt : (Qfloor x + 1 <= Qfloor y)%Z) by lia.
    repeat match goal with
    | |- context [if ?c then _ else _] => destruct c
    end; lia.
Qed.

Lemma quantize_monotone (step : Q) (u v : Z) :
  0 < step -> (u <= v)%Z -> quantize step u <= quantize step v.
Proof.
  intros Hs Huv. unfold quantize, Math_round.
  assert (Hq : inject_Z u / step <= inject_Z v / step).
  { apply Qmult_le_compat_r; [now rewrite <- Zle_Qle | ].
    apply Qlt_le_weak, Qinv_lt_0_compat, Hs. }
  assert (Hf : (Qfloor (inject_Z u / step + (1 # 2)) <= Qfloor (inject_Z v / step + (1 # 2)))%Z)
    by (apply Qfloor_resp_le; lra).
  rewrite Zle_Qle in Hf. nra.
Qed.

(** X10.  The saturation boost tints greys.  For a grey pixel [v v v] and
    a boost [b] in (0, 1] with [b * min(v, 255 - v) >= 1], the colour
    [posterizeAndSaturate] goes on to quantise has a red channel above [v]
    and green and blue channels, equal to each other, below [v]; in the
    bytes stored green and blue are equal and never above red. *)
Theorem boost_tints_grey (d : list Z) (L : Z) (boost : Q) (k : nat) (v : Z) :
  Forall is_byte d -> (length d mod 4 = 0)%nat -> (k < length d / 4)%nat ->
  d !! (4 * k)%nat = Some v -> d !! (4 * k + 1)%nat = Some v ->
  d !! (4 * k + 2)%nat = Some v ->
  0 < boost <= 1 -> 1 <= boost * inject_Z (Z.min v (255 - v)) ->
  let c := boosted boost v v v in
  let out := posterize_data d L boost in
  rgb_g c = rgb_b c /\ (rgb_g c < v < rgb_r c)%Z /\
  exists R G, out !! (4 * k)%nat = Some R /\ out !! (4 * k + 1)%nat = Some G /\
    out !! (4 * k + 2)%nat = Some G /\ (G <= R)%Z.
Proof.
  intros Hbytes Hlen Hk H0 H1 H2 Hb Hm c out.
  pose proof (Forall_lookup_1 _ _ _ _ Hbytes H0) as Hv.
  destruct (boosted_grey boost v Hv Hb) as (r & g & E & Hr & Hg). cbv zeta in Hr, Hg.
  assert (Hlo : (Math_round g <= v - 1)%Z).
  { apply Math_round_below. unfold Z.sub. rewrite inject_Z_plus.
    change (inject_Z (- (1))) with (-1). lra. }
  assert (Hhi : (v + 1 <= Math_round r)%Z).
  { apply Math_round_above. rewrite inject_Z_plus. change (inject_Z 1) with 1. lra. }
  assert (Hin : (4 * k + 3 < length d)%nat).
  { pose proof (Nat.div_mod_eq (length d) 4). lia. }
  split; [subst c; rewrite E; reflexivity | ].
  split; [subst c; rewrite E; cbn [rgb_r rgb_g]; lia | ].
  pose proof (posterize_data_lookup d L boost k 0 Hin ltac:(lia)) as O0.
  pose proof (posterize_data_lookup d L boost k 1 Hin ltac:(lia)) as O1.
  pose proof (posterize_data_lookup d L boost k 2 Hin ltac:(lia)) as O2.
  rewrite Nat.add_0_r in O0. cbv zeta in O0, O1, O2.
  rewrite (list_lookup_total_correct _ _ _ H0), (list_lookup_total_correct _ _ _ H1),
    (list_lookup_total_correct _ _ _ H2) in O0, O1, O2.
  unfold poster_rgb in O0, O1, O2. cbv zeta in O0, O1, O2.
  cbn [fst snd] in O0, O1, O2. rewrite E in O0, O1, O2.
  cbn [rgb_r rgb_g rgb_b] in O0, O1, O2.
  eexists _, _. split; [exact O0 | ]. split; [exact O1 | ]. split; [exact O2 | ].
  destruct (posterize_step_size_spec L) as (_ & _ & Hpos).
  apply toUint8Clamp_monotone, quantize_monotone; [exact Hpos | lia].
Qed.

Lemma boost_tints_grey_witness :
  let d := [128; 128; 128; 255]%Z in
  let c := boosted 0.3 128 128 128 in
  let out := posterize_data d 6 0.3 in
  rgb_g c = rgb_b c /\ (rgb_g c < 128 < rgb_r c)%Z /\
  exists R G, out !! (4 * 0)%nat = Some R /\ out !! (4 * 0 + 1)%nat = Some G /\
    out !! (4 * 0 + 2)%nat = Some G /\ (G <= R)%Z.
Proof.
  apply (boost_tints_grey [128; 128; 128; 255]%Z 6 0.3 0 128).
  - repeat constructor; unfold is_byte; lia.
  - reflexivity.
  - cbn. lia.
  - reflexivity.
  - reflexivity.
  - reflexivity.
  - lra.
  - vm_compute. discriminate.
Defined.

(** The stylised picture of a mid grey at the default settings (6 levels,
    boost 0.3) is a brick red. *)
Example posterize_grey_pixel :
  posterize_data [128; 128; 128; 255]%Z 6 0.3 = [153; 102; 102; 255]%Z.
Proof. vm_compute. reflexivity. Qed.

(** ** Sizes: [fitWithin] *)

(** [fitWithin], for a picture whose sides [w], [h] are above 0 (with a
    side of 0 the source divides by 0).  The sides it returns are whole
    numbers. *)
Definition fitWithin (w h maxW maxH : Q) : Z * Z :=
  let r := Math_min3 (maxW / w) (maxH / h) 1 in
  (Z.max 1 (Math_round (w * r)), Z.max 1 (Math_round (h * r))).

Example fitWithin_sample : fitWithin 1024 512 256 256 = (256, 128)%Z.
Proof. vm_compute. reflexivity. Qed.

Lemma Math_round_monotone (x y : Q) : x <= y -> (Math_round x <= Math_round y)%Z.
Proof.
  intros H. unfold Math_round. apply Qfloor_resp_le. lra.
Qed.

Lemma Math_round_Z (z : Z) : Math_round (inject_Z z) = z.
Proof. apply Math_round_inject. reflexivity. Qed.

Lemma inject_Z_pos (z : Z) : (1 <= z)%Z -> 1 <= inject_Z z.
Proof. intros H. change 1 with (inject_Z 1). now rewrite <- Zle_Qle. Qed.

(** The scale [fitWithin] applies. *)
Lemma fit_scale (w h maxW maxH : Q) :
  0 < w -> 0 < h -> 0 < maxW -> 0 < maxH ->
  let r := Math_min3 (maxW / w) (maxH / h) 1 in
  0 < r <= 1 /\ w * r <= maxW /\ h * r <= maxH /\
  (w <= maxW -> h <= maxH -> r == 1) /\
  (maxW < w \/ maxH < h -> w * r == maxW \/ h * r == maxH).
Proof.
  intros Hw Hh HW HH r.
  set (a := maxW / w) in *. set (b := maxH / h) in *.
  assert (Ha : a * w == maxW) by (subst a; field; lra).
  assert (Hb : b * h == maxH) by (subst b; field; lra).
  assert (Ha0 : 0 < a) by nra. assert (Hb0 : 0 < b) by nra.
  assert (Hra : r <= a) by apply Q.le_min_l.
  assert (Hrb : r <= b).
  { subst r. unfold Math_min3. eapply Qle_trans; [apply Q.le_min_r | apply Q.le_min_l]. }
  assert (Hr1 : r <= 1).
  { subst r. unfold Math_min3. eapply Qle_trans; [apply Q.le_min_r | apply Q.le_min_r]. }
  assert (Hor : r == a \/ r == b \/ r == 1).
  { subst r. unfold Math_min3.
    destruct (Q.min_spec a (Qmin b 1)) as [[_ E] | [_ E]]; [left; exact E | ].
    destruct (Q.min_spec b 1) as [[_ E'] | [_ E']];
      [right; left | right; right]; rewrite E; exact E'. }
  clearbody r.
  split; [split; [destruct Hor as [E | [E | E]]; lra | exact Hr1] | ].
  split; [nra | ]. split; [nra | ]. split.
  - intros H1 H2. destruct Hor as [E | [E | E]]; [ | | exact E]; nra.
  - intros [H | H]; destruct Hor as [E | [E | E]];
      try (left; nra); try (right; nra); exfalso; nra.
Qed.

Lemma fitWithin_bounds (w h maxW maxH : Z) :
  (1 <= w)%Z -> (1 <= h)%Z -> (1 <= maxW)%Z -> (1 <= maxH)%Z ->
  let s := fitWithin (inject_Z w) (inject_Z h) (inject_Z maxW) (inject_Z maxH) in
  (1 <= s.1 <= Z.min w maxW)%Z /\ (1 <= s.2 <= Z.min h maxH)%Z /\
  ((w <= maxW)%Z -> (h <= maxH)%Z -> s = (w, h)) /\
  ((maxW < w)%Z \/ (maxH < h)%Z -> s.1 = maxW \/ s.2 = maxH).
Proof.
  intros Hw Hh HW HH s.
  pose proof (inject_Z_pos w Hw) as Qw. pose proof (inject_Z_pos h Hh) as Qh.
  pose proof (inject_Z_pos maxW HW) as QW. pose proof (inject_Z_pos maxH HH) as QH.
  destruct (fit_scale (inject_Z w) (inject_Z h) (inject_Z maxW) (inject_Z maxH))
    as (Hr & Hrw & Hrh & Hid & Htouch); try lra.
  subst s. unfold fitWithin. cbv zeta. cbn [fst snd].
  set (r := Math_min3 (inject_Z maxW / inject_Z w) (inject_Z maxH / inject_Z h) 1) in *.
  assert (Aw : (Math_round (inject_Z w * r) <= w)%Z)
    by (apply Math_round_below; nra).
  assert (AW : (Math_round (inject_Z w * r) <= maxW)%Z)
    by (apply Math_round_below; exact Hrw).
  assert (Ah : (Math_round (inject_Z h * r) <= h)%Z)
    by (apply Math_round_below; nra).
  assert (AH : (Math_round (inject_Z h * r) <= maxH)%Z)
    by (apply Math_round_below; exact Hrh).
  split; [lia | ]. split; [lia | ]. split.
  - intros H1 H2. rewrite Zle_Qle in H1, H2. specialize (Hid H1 H2).
    rewrite (Math_round_inject (inject_Z w * r) w) by (rewrite Hid; ring).
    rewrite (Math_round_inject (inject_Z h * r) h) by (rewrite Hid; ring).
    f_equal; lia.
  - intros H.
    assert (H' : inject_Z maxW < inject_Z w \/ inject_Z maxH < inject_Z h).
    { destruct H as [H | H]; [left | right]; now rewrite <- Zlt_Qlt. }
    destruct (Htouch H') as [E | E]; [left | right].
    + rewrite (Math_round_inject _ maxW E). lia.
    + rewrite (Math_round_inject _ maxH E). lia.
Qed.

(** X11.  [fitWithin] on a picture of [w] by [h] pixels and bounds [maxW],
    [maxH], all at least 1: both sides returned are at least 1 and within
    the bound and the side of the picture (it never enlarges); a picture
    that fits comes back as it is; one that does not has a side equal to
    its bound. *)
Theorem fitWithin_fits (w h maxW maxH : Z) :
  (1 <= w)%Z -> (1 <= h)%Z -> (1 <= maxW)%Z -> (1 <= maxH)%Z ->
  let s := fitWithin (inject_Z w) (inject_Z h) (inject_Z maxW) (inject_Z maxH) in
  (1 <= s.1 <= Z.min w maxW)%Z /\ (1 <= s.2 <= Z.min h maxH)%Z /\
  ((w <= maxW)%Z -> (h <= maxH)%Z -> s = (w, h)) /\
  ((maxW < w)%Z \/ (maxH < h)%Z -> s.1 = maxW \/ s.2 = maxH).
Proof.
  exact (fitWithin_bounds w h maxW maxH).
Qed.

Lemma fitWithin_fits_witness :
  let s := fitWithin (inject_Z 1024) (inject_Z 512) (inject_Z 256) (inject_Z 256) in
  (1 <= s.1 <= Z.min 1024 256)%Z /\ (1 <= s.2 <= Z.min 512 256)%Z /\
  ((1024 <= 256)%Z -> (512 <= 256)%Z -> s = (1024, 512)%Z) /\
  ((256 < 1024)%Z \/ (256 < 512)%Z -> s.1 = 256%Z \/ s.2 = 256%Z).
Proof.
  apply (fitWithin_fits 1024 512 256 256); lia.
Defined.

(** ** ProfileAnalysis: [samplePixelsAndStats], [average], [stddev] *)

Definition average (arr : list Q) : Q :=
  match arr with
  | [] => 0
  | _ => foldl Qplus 0 arr / inject_Z (Z.of_nat (length arr))
  end.

Record SampleStats := mkSampleStats {
  samples : list RGB;
  meanSat : Q;
  satStd : Q;
  contrastIdx : Q
}.

Section Sampling.

Variable Math_sqrt : Q -> Q.

Definition stddev (arr : list Q) (mean : Q) : Q :=
  match arr with
  | [] => 0
  | _ =>
      let v := foldl (fun acc x => acc + (x - mean) ^ 2) 0 arr
               / inject_Z (Z.of_nat (length arr)) in
      Math_sqrt v
  end.

(** The stride of the sampling loop, in pixels; [None] when [maxSamples] is
    0 and the quotient is not a finite number. *)
Definition sample_step (len : nat) (maxSamples : Z) : option Z :=
  if (maxSamples =? 0)%Z then None
  else Some (Z.max 1 (Math_floor (inject_Z (Z.of_nat len) / 4 / inject_Z maxSamples))).

(** The values of [i] in [for (let i = 0; i < d.length; i += 4 * step)].
    With a stride that is not finite only [i = 0] is visited, and with
    [NaN], the stride for an empty buffer, nothing is. *)
Definition sample_offsets (len : nat) (step : option Z) : list nat :=
  match step with
  | Some step =>
      let s := (4 * Z.to_nat step)%nat in
      (fun k => s * k)%nat <$> seq 0 ((len + s - 1) / s)
  | None => if (0 <? len)%nat then [0%nat] else []
  end.

(** [samplePixelsAndStats], for the bytes of an [ImageData], which come in
    fours. *)
Definition samplePixelsAndStats (d : list Z) (maxSamples : Z) : SampleStats :=
  let step := sample_step (length d) maxSamples in
  let '(samples, sats, lums) :=
    foldl (fun '(samples, sats, lums) i =>
             let r := d !!! i in
             let g := d !!! (i + 1)%nat in
             let b := d !!! (i + 2)%nat in
             let x := rgbToHsl (inject_Z r) (inject_Z g) (inject_Z b) in
             (samples ++ [mkRGB r g b], sats ++ [hsl_s x], lums ++ [hsl_l x]))
          ([], [], []) (sample_offsets (length d) step) in
  let meanSat := average sats in
  let satStd := stddev sats meanSat in
  let contrastIdx := stddev lums (average lums) in
  mkSampleStats samples meanSat satStd contrastIdx.

End Sampling.

Example sample_stride :
  sample_step 600 100 = Some 1%Z /\
  length (sample_offsets 600 (Some 1%Z)) = 150%nat.
Proof. vm_compute. split; reflexivity. Qed.

Lemma Qfloor_div (a b : Z) :
  (0 < b)%Z -> Qfloor (inject_Z a / inject_Z b) = (a / b)%Z.
Proof.
  intros Hb. pose proof (Z.div_mod a b ltac:(lia)) as Hdm.
  pose proof (Z.mod_pos_bound a b Hb) as Hm.
  assert (Qb : 0 < inject_Z b) by (change 0 with (inject_Z 0); now rewrite <- Zlt_Qlt).
  set (x := inject_Z a / inject_Z b).
  assert (Hx : x * inject_Z b == inject_Z a) by (subst x; field; lra).
  assert (Ha : inject_Z a == inject_Z b * inject_Z (a / b) + inject_Z (a mod b)).
  { rewrite <- inject_Z_mult, <- inject_Z_plus, <- Hdm. reflexivity. }
  assert (Hr0 : 0 <= inject_Z (a mod b))
    by (change 0 with (inject_Z 0); rewrite <- Zle_Qle; lia).
  assert (Hr1 : inject_Z (a mod b) < inject_Z b) by (rewrite <- Zlt_Qlt; lia).
  apply Qfloor_unique.
  - nra.
  - rewrite inject_Z_plus. change (inject_Z 1) with 1. nra.
Qed.

Lemma sample_step_pixels (n : nat) (m : Z) :
  (1 <= m)%Z ->
  sample_step (4 * n) m = Some (Z.of_nat (Nat.max 1 (n / Z.to_nat m))).
Proof.
  intros Hm. unfold sample_step.
  destruct (Z.eqb_spec m 0) as [-> | _]; [lia | ]. f_equal.
  unfold Math_floor.
  assert (E : inject_Z (Z.of_nat (4 * n)) / 4 / inject_Z m
              == inject_Z (Z.of_nat n) / inject_Z m).
  { rewrite Nat2Z.inj_mul, inject_Z_mult. change (inject_Z (Z.of_nat 4)) with 4.
    assert (0 < inject_Z m) by (change 0 with (inject_Z 0); rewrite <- Zlt_Qlt; lia).
    field. lra. }
  rewrite (Qfloor_comp _ _ E), Qfloor_div by lia.
  rewrite Nat2Z.inj_max, Nat2Z.inj_div, Z2Nat.id by lia. reflexivity.
Qed.

(** The number of rounds of the sampling loop for [n] pixels and a stride of
    [s] pixels. *)
Lemma sample_rounds (n s : nat) :
  (1 <= s)%nat -> ((4 * n + 4 * s - 1) / (4 * s) = (n + s - 1) / s)%nat.
Proof.
  intros Hs.
  pose proof (Nat.div_mod_eq (n + s - 1) s) as E.
  pose proof (Nat.mod_upper_bound (n + s - 1) s ltac:(lia)) as Hr.
  symmetry. apply (Nat.div_unique _ _ _ (4 * ((n + s - 1) mod s) + 3)); lia.
Qed.

(** With the stride the source computes, at least [m] and fewer than
    [2 m] pixels are visited once there are [m] pixels. *)
Lemma sample_count (n m : nat) :
  (1 <= m)%nat ->
  let s := Nat.max 1 (n / m) in
  let c := ((n + s - 1) / s)%nat in
  ((n <= m)%nat -> s = 1%nat /\ c = n) /\ ((m <= n)%nat -> (m <= c < 2 * m)%nat).
Proof.
  intros Hm s c.
  pose proof (Nat.div_mod_eq n m) as En.
  pose proof (Nat.mod_upper_bound n m ltac:(lia)) as Hrn.
  assert (Hs : (1 <= s)%nat) by (subst s; lia).
  pose proof (Nat.div_mod_eq (n + s - 1) s) as Ec. fold c in Ec.
  pose proof (Nat.mod_upper_bound (n + s - 1) s ltac:(lia)) as Hrc.
  split.
  - intros Hle.
    assert (Hq : (n / m <= 1)%nat).
    { destruct (Nat.eq_dec n m) as [-> | Hne].
      - rewrite Nat.div_same by lia. lia.
      - rewrite Nat.div_small by lia. lia. }
    assert (E1 : s = 1%nat) by (subst s; lia).
    split; [exact E1 | ]. subst c. rewrite E1. rewrite Nat.div_1_r. lia.
  - intros Hle.
    assert (Hq : (1 <= n / m)%nat).
    { apply Nat.div_le_lower_bound; lia. }
    assert (E1 : s = (n / m)%nat) by (subst s; lia).
    rewrite <- E1 in En.
    split; nia.
Qed.

Lemma foldl_push3 {A B C D : Type} (f : D -> A) (g : D -> B) (h : D -> C)
    (l : list D) (a : list A) (b : list B) (c : list C) :
  foldl (fun '(a, b, c) i => (a ++ [f i], b ++ [g i], c ++ [h i])) (a, b, c) l
  = (a ++ (f <$> l), b ++ (g <$> l), c ++ (h <$> l)).
Proof.
  induction l as [ | i l IH] in a, b, c |- *; cbn [foldl fmap list_fmap].
  - now rewrite !app_nil_r.
  - rewrite IH, <- !app_assoc. reflexivity.
Qed.

(** The sum of numbers between [lo] and [hi]. *)
Lemma sum_bounds (lo hi : Q) (arr : list Q) (acc : Q) :
  Forall (fun x => lo <= x <= hi) arr ->
  acc + lo * inject_Z (Z.of_nat (length arr)) <= foldl Qplus acc arr
  /\ foldl Qplus acc arr <= acc + hi * inject_Z (Z.of_nat (length arr)).
Proof.
  intros H. induction H as [ | x arr [Hx0 Hx1] _ IH] in acc |- *.
  - cbn [foldl length]. change (inject_Z (Z.of_nat 0)) with 0. lra.
  - cbn [foldl length]. specialize (IH (acc + x)).
    rewrite Nat2Z.inj_succ. unfold Z.succ. rewrite inject_Z_plus.
    change (inject_Z 1) with 1. lra.
Qed.

Lemma average_bounds (lo hi : Q) (arr : list Q) :
  lo <= 0 <= hi -> Forall (fun x => lo <= x <= hi) arr -> lo <= average arr <= hi.
Proof.
  intros H0 H. unfold average. destruct arr as [ | x arr]; [exact H0 | ].
  set (l := x :: arr) in *.
  pose proof (sum_bounds lo hi l 0 H) as [A B].
  assert (Hn : 1 <= inject_Z (Z.of_nat (length l))).
  { apply inject_Z_pos. subst l. cbn [length]. lia. }
  set (n := inject_Z (Z.of_nat (length l))) in *.
  set (q := foldl Qplus 0 l / n).
  assert (Hq : q * n == foldl Qplus 0 l) by (subst q; field; lra).
  split; nra.
Qed.

Section SamplingFacts.

Variable Math_sqrt : Q -> Q.

Lemma samplePixelsAndStats_closed (d : list Z) (maxSamples : Z) :
  let offs := sample_offsets (length d) (sample_step (length d) maxSamples) in
  let hsl i := rgbToHsl (inject_Z (d !!! i)) (inject_Z (d !!! (i + 1)%nat))
                 (inject_Z (d !!! (i + 2)%nat)) in
  samples (samplePixelsAndStats Math_sqrt d maxSamples)
  = (fun i => mkRGB (d !!! i) (d !!! (i + 1)%nat) (d !!! (i + 2)%nat)) <$> offs /\
  meanSat (samplePixelsAndStats Math_sqrt d maxSamples)
  = average ((fun i => hsl_s (hsl i)) <$> offs).
Proof.
  intros offs hsl. unfold samplePixelsAndStats. cbv zeta. fold offs.
  rewrite (foldl_push3
             (fun i => mkRGB (d !!! i) (d !!! (i + 1)%nat) (d !!! (i + 2)%nat))
             (fun i => hsl_s (hsl i)) (fun i => hsl_l (hsl i))).
  cbn. split; reflexivity.
Qed.

Lemma samplePixelsAndStats_facts (d : list Z) (m : Z) :
  Forall is_byte d -> (length d mod 4 = 0)%nat -> (1 <= m)%Z ->
  let n := (length d / 4)%nat in
  let s := Nat.max 1 (n / Z.to_nat m) in
  let st := samplePixelsAndStats Math_sqrt d m in
  let c := length (samples st) in
  samples st = (fun k => pixel_at d (s * k)) <$> seq 0 c /\
  c = ((n + s - 1) / s)%nat /\
  ((n <= Z.to_nat m)%nat -> samples st = pixel_at d <$> seq 0 n) /\
  ((Z.to_nat m <= n)%nat -> (Z.to_nat m <= c < 2 * Z.to_nat m)%nat) /\
  Forall is_color (samples st) /\
  0 <= meanSat st <= 1.
Proof.
  intros Hbytes Hlen Hm n s st c.
  assert (Hd : length d = (4 * n)%nat).
  { subst n. pose proof (Nat.div_mod_eq (length d) 4). lia. }
  destruct (samplePixelsAndStats_closed d m) as [Es Em]. cbv zeta in Es, Em.
  fold st in Es, Em.
  rewrite Hd, sample_step_pixels in Es, Em by exact Hm. fold s in Es, Em.
  unfold sample_offsets in Es, Em. rewrite Nat2Z.id in Es, Em. cbv zeta in Es, Em.
  assert (Hs : (1 <= s)%nat) by (subst s; lia).
  rewrite sample_rounds in Es, Em by exact Hs.
  set (c' := ((n + s - 1) / s)%nat) in *.
  rewrite <- list_fmap_compose in Es, Em.
  assert (Hc : c = c').
  { subst c. rewrite Es, length_fmap, length_seq. reflexivity. }
  assert (Hinside : forall k, (k < c')%nat -> (4 * (s * k) + 3 < length d)%nat).
  { intros k Hk. subst c'.
    pose proof (Nat.div_mod_eq (n + s - 1) s) as E.
    pose proof (Nat.mod_upper_bound (n + s - 1) s ltac:(lia)) as Hr.
    assert (s * k < n)%nat by nia. lia. }
  assert (Hsamples : samples st = (fun k => pixel_at d (s * k)) <$> seq 0 c').
  { rewrite Es. apply list_fmap_ext. intros _ k _. unfold compose, pixel_at.
    f_equal; f_equal; lia. }
  destruct (sample_count n (Z.to_nat m) ltac:(lia)) as [Hsmall Hlarge].
  fold s in Hsmall, Hlarge. fold c' in Hsmall, Hlarge.
  split; [rewrite Hc; exact Hsamples | ].
  split; [exact Hc | ].
  split; [ | split; [rewrite Hc; exact Hlarge | split]].
  - intros Hle. destruct (Hsmall Hle) as [E1 E2].
    rewrite Hsamples, E2. apply list_fmap_ext. intros _ k _.
    rewrite E1, Nat.mul_1_l. reflexivity.
  - rewrite Hsamples. apply Forall_fmap, Forall_forall. intros k Hk.
    apply elem_of_seq in Hk. specialize (Hinside k ltac:(lia)).
    unfold pixel_at, is_color. cbn [rgb_r rgb_g rgb_b].
    split; [ | split];
      (eapply (Forall_lookup_1 is_byte); [exact Hbytes | ];
       apply list_lookup_lookup_total_lt; lia).
  - rewrite Em. apply average_bounds; [lra | ].
    apply Forall_fmap, Forall_forall. intros k Hk.
    apply elem_of_seq in Hk. specialize (Hinside k ltac:(lia)).
    unfold compose.
    assert (Hb : forall j, (j < length d)%nat -> 0 <= inject_Z (d !!! j) <= 255).
    { intros j Hj. apply byte_in_Q. eapply Forall_lookup_1; [exact Hbytes | ].
      apply list_lookup_lookup_total_lt; lia. }
    pose proof (rgbToHsl_bounds _ _ _ (Hb (4 * s * k)%nat ltac:(lia))
                  (Hb (4 * s * k + 1)%nat ltac:(lia))
                  (Hb (4 * s * k + 2)%nat ltac:(lia))) as B.
    cbv zeta in B. cbn beta. tauto.
Qed.

End SamplingFacts.

(** X13.  [samplePixelsAndStats] on the bytes of [n] pixels with
    [maxSamples = m >= 1] samples every [s]-th pixel from the first on,
    [s = max(1, floor(n / m))]: all pixels when [n <= m]; otherwise at least
    [m] and fewer than [2 m] of them, so [maxSamples] is not an upper bound
    (150 pixels with [maxSamples = 100] give 150 samples).
    Every sample is a colour and the mean saturation lies in [0,1]. *)
Theorem samplePixelsAndStats_samples (Math_sqrt : Q -> Q) (d : list Z) (m : Z) :
  Forall is_byte d -> (length d mod 4 = 0)%nat -> (1 <= m)%Z ->
  let n := (length d / 4)%nat in
  let s := Nat.max 1 (n / Z.to_nat m) in
  let st := samplePixelsAndStats Math_sqrt d m in
  let c := length (samples st) in
  samples st = (fun k => pixel_at d (s * k)) <$> seq 0 c /\
  c = ((n + s - 1) / s)%nat /\
  ((n <= Z.to_nat m)%nat -> samples st = pixel_at d <$> seq 0 n) /\
  ((Z.to_nat m <= n)%nat -> (Z.to_nat m <= c < 2 * Z.to_nat m)%nat) /\
  Forall is_color (samples st) /\
  0 <= meanSat st <= 1.
Proof.
  exact (samplePixelsAndStats_facts Math_sqrt d m).
Qed.

Lemma samplePixelsAndStats_samples_witness :
  let d := [10; 100; 200; 255; 128; 128; 128; 255; 0; 0; 0; 255]%Z in
  let n := (length d / 4)%nat in
  let s := Nat.max 1 (n / Z.to_nat 2) in
  let st := samplePixelsAndStats (fun x => x) d 2 in
  let c := length (samples st) in
  samples st = (fun k => pixel_at d (s * k)) <$> seq 0 c /\
  c = ((n + s - 1) / s)%nat /\
  ((n <= Z.to_nat 2)%nat -> samples st = pixel_at d <$> seq 0 n) /\
  ((Z.to_nat 2 <= n)%nat -> (Z.to_nat 2 <= c < 2 * Z.to_nat 2)%nat) /\
  Forall is_color (samples st) /\
  0 <= meanSat st <= 1.
Proof.
  apply (samplePixelsAndStats_samples (fun x => x)
           [10; 100; 200; 255; 128; 128; 128; 255; 0; 0; 0; 255]%Z 2).
  - repeat constructor; unfold is_byte; lia.
  - reflexivity.
  - lia.
Defined.

(** ** EdgeDetector: the threshold, flat neighbourhoods, the edge density *)

(** Every byte of the mask: the alpha byte of an interior pixel holds its
    verdict and all the others hold 0. *)
Lemma sobelEdges_bytes (d : list Z) (w h : Z) (T : Q) (x y c : Z) :
  (0 <= x < w)%Z -> (0 <= y < h)%Z -> (0 <= c < 4)%Z ->
  sobelEdges d w h T !! Z.to_nat (idx w x y + c)
  = Some (if decide (c = 3%Z /\ (x, y) ∈ interior_positions w h)
          then edge_alpha d w T x y else 0%Z).
Proof.
  intros Hx Hy Hc. rewrite sobelEdges_positions.
  set (o := replicate (Z.to_nat (w * h * 4)) 0%Z).
  assert (Ho : length o = Z.to_nat (w * h * 4)) by apply length_replicate.
  assert (Hall : Forall (in_picture w h) (interior_positions w h)).
  { apply Forall_forall. intros [x' y'] Hin.
    apply elem_of_interior_positions in Hin. destruct Hin. split; cbn; lia. }
  destruct (sobel_writes d w h T (interior_positions w h) o Ho Hall) as [Hin Hout].
  assert (Hzero : o !! Z.to_nat (idx w x y + c) = Some 0%Z).
  { subst o. apply lookup_replicate_2.
    pose proof (idx_in_range w h x y c Hx Hy Hc). lia. }
  destruct (decide ((x, y) ∈ interior_positions w h)) as [Hi | Hni].
  - destruct (Hin x y Hi) as [Ha Hcol].
    destruct (decide (c = 3%Z)) as [-> | Hc3].
    + rewrite Ha. destruct (decide _) as [_ | N]; [reflexivity | tauto].
    + rewrite Hcol by lia. destruct (decide _) as [[E _] | _]; [lia | reflexivity].
  - rewrite Hout by assumption. rewrite Hzero.
    destruct (decide _) as [[_ E] | _]; [contradiction | reflexivity].
Qed.

Lemma Math_sqrt_gt_antitone (v t1 t2 : Q) :
  t1 <= t2 -> Math_sqrt_gt v t2 = true -> Math_sqrt_gt v t1 = true.
Proof.
  intros Ht. unfold Math_sqrt_gt.
  destruct (Qltb t2 0) eqn:E2; [apply Qltb_lt in E2 | apply Qltb_ge in E2];
    (destruct (Qltb t1 0) eqn:E1; [reflexivity | apply Qltb_ge in E1]).
  - lra.
  - rewrite !Qltb_lt. intros H. nra.
Qed.

Lemma isEdge_antitone (d : list Z) (w : Z) (T1 T2 : Q) (x y : Z) :
  T1 <= T2 -> isEdge d w T2 x y = true -> isEdge d w T1 x y = true.
Proof.
  intros HT. unfold isEdge. destruct (sobel_sums d w x y) as [[sx | ] [sy | ]]; auto.
  apply Math_sqrt_gt_antitone, HT.
Qed.

Lemma sobelEdges_antitone (d : list Z) (w h : Z) (T1 T2 : Q) (x y c : Z) :
  T1 <= T2 -> (0 <= x < w)%Z -> (0 <= y < h)%Z -> (0 <= c < 4)%Z ->
  sobelEdges d w h T2 !! Z.to_nat (idx w x y + c) = Some 255%Z ->
  sobelEdges d w h T1 !! Z.to_nat (idx w x y + c) = Some 255%Z.
Proof.
  intros HT Hx Hy Hc. rewrite !sobelEdges_bytes by assumption.
  destruct (decide _) as [_ | _]; [ | discriminate].
  unfold edge_alpha. destruct (isEdge d w T2 x y) eqn:E; [ | discriminate].
  rewrite (isEdge_antitone d w T1 T2 x y HT E). reflexivity.
Qed.

(** X14.  Lowering the threshold of [sobelEdges] never removes an edge: a
    byte of the mask that is 255 at the threshold [T2] is 255 at every
    threshold [T1 <= T2] (so a larger outline weight, which lowers the
    threshold [100 - 80 * outlineWeight] of [stylize], only adds ink). *)
Theorem sobelEdges_threshold (d : list Z) (w h : Z) (T1 T2 : Q) (x y c : Z) :
  T1 <= T2 -> (0 <= x < w)%Z -> (0 <= y < h)%Z -> (0 <= c < 4)%Z ->
  sobelEdges d w h T2 !! Z.to_nat (idx w x y + c) = Some 255%Z ->
  sobelEdges d w h T1 !! Z.to_nat (idx w x y + c) = Some 255%Z.
Proof.
  exact (sobelEdges_antitone d w h T1 T2 x y c).
Qed.

Lemma sobelEdges_threshold_witness :
  let px (v : Z) := [v; v; v; 255%Z] in
  let row := px 0%Z ++ px 0%Z ++ px 255%Z ++ px 255%Z in
  let d := row ++ row ++ row in
  sobelEdges d 4 3 20 !! Z.to_nat (idx 4 1 1 + 3) = Some 255%Z.
Proof.
  cbv zeta. apply (sobelEdges_threshold _ 4 3 20 100 1 1 3).
  - lra.
  - lia.
  - lia.
  - lia.
  - vm_compute. reflexivity.
Defined.

(** The gradient of an interior pixel whose 3 x 3 neighbourhood has one
    luminance is 0. *)
Lemma flat_gradient (d : list Z) (w x y : Z) (lum : Q) :
  (forall i j, (-1 <= i <= 1)%Z -> (-1 <= j <= 1)%Z ->
     luminance d w (x + i) (y + j) == lum) ->
  gradient_x d w x y == 0 /\ gradient_y d w x y == 0.
Proof.
  intros H. unfold gradient_x, gradient_y. cbv zeta.
  rewrite !H by lia. split; ring.
Qed.

(** [estimateEdgeDensity]; [d] holds the bytes [sobelEdges] reads from the
    temporary canvas, for a picture with [w], [h] above 0. *)
Definition estimateEdgeDensity (d : list Z) (w h : Z) : Q :=
  let edges := sobelEdges d w h 50 in
  let count :=
    foldl (fun count i => if (0 <? edges !!! i)%Z then (count + 1)%Z else count)
      0%Z ((fun k => (4 * k + 3)%nat) <$> seq 0 (length edges / 4)) in
  inject_Z count / (inject_Z w * inject_Z h).

Example edge_density_sample :
  let px (v : Z) := [v; v; v; 255%Z] in
  let row := px 0%Z ++ px 0%Z ++ px 255%Z ++ px 255%Z in
  estimateEdgeDensity (row ++ row ++ row) 4 3 == 1 # 6.
Proof. vm_compute. reflexivity. Qed.

Lemma count_fold (edges : list Z) (l : list nat) (acc : Z) :
  foldl (fun count i => if (0 <? edges !!! i)%Z then (count + 1)%Z else count)
    acc ((fun k => (4 * k + 3)%nat) <$> l)
  = (acc + Z.of_nat (length (filter (fun k => (0 < edges !!! (4 * k + 3)%nat)%Z) l)))%Z.
Proof.
  induction l as [ | k l IH] in acc |- *; [cbn; lia | ].
  cbn [fmap list_fmap foldl]. rewrite IH, filter_cons.
  destruct (Z.ltb_spec 0 (edges !!! (4 * k + 3)%nat)); case_decide; cbn [length]; lia.
Qed.

Lemma length_bind_const {A B : Type} (f : A -> list B) (l : list A) (c : nat) :
  (forall a, length (f a) = c) -> length (l ≫= f) = (length l * c)%nat.
Proof.
  intros H. induction l as [ | a l IH]; [reflexivity | ].
  cbn [mbind list_bind length]. rewrite length_app, H.
  change (length (l ≫= f) = (length l * c)%nat) in IH. rewrite IH. lia.
Qed.

Lemma length_interior_positions (w h : Z) :
  length (interior_positions w h) = (Z.to_nat (h - 2) * Z.to_nat (w - 2))%nat.
Proof.
  unfold interior_positions.
  rewrite (length_bind_const _ _ (Z.to_nat (w - 2))).
  - rewrite length_seqZ. reflexivity.
  - intros y. rewrite length_fmap, length_seqZ. reflexivity.
Qed.

(** The pixels counted are interior pixels. *)
Lemma edge_count_bound (d : list Z) (w h : Z) (T : Q) :
  (1 <= w)%Z -> (1 <= h)%Z ->
  let edges := sobelEdges d w h T in
  (length (filter (fun k => (0 < edges !!! (4 * k + 3)%nat)%Z) (seq 0 (length edges / 4)))
   <= Z.to_nat (h - 2) * Z.to_nat (w - 2))%nat.
Proof.
  intros Hw Hh edges.
  rewrite <- length_interior_positions.
  rewrite <- (length_fmap (fun p : Z * Z => Z.to_nat (p.2 * w + p.1)) (interior_positions w h)).
  apply submseteq_length, NoDup_submseteq; [apply NoDup_filter, NoDup_seq | ].
  intros k Hk. apply list_elem_of_filter in Hk as [Hpos Hk].
  apply elem_of_seq in Hk.
  assert (Hlen : length edges = Z.to_nat (w * h * 4)).
  { subst edges. rewrite sobelEdges_positions, sobel_writes_length.
    apply length_replicate. }
  assert (Hkn : (Z.of_nat k < w * h)%Z).
  { destruct Hk as [_ Hk]. rewrite Hlen in Hk.
    assert (E : Z.to_nat (w * h * 4) = (Z.to_nat (w * h) * 4)%nat) by nia.
    rewrite E, Nat.div_mul in Hk by lia. nia. }
  set (x := (Z.of_nat k mod w)%Z). set (y := (Z.of_nat k / w)%Z).
  pose proof (Z.div_mod (Z.of_nat k) w ltac:(lia)) as Ek. fold x y in Ek.
  assert (Hx : (0 <= x < w)%Z) by (apply Z.mod_pos_bound; lia).
  assert (Hy : (0 <= y < h)%Z).
  { split; [apply Z.div_pos; lia | apply Z.div_lt_upper_bound; nia]. }
  assert (Ei : (4 * k + 3)%nat = Z.to_nat (idx w x y + 3)).
  { unfold idx. nia. }
  pose proof (sobelEdges_bytes d w h T x y 3 Hx Hy ltac:(lia)) as Hb.
  fold edges in Hb. rewrite <- Ei in Hb.
  rewrite (list_lookup_total_correct _ _ _ Hb) in Hpos.
  destruct (decide _) as [[_ Hin] | _]; [ | lia].
  apply list_elem_of_fmap. exists (x, y). split; [cbn [fst snd]; nia | exact Hin].
Qed.

Lemma estimateEdgeDensity_bounds (d : list Z) (w h : Z) :
  (1 <= w)%Z -> (1 <= h)%Z ->
  let e := estimateEdgeDensity d w h in
  0 <= e /\ e < 1 /\
  e * (inject_Z w * inject_Z h) <= inject_Z (Z.max 0 (w - 2) * Z.max 0 (h - 2)).
Proof.
  intros Hw Hh e. subst e. unfold estimateEdgeDensity. cbv zeta.
  rewrite count_fold.
  pose proof (edge_count_bound d w h 50 Hw Hh) as Hc. cbv zeta in Hc.
  set (c := length _) in *. rewrite Z.add_0_l.
  pose proof (inject_Z_pos w Hw) as Qw. pose proof (inject_Z_pos h Hh) as Qh.
  assert (Hc0 : 0 <= inject_Z (Z.of_nat c)).
  { change 0 with (inject_Z 0). rewrite <- Zle_Qle. lia. }
  assert (Hc1 : inject_Z (Z.of_nat c) <= inject_Z (Z.max 0 (w - 2) * Z.max 0 (h - 2))).
  { rewrite <- Zle_Qle. nia. }
  assert (Hc2 : inject_Z (Z.max 0 (w - 2) * Z.max 0 (h - 2)) < inject_Z w * inject_Z h).
  { rewrite <- inject_Z_mult, <- Zlt_Qlt. nia. }
  set (q := inject_Z (Z.of_nat c) / (inject_Z w * inject_Z h)).
  assert (Hq : q * (inject_Z w * inject_Z h) == inject_Z (Z.of_nat c)).
  { subst q. field. nra. }
  assert (Hwh : 1 <= inject_Z w * inject_Z h) by nra.
  repeat split; nra.
Qed.

(** X16.  [estimateEdgeDensity] on a picture of [w] by [h] pixels returns a
    number from 0 to below 1: at most the share of interior pixels,
    [(w - 2)(h - 2) / (w h)], since border pixels are never counted. *)
Theorem estimateEdgeDensity_range (d : list Z) (w h : Z) :
  (1 <= w)%Z -> (1 <= h)%Z ->
  let e := estimateEdgeDensity d w h in
  0 <= e /\ e < 1 /\
  e * (inject_Z w * inject_Z h) <= inject_Z (Z.max 0 (w - 2) * Z.max 0 (h - 2)).
Proof.
  exact (estimateEdgeDensity_bounds d w h).
Qed.

Lemma estimateEdgeDensity_range_witness :
  let px (v : Z) := [v; v; v; 255%Z] in
  let row := px 0%Z ++ px 0%Z ++ px 255%Z ++ px 255%Z in
  let e := estimateEdgeDensity (row ++ row ++ row) 4 3 in
  0 <= e /\ e < 1 /\
  e * (inject_Z 4 * inject_Z 3) <= inject_Z (Z.max 0 (4 - 2) * Z.max 0 (3 - 2)).
Proof.
  cbv zeta. apply (estimateEdgeDensity_range _ 4 3); lia.
Defined.

(** ** PaletteExtractor: [kmeansPalette] *)

(** An entry of [sums]. *)
Record Sums := mkSums { sum_r : Z; sum_g : Z; sum_b : Z; sum_c : Z }.

(** The key of the final sort. *)
Definition luma (c : RGB) : Q :=
  0.2126 * inject_Z (rgb_r c) + 0.7152 * inject_Z (rgb_g c) + 0.0722 * inject_Z (rgb_b c).

(** [Array.prototype.sort] with the comparator [luma a - luma b]: the sort
    is stable, so its result is the one of any stable sort; here insertion
    from the right, an entry going before the entries that do not compare
    below it. *)
Fixpoint sort_insert (x : RGB) (l : list RGB) : list RGB :=
  match l with
  | [] => [x]
  | y :: l' => if Qltb (luma y - luma x) 0 then y :: sort_insert x l' else x :: l
  end.

Definition sort_by_luma (l : list RGB) : list RGB := foldr sort_insert [] l.

Definition kmeans_assign (samples centers : list RGB) : list nat :=
  (fun s => closestColorIndex s centers) <$> samples.

(** The loop that fills [sums]; [None] is the [TypeError] of an entry that
    is not there. *)
Definition kmeans_sums (samples : list RGB) (assignments : list nat) (k : Z)
    : option (list Sums) :=
  foldl (fun sums '(s, g) =>
           sums ← sums; old ← sums !! g;
           Some (<[g := mkSums (sum_r old + rgb_r s) (sum_g old + rgb_g s)
                          (sum_b old + rgb_b s) (sum_c old + 1)]> sums))
    (Some (replicate (Z.to_nat k) (mkSums 0 0 0 0))) (zip samples assignments).

(** The loop that moves the centres to the means. *)
Definition kmeans_move (sums : list Sums) (centers : list RGB) (k : Z)
    : option (list RGB) :=
  foldl (fun cs j =>
           cs ← cs; s ← sums !! j;
           if (0 <? sum_c s)%Z
           then Some (<[j := mkRGB (Math_round (inject_Z (sum_r s) / inject_Z (sum_c s)))
                               (Math_round (inject_Z (sum_g s) / inject_Z (sum_c s)))
                               (Math_round (inject_Z (sum_b s) / inject_Z (sum_c s)))]> cs)
           else Some cs)
    (Some centers) (seq 0 (Z.to_nat k)).

Definition kmeans_round (samples : list RGB) (k : Z) (centers : list RGB)
    : option (list RGB) :=
  let assignments := kmeans_assign samples centers in
  sums ← kmeans_sums samples assignments k;
  kmeans_move sums centers k.

Definition kmeans_rounds (n : nat) (samples : list RGB) (k : Z) (centers : list RGB)
    : option (list RGB) :=
  Nat.iter n (fun cs => cs ← cs; kmeans_round samples k cs) (Some centers).

Section Kmeans.

Variable random_values : nat -> Q.

(** The first centres: [k] samples drawn at random; an index outside
    [samples] gives [undefined], here [None]. *)
Definition kmeans_seed (samples : list RGB) (k : Z) : Rand (list (option RGB)) :=
  rand_for (seqZ 0 k) (fun _ =>
    rand_bind (Math_random random_values) (fun r =>
    let i := Math_floor (r * inject_Z (Z.of_nat (length samples))) in
    rand_ret [if (i <? 0)%Z then None else samples !! Z.to_nat i])).

(** [kmeansPalette]; [None] is a [TypeError]: with a centre that is
    [undefined] the first call of [closestColorIndex] throws. *)
Definition kmeansPalette (samples : list RGB) (k : Z) : Rand (option (list RGB)) :=
  match samples with
  | [] => rand_ret (Some [])
  | _ =>
      rand_bind (kmeans_seed samples k) (fun seeds =>
      rand_ret (centers ← mapM (fun c : option RGB => c) seeds;
                centers ← kmeans_rounds 8 samples k centers;
                Some (sort_by_luma centers)))
  end.

End Kmeans.

Example kmeans_two_clusters :
  kmeansPalette (fun n => if Nat.even n then 0 else 0.9)
    [mkRGB 250 250 250; mkRGB 10 10 10; mkRGB 240 240 240; mkRGB 0 0 0] 2 0%nat
  = (Some [mkRGB 5 5 5; mkRGB 245 245 245], 2%nat).
Proof. vm_compute. reflexivity. Qed.

(** *** The sort *)

Lemma sort_insert_Permutation (x : RGB) (l : list RGB) : sort_insert x l ≡ₚ x :: l.
Proof.
  induction l as [ | y l IH]; [reflexivity | ].
  cbn [sort_insert]. destruct (Qltb (luma y - luma x) 0); [ | reflexivity].
  rewrite IH. apply Permutation_swap.
Qed.

Lemma sort_by_luma_Permutation (l : list RGB) : sort_by_luma l ≡ₚ l.
Proof.
  induction l as [ | x l IH]; [reflexivity | ].
  cbn [sort_by_luma foldr]. rewrite sort_insert_Permutation.
  apply Permutation_skip, IH.
Qed.

Lemma sort_insert_sorted (x : RGB) (l : list RGB) :
  StronglySorted (fun a b => luma a <= luma b) l ->
  StronglySorted (fun a b => luma a <= luma b) (sort_insert x l).
Proof.
  induction l as [ | y l IH]; intros Hs.
  - repeat constructor.
  - apply StronglySorted_inv in Hs as [Hl Hy]. cbn [sort_insert].
    destruct (Qltb (luma y - luma x) 0) eqn:E;
      [apply Qltb_lt in E | apply Qltb_ge in E].
    + constructor; [apply IH, Hl | ].
      rewrite sort_insert_Permutation. constructor; [lra | exact Hy].
    + constructor; [constructor; assumption | ].
      constructor; [lra | ].
      eapply Forall_impl; [exact Hy | ]. cbn. intros z Hz. lra.
Qed.

Lemma sort_by_luma_sorted (l : list RGB) :
  StronglySorted (fun a b => luma a <= luma b) (sort_by_luma l).
Proof.
  induction l as [ | x l IH]; [constructor | ].
  cbn [sort_by_luma foldr]. apply sort_insert_sorted, IH.
Qed.

(** *** One round keeps the centres inside the box of the samples *)

(** Channel by channel between [lo] and [hi]. *)
Definition in_box (lo hi c : RGB) : Prop :=
  (rgb_r lo <= rgb_r c <= rgb_r hi)%Z /\
  (rgb_g lo <= rgb_g c <= rgb_g hi)%Z /\
  (rgb_b lo <= rgb_b c <= rgb_b hi)%Z.

Lemma closestColorIndex_lt (c : RGB) (centers : list RGB) :
  centers <> [] -> (closestColorIndex c centers < length centers)%nat.
Proof.
  intros Hne. destruct (closestColorIndex_spec c centers Hne) as (p & Hp & _).
  eapply lookup_lt_Some, Hp.
Qed.

Section KmeansRound.

Variables lo hi : RGB.
Variable samples : list RGB.
Variable k : nat.

Hypothesis samples_in_box : Forall (in_box lo hi) samples.
Hypothesis k_pos : (1 <= k)%nat.

(** What [sums] holds for a group: a count and three sums of so many
    channels of samples. *)
Definition sums_ok (s : Sums) : Prop :=
  (0 <= sum_c s)%Z /\
  (rgb_r lo * sum_c s <= sum_r s <= rgb_r hi * sum_c s)%Z /\
  (rgb_g lo * sum_c s <= sum_g s <= rgb_g hi * sum_c s)%Z /\
  (rgb_b lo * sum_c s <= sum_b s <= rgb_b hi * sum_c s)%Z.

Lemma kmeans_sums_ok (centers : list RGB) :
  length centers = k ->
  exists sums, kmeans_sums samples (kmeans_assign samples centers) (Z.of_nat k) = Some sums
    /\ length sums = k /\ Forall sums_ok sums.
Proof.
  intros Hlen. unfold kmeans_sums, kmeans_assign. rewrite Nat2Z.id.
  assert (Hstart : length (replicate k (mkSums 0 0 0 0)) = k /\
                   Forall sums_ok (replicate k (mkSums 0 0 0 0))).
  { split; [apply length_replicate | ].
    apply Forall_replicate. unfold sums_ok. cbn. lia. }
  revert Hstart. generalize (replicate k (mkSums 0 0 0 0)).
  pose proof samples_in_box as Hbox. revert Hbox.
  generalize samples. intros ss Hss.
  induction Hss as [ | s ss Hs _ IH]; intros sums [Hl Hok].
  - exists sums. cbn. auto.
  - cbn [fmap list_fmap zip zip_with foldl].
    set (g := closestColorIndex s centers).
    assert (Hg : (g < length sums)%nat).
    { rewrite Hl, <- Hlen. apply closestColorIndex_lt.
      intros ->. cbn in Hlen. lia. }
    destruct (lookup_lt_is_Some_2 sums g Hg) as [old Hold].
    cbn [mbind option_bind]. rewrite Hold. cbn [mbind option_bind].
    apply IH. split; [rewrite length_insert; exact Hl | ].
    apply Forall_insert; [exact Hok | ].
    pose proof (Forall_lookup_1 _ _ _ _ Hok Hold) as (Hc & Hr & Hgn & Hb).
    destruct Hs as (Sr & Sg & Sb).
    unfold sums_ok. cbn [sum_r sum_g sum_b sum_c]. repeat split; nia.
Qed.

Lemma mean_in_range (a b s c : Z) :
  (0 < c)%Z -> (a * c <= s <= b * c)%Z ->
  (a <= Math_round (inject_Z s / inject_Z c) <= b)%Z.
Proof.
  intros Hc [H0 H1].
  assert (Qc : 0 < inject_Z c) by (change 0 with (inject_Z 0); now rewrite <- Zlt_Qlt).
  set (q := inject_Z s / inject_Z c).
  assert (Hq : q * inject_Z c == inject_Z s) by (subst q; field; lra).
  rewrite Zle_Qle, inject_Z_mult in H0, H1.
  split; [apply Math_round_above | apply Math_round_below]; nra.
Qed.

Lemma kmeans_move_ok (sums : list Sums) (centers : list RGB) :
  length sums = k -> Forall sums_ok sums ->
  length centers = k -> Forall (in_box lo hi) centers ->
  exists cs, kmeans_move sums centers (Z.of_nat k) = Some cs
    /\ length cs = k /\ Forall (in_box lo hi) cs.
Proof.
  intros Hl Hok Hlen Hbox. unfold kmeans_move. rewrite Nat2Z.id.
  assert (Hjs : Forall (fun j => (j < k)%nat) (seq 0 k)).
  { apply Forall_forall. intros j Hj. apply elem_of_seq in Hj. lia. }
  revert Hjs centers Hlen Hbox. generalize (seq 0 k). intros js Hjs.
  induction Hjs as [ | j js Hj _ IH]; intros centers Hlen Hbox.
  - exists centers. cbn. auto.
  - cbn [foldl mbind option_bind].
    destruct (lookup_lt_is_Some_2 sums j ltac:(lia)) as [s Hs].
    rewrite Hs. cbn [mbind option_bind].
    destruct (Z.ltb_spec 0 (sum_c s)) as [Hc | Hc]; [ | apply IH; assumption].
    apply IH; [rewrite length_insert; exact Hlen | ].
    apply Forall_insert; [exact Hbox | ].
    pose proof (Forall_lookup_1 _ _ _ _ Hok Hs) as (_ & Hr & Hg & Hb).
    unfold in_box. cbn [rgb_r rgb_g rgb_b].
    split; [ | split]; apply mean_in_range; assumption.
Qed.

Lemma kmeans_round_ok (centers : list RGB) :
  length centers = k -> Forall (in_box lo hi) centers ->
  exists cs, kmeans_round samples (Z.of_nat k) centers = Some cs
    /\ length cs = k /\ Forall (in_box lo hi) cs.
Proof.
  intros Hlen Hbox. unfold kmeans_round. cbv zeta.
  destruct (kmeans_sums_ok centers Hlen) as (sums & -> & Hl & Hok).
  cbn [mbind option_bind]. apply kmeans_move_ok; assumption.
Qed.

Lemma kmeans_rounds_ok (n : nat) (centers : list RGB) :
  length centers = k -> Forall (in_box lo hi) centers ->
  exists cs, kmeans_rounds n samples (Z.of_nat k) centers = Some cs
    /\ length cs = k /\ Forall (in_box lo hi) cs.
Proof.
  intros Hlen Hbox. unfold kmeans_rounds.
  induction n as [ | n (cs & E & Hl & Hb)]; [exists centers; cbn; auto | ].
  unfold Nat.iter in *. cbn [nat_rect]. rewrite E. cbn [mbind option_bind].
  apply kmeans_round_ok; assumption.
Qed.

End KmeansRound.

(** *** The first centres *)

Lemma rand_for_cons {A : Type} (i : Z) (l : list Z) (body : Z -> Rand (list A)) (n : nat) :
  rand_for (i :: l) body n
  = (let '(ops, n') := body i n in
     let '(rest, n'') := rand_for l body n' in (ops ++ rest, n'')).
Proof. reflexivity. Qed.

Lemma rand_for_draws {A : Type} (rv : nat -> Q) (f : Q -> A) (l : list Z) (n : nat) :
  rand_for l (fun _ => rand_bind (Math_random rv) (fun r => rand_ret [f r])) n
  = ((fun i => f (rv (n + i)%nat)) <$> seq 0 (length l), (n + length l)%nat).
Proof.
  induction l as [ | i l IH] in n |- *.
  - cbn. rewrite Nat.add_0_r. reflexivity.
  - rewrite rand_for_cons.
    change (rand_bind (Math_random rv) (fun r => rand_ret [f r]) n)
      with ([f (rv n)], S n).
    cbv beta iota. rewrite IH.
    cbn [seq fmap list_fmap app length]. rewrite Nat.add_0_r. f_equal; [ | lia].
    f_equal. rewrite <- fmap_S_seq, <- list_fmap_compose.
    apply list_fmap_ext. intros _ j _. cbn. do 2 f_equal. lia.
Qed.

Lemma mapM_defined {A : Type} (l : list A) :
  mapM (fun c : option A => c) (Some <$> l) = Some l.
Proof.
  induction l as [ | a l IH]; [reflexivity | ].
  cbn [fmap list_fmap mapM]. cbn [fmap list_fmap] in IH. rewrite IH. reflexivity.
Qed.

Lemma seed_in_samples (samples : list RGB) (r : Q) :
  samples <> [] -> 0 <= r < 1 ->
  let i := Math_floor (r * inject_Z (Z.of_nat (length samples))) in
  exists c, (if (i <? 0)%Z then None else samples !! Z.to_nat i) = Some c /\ c ∈ samples.
Proof.
  intros Hne [H0 H1] i.
  assert (Hlen : 1 <= inject_Z (Z.of_nat (length samples))).
  { apply inject_Z_pos. destruct samples; [contradiction | cbn [length]; lia]. }
  set (L := inject_Z (Z.of_nat (length samples))) in *.
  assert (A : (0 <= i)%Z).
  { subst i. unfold Math_floor. change 0%Z with (Qfloor 0).
    apply Qfloor_resp_le. nra. }
  assert (B : (i < Z.of_nat (length samples))%Z).
  { subst i. unfold Math_floor. pose proof (Qfloor_le (r * L)) as F.
    rewrite Zlt_Qlt. fold L. nra. }
  destruct (Z.ltb_spec i 0); [lia | ].
  destruct (lookup_lt_is_Some_2 samples (Z.to_nat i) ltac:(lia)) as [c Hc].
  exists c. split; [exact Hc | eapply list_elem_of_lookup_2, Hc].
Qed.

Lemma fmap_all_Some {A B : Type} (g : A -> option B) (P : B -> Prop) (l : list A) :
  (forall a, a ∈ l -> exists b, g a = Some b /\ P b) ->
  exists bs, g <$> l = Some <$> bs /\ length bs = length l /\ Forall P bs.
Proof.
  induction l as [ | a l IH]; intros H.
  - exists []. repeat split; constructor.
  - destruct IH as (bs & E & Hl & HP).
    { intros a' Ha'. apply H. now right. }
    destruct (H a ltac:(left)) as (b & Eb & Hb).
    exists (b :: bs). cbn [fmap list_fmap length]. cbn [fmap] in E. rewrite Eb, E, Hl.
    repeat split. constructor; assumption.
Qed.

Lemma kmeans_seed_spec (rv : nat -> Q) (samples : list RGB) (k : Z) (n : nat) :
  samples <> [] ->
  (forall i, (n <= i < n + Z.to_nat k)%nat -> 0 <= rv i < 1) ->
  exists cs, kmeans_seed rv samples k n = (Some <$> cs, (n + Z.to_nat k)%nat)
    /\ length cs = Z.to_nat k /\ Forall (fun c => c ∈ samples) cs.
Proof.
  intros Hne Hrv. unfold kmeans_seed.
  rewrite (rand_for_draws rv
             (fun r => let i := Math_floor (r * inject_Z (Z.of_nat (length samples))) in
                       if (i <? 0)%Z then None else samples !! Z.to_nat i)).
  rewrite length_seqZ.
  match goal with |- context [?g <$> seq 0 (Z.to_nat k)] =>
    destruct (fmap_all_Some g (fun c => c ∈ samples) (seq 0 (Z.to_nat k)))
      as (cs & E & Hl & Hin)
  end.
  { intros j Hj. apply elem_of_seq in Hj.
    apply seed_in_samples; [exact Hne | apply Hrv; lia]. }
  exists cs. rewrite E, Hl, length_seq. repeat split. exact Hin.
Qed.

Lemma kmeansPalette_runs (rv : nat -> Q) (lo hi : RGB) (samples : list RGB)
    (k : Z) (n : nat) :
  samples <> [] -> Forall (in_box lo hi) samples -> (1 <= k)%Z ->
  (forall i, (n <= i < n + Z.to_nat k)%nat -> 0 <= rv i < 1) ->
  exists cs,
    kmeansPalette rv samples k n = (Some cs, (n + Z.to_nat k)%nat) /\
    length cs = Z.to_nat k /\ Forall (in_box lo hi) cs /\
    StronglySorted (fun a b => luma a <= luma b) cs.
Proof.
  intros Hne Hbox Hk Hrv.
  destruct (kmeans_seed_spec rv samples k n Hne Hrv) as (cs0 & Es & Hl0 & Hin0).
  assert (Hbox0 : Forall (in_box lo hi) cs0).
  { eapply Forall_impl; [exact Hin0 | ]. cbn. intros c Hc.
    exact (proj1 (Forall_forall _ _) Hbox c Hc). }
  destruct (kmeans_rounds_ok lo hi samples (Z.to_nat k) Hbox ltac:(lia) 8 cs0 Hl0 Hbox0)
    as (cs & Er & Hl & Hb).
  rewrite Z2Nat.id in Er by lia.
  exists (sort_by_luma cs).
  split; [ | split; [ | split]].
  - unfold kmeansPalette. destruct samples as [ | s ss]; [contradiction | ].
    unfold rand_bind. rewrite Es. unfold rand_ret.
    rewrite mapM_defined. cbn [mbind option_bind]. rewrite Er. reflexivity.
  - rewrite sort_by_luma_Permutation. exact Hl.
  - rewrite sort_by_luma_Permutation. exact Hb.
  - apply sort_by_luma_sorted.
Qed.

(** X17.  [kmeansPalette] on samples that are not empty, with [k >= 1] and
    [Math.random] returning numbers in [0,1): it returns exactly [k]
    colours, sorted by luminance from dark to light, each of them inside
    the box the samples span channel by channel (so colours with channels
    in [0,255] when the samples are), after exactly [k] calls of
    [Math.random]. *)
Theorem kmeansPalette_palette (rv : nat -> Q) (lo hi : RGB) (samples : list RGB)
    (k : Z) (n : nat) :
  samples <> [] -> Forall (in_box lo hi) samples -> (1 <= k)%Z ->
  (forall i, (n <= i < n + Z.to_nat k)%nat -> 0 <= rv i < 1) ->
  exists cs,
    kmeansPalette rv samples k n = (Some cs, (n + Z.to_nat k)%nat) /\
    length cs = Z.to_nat k /\ Forall (in_box lo hi) cs /\
    StronglySorted (fun a b => luma a <= luma b) cs.
Proof.
  exact (kmeansPalette_runs rv lo hi samples k n).
Qed.

Lemma kmeansPalette_palette_witness :
  let rv (n : nat) : Q := if Nat.even n then 0 else 0.9 in
  let samples := [mkRGB 250 250 250; mkRGB 10 10 10; mkRGB 240 240 240; mkRGB 0 0 0] in
  exists cs,
    kmeansPalette rv samples 2 0%nat = (Some cs, (0 + Z.to_nat 2)%nat) /\
    length cs = Z.to_nat 2 /\
    Forall (in_box (mkRGB 0 0 0) (mkRGB 255 255 255)) cs /\
    StronglySorted (fun a b => luma a <= luma b) cs.
Proof.
  apply (kmeansPalette_palette (fun n => if Nat.even n then 0 else 0.9)
           (mkRGB 0 0 0) (mkRGB 255 255 255)
           [mkRGB 250 250 250; mkRGB 10 10 10; mkRGB 240 240 240; mkRGB 0 0 0] 2 0%nat).
  - discriminate.
  - repeat constructor; cbn; lia.
  - lia.
  - intros i _. destruct (Nat.even i); lra.
Defined.

Lemma kmeansPalette_throws (rv : nat -> Q) (samples : list RGB) (k : Z) (n : nat) :
  samples <> [] -> (k <= 0)%Z -> kmeansPalette rv samples k n = (None, n).
Proof.
  intros Hne Hk. destruct samples as [ | s ss]; [contradiction | ].
  unfold kmeansPalette, kmeans_seed.
  assert (E : seqZ 0 k = []).
  { unfold seqZ. replace (Z.to_nat k) with 0%nat by lia. reflexivity. }
  rewrite E. cbn [rand_for]. unfold rand_bind, rand_ret. cbn [mapM mbind option_bind mret option_ret].
  f_equal. unfold kmeans_rounds.
  assert (R : kmeans_round (s :: ss) k [] = None).
  { unfold kmeans_round, kmeans_sums, kmeans_assign. cbv zeta.
    replace (Z.to_nat k) with 0%nat by lia.
    cbn [fmap list_fmap zip zip_with foldl replicate mbind option_bind].
    change (closestColorIndex s []) with 0%nat.
    cbn [lookup list_lookup mbind option_bind].
    assert (F : forall l : list (RGB * nat),
              foldl (fun (sums : option (list Sums)) '(s0, g) =>
                       sums ← sums; old ← sums !! g;
                       Some (<[g := mkSums (sum_r old + rgb_r s0) (sum_g old + rgb_g s0)
                                      (sum_b old + rgb_b s0) (sum_c old + 1)]> sums))
                None l = None).
    { induction l as [ | [s0 g] l IH]; [reflexivity | exact IH]. }
    rewrite F. reflexivity. }
  unfold Nat.iter. cbn [nat_rect mbind option_bind]. rewrite R. reflexivity.
Qed.

(** X18.  [kmeansPalette] with samples and [k <= 0] throws: there is no
    centre, every sample is assigned to group 0, and [sums] has no entry
    0.  (For no samples it returns the empty palette.)  [Math.random] is
    not called in either case. *)
Theorem kmeansPalette_no_centres (rv : nat -> Q) (samples : list RGB) (k : Z) (n : nat) :
  samples <> [] -> (k <= 0)%Z ->
  kmeansPalette rv samples k n = (None, n) /\ kmeansPalette rv [] k n = (Some [], n).
Proof.
  intros Hne Hk. split; [apply kmeansPalette_throws; assumption | reflexivity].
Qed.

Lemma kmeansPalette_no_centres_witness :
  kmeansPalette (fun _ => 0.5) [mkRGB 1 2 3] 0 7%nat = (None, 7%nat) /\
  kmeansPalette (fun _ => 0.5) [] 0 7%nat = (Some [], 7%nat).
Proof.
  apply (kmeansPalette_no_centres (fun _ => 0.5) [mkRGB 1 2 3] 0 7%nat).
  - discriminate.
  - lia.
Defined.

(** ** Profile store: [loadSavedProfile] *)

(** [loadSavedProfile].  The entry of [localStorage] is the serialised
    form of a value, which [JSON.parse] gives back. *)
Definition loadSavedProfile (st : AppState) : AppState :=
  match stored st with
  | None => st
  | Some prof =>
      try_catch
        (setProfile prof ;;
         auto <- (fun st => (Some (autoApplyProfile st), st)) ;;
         (if auto : bool
          then s <- eval (prop (val prof) "suggested") ;; applySuggested s
          else ret tt))%stmt st
  end.

(** What [applySuggested] leaves behind, completed or not. *)
Lemma applySuggested_outcome (s : Value) (st : AppState) :
  (prop s "outlineWeight" = None /\ applySuggested s st = (None, st)) \/
  exists v1 v2 v3 v4 v5 v6 v7,
    prop s "outlineWeight" = Some v1 /\ prop s "saturationBoost" = Some v2 /\
    prop s "halftoneDensity" = Some v3 /\ prop s "burstStrength" = Some v4 /\
    prop s "motifPack" = Some v5 /\ prop s "styleIntensity" = Some v6 /\
    prop s "applyPalette" = Some v7 /\
    applySuggested s st
    = (Some tt, mkAppState (profile st) v1 v2 v3 v4 v5 v6 v7
                  (autoApplyProfile st) (stored st)).
Proof.
  unfold applySuggested, bind, eval, ret, throw.
  destruct (prop s "outlineWeight") as [v1 | ] eqn:E1; [right | left; split; reflexivity].
  destruct (prop_defined s "outlineWeight" "saturationBoost" ltac:(eauto)) as [v2 E2].
  destruct (prop_defined s "outlineWeight" "halftoneDensity" ltac:(eauto)) as [v3 E3].
  destruct (prop_defined s "outlineWeight" "burstStrength" ltac:(eauto)) as [v4 E4].
  destruct (prop_defined s "outlineWeight" "motifPack" ltac:(eauto)) as [v5 E5].
  destruct (prop_defined s "outlineWeight" "styleIntensity" ltac:(eauto)) as [v6 E6].
  destruct (prop_defined s "outlineWeight" "applyPalette" ltac:(eauto)) as [v7 E7].
  exists v1, v2, v3, v4, v5, v6, v7. rewrite E2, E3, E4, E5, E6, E7.
  repeat split; reflexivity.
Qed.

Lemma loadSavedProfile_reimport (st : AppState) (prof : JSON) :
  stored st = Some prof ->
  loadSavedProfile st = importProfileJSON_onload (Some prof) st.
Proof.
  intros Hst. unfold loadSavedProfile, importProfileJSON_onload. rewrite Hst.
  unfold try_catch, bind, eval, ret, throw, setProfile, update, localStorage_setItem.
  cbn -[prop applySuggested].
  destruct (autoApplyProfile st) eqn:Ea.
  - destruct (prop (val prof) "suggested") as [s | ]; [ | reflexivity].
    match goal with |- context [applySuggested s ?st0] =>
      destruct (applySuggested_outcome s st0)
        as [[_ ->] | (v1 & v2 & v3 & v4 & v5 & v6 & v7 & _ & _ & _ & _ & _ & _ & _ & ->)]
    end.
    + reflexivity.
    + cbn. rewrite Hst. reflexivity.
  - cbn. rewrite Hst. reflexivity.
Qed.

(** The state an import ends in, in closed form. *)
Definition import_result (prof : JSON) (st : AppState) : AppState :=
  let get s k := match prop s k with Some v => v | None => undefined end in
  let installed :=
    mkAppState prof (st_outlineWeight st) (st_saturationBoost st)
      (st_halftoneDensity st) (st_burstStrength st) (st_motifPack st)
      (st_styleIntensity st) (st_applyPaletteTransfer st) (autoApplyProfile st)
      (stored st) in
  if autoApplyProfile st then
    match prop (val prof) "suggested" with
    | Some s =>
        match prop s "outlineWeight" with
        | Some _ =>
            mkAppState prof (get s "outlineWeight") (get s "saturationBoost")
              (get s "halftoneDensity") (get s "burstStrength") (get s "motifPack")
              (get s "styleIntensity") (get s "applyPalette") true (Some prof)
        | None => installed
        end
    | None => installed
    end
  else
    mkAppState prof (st_outlineWeight st) (st_saturationBoost st)
      (st_halftoneDensity st) (st_burstStrength st) (st_motifPack st)
      (st_styleIntensity st) (st_applyPaletteTransfer st) false (Some prof).

Lemma import_outcome (prof : JSON) (st : AppState) :
  importProfileJSON_onload (Some prof) st = import_result prof st.
Proof.
  unfold importProfileJSON_onload, import_result.
  unfold try_catch, bind, eval, ret, throw, setProfile, update, localStorage_setItem.
  cbn -[prop applySuggested].
  destruct (autoApplyProfile st) eqn:Ea; [ | reflexivity].
  destruct (prop (val prof) "suggested") as [s | ]; [ | reflexivity].
  match goal with |- context [applySuggested s ?st0] =>
    destruct (applySuggested_outcome s st0)
      as [[E ->] | (v1 & v2 & v3 & v4 & v5 & v6 & v7 & E1 & E2 & E3 & E4 & E5 & E6 & E7 & ->)]
  end.
  - rewrite E. reflexivity.
  - rewrite E1, E2, E3, E4, E5, E6, E7. reflexivity.
Qed.

Lemma import_twice (prof : JSON) (st : AppState) :
  importProfileJSON_onload (Some prof) (importProfileJSON_onload (Some prof) st)
  = importProfileJSON_onload (Some prof) st.
Proof.
  rewrite !import_outcome. unfold import_result. cbv zeta.
  destruct (autoApplyProfile st) eqn:Ea; [ | reflexivity].
  destruct (prop (val prof) "suggested") as [s | ] eqn:Es.
  - destruct (prop s "outlineWeight") eqn:E1; cbn -[prop];
      rewrite ?Es, ?E1; reflexivity.
  - cbn -[prop]. rewrite ?Es. reflexivity.
Qed.

Lemma loadSavedProfile_facts (st : AppState) :
  (stored st = None -> loadSavedProfile st = st) /\
  stored (loadSavedProfile st) = stored st /\
  (forall prof, stored st = Some prof ->
     loadSavedProfile st = importProfileJSON_onload (Some prof) st) /\
  loadSavedProfile (loadSavedProfile st) = loadSavedProfile st /\
  (forall prof st0, stored (importProfileJSON_onload (Some prof) st0) = Some prof ->
     loadSavedProfile (importProfileJSON_onload (Some prof) st0)
     = importProfileJSON_onload (Some prof) st0).
Proof.
  assert (Hkeep : stored (loadSavedProfile st) = stored st).
  { destruct (stored st) as [prof | ] eqn:Hst.
    - rewrite (loadSavedProfile_reimport st prof Hst), import_outcome.
      unfold import_result. cbv zeta.
      destruct (autoApplyProfile st); [ | reflexivity].
      destruct (prop (val prof) "suggested") as [s | ]; [ | exact Hst].
      destruct (prop s "outlineWeight"); [reflexivity | exact Hst].
    - unfold loadSavedProfile. rewrite Hst. exact Hst. }
  split; [intros Hst; unfold loadSavedProfile; rewrite Hst; reflexivity | ].
  split; [exact Hkeep | ].
  split; [intros prof; apply loadSavedProfile_reimport | ].
  split.
  - destruct (stored st) as [prof | ] eqn:Hst.
    + rewrite (loadSavedProfile_reimport (loadSavedProfile st) prof) by exact Hkeep.
      rewrite (loadSavedProfile_reimport st prof Hst). apply import_twice.
    + unfold loadSavedProfile at 2. rewrite Hst.
      unfold loadSavedProfile. rewrite Hst. reflexivity.
  - intros prof st0 Hst0.
    rewrite (loadSavedProfile_reimport _ prof Hst0). apply import_twice.
Qed.

(** X19.  [loadSavedProfile] does nothing without a stored profile and
    never writes to the store; with a stored profile it has the effect of
    importing that profile again, so it is idempotent, and right after an
    import that stored its profile it changes nothing. *)
Theorem loadSavedProfile_spec (st : AppState) :
  (stored st = None -> loadSavedProfile st = st) /\
  stored (loadSavedProfile st) = stored st /\
  (forall prof, stored st = Some prof ->
     loadSavedProfile st = importProfileJSON_onload (Some prof) st) /\
  loadSavedProfile (loadSavedProfile st) = loadSavedProfile st /\
  (forall prof st0, stored (importProfileJSON_onload (Some prof) st0) = Some prof ->
     loadSavedProfile (importProfileJSON_onload (Some prof) st0)
     = importProfileJSON_onload (Some prof) st0).
Proof.
  exact (loadSavedProfile_facts st).
Qed.

(** Changed controls come back from the store. *)
Example load_restores_controls :
  let prof :=
    JObj [("suggested"%string,
           JObj [("outlineWeight"%string, JNum 0.6); ("saturationBoost"%string, JNum 0.2);
                 ("halftoneDensity"%string, JNum 0.1); ("burstStrength"%string, JNum 0.4);
                 ("motifPack"%string, JStr "flames"); ("styleIntensity"%string, JNum 0.9);
                 ("applyPalette"%string, JBool true)])] in
  let st := importProfileJSON_onload (Some prof) initial_state in
  let moved := mkAppState (profile st) (val (JNum 1)) (val (JNum 1)) (val (JNum 0.4))
                 (val (JNum 1)) (val (JStr "none")) (val (JNum 0)) (val (JBool false))
                 true (stored st) in
  loadSavedProfile moved = st.
Proof. vm_compute. reflexivity. Qed.

(** ** HalftoneOverlay: the grid of dots *)

(** The circles among the calls: centre and radius. *)
Definition arcs (ops : list CanvasOp) : list (Q * Q * Q) :=
  omap (fun op => match op with arc x y r _ _ => Some (x, y, r) | _ => None end) ops.

(** How many rounds [for (x = start; x < limit; x += step)] makes. *)
Definition lattice_count (start limit step : Z) : Z :=
  Z.max 0 ((limit - start + step - 1) / step).

Lemma for_loop_upto_closed (fuel : nat) (x limit step : Z) :
  (1 <= step)%Z -> (limit - x <= Z.of_nat fuel)%Z ->
  for_loop fuel (fun x => (x <? limit)%Z) (fun x => (x + step)%Z) (fun x => x) x
  = Some ((fun i => x + i * step)%Z <$> seqZ 0 (lattice_count x limit step)).
Proof.
  intros Hstep. revert x. induction fuel as [ | fuel IH]; intros x Hf; cbn [for_loop].
  - destruct (Z.ltb_spec x limit); [lia | ].
    unfold lattice_count. rewrite seqZ_nil; [reflexivity | ].
    assert ((limit - x + step - 1) / step <= 0)%Z; [ | lia].
    apply Z.lt_succ_r, Z.div_lt_upper_bound; lia.
  - destruct (Z.ltb_spec x limit) as [Hlt | Hge].
    + rewrite IH by lia. cbn [fmap option_fmap option_map]. f_equal.
      assert (Hn : lattice_count x limit step
                   = (1 + lattice_count (x + step) limit step)%Z).
      { unfold lattice_count.
        replace (limit - x + step - 1)%Z with (1 * step + (limit - (x + step) + step - 1))%Z
          by lia.
        rewrite Z.div_add_l by lia.
        assert (0 <= (limit - (x + step) + step - 1) / step)%Z; [ | lia].
        apply Z.div_pos; lia. }
      rewrite Hn.
      assert (H0 : (0 <= lattice_count (x + step) limit step)%Z)
        by (unfold lattice_count; lia).
      rewrite (seqZ_cons 0 (1 + lattice_count (x + step) limit step)) by lia.
      replace (Z.pred (1 + lattice_count (x + step) limit step))
        with (lattice_count (x + step) limit step) by lia.
      cbn [fmap list_fmap]. f_equal; [lia | ].
      change (Z.succ 0) with (1 + 0)%Z. rewrite <- fmap_add_seqZ, <- list_fmap_compose.
      apply list_fmap_ext. intros _ i _. cbn. lia.
    + unfold lattice_count. rewrite seqZ_nil; [reflexivity | ].
      assert ((limit - x + step - 1) / step <= 0)%Z; [ | lia].
      apply Z.lt_succ_r, Z.div_lt_upper_bound; lia.
Qed.

Lemma lattice_closed (start limit step : Z) :
  (1 <= start)%Z -> (1 <= step)%Z ->
  lattice start limit step
  = Some ((fun i => start + i * step)%Z <$> seqZ 0 (lattice_count start limit step)).
Proof.
  intros H1 H2. apply for_loop_upto_closed; lia.
Qed.

(** The last round is inside the limit. *)
Lemma lattice_inside (start limit step i : Z) :
  (1 <= step)%Z -> (0 <= i < lattice_count start limit step)%Z ->
  (start <= start + i * step < limit)%Z.
Proof.
  intros Hs [H0 H1]. unfold lattice_count in H1.
  assert (Hq : (i + 1 <= (limit - start + step - 1) / step)%Z) by lia.
  pose proof (Z.div_mod (limit - start + step - 1) step ltac:(lia)) as E.
  pose proof (Z.mod_pos_bound (limit - start + step - 1) step ltac:(lia)) as R.
  split; nia.
Qed.

Lemma mapM_total {A B : Type} (f : A -> B) (l : list A) :
  mapM (fun a => Some (f a)) l = Some (f <$> l).
Proof.
  induction l as [ | a l IH]; [reflexivity | ].
  cbn [mapM fmap list_fmap]. cbn [fmap] in IH. rewrite IH. reflexivity.
Qed.

Lemma arcs_app (l1 l2 : list CanvasOp) : arcs (l1 ++ l2) = arcs l1 ++ arcs l2.
Proof. apply omap_app. Qed.

Lemma arcs_dots (Math_PI : Q) (y r : Q) (xs : list Z) :
  arcs (flat_map (fun x : Z => [beginPath; arc (inject_Z x) y r 0 (Math_PI * 2); fill]) xs)
  = (fun x => (inject_Z x, y, r)) <$> xs.
Proof.
  induction xs as [ | x xs IH]; [reflexivity | ].
  cbn [flat_map]. rewrite arcs_app, IH. reflexivity.
Qed.

Lemma arcs_concat (rows : list (list CanvasOp)) :
  arcs (concat rows) = concat (arcs <$> rows).
Proof.
  induction rows as [ | row rows IH]; [reflexivity | ].
  cbn [concat fmap list_fmap]. rewrite arcs_app, IH. reflexivity.
Qed.

Lemma halftone_radius_small (s : Z) :
  (4 <= s)%Z -> (1 <= halftone_radius s /\ 2 * halftone_radius s < s)%Z.
Proof.
  intros Hs. unfold halftone_radius, Math_floor.
  change 4 with (inject_Z 4). rewrite Qfloor_div by lia.
  pose proof (Z.div_mod s 4 ltac:(lia)). pose proof (Z.mod_pos_bound s 4 ltac:(lia)).
  lia.
Qed.

Lemma drawHalftone_dots (Math_PI : Q) (w h : Z) (density : Q) :
  0.01 < density -> density <= 0.4 ->
  let s := halftone_spacing density in
  let r := halftone_radius s in
  let cols := lattice_count r w s in
  let rows := lattice_count r h s in
  exists ops,
    drawHalftone Math_PI true w h density = Some ops /\
    arcs ops = (j ← seqZ 0 rows;
                (fun i => (inject_Z (r + i * s), inject_Z (r + j * s), inject_Z r))
                  <$> seqZ 0 cols) /\
    (1 <= r /\ 2 * r < s)%Z /\
    (forall i, (0 <= i < cols)%Z -> (r <= r + i * s < w)%Z) /\
    (forall j, (0 <= j < rows)%Z -> (r <= r + j * s < h)%Z).
Proof.
  intros Hlo Hhi s r cols rows.
  pose proof (halftone_spacing_range density ltac:(lra) Hhi) as Hs. fold s in Hs.
  destruct (halftone_radius_small s ltac:(lia)) as [Hr1 Hr2]. fold r in Hr1, Hr2.
  unfold drawHalftone. cbn [negb orb].
  destruct (Qle_bool density 0.01) eqn:E; [apply Qle_bool_iff in E; lra | ].
  cbv zeta. fold s. fold r.
  rewrite !lattice_closed by lia. fold cols. fold rows.
  cbn [mbind option_bind]. rewrite mapM_total. cbn [mbind option_bind].
  eexists. split; [reflexivity | ].
  split; [ | split; [lia | split; intros i Hi; apply lattice_inside; assumption || lia]].
  rewrite !arcs_app.
  change (arcs [save; set_globalAlpha (0.15 + density * 0.25); set_fillStyle "#000"])
    with (@nil (Q * Q * Q)).
  change (arcs [restore]) with (@nil (Q * Q * Q)).
  rewrite app_nil_l, app_nil_r, arcs_concat, <- !list_fmap_compose.
  generalize (seqZ 0 rows). intros js.
  induction js as [ | j js IH]; [reflexivity | ].
  cbn [fmap list_fmap concat mbind list_bind]. cbn [fmap] in IH. rewrite IH.
  f_equal. unfold compose. rewrite arcs_dots, <- list_fmap_compose. reflexivity.
Qed.

(** X20.  The halftone overlay, for a density of the legal range above
    0.01: [drawHalftone] returns, and its circles are the grid of
    [rows x cols] dots of radius [r] centred at [(r + i s, r + j s)], row by
    row, with [s = 12 - floor(20 D)], [r = max(1, floor(s / 4))],
    [cols = ceil((w - r) / s)] and [rows = ceil((h - r) / s)] (0 when
    negative).  Every centre is inside the canvas, and neighbouring dots
    never touch, since [2 r < s]. *)
Theorem drawHalftone_grid (Math_PI : Q) (w h : Z) (density : Q) :
  0.01 < density -> density <= 0.4 ->
  let s := halftone_spacing density in
  let r := halftone_radius s in
  let cols := lattice_count r w s in
  let rows := lattice_count r h s in
  exists ops,
    drawHalftone Math_PI true w h density = Some ops /\
    arcs ops = (j ← seqZ 0 rows;
                (fun i => (inject_Z (r + i * s), inject_Z (r + j * s), inject_Z r))
                  <$> seqZ 0 cols) /\
    (1 <= r /\ 2 * r < s)%Z /\
    (forall i, (0 <= i < cols)%Z -> (r <= r + i * s < w)%Z) /\
    (forall j, (0 <= j < rows)%Z -> (r <= r + j * s < h)%Z).
Proof.
  exact (drawHalftone_dots Math_PI w h density).
Qed.

Lemma drawHalftone_grid_witness :
  let s := halftone_spacing 0.15 in
  let r := halftone_radius s in
  let cols := lattice_count r 20 s in
  let rows := lattice_count r 12 s in
  exists ops,
    drawHalftone 3 true 20 12 0.15 = Some ops /\
    arcs ops = (j ← seqZ 0 rows;
                (fun i => (inject_Z (r + i * s), inject_Z (r + j * s), inject_Z r))
                  <$> seqZ 0 cols) /\
    (1 <= r /\ 2 * r < s)%Z /\
    (forall i, (0 <= i < cols)%Z -> (r <= r + i * s < 20)%Z) /\
    (forall j, (0 <= j < rows)%Z -> (r <= r + j * s < 12)%Z).
Proof.
  apply (drawHalftone_grid 3 20 12 0.15); [reflexivity | discriminate].
Defined.

Example halftone_grid_sample :
  arcs (default [] (drawHalftone 3 true 20 12 0.15))
  = [(2, 2, 2); (11, 2, 2); (2, 11, 2); (11, 11, 2)].
Proof. vm_compute. reflexivity. Qed.

(** ** MotifLayer: shapes drawn and random numbers drawn *)

Lemma strokes_app (l1 l2 : list CanvasOp) : strokes (l1 ++ l2) = (strokes l1 + strokes l2)%nat.
Proof. unfold strokes. rewrite omap_app, length_app. reflexivity. Qed.

Lemma strokes_concat (ls : list (list CanvasOp)) :
  Forall (fun l => strokes l = 1%nat) ls -> strokes (concat ls) = length ls.
Proof.
  induction 1 as [ | l ls Hl _ IH]; [reflexivity | ].
  cbn [concat length]. rewrite strokes_app, Hl, IH. reflexivity.
Qed.

Lemma for_loop_Forall {S A : Type} (P : A -> Prop) (fuel : nat) (cond : S -> bool)
    (next : S -> S) (body : S -> A) (s : S) (l : list A) :
  (forall s, P (body s)) -> for_loop fuel cond next body s = Some l -> Forall P l.
Proof.
  intros HP. revert s l. induction fuel as [ | fuel IH]; intros s l; cbn [for_loop].
  - destruct (cond s); [discriminate | ]. intros [= <-]. constructor.
  - destruct (cond s); [ | intros [= <-]; constructor].
    destruct (for_loop fuel cond next body (next s)) as [l' | ] eqn:E; [ | discriminate].
    cbn. intros [= <-]. constructor; [apply HP | eapply IH, E].
Qed.

Lemma strokes_none (l : list CanvasOp) :
  Forall (fun op => op <> stroke) l -> strokes l = 0%nat.
Proof.
  induction 1 as [ | op l Hop _ IH]; [reflexivity | ].
  unfold strokes in *. cbn [omap]. destruct op; try contradiction; exact IH.
Qed.

(** A round that draws one shape and calls [Math.random] [c] times. *)
Lemma rand_for_shapes (c : nat) (body : Z -> Rand (list CanvasOp)) (l : list Z) (n : nat) :
  (forall i n, exists ops, body i n = (ops, (n + c)%nat) /\ strokes ops = 1%nat) ->
  exists ops, rand_for l body n = (ops, (n + c * length l)%nat)
    /\ strokes ops = length l.
Proof.
  intros Hbody. induction l as [ | i l IH] in n |- *.
  - exists []. cbn. rewrite Nat.mul_0_r, Nat.add_0_r. split; reflexivity.
  - destruct (Hbody i n) as (ops & E & Hs).
    destruct (IH (n + c)%nat) as (rest & E' & Hs').
    exists (ops ++ rest). rewrite rand_for_cons, E, E'. split.
    + f_equal. cbn [length]. lia.
    + rewrite strokes_app, Hs, Hs'. reflexivity.
Qed.

Section MotifFacts.

Variable Math_PI : Q.
Variables Math_cos Math_sin : Q -> Q.
Variable random_values : nat -> Q.

Lemma drawWave_strokes (cx cy r tightness : Q) (ops : list CanvasOp) :
  drawWave Math_PI Math_cos Math_sin cx cy r tightness = Some ops -> strokes ops = 1%nat.
Proof.
  unfold drawWave.
  match goal with |- context [for_loop ?f ?c ?n ?b ?a] =>
    destruct (for_loop f c n b a) as [path | ] eqn:E end; [ | discriminate].
  cbn [mbind option_bind]. intros [= <-].
  assert (Hp : strokes path = 0%nat).
  2: { change (strokes ([save; set_strokeStyle "#000"; set_lineWidth 3; beginPath]
                       ++ path ++ [stroke; restore]) = 1%nat).
       rewrite !strokes_app, Hp. reflexivity. }
  apply strokes_none.
  eapply for_loop_Forall, E. intros a. cbv beta zeta.
  destruct (Qeq_bool a (Math_PI * 0.2)); discriminate.
Qed.

(** The number of shapes of a pack, and of calls of [Math.random] a shape
    takes. *)
Definition motif_shapes (pack : MotifPack) (intensity : Q) : nat :=
  match pack with
  | none => 0
  | waves => Z.to_nat (Math_floor (3 + intensity * 5))
  | flames => Z.to_nat (Math_floor (25 + intensity * 40))
  | psychedelia => Z.to_nat (Math_floor (4 + intensity * 6))
  end.

Definition motif_draws (pack : MotifPack) : nat :=
  match pack with
  | none | waves => 0
  | flames => 2
  | psychedelia => 3
  end.

Lemma drawMotifs_counts (w h : Z) (pack : MotifPack) (intensity : Q) (n : nat) :
  exists ops,
    drawMotifs Math_PI Math_cos Math_sin random_values w h pack intensity n
    = (Some ops, (n + motif_draws pack * motif_shapes pack intensity)%nat) /\
    strokes ops = motif_shapes pack intensity.
Proof.
  destruct pack; unfold drawMotifs; cbv zeta; cbn [motif_draws motif_shapes].
  - exists []. unfold rand_ret. rewrite Nat.add_0_r. split; reflexivity.
  - unfold rand_ret.
    match goal with |- context [mapM ?f ?l] =>
      destruct (mapM_is_Some_2 f l) as [arcs Ha] end.
    { apply Forall_forall. intros i _. apply drawWave_total. }
    rewrite Ha. cbn [mbind option_bind]. eexists. rewrite Nat.add_0_r.
    split; [reflexivity | ].
    rewrite !strokes_app. cbn [app]. rewrite strokes_concat.
    + apply length_mapM in Ha. rewrite <- Ha, length_seqZ. cbn. lia.
    + apply mapM_Some_1 in Ha. clear -Ha.
      induction Ha as [ | i ops l ls Hi _ IH]; constructor; [ | exact IH].
      eapply drawWave_strokes, Hi.
  - unfold rand_bind at 1.
    match goal with |- context [rand_for ?l ?body n] =>
      destruct (rand_for_shapes 2 body l n) as (ops & E & Hs) end.
    { intros i m. unfold rand_bind, Math_random, drawFlame, rand_bind, Math_random, rand_ret.
      eexists. split; [f_equal; lia | reflexivity]. }
    rewrite E. unfold rand_ret. eexists. rewrite length_seqZ. split; [reflexivity | ].
    rewrite !strokes_app. change (translate ?a ?b :: ops) with ([translate a b] ++ ops).
    rewrite !strokes_app, Hs, length_seqZ. cbn. lia.
  - unfold rand_bind at 1.
    match goal with |- context [rand_for ?l ?body n] =>
      destruct (rand_for_shapes 3 body l n) as (ops & E & Hs) end.
    { intros i m. unfold rand_bind, Math_random, rand_ret.
      eexists. split; [f_equal; lia | ].
      unfold drawSpiral. cbv zeta. rewrite !strokes_app, (strokes_none (_ <$> _));
        [reflexivity | ].
      apply Forall_fmap, Forall_forall. intros j _. cbn.
      destruct (j =? 0)%Z; discriminate. }
    rewrite E. unfold rand_ret. eexists. rewrite length_seqZ. split; [reflexivity | ].
    rewrite !strokes_app, Hs, length_seqZ. cbn. lia.
Qed.

End MotifFacts.


Example flames_at_full_intensity :
  motif_shapes flames 1 = 65%nat /\ motif_draws flames = 2%nat /\
  motif_shapes psychedelia 1 = 10%nat /\ motif_shapes waves 1 = 8%nat.
Proof. vm_compute. repeat split. Qed.

(** ** ParameterAdvisor: the hue bias of a palette *)

(** One round of the loop of [estimateHueBias]. *)
Definition hue_vote (acc : Q * Q) (c : RGB) : Q * Q :=
  let '(nwarm, ncool) := acc in
  let x := rgbToHsl (inject_Z (rgb_r c)) (inject_Z (rgb_g c)) (inject_Z (rgb_b c)) in
  let h := hsl_h x in
  let s := hsl_s x in
  if Qltb s 0.15 then (nwarm, ncool)
  else if Qltb h (1 / 6) || Qltb (5 / 6) h then (nwarm + 1, ncool)
  else if Qltb (1 / 3) h && Qltb h (2 / 3) then (nwarm, ncool + 1)
  else (nwarm, ncool).

Lemma estimateHueBias_votes (palette : list RGB) :
  estimateHueBias palette
  = let '(nwarm, ncool) := foldl hue_vote (0, 0) palette in
    if Qltb (ncool * 1.2) nwarm then warm
    else if Qltb (nwarm * 1.2) ncool then cool
    else mixed.
Proof.
  unfold estimateHueBias.
  rewrite (foldl_pointwise _ hue_vote); [reflexivity | ].
  intros [nwarm ncool] c. reflexivity.
Qed.

Lemma hue_vote_comm (acc : Q * Q) (c1 c2 : RGB) :
  hue_vote (hue_vote acc c1) c2 = hue_vote (hue_vote acc c2) c1.
Proof.
  destruct acc as [a b]. unfold hue_vote. cbv zeta.
  repeat match goal with
  | |- context [if ?c then _ else _] => destruct c
  end; reflexivity.
Qed.

Lemma foldl_Permutation {A B : Type} (f : A -> B -> A) (l1 l2 : list B) (a : A) :
  (forall a b1 b2, f (f a b1) b2 = f (f a b2) b1) ->
  l1 ≡ₚ l2 -> foldl f a l1 = foldl f a l2.
Proof.
  intros Hf Hp. revert a.
  induction Hp as [ | b l1 l2 _ IH | b1 b2 l | l1 l2 l3 _ IH1 _ IH2]; intros a.
  - reflexivity.
  - cbn. apply IH.
  - cbn. rewrite Hf. reflexivity.
  - rewrite IH1. apply IH2.
Qed.

Lemma hue_vote_grey (acc : Q * Q) (c : RGB) :
  rgb_r c = rgb_g c -> rgb_g c = rgb_b c -> hue_vote acc c = acc.
Proof.
  intros E1 E2. destruct acc as [a b]. unfold hue_vote. cbv zeta.
  rewrite <- E2, <- E1.
  destruct (rgbToHsl_grey (inject_Z (rgb_r c))) as (l & -> & _).
  reflexivity.
Qed.

(** A pure blue, [r = g < b], has the hue 2/3 exactly, which the strict
    test for a cool hue leaves out. *)
Lemma rgbToHsl_blue (r b : Q) :
  r < b -> hsl_h (rgbToHsl r r b) == 2 # 3.
Proof.
  intros Hrb. unfold rgbToHsl. cbv zeta.
  set (R := r / 255). set (B := b / 255).
  assert (HRB : R < B) by (subst R B; qnum; lra).
  destruct (max3_spec R R B) as (M1 & _ & M3 & _).
  destruct (min3_spec R R B) as (m1 & _ & _ & Hm).
  cbv zeta in *.
  set (M := Math_max3 R R B) in *. set (m := Math_min3 R R B) in *.
  assert (HM : M == B).
  { destruct (max3_spec R R B) as (_ & _ & _ & [E | [E | E]]); fold M in E; lra. }
  assert (Hm' : m == R) by (destruct Hm as [E | [E | E]]; lra).
  destruct (Qeq_bool M m) eqn:E0; [apply Qeq_bool_eq in E0; lra | ].
  cbn [negb].
  destruct (Qeq_bool M R) eqn:E1; [apply Qeq_bool_eq in E1; lra | ].
  destruct (Qeq_bool M B) eqn:E2; [ | apply Qeq_bool_neq in E2; lra].
  cbn [hsl_h]. field. lra.
Qed.

Lemma hue_vote_blue (acc : Q * Q) (c : RGB) :
  rgb_r c = rgb_g c -> (rgb_g c < rgb_b c)%Z -> hue_vote acc c = acc.
Proof.
  intros E1 E2. destruct acc as [a b]. unfold hue_vote. cbv zeta.
  rewrite <- E1 in *.
  assert (Hh : hsl_h (rgbToHsl (inject_Z (rgb_r c)) (inject_Z (rgb_r c))
                        (inject_Z (rgb_b c))) == 2 # 3).
  { apply rgbToHsl_blue. now rewrite <- Zlt_Qlt. }
  set (x := rgbToHsl _ _ _) in *.
  destruct (Qltb (hsl_s x) 0.15); [reflexivity | ].
  destruct (Qltb (hsl_h x) (1 / 6)) eqn:A; [apply Qltb_lt in A; qnum; lra | ].
  destruct (Qltb (5 / 6) (hsl_h x)) eqn:B;
    [apply Qltb_lt in B; revert B; qnum; change (/ 6) with (1 # 6); lra | ].
  destruct (Qltb (hsl_h x) (2 / 3)) eqn:C; [apply Qltb_lt in C; qnum; lra | ].
  rewrite andb_false_r. reflexivity.
Qed.

Lemma foldl_fixed {A B : Type} (f : A -> B -> A) (P : B -> Prop) (l : list B) (a : A) :
  (forall a b, P b -> f a b = a) -> Forall P l -> foldl f a l = a.
Proof.
  intros Hf Hl. induction Hl as [ | b l Hb _ IH]; [reflexivity | ].
  cbn [foldl]. rewrite Hf by exact Hb. exact IH.
Qed.

(** Greys and pure blues. *)
Definition no_vote (c : RGB) : Prop :=
  rgb_r c = rgb_g c /\ (rgb_g c <= rgb_b c)%Z.

Lemma estimateHueBias_facts (p1 p2 : list RGB) :
  (p1 ≡ₚ p2 -> estimateHueBias p1 = estimateHueBias p2) /\
  (Forall no_vote p1 ->
   estimateHueBias p1 = mixed /\
   forall m sd e c,
     sug_motifPack (suggestControls (mkProfileStats p1 m sd e c)) = psychedelia).
Proof.
  split.
  - intros Hp. rewrite !estimateHueBias_votes.
    rewrite (foldl_Permutation hue_vote p1 p2 (0, 0)); [reflexivity | | exact Hp].
    intros a b1 b2. apply hue_vote_comm.
  - intros Hquiet.
    assert (E : estimateHueBias p1 = mixed).
    { rewrite estimateHueBias_votes.
      rewrite (foldl_fixed hue_vote no_vote); [reflexivity | | exact Hquiet].
      intros acc c [E1 E2].
      destruct (Z.eq_dec (rgb_g c) (rgb_b c)) as [E3 | N].
      - apply hue_vote_grey; assumption.
      - apply hue_vote_blue; [assumption | lia]. }
    split; [exact E | ].
    intros m sd e c. unfold suggestControls. cbv zeta.
    cbn [sug_motifPack palette]. rewrite E. reflexivity.
Qed.

(** X22.  The hue bias of a palette does not depend on the order of its
    colours.  Greys and pure blues ([r = g <= b]: a pure blue has the hue
    2/3 exactly, which the strict test for a cool hue leaves out) count for
    neither side: a palette of such colours, the empty one included, is
    "mixed", and the advisor suggests the pack "psychedelia" for it, not
    "waves". *)
Theorem estimateHueBias_order_and_blues (p1 p2 : list RGB) :
  (p1 ≡ₚ p2 -> estimateHueBias p1 = estimateHueBias p2) /\
  (Forall no_vote p1 ->
   estimateHueBias p1 = mixed /\
   forall m sd e c,
     sug_motifPack (suggestControls (mkProfileStats p1 m sd e c)) = psychedelia).
Proof.
  exact (estimateHueBias_facts p1 p2).
Qed.

Example hue_bias_samples :
  estimateHueBias [mkRGB 200 30 30; mkRGB 20 180 200; mkRGB 220 120 20] = warm /\
  estimateHueBias [mkRGB 30 30 200; mkRGB 20 180 200] = cool /\
  estimateHueBias [mkRGB 200 30 30; mkRGB 20 180 200] = mixed /\
  estimateHueBias [mkRGB 0 0 255; mkRGB 30 30 200; mkRGB 128 128 128] = mixed.
Proof. vm_compute. repeat split. Qed.

(** ** Pipeline: when [stylize] returns *)

(** The canvas [stylize] reads has pixels: [img.onload] can leave a canvas
    with a side of 0 (for a picture more than 1536 times longer than it is
    short), and on such a canvas [getImageData] throws and [stylize] with
    it.  That call is not part of [stylize] as it is taken here, so what
    follows is about a canvas with sides of at least 1. *)
Definition nonempty_canvas (source : option ImageData) : Prop :=
  forall base, source = Some base -> (1 <= width base)%Z /\ (1 <= height base)%Z.

Section StylizeFacts.

Variable Math_PI : Q.
Variables Math_cos Math_sin : Q -> Q.
Variable random_values : nat -> Q.

Lemma stylize_total (p : ParameterSet) (source : option ImageData) (n : nat) :
  nonempty_canvas source -> 0 <= halftoneDensity p <= 0.4 ->
  exists ops,
    stylize Math_PI Math_cos Math_sin random_values p source n
    = (Some ops,
       match source with
       | Some _ =>
           (n + motif_draws (motifPack p)
                * motif_shapes (motifPack p) (styleIntensity p))%nat
       | None => n
       end).
Proof.
  intros _ [Hd0 Hd1]. unfold stylize. destruct source as [base | ].
  2: { exists []. reflexivity. }
  cbv zeta. unfold rand_bind.
  destruct (drawMotifs_counts Math_PI Math_cos Math_sin random_values
              (width base) (height base) (motifPack p) (styleIntensity p) n)
    as (motifs & -> & _).
  unfold rand_ret. cbn [mbind option_bind].
  set (density := if halftone p then halftoneDensity p else 0).
  assert (Hdots : is_Some (drawHalftone Math_PI (halftone p) (width base) (height base) density)).
  { destruct (halftone p) eqn:Eh.
    - destruct (Qlt_le_dec 0.01 density) as [Hgt | Hle].
      + destruct (drawHalftone_draws Math_PI (width base) (height base) density Hgt Hd1)
          as [dots ->]. eauto.
      + rewrite drawHalftone_skips by (right; exact Hle). eauto.
    - rewrite drawHalftone_skips by (left; reflexivity). eauto. }
  destruct Hdots as [dots ->]. cbn [mbind option_bind]. eauto.
Qed.

End StylizeFacts.



(** *** A halftone density from 0.6 on *)

(** A loop [for (x = start; x < limit; x += step)] with [start < limit] and
    a step of 0 or less: whatever the fuel, it runs out. *)
Lemma for_loop_stuck (fuel : nat) (x limit step : Z) :
  (x < limit)%Z -> (step <= 0)%Z ->
  for_loop fuel (fun x => (x <? limit)%Z) (fun x => (x + step)%Z) (fun x => x) x
  = @None (list Z).
Proof.
  intros Hx Hs. revert x Hx. induction fuel as [ | fuel IH]; intros x Hx; cbn [for_loop].
  - destruct (Z.ltb_spec x limit); [reflexivity | lia].
  - destruct (Z.ltb_spec x limit); [ | lia].
    rewrite IH by lia. reflexivity.
Qed.

Lemma halftone_stuck (density : Q) :
  0.6 <= density ->
  (halftone_spacing density <= 0)%Z /\
  halftone_radius (halftone_spacing density) = 1%Z.
Proof.
  intros Hd. unfold halftone_spacing, halftone_radius, Math_floor.
  assert (A : (12 <= Qfloor (density * 20))%Z).
  { change 12%Z with (Qfloor 12). apply Qfloor_resp_le. lra. }
  split; [lia | ].
  assert (B : (Qfloor (inject_Z (12 - Qfloor (density * 20)) / 4) <= 0)%Z).
  { change 0%Z with (Qfloor 0). apply Qfloor_resp_le.
    assert (inject_Z (12 - Qfloor (density * 20)) <= 0).
    { change 0 with (inject_Z 0). rewrite <- Zle_Qle. lia. }
    unfold Qdiv. change (/ 4) with (1 # 4). lra. }
  lia.
Qed.

Lemma drawHalftone_diverges (Math_PI : Q) (w h : Z) (density : Q) :
  0.6 <= density -> (2 <= h)%Z ->
  drawHalftone Math_PI true w h density = None /\
  forall fuel,
    for_loop fuel (fun y => (y <? h)%Z)
      (fun y => (y + halftone_spacing density)%Z) (fun y => y)
      (halftone_radius (halftone_spacing density)) = None.
Proof.
  intros Hd Hh. destruct (halftone_stuck density Hd) as [Hs Hr].
  split.
  - unfold drawHalftone. cbn [negb orb].
    destruct (Qle_bool density 0.01) eqn:E; [apply Qle_bool_iff in E; lra | ].
    cbv zeta.
    assert (L : lattice 1 h (halftone_spacing density) = None)
      by (apply for_loop_stuck; lia).
    rewrite Hr, L. reflexivity.
  - intros fuel. rewrite Hr. apply for_loop_stuck; lia.
Qed.

(** X24.  With the toggle on, a density from 0.6 on and a canvas at least 2
    pixels high, [drawHalftone] never returns: the spacing
    [12 - floor(20 D)] is 0 or less, the radius is 1, and the loop over the
    rows starts at [y = 1 < h] with a [y] that never grows (the loop runs
    out of fuel however much it is given); [stylize] on such parameters does
    not return either.  The advisor suggests such a density for a contrast
    index from 11/12 on, which is more than the analysis of a picture
    yields ([samplePixelsAndStats_contrast]); an imported profile brings any
    density. *)
Theorem halftone_density_hangs (Math_PI : Q) (Math_cos Math_sin : Q -> Q)
    (rv : nat -> Q) (p : ParameterSet) (base : ImageData) (n : nat) :
  halftone p = true -> 0.6 <= halftoneDensity p -> (2 <= height base)%Z ->
  drawHalftone Math_PI true (width base) (height base) (halftoneDensity p) = None /\
  (forall fuel,
     for_loop fuel (fun y => (y <? height base)%Z)
       (fun y => (y + halftone_spacing (halftoneDensity p))%Z) (fun y => y)
       (halftone_radius (halftone_spacing (halftoneDensity p))) = None) /\
  (stylize Math_PI Math_cos Math_sin rv p (Some base) n).1 = None /\
  (forall pal m sd e c, 11 # 12 <= c -> c <= 1 ->
     0.6 <= sug_halftoneDensity (suggestControls (mkProfileStats pal m sd e c))).
Proof.
  intros Hon Hd Hh.
  destruct (drawHalftone_diverges Math_PI (width base) (height base)
              (halftoneDensity p) Hd Hh) as [Hnone Hfuel].
  split; [exact Hnone | ]. split; [exact Hfuel | ]. split.
  - unfold stylize. cbv zeta. unfold rand_bind.
    destruct (drawMotifs_counts Math_PI Math_cos Math_sin rv
                (width base) (height base) (motifPack p) (styleIntensity p) n)
      as (motifs & -> & _).
    unfold rand_ret. cbn [fst mbind option_bind]. rewrite Hon, Hnone. reflexivity.
  - intros pal m sd e c Hc0 Hc1. unfold suggestControls. cbv zeta.
    cbn [sug_halftoneDensity contrastIndex].
    unfold clamp01, Math_max, Math_min.
    rewrite Q.min_r by lra. rewrite Q.max_r by lra. lra.
Qed.

Lemma halftone_density_hangs_witness :
  let p := mkParameterSet 0.7 0.8 0.3 none true 0.65 0.5 false in
  let base := mkImageData 2 2 (replicate 16 255%Z) in
  drawHalftone 3 true (width base) (height base) (halftoneDensity p) = None /\
  (forall fuel,
     for_loop fuel (fun y => (y <? height base)%Z)
       (fun y => (y + halftone_spacing (halftoneDensity p))%Z) (fun y => y)
       (halftone_radius (halftone_spacing (halftoneDensity p))) = None) /\
  (stylize 3 (fun x => x) (fun x => x) (fun _ => 0) p (Some base) 0%nat).1 = None /\
  (forall pal m sd e c, 11 # 12 <= c -> c <= 1 ->
     0.6 <= sug_halftoneDensity (suggestControls (mkProfileStats pal m sd e c))).
Proof.
  apply (halftone_density_hangs 3 (fun x => x) (fun x => x) (fun _ => 0)
           (mkParameterSet 0.7 0.8 0.3 none true 0.65 0.5 false)
           (mkImageData 2 2 (replicate 16 255%Z)) 0%nat).
  - reflexivity.
  - discriminate.
  - cbn. lia.
Defined.

(** ** ProfileAnalysis: the spread of the samples *)

Lemma Qsquare (y : Q) : y ^ 2 == y * y.
Proof. reflexivity. Qed.

(** For numbers in [0,1] the sum of the squared distances to [mu] is at
    most [(1 - 2 mu) * sum + n * mu^2], since [x^2 <= x]. *)
Lemma squares_bound (mu : Q) (arr : list Q) (a s : Q) :
  Forall (fun x => 0 <= x <= 1) arr ->
  let F := foldl (fun acc x => acc + (x - mu) ^ 2) a arr in
  let G := foldl Qplus s arr in
  0 <= F - a /\
  F - a <= (1 - 2 * mu) * (G - s) + inject_Z (Z.of_nat (length arr)) * (mu * mu).
Proof.
  intros H. revert a s. induction H as [ | x arr [Hx0 Hx1] _ IH]; intros a s F G.
  - subst F G. cbn [foldl length]. change (inject_Z (Z.of_nat 0)) with 0. lra.
  - subst F G. cbn [foldl length].
    specialize (IH (a + (x - mu) ^ 2) (s + x)). cbv zeta in IH.
    destruct IH as [IH0 IH1].
    rewrite Nat2Z.inj_succ. unfold Z.succ. rewrite inject_Z_plus.
    change (inject_Z 1) with 1.
    pose proof (Qsquare (x - mu)) as Hsq.
    set (sq := (x - mu) ^ 2) in *.
    set (F := foldl (fun acc x => acc + (x - mu) ^ 2) (a + sq) arr) in *.
    set (G := foldl Qplus (s + x) arr) in *.
    set (n := inject_Z (Z.of_nat (length arr))) in *.
    assert (Hs0 : 0 <= sq).
    { rewrite Hsq. set (y := x - mu). nra. }
    assert (Hxx : x * x <= x) by nra.
    assert (Hs1 : sq <= (1 - 2 * mu) * x + mu * mu) by (rewrite Hsq; nra).
    split; [lra | ].
    assert (E1 : (1 - 2 * mu) * (G - s)
                 == (1 - 2 * mu) * (G - (s + x)) + (1 - 2 * mu) * x) by ring.
    assert (E2 : (n + 1) * (mu * mu) == n * (mu * mu) + mu * mu) by ring.
    rewrite E1, E2. lra.
Qed.

(** The number under the root of [stddev], for numbers in [0,1] around
    their average: from 0 to 1/4. *)
Lemma variance_range (arr : list Q) :
  Forall (fun x => 0 <= x <= 1) arr -> arr <> [] ->
  let v := foldl (fun acc x => acc + (x - average arr) ^ 2) 0 arr
           / inject_Z (Z.of_nat (length arr)) in
  0 <= v <= 1 # 4.
Proof.
  intros H Hne v.
  pose proof (squares_bound (average arr) arr 0 0 H) as [B0 B1]. cbv zeta in B0, B1.
  assert (Hn : 1 <= inject_Z (Z.of_nat (length arr))).
  { apply inject_Z_pos. destruct arr; [contradiction | cbn [length]; lia]. }
  assert (Hmu : average arr * inject_Z (Z.of_nat (length arr)) == foldl Qplus 0 arr).
  { unfold average. destruct arr as [ | x arr]; [contradiction | ]. field. lra. }
  set (mu := average arr) in *.
  set (n := inject_Z (Z.of_nat (length arr))) in *.
  set (S := foldl Qplus 0 arr) in *.
  set (F := foldl (fun acc x => acc + (x - mu) ^ 2) 0 arr) in *.
  assert (Hv : v * n == F) by (subst v; field; lra).
  assert (Hq : F <= n * (1 # 4)).
  { assert (A : F <= n * (mu * (1 - mu))).
    { rewrite <- Hmu in B1.
      assert (E : (1 - 2 * mu) * (mu * n - 0) + n * (mu * mu) == n * (mu * (1 - mu)))
        by ring.
      rewrite E in B1. lra. }
    assert (B : mu * (1 - mu) <= 1 # 4).
    { assert (0 <= (mu - (1 # 2)) * (mu - (1 # 2))).
      { set (y := mu - (1 # 2)). nra. }
      lra. }
    nra. }
  split; nra.
Qed.

Section SpreadFacts.

Variable Math_sqrt : Q -> Q.

Lemma stddev_radicand (arr : list Q) :
  Forall (fun x => 0 <= x <= 1) arr ->
  stddev Math_sqrt arr (average arr) = 0 \/
  exists v, stddev Math_sqrt arr (average arr) = Math_sqrt v /\ 0 <= v <= 1 # 4.
Proof.
  intros H. destruct arr as [ | x arr]; [left; reflexivity | right].
  eexists. split; [reflexivity | ].
  apply (variance_range (x :: arr) H). discriminate.
Qed.

Lemma samplePixelsAndStats_spreads (d : list Z) (maxSamples : Z) :
  let offs := sample_offsets (length d) (sample_step (length d) maxSamples) in
  let hsl i := rgbToHsl (inject_Z (d !!! i)) (inject_Z (d !!! (i + 1)%nat))
                 (inject_Z (d !!! (i + 2)%nat)) in
  let st := samplePixelsAndStats Math_sqrt d maxSamples in
  let sats := (fun i => hsl_s (hsl i)) <$> offs in
  let lums := (fun i => hsl_l (hsl i)) <$> offs in
  satStd st = stddev Math_sqrt sats (average sats) /\
  contrastIdx st = stddev Math_sqrt lums (average lums).
Proof.
  intros offs hsl st sats lums. subst st. unfold samplePixelsAndStats. cbv zeta. fold offs.
  rewrite (foldl_push3
             (fun i => mkRGB (d !!! i) (d !!! (i + 1)%nat) (d !!! (i + 2)%nat))
             (fun i => hsl_s (hsl i)) (fun i => hsl_l (hsl i))).
  cbn. split; reflexivity.
Qed.

Lemma sample_offsets_inside (d : list Z) (m : Z) :
  (length d mod 4 = 0)%nat -> (1 <= m)%Z ->
  Forall (fun i => (i + 3 < length d)%nat)
    (sample_offsets (length d) (sample_step (length d) m)).
Proof.
  intros Hlen Hm.
  set (n := (length d / 4)%nat).
  assert (Hd : length d = (4 * n)%nat).
  { subst n. pose proof (Nat.div_mod_eq (length d) 4). lia. }
  rewrite Hd, sample_step_pixels by exact Hm.
  set (s := Nat.max 1 (n / Z.to_nat m)).
  assert (Hs : (1 <= s)%nat) by (subst s; lia).
  unfold sample_offsets. rewrite Nat2Z.id. cbv zeta. rewrite sample_rounds by exact Hs.
  apply Forall_fmap, Forall_forall. intros k Hk. apply elem_of_seq in Hk.
  unfold compose. cbv beta.
  pose proof (Nat.div_mod_eq (n + s - 1) s) as E.
  pose proof (Nat.mod_upper_bound (n + s - 1) s ltac:(lia)) as Hr.
  assert (s * k < n)%nat by nia. nia.
Qed.

Lemma samplePixelsAndStats_contrast (d : list Z) (m : Z) :
  Forall is_byte d -> (length d mod 4 = 0)%nat -> (1 <= m)%Z ->
  let st := samplePixelsAndStats Math_sqrt d m in
  (satStd st = 0 \/ exists v, satStd st = Math_sqrt v /\ 0 <= v <= 1 # 4) /\
  (contrastIdx st = 0 \/ exists v, contrastIdx st = Math_sqrt v /\ 0 <= v <= 1 # 4) /\
  ((forall v, 0 <= v <= 1 # 4 -> 0 <= Math_sqrt v <= 1 # 2) ->
   0 <= satStd st <= 1 # 2 /\ 0 <= contrastIdx st <= 1 # 2 /\
   forall pal e,
     let s := suggestControls
                (mkProfileStats pal (meanSat st) (satStd st) e (contrastIdx st)) in
     0.05 <= sug_halftoneDensity s <= 0.35 /\
     0.3 <= sug_burstStrength s <= 0.55 /\
     0.6 <= sug_styleIntensity s <= 0.75).
Proof.
  intros Hbytes Hlen Hm st.
  destruct (samplePixelsAndStats_spreads d m) as [Es Ec]. cbv zeta in Es, Ec.
  fold st in Es, Ec.
  pose proof (sample_offsets_inside d m Hlen Hm) as Hin.
  set (offs := sample_offsets (length d) (sample_step (length d) m)) in *.
  assert (Hb : forall j, (j < length d)%nat -> 0 <= inject_Z (d !!! j) <= 255).
  { intros j Hj. apply byte_in_Q. eapply (Forall_lookup_1 is_byte); [exact Hbytes | ].
    apply list_lookup_lookup_total_lt; lia. }
  assert (Hhsl : forall i, i ∈ offs ->
            let x := rgbToHsl (inject_Z (d !!! i)) (inject_Z (d !!! (i + 1)%nat))
                       (inject_Z (d !!! (i + 2)%nat)) in
            0 <= hsl_s x <= 1 /\ 0 <= hsl_l x <= 1).
  { intros i Hi x. pose proof (proj1 (Forall_forall _ _) Hin i Hi) as Hi3. cbn in Hi3.
    pose proof (rgbToHsl_bounds _ _ _ (Hb i ltac:(lia)) (Hb (i + 1)%nat ltac:(lia))
                  (Hb (i + 2)%nat ltac:(lia))) as B.
    cbv zeta in B. subst x. tauto. }
  assert (Hsat : satStd st = 0 \/ exists v, satStd st = Math_sqrt v /\ 0 <= v <= 1 # 4).
  { rewrite Es. apply stddev_radicand, Forall_fmap, Forall_forall.
    intros i Hi. exact (proj1 (Hhsl i Hi)). }
  assert (Hcon : contrastIdx st = 0 \/
                 exists v, contrastIdx st = Math_sqrt v /\ 0 <= v <= 1 # 4).
  { rewrite Ec. apply stddev_radicand, Forall_fmap, Forall_forall.
    intros i Hi. exact (proj2 (Hhsl i Hi)). }
  split; [exact Hsat | ]. split; [exact Hcon | ].
  intros Hsqrt.
  assert (Hs2 : 0 <= satStd st <= 1 # 2).
  { destruct Hsat as [-> | (v & -> & Hv)]; [lra | apply Hsqrt, Hv]. }
  assert (Hc2 : 0 <= contrastIdx st <= 1 # 2).
  { destruct Hcon as [-> | (v & -> & Hv)]; [lra | apply Hsqrt, Hv]. }
  split; [exact Hs2 | ]. split; [exact Hc2 | ].
  intros pal e s. subst s. unfold suggestControls. cbv zeta.
  cbn [sug_halftoneDensity sug_burstStrength sug_styleIntensity contrastIndex].
  unfold clamp01, Math_max, Math_min.
  rewrite !Q.min_r by lra. rewrite !Q.max_r by lra. lra.
Qed.

End SpreadFacts.

(** X25.  The two spreads [samplePixelsAndStats] returns, for the bytes of
    whole pixels and [maxSamples >= 1]: each is 0 (no sample) or
    [Math.sqrt(v)] with [v] from 0 to 1/4, so the root is never taken of a
    negative number.  With a [Math.sqrt] that maps [0, 1/4] into [0, 1/2]
    both lie in [0, 1/2], and the advisor, given that contrast index,
    suggests a halftone density in [0.05, 0.35], inside the declared range
    of the control, a burst strength in [0.3, 0.55] and a style intensity
    in [0.6, 0.75]. *)
Theorem samplePixelsAndStats_spread (Math_sqrt : Q -> Q) (d : list Z) (m : Z) :
  Forall is_byte d -> (length d mod 4 = 0)%nat -> (1 <= m)%Z ->
  let st := samplePixelsAndStats Math_sqrt d m in
  (satStd st = 0 \/ exists v, satStd st = Math_sqrt v /\ 0 <= v <= 1 # 4) /\
  (contrastIdx st = 0 \/ exists v, contrastIdx st = Math_sqrt v /\ 0 <= v <= 1 # 4) /\
  ((forall v, 0 <= v <= 1 # 4 -> 0 <= Math_sqrt v <= 1 # 2) ->
   0 <= satStd st <= 1 # 2 /\ 0 <= contrastIdx st <= 1 # 2 /\
   forall pal e,
     let s := suggestControls
                (mkProfileStats pal (meanSat st) (satStd st) e (contrastIdx st)) in
     0.05 <= sug_halftoneDensity s <= 0.35 /\
     0.3 <= sug_burstStrength s <= 0.55 /\
     0.6 <= sug_styleIntensity s <= 0.75).
Proof.
  exact (samplePixelsAndStats_contrast Math_sqrt d m).
Qed.

Lemma samplePixelsAndStats_spread_witness :
  let d := [10; 100; 200; 255; 128; 128; 128; 255; 0; 0; 0; 255]%Z in
  let Math_sqrt (v : Q) := 2 * v in
  let st := samplePixelsAndStats Math_sqrt d 2 in
  (satStd st = 0 \/ exists v, satStd st = Math_sqrt v /\ 0 <= v <= 1 # 4) /\
  (contrastIdx st = 0 \/ exists v, contrastIdx st = Math_sqrt v /\ 0 <= v <= 1 # 4) /\
  ((forall v, 0 <= v <= 1 # 4 -> 0 <= Math_sqrt v <= 1 # 2) ->
   0 <= satStd st <= 1 # 2 /\ 0 <= contrastIdx st <= 1 # 2 /\
   forall pal e,
     let s := suggestControls
                (mkProfileStats pal (meanSat st) (satStd st) e (contrastIdx st)) in
     0.05 <= sug_halftoneDensity s <= 0.35 /\
     0.3 <= sug_burstStrength s <= 0.55 /\
     0.6 <= sug_styleIntensity s <= 0.75).
Proof.
  apply (samplePixelsAndStats_spread (fun v => 2 * v)
           [10; 100; 200; 255; 128; 128; 128; 255; 0; 0; 0; 255]%Z 2).
  - repeat constructor; unfold is_byte; lia.
  - reflexivity.
  - lia.
Defined.

(** The hypothesis on the root holds of a function: twice its argument is
    one, and so is the root itself. *)
Example root_hypothesis_holds :
  forall v, 0 <= v <= 1 # 4 -> 0 <= 2 * v <= 1 # 2.
Proof. intros v Hv. lra. Qed.

(** ** ProfileBuilder: [analyzeReferences] *)

(** A reference picture as the analysis meets it: the size of the image,
    the bytes [ctx.getImageData(0, 0, dim.w, dim.h)] returns once the image
    is drawn at the size [fitWithin] gives, and the bytes [sobelEdges] reads
    from the canvas [estimateEdgeDensity] copies them to. *)
Record Reference := mkReference {
  img_width : Z;
  img_height : Z;
  ref_data : list Z;
  ref_edge_data : list Z
}.

Record StyleProfile := mkStyleProfile {
  prof_name : string;
  prof_stats : ProfileStats;
  prof_suggested : Suggested
}.

(** The running totals of the loop over the references. *)
Record Totals := mkTotals {
  allSamples : list RGB;
  totalMeanSat : Q;
  totalSatStd : Q;
  totalEdgeDensity : Q;
  totalContrast : Q;
  counted : Z
}.

(** How a call of [analyzeReferences] ends. *)
Inductive Outcome : Type :=
| returned_early
| threw
| analyzed (prof : StyleProfile).

Section Analysis.

Variable Math_sqrt : Q -> Q.
Variable random_values : nat -> Q.

(** One round of the loop over [referenceURLs]. *)
Definition analyze_one (t : Totals) (r : Reference) : Totals :=
  let dim := fitWithin (inject_Z (img_width r)) (inject_Z (img_height r)) 256 256 in
  let st := samplePixelsAndStats Math_sqrt (ref_data r) 4000 in
  let edge := estimateEdgeDensity (ref_edge_data r) dim.1 dim.2 in
  mkTotals (allSamples t ++ samples st) (totalMeanSat t + meanSat st)
    (totalSatStd t + satStd st) (totalEdgeDensity t + edge)
    (totalContrast t + contrastIdx st) (counted t + 1).

(** [analyzeReferences] up to the profile it builds. *)
Definition analyzeReferences (refs : list Reference) : Rand Outcome :=
  match refs with
  | [] => rand_ret returned_early
  | _ =>
      let t := foldl analyze_one (mkTotals [] 0 0 0 0 0) refs in
      rand_bind (kmeansPalette random_values (allSamples t) 6) (fun palette =>
      rand_ret
        match palette with
        | None => threw
        | Some palette =>
            let meanSaturation := totalMeanSat t / inject_Z (counted t) in
            let saturationStd := totalSatStd t / inject_Z (counted t) in
            let edgeDensity := totalEdgeDensity t / inject_Z (counted t) in
            let contrastIndex := totalContrast t / inject_Z (counted t) in
            let stats := mkProfileStats palette meanSaturation saturationStd
                           edgeDensity contrastIndex in
            analyzed (mkStyleProfile "CustomProfile" stats (suggestControls stats))
        end)
  end.

End Analysis.

(** The profile as a value of the state and of the store. *)
Definition json_of_motif (m : MotifPack) : JSON :=
  JStr match m with
       | none => "none" | waves => "waves" | flames => "flames"
       | psychedelia => "psychedelia"
       end.

Definition json_of_suggested (s : Suggested) : JSON :=
  JObj [("outlineWeight"%string, JNum (sug_outlineWeight s));
        ("saturationBoost"%string, JNum (sug_saturationBoost s));
        ("halftoneDensity"%string, JNum (sug_halftoneDensity s));
        ("burstStrength"%string, JNum (sug_burstStrength s));
        ("motifPack"%string, json_of_motif (sug_motifPack s));
        ("styleIntensity"%string, JNum (sug_styleIntensity s));
        ("applyPalette"%string, JBool (sug_applyPalette s))].

Definition json_of_profile (p : StyleProfile) : JSON :=
  JObj [("name"%string, JStr (prof_name p));
        ("palette"%string,
         JArr ((fun c => JObj [("r"%string, JNum (inject_Z (rgb_r c)));
                               ("g"%string, JNum (inject_Z (rgb_g c)));
                               ("b"%string, JNum (inject_Z (rgb_b c)))])
               <$> palette (prof_stats p)));
        ("meanSaturation"%string, JNum (meanSaturation (prof_stats p)));
        ("saturationStd"%string, JNum (saturationStd (prof_stats p)));
        ("edgeDensity"%string, JNum (edgeDensity (prof_stats p)));
        ("contrastIndex"%string, JNum (contrastIndex (prof_stats p)));
        ("suggested"%string, json_of_suggested (prof_suggested p))].

(** The end of [analyzeReferences]: the profile goes to the state, to the
    controls when auto-apply is on, and to the store. *)
Definition analyzeReferences_commit (prof : StyleProfile) (st : AppState) : AppState :=
  ((setProfile (json_of_profile prof) ;;
    auto <- (fun st => (Some (autoApplyProfile st), st)) ;;
    (if auto : bool
     then applySuggested (val (json_of_suggested (prof_suggested prof)))
     else ret tt) ;;
    localStorage_setItem (json_of_profile prof))%stmt st).2.

(** The controls [stylize] reads, once a suggestion is applied to them. *)
Definition apply_suggestion (s : Suggested) (p : ParameterSet) : ParameterSet :=
  mkParameterSet (sug_styleIntensity s) (sug_outlineWeight s) (sug_saturationBoost s)
    (sug_motifPack s) (halftone p) (sug_halftoneDensity s) (sug_burstStrength s)
    (transparentBG p).

Example analyze_one_reference :
  let px (v : Z) := [v; v; v; 255%Z] in
  let row := px 0%Z ++ px 0%Z ++ px 255%Z ++ px 255%Z in
  let d := row ++ row ++ row in
  exists prof,
    analyzeReferences (fun v => v) (fun _ => 0.5) [mkReference 4 3 d d] 0%nat
    = (analyzed prof, 6%nat) /\
    palette (prof_stats prof)
    = [mkRGB 0 0 0; mkRGB 255 255 255; mkRGB 255 255 255; mkRGB 255 255 255;
       mkRGB 255 255 255; mkRGB 255 255 255] /\
    edgeDensity (prof_stats prof) == 1 # 6 /\
    sug_motifPack (prof_suggested prof) = psychedelia.
Proof. eexists. vm_compute. repeat split. Qed.

(** What the analysis needs of a reference: an image of at least one
    pixel, and the bytes of a picture of the size [fitWithin] gives. *)
Definition reference_ok (r : Reference) : Prop :=
  (1 <= img_width r)%Z /\ (1 <= img_height r)%Z /\
  Forall is_byte (ref_data r) /\
  let dim := fitWithin (inject_Z (img_width r)) (inject_Z (img_height r)) 256 256 in
  length (ref_data r) = Z.to_nat (dim.1 * dim.2 * 4).

Section AnalysisFacts.

Variable Math_sqrt : Q -> Q.
Variable random_values : nat -> Q.

Hypothesis Math_sqrt_range : forall v, 0 <= v <= 1 # 4 -> 0 <= Math_sqrt v <= 1 # 2.

(** The totals after some rounds. *)
Definition totals_ok (t : Totals) : Prop :=
  (0 <= counted t)%Z /\
  0 <= totalMeanSat t <= inject_Z (counted t) /\
  0 <= totalSatStd t <= inject_Z (counted t) * (1 # 2) /\
  0 <= totalEdgeDensity t <= inject_Z (counted t) /\
  0 <= totalContrast t <= inject_Z (counted t) * (1 # 2) /\
  Forall is_color (allSamples t) /\
  ((1 <= counted t)%Z -> allSamples t <> []).

Lemma analyze_one_ok (t : Totals) (r : Reference) :
  totals_ok t -> reference_ok r ->
  totals_ok (analyze_one Math_sqrt t r) /\
  counted (analyze_one Math_sqrt t r) = (counted t + 1)%Z.
Proof.
  intros (Hc & Hm & Hs & He & Hk & Hcol & Hne) (Hw & Hh & Hbytes & Hlen).
  cbv zeta in Hlen.
  destruct (fitWithin_bounds (img_width r) (img_height r) 256 256 Hw Hh
              ltac:(lia) ltac:(lia)) as ((W1 & _) & (H1 & _) & _).
  change (inject_Z 256) with 256 in W1, H1.
  set (dim := fitWithin (inject_Z (img_width r)) (inject_Z (img_height r)) 256 256) in *.
  assert (Hmod : (length (ref_data r) mod 4 = 0)%nat).
  { rewrite Hlen, Z2Nat.inj_mul by nia. apply Nat.Div0.mod_mul. }
  destruct (samplePixelsAndStats_facts Math_sqrt (ref_data r) 4000 Hbytes Hmod ltac:(lia))
    as (_ & Hcount & Hall & Hmany & Hsc & Hms).
  destruct (samplePixelsAndStats_contrast Math_sqrt (ref_data r) 4000 Hbytes Hmod ltac:(lia))
    as (_ & _ & Hspread).
  destruct (Hspread Math_sqrt_range) as (Hss & Hcs & _).
  destruct (estimateEdgeDensity_bounds (ref_edge_data r) dim.1 dim.2 W1 H1)
    as (He0 & He1 & _).
  cbv zeta in Hcount, Hall, Hmany, Hsc, Hms, Hss, Hcs, He0, He1.
  set (st := samplePixelsAndStats Math_sqrt (ref_data r) 4000) in *.
  assert (Hsome : samples st <> []).
  { assert (Hn : (1 <= length (ref_data r) / 4)%nat).
    { rewrite Hlen, Z2Nat.inj_mul by nia.
      rewrite Nat.div_mul by lia. nia. }
    destruct (Nat.le_gt_cases (length (ref_data r) / 4) (Z.to_nat 4000)) as [Hle | Hgt].
    - rewrite (Hall Hle). destruct (length (ref_data r) / 4)%nat; [lia | discriminate].
    - intros E. rewrite E in Hmany. cbn [length] in Hmany. lia. }
  split; [ | reflexivity].
  unfold totals_ok, analyze_one. cbv zeta. fold dim. fold st.
  cbn [counted totalMeanSat totalSatStd totalEdgeDensity totalContrast allSamples].
  rewrite inject_Z_plus. change (inject_Z 1) with 1.
  split; [lia | ]. split; [lra | ]. split; [lra | ]. split; [lra | ]. split; [lra | ].
  split; [apply Forall_app; split; assumption | ].
  intros _ E. apply app_eq_nil in E as [_ E]. contradiction.
Qed.

Lemma analyze_all_ok (refs : list Reference) (t : Totals) :
  totals_ok t -> Forall reference_ok refs ->
  totals_ok (foldl (analyze_one Math_sqrt) t refs) /\
  counted (foldl (analyze_one Math_sqrt) t refs) = (counted t + Z.of_nat (length refs))%Z.
Proof.
  intros Ht Hrefs. revert t Ht.
  induction Hrefs as [ | r refs Hr _ IH]; intros t Ht.
  - cbn. split; [exact Ht | lia].
  - cbn [foldl length]. destruct (analyze_one_ok t r Ht Hr) as [Ht' Hc'].
    destruct (IH _ Ht') as [Hok Hc]. split; [exact Hok | ]. rewrite Hc, Hc'. lia.
Qed.

Lemma analyzeReferences_profile (refs : list Reference) (n : nat) :
  refs <> [] -> Forall reference_ok refs ->
  (forall i, (n <= i < n + 6)%nat -> 0 <= random_values i < 1) ->
  exists prof,
    analyzeReferences Math_sqrt random_values refs n = (analyzed prof, (n + 6)%nat) /\
    prof_suggested prof = suggestControls (prof_stats prof) /\
    length (palette (prof_stats prof)) = 6%nat /\
    Forall is_color (palette (prof_stats prof)) /\
    StronglySorted (fun a b => luma a <= luma b) (palette (prof_stats prof)) /\
    0 <= meanSaturation (prof_stats prof) <= 1 /\
    0 <= saturationStd (prof_stats prof) <= 1 # 2 /\
    0 <= edgeDensity (prof_stats prof) <= 1 /\
    0 <= contrastIndex (prof_stats prof) <= 1 # 2.
Proof.
  intros Hne Hrefs Hrv.
  assert (H0 : totals_ok (mkTotals [] 0 0 0 0 0)).
  { unfold totals_ok.
    cbn [counted totalMeanSat totalSatStd totalEdgeDensity totalContrast allSamples].
    change (inject_Z 0) with 0.
    split; [lia | ]. split; [lra | ]. split; [lra | ]. split; [lra | ]. split; [lra | ].
    split; [constructor | lia]. }
  destruct (analyze_all_ok refs _ H0 Hrefs) as [Hok Hc].
  cbn [counted] in Hc.
  set (t := foldl (analyze_one Math_sqrt) (mkTotals [] 0 0 0 0 0) refs) in *.
  destruct Hok as (_ & Hm & Hs & He & Hk & Hcol & Hsome).
  assert (Hcnt : (1 <= counted t)%Z).
  { rewrite Hc. destruct refs; [contradiction | cbn [length]; lia]. }
  destruct (kmeansPalette_runs random_values (mkRGB 0 0 0) (mkRGB 255 255 255)
              (allSamples t) 6 n (Hsome Hcnt) Hcol ltac:(lia) Hrv)
    as (cs & Ek & Hl & Hb & Hsorted).
  change (Z.to_nat 6) with 6%nat in Ek, Hl.
  pose proof (inject_Z_pos _ Hcnt) as Qc.
  set (c := inject_Z (counted t)) in *.
  eexists. split.
  { unfold analyzeReferences. destruct refs as [ | r refs']; [contradiction | ].
    fold t. unfold rand_bind. rewrite Ek. unfold rand_ret. reflexivity. }
  cbn [prof_suggested prof_stats palette meanSaturation saturationStd edgeDensity
       contrastIndex].
  split; [reflexivity | ]. split; [exact Hl | ]. split; [exact Hb | ].
  split; [exact Hsorted | ].
  assert (Hdiv : forall x lo hi : Q, lo * c <= x <= hi * c -> lo <= x / c <= hi).
  { intros x lo hi [X0 X1]. set (q := x / c).
    assert (Hq : q * c == x) by (subst q; field; lra).
    split; nra. }
  split; [apply Hdiv; lra | ]. split; [apply Hdiv; lra | ].
  split; apply Hdiv; lra.
Qed.

End AnalysisFacts.

Lemma clamp01_between (v lo hi : Q) :
  0 <= lo -> hi <= 1 -> lo <= v <= hi -> lo <= clamp01 v <= hi.
Proof.
  intros Hlo Hhi Hv. destruct (clamp01_spec v) as (_ & E & _).
  rewrite E by lra. exact Hv.
Qed.

Lemma clamp01_above (v lo : Q) : 0 <= lo <= 1 -> lo <= v -> lo <= clamp01 v <= 1.
Proof.
  intros Hlo Hv. destruct (clamp01_spec v) as (_ & E & _ & E1).
  destruct (Qlt_le_dec v 1) as [H1 | H1].
  - rewrite E by lra. lra.
  - rewrite E1 by lra. lra.
Qed.

Lemma clamp01_below (v hi : Q) : 0 <= hi <= 1 -> v <= hi -> 0 <= clamp01 v <= hi.
Proof.
  intros Hhi Hv. destruct (clamp01_spec v) as (_ & E & E0 & _).
  destruct (Qlt_le_dec v 0) as [H0 | H0].
  - rewrite E0 by lra. lra.
  - rewrite E by lra. lra.
Qed.

Lemma suggestControls_after_analysis (stats : ProfileStats) :
  0 <= meanSaturation stats <= 1 -> 0 <= edgeDensity stats ->
  0 <= contrastIndex stats <= 1 # 2 ->
  let s := suggestControls stats in
  0.4 <= sug_outlineWeight s <= 1 /\
  0 <= sug_saturationBoost s <= 0.56 /\
  0.05 <= sug_halftoneDensity s <= 0.35 /\
  0.3 <= sug_burstStrength s <= 0.55 /\
  0.6 <= sug_styleIntensity s <= 0.75 /\
  sug_applyPalette s = true.
Proof.
  intros Hm He Hc s. subst s. unfold suggestControls. cbv zeta.
  cbn [sug_outlineWeight sug_saturationBoost sug_halftoneDensity sug_burstStrength
       sug_styleIntensity sug_applyPalette].
  split; [apply clamp01_above; lra | ].
  split; [apply clamp01_below; lra | ].
  split; [apply clamp01_between; lra | ].
  split; [apply clamp01_between; lra | ].
  split; [apply clamp01_between; lra | reflexivity].
Qed.

Lemma analyzeReferences_commit_result (prof : StyleProfile) (st : AppState) :
  analyzeReferences_commit prof st
  = importProfileJSON_onload (Some (json_of_profile prof)) st /\
  profile (analyzeReferences_commit prof st) = json_of_profile prof /\
  stored (analyzeReferences_commit prof st) = Some (json_of_profile prof) /\
  (autoApplyProfile st = true ->
   let s := prof_suggested prof in
   controls (analyzeReferences_commit prof st)
   = [val (JNum (sug_outlineWeight s)); val (JNum (sug_saturationBoost s));
      val (JNum (sug_halftoneDensity s)); val (JNum (sug_burstStrength s));
      val (json_of_motif (sug_motifPack s)); val (JNum (sug_styleIntensity s));
      val (JBool (sug_applyPalette s))]).
Proof.
  unfold analyzeReferences_commit, importProfileJSON_onload, try_catch.
  unfold bind, eval, ret, throw, setProfile, update, localStorage_setItem, applySuggested.
  cbn. destruct (autoApplyProfile st) eqn:Ea; cbn; repeat split; try reflexivity.
  discriminate.
Qed.

(** X26.  [analyzeReferences] on one or more reference pictures (each of
    at least one pixel, drawn at the size [fitWithin] gives), with
    [Math.random] in [0,1) and a [Math.sqrt] that maps [0, 1/4] into
    [0, 1/2]: it completes after 6 calls of [Math.random] with a profile
    whose palette has 6 colours with channels in [0,255], sorted by
    luminance; whose statistics lie in [0,1] (mean saturation, edge
    density) and [0, 1/2] (the two spreads); and whose suggestion is the
    advisor's, with outline weight in [0.4, 1], saturation boost in
    [0, 0.56], halftone density in [0.05, 0.35], burst strength in
    [0.3, 0.55] and style intensity in [0.6, 0.75].  Committing it has the
    effect of importing it: it becomes the profile, it is stored, and with
    auto-apply on the seven controls take the suggested values; and on
    the controls it gives [stylize] returns, for a canvas with sides of at
    least 1. *)
Theorem analyzeReferences_safe (Math_sqrt : Q -> Q) (rv : nat -> Q)
    (refs : list Reference) (n : nat) :
  (forall v, 0 <= v <= 1 # 4 -> 0 <= Math_sqrt v <= 1 # 2) ->
  refs <> [] -> Forall reference_ok refs ->
  (forall i, (n <= i < n + 6)%nat -> 0 <= rv i < 1) ->
  exists prof,
    analyzeReferences Math_sqrt rv refs n = (analyzed prof, (n + 6)%nat) /\
    let stats := prof_stats prof in
    let s := prof_suggested prof in
    s = suggestControls stats /\
    (length (palette stats) = 6%nat /\ Forall is_color (palette stats) /\
     StronglySorted (fun a b => luma a <= luma b) (palette stats)) /\
    (0 <= meanSaturation stats <= 1 /\ 0 <= saturationStd stats <= 1 # 2 /\
     0 <= edgeDensity stats <= 1 /\ 0 <= contrastIndex stats <= 1 # 2) /\
    (0.4 <= sug_outlineWeight s <= 1 /\ 0 <= sug_saturationBoost s <= 0.56 /\
     0.05 <= sug_halftoneDensity s <= 0.35 /\ 0.3 <= sug_burstStrength s <= 0.55 /\
     0.6 <= sug_styleIntensity s <= 0.75 /\ sug_applyPalette s = true) /\
    (forall st,
       analyzeReferences_commit prof st
       = importProfileJSON_onload (Some (json_of_profile prof)) st /\
       profile (analyzeReferences_commit prof st) = json_of_profile prof /\
       stored (analyzeReferences_commit prof st) = Some (json_of_profile prof) /\
       (autoApplyProfile st = true ->
        controls (analyzeReferences_commit prof st)
        = [val (JNum (sug_outlineWeight s)); val (JNum (sug_saturationBoost s));
           val (JNum (sug_halftoneDensity s)); val (JNum (sug_burstStrength s));
           val (json_of_motif (sug_motifPack s)); val (JNum (sug_styleIntensity s));
           val (JBool (sug_applyPalette s))])) /\
    (forall Math_PI Math_cos Math_sin rv' p source k,
       nonempty_canvas source ->
       is_Some (stylize Math_PI Math_cos Math_sin rv' (apply_suggestion s p) source k).1).
Proof.
  intros Hsqrt Hne Hrefs Hrv.
  destruct (analyzeReferences_profile Math_sqrt rv Hsqrt refs n Hne Hrefs Hrv)
    as (prof & E & Es & Hl & Hcol & Hsorted & Hm & Hs & He & Hc).
  exists prof. split; [exact E | ]. cbv zeta.
  pose proof (suggestControls_after_analysis (prof_stats prof) Hm (proj1 He) Hc) as R.
  cbv zeta in R. rewrite <- Es in R.
  split; [exact Es | ]. split; [auto | ]. split; [auto | ]. split; [exact R | ].
  split; [intros st; apply analyzeReferences_commit_result | ].
  intros Math_PI Math_cos Math_sin rv' p source k Hsource.
  destruct (stylize_total Math_PI Math_cos Math_sin rv' (apply_suggestion (prof_suggested prof) p)
              source k Hsource) as [ops Eo].
  { unfold apply_suggestion. cbn [halftoneDensity].
    destruct R as (_ & _ & Hh & _). lra. }
  rewrite Eo. cbn. eauto.
Qed.

Lemma analyzeReferences_safe_witness :
  let px (v : Z) := [v; v; v; 255%Z] in
  let row := px 0%Z ++ px 0%Z ++ px 255%Z ++ px 255%Z in
  let d := row ++ row ++ row in
  exists prof,
    analyzeReferences (fun v => 2 * v) (fun _ => 0.5) [mkReference 4 3 d d] 0%nat
    = (analyzed prof, (0 + 6)%nat) /\
    let stats := prof_stats prof in
    let s := prof_suggested prof in
    s = suggestControls stats /\
    (length (palette stats) = 6%nat /\ Forall is_color (palette stats) /\
     StronglySorted (fun a b => luma a <= luma b) (palette stats)) /\
    (0 <= meanSaturation stats <= 1 /\ 0 <= saturationStd stats <= 1 # 2 /\
     0 <= edgeDensity stats <= 1 /\ 0 <= contrastIndex stats <= 1 # 2) /\
    (0.4 <= sug_outlineWeight s <= 1 /\ 0 <= sug_saturationBoost s <= 0.56 /\
     0.05 <= sug_halftoneDensity s <= 0.35 /\ 0.3 <= sug_burstStrength s <= 0.55 /\
     0.6 <= sug_styleIntensity s <= 0.75 /\ sug_applyPalette s = true) /\
    (forall st,
       analyzeReferences_commit prof st
       = importProfileJSON_onload (Some (json_of_profile prof)) st /\
       profile (analyzeReferences_commit prof st) = json_of_profile prof /\
       stored (analyzeReferences_commit prof st) = Some (json_of_profile prof) /\
       (autoApplyProfile st = true ->
        controls (analyzeReferences_commit prof st)
        = [val (JNum (sug_outlineWeight s)); val (JNum (sug_saturationBoost s));
           val (JNum (sug_halftoneDensity s)); val (JNum (sug_burstStrength s));
           val (json_of_motif (sug_motifPack s)); val (JNum (sug_styleIntensity s));
           val (JBool (sug_applyPalette s))])) /\
    (forall Math_PI Math_cos Math_sin rv' p source k,
       nonempty_canvas source ->
       is_Some (stylize Math_PI Math_cos Math_sin rv' (apply_suggestion s p) source k).1).
Proof.
  cbv zeta.
  apply (analyzeReferences_safe (fun v => 2 * v) (fun _ => 0.5)).
  - intros v Hv. lra.
  - discriminate.
  - constructor; [ | constructor].
    unfold reference_ok. cbn [img_width img_height ref_data].
    split; [lia | ]. split; [lia | ].
    split; [repeat constructor; unfold is_byte; lia | vm_compute; reflexivity].
  - intros i _. lra.
Defined.

(** * The same functions on doubles

    An IEEE double is taken as the rational it stands for.  [round64]
    brings a rational to the nearest double, a tie going to the even
    mantissa, with the gradual underflow of binary64; overflow is left out
    (no number of these functions comes near [2^1024]).  An arithmetic
    operation of the source is the exact operation followed by [round64];
    a decimal literal such as [0.2126] is the double nearest to it;
    [Math.sqrt] is the correctly rounded root [sqrt64]; comparisons,
    [Math.max], [Math.min], [Math.round] and the store into a
    [Uint8ClampedArray] act on the value of the double and round nothing.

    The functions are written over any rounding [rnd] and root [fsqrt],
    and the properties are proved from two facts about them, [rounding] and
    [root]: a result is within half a unit in the last place of the exact
    one.  [round64] and [sqrt64] have them ([round64_spec], [sqrt64_spec]),
    and the statements about the code are the instances at [round64] and
    [sqrt64]. *)

(** ** The format *)

(** Nearest integer, a tie going to the even one. *)

Definition round_even (m : Q) : Z :=
  let f := Qfloor m in
  let frac := m - inject_Z f in
  if Qltb frac (1 # 2) then f
  else if Qltb (1 # 2) frac then (f + 1)%Z
  else if Z.even f then f else (f + 1)%Z.

(** The exponent of [x > 0]: the [e] with [2^e <= x < 2^(e+1)]. *)
Definition ilog2 (x : Q) : Z :=
  let e0 := (Z.log2 (Qnum x) - Z.log2 (Zpos (Qden x)))%Z in
  if Qltb x (2 ^ e0) then (e0 - 1)%Z else e0.

(** The double nearest to [x]: a multiple of [2^(e-52)], where [e] is the
    exponent of [x] and at least -1022. *)
Definition round64 (x : Q) : Q :=
  if Qeq_bool x 0 then 0
  else
    let a := Qabs x in
    let e := Z.max (ilog2 a) (-1022) in
    let q := 2 ^ (e - 52) in
    let r := inject_Z (round_even (a / q)) * q in
    Qred (if Qltb x 0 then - r else r).

(** The double nearest to the root of [v]: the integer root of [v * 4^s]
    carries more than 60 bits, and one more bit records whether it is
    exact, so that rounding it is rounding the root. *)
Definition sqrt64 (v : Q) : Q :=
  if Qle_bool v 0 then 0
  else
    let s := (62 + Z.log2 (Zpos (Qden v)) / 2)%Z in
    let scaled := v * inject_Z (4 ^ s) in
    let N := Qfloor scaled in
    let r := Z.sqrt N in
    let exact := (r * r =? N)%Z && Qeq_bool scaled (inject_Z N) in
    round64 (inject_Z (2 * r + (if exact then 0 else 1)) / inject_Z (2 * 2 ^ s)).

(** Half a unit in the last place of 1, [2^-53], and half the spacing of
    the doubles next to 0, [2^-1075]. *)
Definition u : Q := 1 # 9007199254740992.
Definition eta : Q := 2 ^ (-1075).

(** What the properties below need of a rounding and of a root. *)
Definition rounding (rnd : Q -> Q) : Prop :=
  forall x,
    Qabs (rnd x - x) <= Qmax (u * Qabs x) eta /\
    (0 <= x -> 0 <= rnd x) /\ (x <= 0 -> rnd x <= 0).

Definition root (fsqrt : Q -> Q) : Prop :=
  forall v, 0 <= v ->
    0 <= fsqrt v /\
    v * (1 - 4 * u) - eta <= fsqrt v * fsqrt v <= v * (1 + 4 * u) + eta.

Lemma round_even_spec (m : Q) :
  m - (1 # 2) <= inject_Z (round_even m) <= m + (1 # 2) /\
  (0 <= m -> (0 <= round_even m)%Z).
Proof.
  unfold round_even. cbv zeta.
  pose proof (Qfloor_le m) as Hlo. pose proof (Qlt_floor m) as Hhi.
  rewrite inject_Z_plus in Hhi. change (inject_Z 1) with 1 in Hhi.
  assert (Hnn : 0 <= m -> (0 <= Qfloor m)%Z).
  { intros H. change 0%Z with (Qfloor 0). apply Qfloor_resp_le. exact H. }
  destruct (Qltb (m - inject_Z (Qfloor m)) (1 # 2)) eqn:E1.
  - apply Qltb_lt in E1. split; [split; lra | exact Hnn].
  - assert (H1 : ~ m - inject_Z (Qfloor m) < 1 # 2).
    { intros H. apply Qltb_lt in H. congruence. }
    assert (Hup : m - (1 # 2) <= inject_Z (Qfloor m + 1) <= m + (1 # 2)).
    { rewrite inject_Z_plus. change (inject_Z 1) with 1. split; lra. }
    destruct (Qltb (1 # 2) (m - inject_Z (Qfloor m))) eqn:E2.
    + split; [exact Hup | intros H; specialize (Hnn H); lia].
    + assert (H2 : ~ 1 # 2 < m - inject_Z (Qfloor m)).
      { intros H. apply Qltb_lt in H. congruence. }
      destruct (Z.even (Qfloor m)).
      * split; [split; lra | exact Hnn].
      * split; [exact Hup | intros H; specialize (Hnn H); lia].
Qed.

Lemma Qpower2_pos (e : Z) : 0 < 2 ^ e.
Proof. apply Qpower_0_lt. reflexivity. Qed.

Lemma ilog2_le (a : Q) : 0 < a -> 2 ^ ilog2 a <= a.
Proof.
  intros Ha. unfold ilog2. cbv zeta.
  destruct (Qltb a (2 ^ (Z.log2 (Qnum a) - Z.log2 (Z.pos (Qden a))))) eqn:E.
  - destruct a as [n d]. cbn [Qnum Qden] in *.
    assert (Hn : (0 < n)%Z).
    { unfold Qlt in Ha. cbn in Ha. lia. }
    destruct (Z.log2_spec n Hn) as [Hn1 _].
    destruct (Z.log2_spec (Z.pos d) ltac:(lia)) as [_ Hd2].
    pose proof (Z.log2_nonneg n) as Ln. pose proof (Z.log2_nonneg (Z.pos d)) as Ld.
    replace (Z.log2 n - Z.log2 (Z.pos d) - 1)%Z
      with (Z.log2 n - Z.succ (Z.log2 (Z.pos d)))%Z by lia.
    rewrite Qpower_minus by discriminate.
    rewrite <- !(Zpower_Qpower 2) by lia.
    rewrite (Qmake_Qdiv n d).
    assert (P1 : 0 < inject_Z (2 ^ Z.log2 n)).
    { rewrite Zpower_Qpower by lia. apply Qpower2_pos. }
    assert (P2 : 0 < inject_Z (Z.pos d)).
    { unfold Qlt. cbn. lia. }
    assert (Q1 : inject_Z (2 ^ Z.log2 n) <= inject_Z n).
    { rewrite <- Zle_Qle. exact Hn1. }
    assert (Q2 : inject_Z (Z.pos d) <= inject_Z (2 ^ Z.succ (Z.log2 (Z.pos d)))).
    { rewrite <- Zle_Qle. lia. }
    set (A := inject_Z (2 ^ Z.log2 n)) in *.
    set (B := inject_Z (2 ^ Z.succ (Z.log2 (Z.pos d)))) in *.
    set (D := inject_Z (Z.pos d)) in *. set (N := inject_Z n) in *.
    assert (PB : 0 < B) by lra.
    assert (X : A * D <= N * B) by nra.
    apply (Qle_shift_div_r A B (N / D) PB).
    assert (Y : N / D * B == N * B / D) by (field; lra).
    rewrite Y. apply (Qle_shift_div_l A (N * B) D P2). exact X.
  - apply Qnot_lt_le. intros H. apply Qltb_lt in H. congruence.
Qed.

Lemma u_pos : 0 < u.
Proof. reflexivity. Qed.

Lemma u_power : u == 2 ^ (-53).
Proof. reflexivity. Qed.

Lemma eta_small : eta <= 1 # 1000000000000000000000000000000000000000.
Proof. apply Qle_bool_iff. vm_compute. reflexivity. Qed.

Lemma eta_pos : 0 < eta.
Proof. apply Qpower2_pos. Qed.

Lemma half_spacing (a : Q) :
  0 < a ->
  2 ^ (Z.max (ilog2 a) (-1022) - 52) * (1 # 2) <= Qmax (u * a) eta.
Proof.
  intros Ha.
  assert (E : forall e : Z, 2 ^ (e - 52) * (1 # 2) == 2 ^ e * u).
  { intros e. rewrite u_power. rewrite <- Qpower_plus by discriminate.
    replace (e + -53)%Z with ((e - 52) + -1)%Z by lia.
    rewrite Qpower_plus by discriminate. reflexivity. }
  rewrite E.
  destruct (Z.max_spec (ilog2 a) (-1022)) as [[_ ->] | [_ ->]].
  - apply Qle_trans with eta; [ | apply Q.le_max_r].
    rewrite <- E. unfold eta. vm_compute. discriminate.
  - apply Qle_trans with (u * a); [ | apply Q.le_max_l].
    pose proof (ilog2_le a Ha). pose proof u_pos. nra.
Qed.

Lemma round64_spec : rounding round64.
Proof.
  intros x. unfold round64.
  destruct (Qeq_bool x 0) eqn:E0.
  - apply Qeq_bool_iff in E0. pose proof eta_pos.
    split; [ | split; intros; lra].
    apply Qle_trans with eta; [ | apply Q.le_max_r].
    apply Qabs_Qle_condition. split; lra.
  - assert (Hx : ~ x == 0).
    { intros H. apply Qeq_bool_iff in H. congruence. }
    cbv zeta.
    assert (Ha : 0 < Qabs x).
    { destruct (Qlt_le_dec x 0) as [Hn | Hp].
      - rewrite Qabs_neg by lra. lra.
      - rewrite Qabs_pos by lra.
        destruct (Qlt_le_dec 0 x) as [ | H']; [assumption | ].
        exfalso. apply Hx. lra. }
    set (a := Qabs x) in *.
    set (q := 2 ^ (Z.max (ilog2 a) (-1022) - 52)).
    assert (Hq : 0 < q) by apply Qpower2_pos.
    pose proof (half_spacing a Ha) as Hh. fold q in Hh.
    destruct (round_even_spec (a / q)) as [[R1 R2] R3].
    set (k := inject_Z (round_even (a / q))) in *.
    assert (Hk : 0 <= k).
    { unfold k. change 0 with (inject_Z 0). rewrite <- Zle_Qle. apply R3.
      apply Qlt_le_weak, Qlt_shift_div_l; lra. }
    assert (Eaq : a / q * q == a) by (field; lra).
    assert (Hr : a - q * (1 # 2) <= k * q <= a + q * (1 # 2)) by (split; nra).
    assert (Hr0 : 0 <= k * q) by nra.
    rewrite Qred_correct.
    destruct (Qltb x 0) eqn:Es.
    + apply Qltb_lt in Es.
      assert (Ex : a == - x) by (unfold a; apply Qabs_neg; lra).
      split; [ | split; intros; lra].
      apply Qabs_Qle_condition. split; lra.
    + assert (Es' : 0 <= x).
      { apply Qnot_lt_le. intros H. apply Qltb_lt in H. congruence. }
      assert (Ex : a == x) by (unfold a; apply Qabs_pos; lra).
      split; [ | split; intros; lra].
      apply Qabs_Qle_condition. split; lra.
Qed.

Lemma scale_large (v : Q) :
  0 < v ->
  inject_Z (2 ^ 122) <= v * inject_Z (4 ^ (62 + Z.log2 (Zpos (Qden v)) / 2)).
Proof.
  intros Hv. destruct v as [n d]. cbn [Qden].
  assert (Hn : (1 <= n)%Z) by (unfold Qlt in Hv; cbn in Hv; lia).
  destruct (Z.log2_spec (Z.pos d) ltac:(lia)) as [_ Hd2].
  pose proof (Z.log2_nonneg (Z.pos d)) as Ld.
  set (l := Z.log2 (Z.pos d)) in *.
  assert (Hdiv : (l - 1 <= 2 * (l / 2))%Z).
  { pose proof (Z.div_mod l 2 ltac:(lia)). pose proof (Z.mod_pos_bound l 2 ltac:(lia)). lia. }
  assert (H0 : (0 <= l / 2)%Z) by (apply Z.div_pos; lia).
  assert (E4 : (4 ^ (62 + l / 2) = 2 ^ 122 * (4 * 2 ^ (2 * (l / 2))))%Z).
  { change 4%Z with (2 ^ 2)%Z at 1. rewrite <- Z.pow_mul_r by lia.
    replace (2 * (62 + l / 2))%Z with (124 + 2 * (l / 2))%Z by lia.
    rewrite Z.pow_add_r by lia. change (2 ^ 124)%Z with (2 ^ 122 * 4)%Z. ring. }
  assert (Hd : (Z.pos d <= 4 * 2 ^ (2 * (l / 2)))%Z).
  { assert (2 ^ Z.succ l <= 2 ^ (2 + 2 * (l / 2)))%Z by (apply Z.pow_le_mono_r; lia).
    rewrite Z.pow_add_r in H by lia. change (2 ^ 2)%Z with 4%Z in H. lia. }
  rewrite E4. unfold Qle, Qmult, inject_Z. cbn [Qnum Qden].
  rewrite !Z.mul_1_r. rewrite Pos.mul_1_r.
  set (K := (4 * 2 ^ (2 * (l / 2)))%Z) in *.
  assert (0 < 2 ^ 122)%Z by reflexivity.
  assert (2 ^ 122 * Z.pos d <= 2 ^ 122 * K)%Z by (apply Z.mul_le_mono_nonneg_l; lia).
  assert (1 * (2 ^ 122 * K) <= n * (2 ^ 122 * K))%Z by (apply Z.mul_le_mono_nonneg_r; lia).
  lia.
Qed.

Lemma Qsquare_le (a b : Q) : 0 <= a -> a <= b -> a * a <= b * b.
Proof. intros. nra. Qed.

Lemma sqrt64_spec : root sqrt64.
Proof.
  intros v Hv0. unfold sqrt64.
  pose proof u_pos as Hu. pose proof eta_pos as He.
  destruct (Qle_bool v 0) eqn:E0.
  - apply Qle_bool_iff in E0. assert (Ev : v == 0) by lra.
    split; [lra | ]. rewrite Ev. split; lra.
  - assert (Hv : 0 < v).
    { apply Qnot_le_lt. intros H. apply Qle_bool_iff in H. congruence. }
    cbv zeta.
    set (s := (62 + Z.log2 (Z.pos (Qden v)) / 2)%Z).
    pose proof (scale_large v Hv) as Hbig. fold s in Hbig.
    set (N := Qfloor (v * inject_Z (4 ^ s))) in *.
    pose proof (Qfloor_le (v * inject_Z (4 ^ s))) as N1.
    pose proof (Qlt_floor (v * inject_Z (4 ^ s))) as N2. fold N in N1, N2.
    assert (HN : (2 ^ 122 <= N)%Z).
    { unfold N. rewrite <- (Qfloor_Z (2 ^ 122)). apply Qfloor_resp_le. exact Hbig. }
    destruct (Z.sqrt_spec N ltac:(lia)) as [S1 S2].
    assert (Hr : (2 ^ 61 <= Z.sqrt N)%Z).
    { change (2 ^ 61)%Z with (Z.sqrt (2 ^ 122)). apply Z.sqrt_le_mono. exact HN. }
    set (r := Z.sqrt N) in *.
    set (st := (if (r * r =? N)%Z && Qeq_bool (v * inject_Z (4 ^ s)) (inject_Z N)
                then 0 else 1)%Z).
    assert (Hst : (0 <= st <= 1)%Z) by (unfold st; destruct (_ && _); lia).
    assert (Hs : (0 <= s)%Z).
    { unfold s. pose proof (Z.log2_nonneg (Z.pos (Qden v))).
      assert (0 <= Z.log2 (Z.pos (Qden v)) / 2)%Z by (apply Z.div_pos; lia). lia. }
    assert (E4 : inject_Z (4 ^ s) == inject_Z (2 ^ s) * inject_Z (2 ^ s)).
    { rewrite <- inject_Z_mult. change 4%Z with (2 * 2)%Z.
      rewrite Z.pow_mul_l. reflexivity. }
    assert (HP : 0 < inject_Z (2 ^ s)).
    { rewrite Zpower_Qpower by lia. apply Qpower2_pos. }
    set (P := inject_Z (2 ^ s)) in *.
    set (R := inject_Z r).
    assert (HR : inject_Z (2 ^ 61) <= R) by (unfold R; rewrite <- Zle_Qle; exact Hr).
    assert (V1 : R * R <= v * (P * P)).
    { rewrite <- E4. unfold R. rewrite <- inject_Z_mult.
      apply Qle_trans with (inject_Z N); [rewrite <- Zle_Qle; lia | exact N1]. }
    assert (V2 : v * (P * P) <= (R + 1) * (R + 1)).
    { rewrite <- E4. apply Qlt_le_weak. eapply Qlt_le_trans; [exact N2 | ].
      unfold R. change 1 with (inject_Z 1). rewrite <- !inject_Z_plus, <- inject_Z_mult.
      rewrite <- Zle_Qle. unfold Z.succ in S2. lia. }
    set (y := inject_Z (2 * r + st) / inject_Z (2 * 2 ^ s)).
    assert (Hy : exists t, 0 <= t <= 1 # 2 /\ y * P == R + t).
    { exists (inject_Z st * (1 # 2)). split.
      - assert (0 <= inject_Z st <= 1).
        { split; [change 0 with (inject_Z 0) | change 1 with (inject_Z 1)];
            rewrite <- Zle_Qle; lia. }
        split; lra.
      - unfold y. rewrite inject_Z_mult, inject_Z_plus, inject_Z_mult. fold P R.
        change (inject_Z 2) with 2. field. lra. }
    destruct Hy as (t & Ht & Ey).
    change (2 ^ 61)%Z with 2305843009213693952%Z in HR.
    change (inject_Z 2305843009213693952) with 2305843009213693952 in HR.
    assert (Hy0 : 0 <= y).
    { assert (0 <= y * P) by (rewrite Ey; lra).
      destruct (Qlt_le_dec y 0) as [Hneg | ]; [ | assumption]. exfalso. nra. }
    destruct (round64_spec y) as (Herr & Hpos & _).
    specialize (Hpos Hy0).
    set (z := round64 y) in *.
    split; [exact Hpos | ].
    apply Qabs_Qle_condition in Herr.
    pose proof (Qabs_pos y Hy0) as Eabs.
    (* y^2 against v *)
    assert (Hu' : u == 1 # 9007199254740992) by reflexivity.
    set (c := 3 # 2305843009213693952).
    assert (Hc : c * 2305843009213693952 == 3) by reflexivity.
    assert (Hc0 : 0 < c) by reflexivity.
    assert (Hc1 : c < 1) by reflexivity.
    assert (HcR : 3 <= c * R) by nra.
    assert (Ysq : (y * P) * (y * P) == (R + t) * (R + t)) by (rewrite Ey; reflexivity).
    assert (Y1 : v * (1 - c) <= y * y).
    { assert (C1 : (R + 1) * (R + 1) * (1 - c) <= R * R) by nra.
      assert (C2 : v * (P * P) * (1 - c) <= (R + 1) * (R + 1) * (1 - c)).
      { apply Qmult_le_compat_r; [exact V2 | lra]. }
      assert (C3 : R * R <= (y * P) * (y * P)) by (rewrite Ysq; nra).
      apply (Qmult_le_r _ _ (P * P)); [nra | ].
      assert (X1 : v * (1 - c) * (P * P) == v * (P * P) * (1 - c)) by ring.
      assert (X2 : y * y * (P * P) == (y * P) * (y * P)) by ring.
      rewrite X1, X2. lra. }
    assert (Y2 : y * y <= v * (1 + c)).
    { assert (C1 : (R + 1) * (R + 1) <= R * R * (1 + c)) by nra.
      assert (C2 : R * R * (1 + c) <= v * (P * P) * (1 + c)).
      { apply Qmult_le_compat_r; [exact V1 | lra]. }
      assert (C3 : (y * P) * (y * P) <= (R + 1) * (R + 1)) by (rewrite Ysq; nra).
      apply (Qmult_le_r _ _ (P * P)); [nra | ].
      assert (X1 : v * (1 + c) * (P * P) == v * (P * P) * (1 + c)) by ring.
      assert (X2 : y * y * (P * P) == (y * P) * (y * P)) by ring.
      rewrite X1, X2. lra. }
    assert (K1 : (1 + c) * ((1 + u) * (1 + u)) <= 1 + 4 * u).
    { apply Qle_bool_iff. vm_compute. reflexivity. }
    assert (K2 : 1 - 4 * u <= (1 - c) * ((1 - u) * (1 - u))).
    { apply Qle_bool_iff. vm_compute. reflexivity. }
    assert (K3 : eta <= u * (1 # 4)).
    { apply Qle_bool_iff. vm_compute. reflexivity. }
    assert (K4 : c <= 4 * u /\ u <= 1 # 4).
    { split; apply Qle_bool_iff; vm_compute; reflexivity. }
    clearbody c z y. clear - Hu He Hv Hy0 Hpos Herr Eabs Y1 Y2 Hc0 K1 K2 K3 K4.
    destruct K4 as [K4 K5].
    destruct (Q.max_spec (u * Qabs y) eta) as [[Hm Em] | [Hm Em]].
    + (* below the normal range: the spacing is fixed *)
      assert (Z1 : y - eta <= z <= y + eta) by (split; lra).
      assert (Hy1 : y <= 1 # 4) by nra.
      assert (Z2 : z * z <= y * y + eta) by nra.
      split.
      * apply Qle_trans with (v * (1 - c) - eta).
        { assert (0 <= v * (4 * u - c)) by (apply Qmult_le_0_compat; lra). lra. }
        destruct (Qlt_le_dec y eta) as [Hlt | Hge].
        ** assert (y * y <= eta) by nra. nra.
        ** assert (y * y - eta <= (y - eta) * (y - eta)) by nra.
          assert ((y - eta) * (y - eta) <= z * z) by nra. lra.
      * apply Qle_trans with (v * (1 + c) + eta); [lra | ].
        assert (0 <= v * (4 * u - c)) by (apply Qmult_le_0_compat; lra). lra.
    + assert (Eu : u * Qabs y == u * y) by (rewrite Eabs; reflexivity).
      assert (Z1 : y * (1 - u) <= z <= y * (1 + u)) by (split; lra).
      assert (Z2 : z * z <= (y * y) * ((1 + u) * (1 + u))) by nra.
      assert (Z3 : (y * y) * ((1 - u) * (1 - u)) <= z * z).
      { assert (0 <= y * (1 - u)) by (apply Qmult_le_0_compat; lra).
        pose proof (Qsquare_le (y * (1 - u)) z). 
        assert (X : y * (1 - u) * (y * (1 - u)) == y * y * ((1 - u) * (1 - u))) by ring.
        lra. }
      split.
      * apply Qle_trans with (v * (1 - 4 * u)); [lra | ].
        apply Qle_trans with (v * ((1 - c) * ((1 - u) * (1 - u)))); [nra | ].
        apply Qle_trans with ((y * y) * ((1 - u) * (1 - u))); [ | exact Z3].
        assert (0 <= (1 - u) * (1 - u)) by nra. nra.
      * apply Qle_trans with (v * (1 + 4 * u)); [ | lra].
        apply Qle_trans with (v * ((1 + c) * ((1 + u) * (1 + u)))); [ | nra].
        apply Qle_trans with ((y * y) * ((1 + u) * (1 + u))); [exact Z2 | ].
        assert (0 <= (1 + u) * (1 + u)) by nra. nra.
Qed.

(** ** Propagation of rounding errors *)

(** [x'] is within [a] of [x], which is at most [B] in size. *)
Definition approx (a B x' x : Q) : Prop :=
  x - a <= x' <= x + a /\ - B <= x <= B.

Lemma approx_weaken (a B a' B' x' x : Q) :
  approx a B x' x -> a <= a' -> B <= B' -> approx a' B' x' x.
Proof. unfold approx. intros [[? ?] [? ?]] ? ?. repeat split; lra. Qed.

Lemma approx_exact (B x : Q) : - B <= x <= B -> approx 0 B x x.
Proof. unfold approx. intros [? ?]. repeat split; lra. Qed.

Lemma product_bound (p q P Q : Q) :
  - P <= p <= P -> - Q <= q <= Q -> - (P * Q) <= p * q <= P * Q.
Proof.
  intros [? ?] [? ?].
  assert (0 <= (P - p) * (Q - q)) by (apply Qmult_le_0_compat; lra).
  assert (0 <= (P + p) * (Q + q)) by (apply Qmult_le_0_compat; lra).
  assert (0 <= (P - p) * (Q + q)) by (apply Qmult_le_0_compat; lra).
  assert (0 <= (P + p) * (Q - q)) by (apply Qmult_le_0_compat; lra).
  split; lra.
Qed.

Section Errors.

Variable rnd : Q -> Q.
Hypothesis rnd_rounding : rounding rnd.

Lemma rnd_within (x B : Q) :
  - B <= x <= B -> x - (u * B + eta) <= rnd x <= x + (u * B + eta).
Proof.
  intros [H1 H2]. destruct (rnd_rounding x) as (Herr & _ & _).
  apply Qabs_Qle_condition in Herr.
  pose proof u_pos. pose proof eta_pos.
  assert (HB : Qabs x <= B) by (apply Qabs_Qle_condition; split; lra).
  pose proof (Qabs_nonneg x).
  assert (u * Qabs x <= u * B).
  { assert (0 <= u * (B - Qabs x)) by (apply Qmult_le_0_compat; lra). lra. }
  assert (Qmax (u * Qabs x) eta <= u * B + eta).
  { assert (0 <= u * B) by (apply Qmult_le_0_compat; lra). apply Q.max_lub; lra. }
  split; lra.
Qed.

Lemma rnd_nonneg (x : Q) : 0 <= x -> 0 <= rnd x.
Proof. apply rnd_rounding. Qed.

Lemma rnd_nonpos (x : Q) : x <= 0 -> rnd x <= 0.
Proof. apply rnd_rounding. Qed.

Lemma approx_rnd (a B x' x : Q) :
  approx a B x' x -> approx (a + (u * (B + a) + eta)) B (rnd x') x.
Proof.
  intros [[H1 H2] [H3 H4]].
  pose proof (rnd_within x' (B + a) ltac:(split; lra)).
  unfold approx. repeat split; lra.
Qed.

Lemma approx_const (c B : Q) :
  - B <= c <= B -> approx (u * B + eta) B (rnd c) c.
Proof.
  intros H. pose proof (rnd_within c B H). unfold approx. repeat split; lra.
Qed.

Lemma approx_add (a1 B1 a2 B2 x' x y' y : Q) :
  approx a1 B1 x' x -> approx a2 B2 y' y ->
  approx (a1 + a2) (B1 + B2) (x' + y') (x + y).
Proof. unfold approx. intros [[? ?] [? ?]] [[? ?] [? ?]]. repeat split; lra. Qed.

Lemma approx_mul (a1 B1 a2 B2 x' x y' y : Q) :
  approx a1 B1 x' x -> approx a2 B2 y' y ->
  approx (a1 * B2 + a2 * B1 + a1 * a2) (B1 * B2) (x' * y') (x * y).
Proof.
  unfold approx. intros [[X1 X2] [X3 X4]] [[Y1 Y2] [Y3 Y4]].
  pose proof (product_bound x y B1 B2 ltac:(split; lra) ltac:(split; lra)) as P0.
  pose proof (product_bound (x' - x) y a1 B2 ltac:(split; lra) ltac:(split; lra)) as P1.
  pose proof (product_bound x (y' - y) B1 a2 ltac:(split; lra) ltac:(split; lra)) as P2.
  pose proof (product_bound (x' - x) (y' - y) a1 a2 ltac:(split; lra) ltac:(split; lra)) as P3.
  repeat split; lra.
Qed.

(** The result of [x' + y'] and of [x' * y'] as doubles. *)
Lemma approx_fadd (a1 B1 a2 B2 x' x y' y : Q) :
  approx a1 B1 x' x -> approx a2 B2 y' y ->
  approx (a1 + a2 + (u * (B1 + B2 + (a1 + a2)) + eta)) (B1 + B2)
    (rnd (x' + y')) (x + y).
Proof. intros Hx Hy. apply approx_rnd, approx_add; assumption. Qed.

Lemma approx_fmul (a1 B1 a2 B2 x' x y' y : Q) :
  approx a1 B1 x' x -> approx a2 B2 y' y ->
  approx (a1 * B2 + a2 * B1 + a1 * a2
          + (u * (B1 * B2 + (a1 * B2 + a2 * B1 + a1 * a2)) + eta)) (B1 * B2)
    (rnd (x' * y')) (x * y).
Proof. intros Hx Hy. apply approx_rnd, approx_mul; assumption. Qed.

End Errors.

(** ** EdgeDetector on doubles *)

Section DoubleSobel.

Variables (rnd fsqrt : Q -> Q).

(** [sobel_sums], [isEdge], [sobel_pixel] and [sobelEdges] with every sum
    and product rounded. *)
Definition sobel_sums_fl (d : list Z) (w x y : Z) : option Q * option Q :=
  let '(sx, sy, _) :=
    foldl (fun acc j =>
      foldl (fun '(sx, sy, k) i =>
        let p := idx w (x + i) (y + j) in
        let lum :=
          r ← getZ d p; g ← getZ d (p + 1); b ← getZ d (p + 2);
          Some (rnd (rnd (rnd (rnd 0.2126 * inject_Z r)
                          + rnd (rnd 0.7152 * inject_Z g))
                     + rnd (rnd 0.0722 * inject_Z b))) in
        (s ← sx; l ← lum; c ← gx !! k; Some (rnd (s + rnd (l * c))),
         s ← sy; l ← lum; c ← gy !! k; Some (rnd (s + rnd (l * c))),
         S k))
        acc [-1; 0; 1]%Z)
      (Some 0, Some 0, 0%nat) [-1; 0; 1]%Z in
  (sx, sy).

(** [lum] of the pixel at [(x, y)], as the doubles give it. *)
Definition luminance_fl (d : list Z) (w x y : Z) : Q :=
  rnd (rnd (rnd (rnd 0.2126 * inject_Z (d !!! Z.to_nat (idx w x y)))
            + rnd (rnd 0.7152 * inject_Z (d !!! Z.to_nat (idx w x y + 1))))
       + rnd (rnd 0.0722 * inject_Z (d !!! Z.to_nat (idx w x y + 2)))).

Definition isEdge_fl (d : list Z) (w : Z) (threshold : Q) (x y : Z) : bool :=
  match sobel_sums_fl d w x y with
  | (Some sx, Some sy) => Qltb threshold (fsqrt (rnd (rnd (sx * sx) + rnd (sy * sy))))
  | _ => false
  end.

Definition sobel_pixel_fl (d : list Z) (w : Z) (threshold : Q) (o : list Z) (x y : Z)
    : list Z :=
  let q := idx w x y in
  let o := putZ o q 0 in
  let o := putZ o (q + 1) 0 in
  let o := putZ o (q + 2) 0 in
  putZ o (q + 3) (if isEdge_fl d w threshold x y then 255 else 0).

Definition sobelEdges_fl (d : list Z) (w h : Z) (threshold : Q) : list Z :=
  let o := replicate (Z.to_nat (w * h * 4)) 0%Z in
  foldl (fun o y =>
    foldl (fun o x => sobel_pixel_fl d w threshold o x y) o (seqZ 1 (w - 2)))
    o (seqZ 1 (h - 2)).

End DoubleSobel.


(** The bytes of an opaque grey picture given by the rows of its values. *)
Definition grey_rows (rows : list (list Z)) : list Z :=
  concat ((fun row => concat ((fun v => [v; v; v; 255%Z]) <$> row)) <$> rows).

Lemma lookup_total_byte (d : list Z) (i : nat) : Forall is_byte d -> is_byte (d !!! i).
Proof.
  intros Hb. destruct (d !! i) as [v | ] eqn:E.
  - rewrite (list_lookup_total_correct _ _ _ E). eapply Forall_lookup_1; eauto.
  - rewrite list_lookup_total_alt, E. cbn. unfold is_byte. lia.
Qed.

Lemma Qle_numeric (x y : Q) : Qle_bool x y = true -> x <= y.
Proof. apply Qle_bool_iff. Qed.

Ltac numeric := apply Qle_numeric; vm_compute; reflexivity.

Lemma approx_Qeq (a B x' x y : Q) : x == y -> approx a B x' x -> approx a B x' y.
Proof. unfold approx. intros E [[? ?] [? ?]]. repeat split; lra. Qed.

Section DoubleSobelFacts.

Variables (rnd fsqrt : Q -> Q).
Hypothesis rnd_rounding : rounding rnd.
Hypothesis fsqrt_root : root fsqrt.

Lemma luminance_fl_read (d : list Z) (w h x y : Z) :
  length d = Z.to_nat (w * h * 4) -> (0 <= x < w)%Z -> (0 <= y < h)%Z ->
  (r ← getZ d (idx w x y); g ← getZ d (idx w x y + 1); b ← getZ d (idx w x y + 2);
   Some (rnd (rnd (rnd (rnd 0.2126 * inject_Z r) + rnd (rnd 0.7152 * inject_Z g))
              + rnd (rnd 0.0722 * inject_Z b))))
  = Some (luminance_fl rnd d w x y).
Proof.
  intros Hlen Hx Hy.
  pose proof (idx_in_range w h x y 0 Hx Hy ltac:(lia)) as H0.
  pose proof (idx_in_range w h x y 1 Hx Hy ltac:(lia)) as H1.
  pose proof (idx_in_range w h x y 2 Hx Hy ltac:(lia)) as H2.
  rewrite !getZ_in_range by lia. reflexivity.
Qed.

Lemma byte_bounds (d : list Z) (i : nat) :
  Forall is_byte d -> - (255) <= inject_Z (d !!! i) <= 255.
Proof.
  intros Hb.
  assert (H : is_byte (d !!! i)).
  { destruct (d !! i) as [v | ] eqn:E.
    - rewrite (list_lookup_total_correct _ _ _ E). eapply Forall_lookup_1; eauto.
    - rewrite list_lookup_total_alt, E. cbn. unfold is_byte. lia. }
  unfold is_byte in H.
  change 255 with (inject_Z 255). change (- inject_Z 255) with (inject_Z (-255)).
  rewrite <- !Zle_Qle. lia.
Qed.

(** The luminance of the code is within [lum_error] of the luminance. *)
Definition lum_error : Q := 12 # 100000000000000.

Lemma luminance_fl_approx (d : list Z) (w x y : Z) :
  Forall is_byte d ->
  approx lum_error 255 (luminance_fl rnd d w x y) (luminance d w x y).
Proof.
  intros Hb. unfold luminance_fl, luminance.
  eapply approx_weaken.
  - apply (approx_fadd rnd rnd_rounding).
    + apply (approx_fadd rnd rnd_rounding).
      * apply (approx_fmul rnd rnd_rounding).
        -- apply (approx_const rnd rnd_rounding 0.2126 0.2126). split; lra.
        -- apply (approx_exact 255). apply byte_bounds, Hb.
      * apply (approx_fmul rnd rnd_rounding).
        -- apply (approx_const rnd rnd_rounding 0.7152 0.7152). split; lra.
        -- apply (approx_exact 255). apply byte_bounds, Hb.
    + apply (approx_fmul rnd rnd_rounding).
      * apply (approx_const rnd rnd_rounding 0.0722 0.0722). split; lra.
      * apply (approx_exact 255). apply byte_bounds, Hb.
  - numeric.
  - numeric.
Qed.

(** The chain [s += lum * g[k]] over a window. *)
Definition sum_step (s : Q) (t : Q * Q * Q) : Q := rnd (s + rnd (t.1.1 * t.2)).
Definition sum_exact (s : Q) (t : Q * Q * Q) : Q := s + t.1.2 * t.2.

Definition term_ok (t : Q * Q * Q) : Prop :=
  approx lum_error 255 t.1.1 t.1.2 /\ - (2) <= t.2 <= 2.

Definition sum_step_error : Q := 1 # 1000000000000.

Lemma sum_step_approx (ts : list (Q * Q * Q)) :
  Forall term_ok ts -> (length ts <= 9)%nat ->
  approx (inject_Z (Z.of_nat (length ts)) * sum_step_error)
         (inject_Z (Z.of_nat (length ts)) * 510)
         (foldl sum_step 0 ts) (foldl sum_exact 0 ts).
Proof.
  induction ts as [ | t ts IH] using rev_ind; intros Hall Hlen.
  - cbn [length foldl]. change (inject_Z (Z.of_nat 0)) with 0.
    unfold approx. split; split; lra.
  - apply Forall_app in Hall as [Hts Ht]. apply Forall_inv in Ht.
    rewrite length_app in Hlen |- *. cbn [length] in Hlen |- *.
    specialize (IH Hts ltac:(lia)).
    rewrite !foldl_app. cbn [foldl]. unfold sum_step at 1, sum_exact at 1.
    destruct Ht as [Hl Hc].
    set (k := inject_Z (Z.of_nat (length ts))) in *.
    assert (Hk : 0 <= k <= 8).
    { unfold k. change 0 with (inject_Z 0). change 8 with (inject_Z 8).
      rewrite <- !Zle_Qle. lia. }
    assert (Ek : inject_Z (Z.of_nat (length ts + 1)) == k + 1).
    { unfold k. rewrite Nat2Z.inj_add, inject_Z_plus. reflexivity. }
    eapply approx_weaken.
    + apply (approx_fadd rnd rnd_rounding); [exact IH | ].
      apply (approx_fmul rnd rnd_rounding); [exact Hl | ].
      apply (approx_exact 2). exact Hc.
    + rewrite Ek. pose proof eta_small. pose proof eta_pos.
      unfold sum_step_error, lum_error, u. 
      assert (X : forall z, 0 <= z -> 0 <= (1 # 9007199254740992) * z) by (intros; lra).
      lra.
    + rewrite Ek. lra.
Qed.

Definition window_positions : list (Z * Z) :=
  [(-1, -1); (0, -1); (1, -1); (-1, 0); (0, 0); (1, 0); (-1, 1); (0, 1); (1, 1)]%Z.

Definition window_terms (d : list Z) (w x y : Z) (g : list Q) : list (Q * Q * Q) :=
  zip_with (fun p c => (luminance_fl rnd d w (x + p.1) (y + p.2),
                        luminance d w (x + p.1) (y + p.2), c))
    window_positions g.

Lemma window_terms_ok (d : list Z) (w x y : Z) (g : list Q) :
  Forall is_byte d -> Forall (fun c => - (2) <= c <= 2) g ->
  Forall term_ok (window_terms d w x y g).
Proof.
  intros Hb Hg. unfold window_terms. generalize window_positions.
  induction Hg as [ | c g Hc Hg IH]; intros [ | p ps]; cbn [zip_with]; constructor.
  - split; [apply luminance_fl_approx, Hb | exact Hc].
  - apply IH.
Qed.

Definition sum_error : Q := 9 # 1000000000000.

(** Inside the picture the two sums of the code are within [sum_error] of
    the two gradients. *)
Lemma sobel_sums_fl_interior (d : list Z) (w h x y : Z) :
  length d = Z.to_nat (w * h * 4) -> Forall is_byte d -> interior w h x y ->
  exists sx sy, sobel_sums_fl rnd d w x y = (Some sx, Some sy)
    /\ approx sum_error 4590 sx (gradient_x d w x y)
    /\ approx sum_error 4590 sy (gradient_y d w x y).
Proof.
  intros Hlen Hb [Hx Hy]. unfold sobel_sums_fl. cbn [foldl].
  rewrite !(luminance_fl_read d w h) by (auto; lia).
  cbn [gx gy lookup list_lookup mbind option_bind].
  eexists _, _. split; [reflexivity | ].
  assert (Hgx : Forall (fun c => - (2) <= c <= 2) gx).
  { unfold gx. repeat constructor; lra. }
  assert (Hgy : Forall (fun c => - (2) <= c <= 2) gy).
  { unfold gy. repeat constructor; lra. }
  pose proof (sum_step_approx _ (window_terms_ok d w x y gx Hb Hgx) ltac:(cbn; lia)) as Ax.
  pose proof (sum_step_approx _ (window_terms_ok d w x y gy Hb Hgy) ltac:(cbn; lia)) as Ay.
  split.
  - eapply approx_Qeq; [ | exact Ax].
    unfold window_terms, window_positions, gx, gradient_x, sum_exact.
    cbn [zip_with foldl fst snd]. ring.
  - eapply approx_Qeq; [ | exact Ay].
    unfold window_terms, window_positions, gy, gradient_y, sum_exact.
    cbn [zip_with foldl fst snd]. ring.
Qed.

(** How far the threshold must be from the magnitude for the doubles to
    agree with the real numbers. *)
Definition edge_tolerance : Q := 1 # 1000.

Lemma magnitude_fl_approx (sx' sy' sx sy : Q) :
  approx sum_error 4590 sx' sx -> approx sum_error 4590 sy' sy ->
  let m := fsqrt (rnd (rnd (sx' * sx') + rnd (sy' * sy'))) in
  0 <= m /\
  (sx * sx + sy * sy) - (2 # 10000000) <= m * m <= (sx * sx + sy * sy) + (2 # 10000000).
Proof.
  intros Hx Hy m.
  assert (Hv : approx (18 # 100000000) 42136200
                 (rnd (rnd (sx' * sx') + rnd (sy' * sy'))) (sx * sx + sy * sy)).
  { eapply approx_weaken.
    - apply (approx_fadd rnd rnd_rounding);
        apply (approx_fmul rnd rnd_rounding); eassumption.
    - numeric.
    - numeric. }
  assert (Hv0 : 0 <= rnd (rnd (sx' * sx') + rnd (sy' * sy'))).
  { apply (rnd_nonneg rnd rnd_rounding).
    pose proof (rnd_nonneg rnd rnd_rounding (sx' * sx') ltac:(nra)).
    pose proof (rnd_nonneg rnd rnd_rounding (sy' * sy') ltac:(nra)). lra. }
  destruct (fsqrt_root _ Hv0) as (Hm0 & Hm1 & Hm2). fold m in Hm0, Hm1, Hm2.
  destruct Hv as [[V1 V2] [V3 V4]].
  set (v := rnd (rnd (sx' * sx') + rnd (sy' * sy'))) in *.
  pose proof eta_small. pose proof eta_pos. unfold u in Hm1, Hm2.
  split; [exact Hm0 | split; lra].
Qed.

Lemma edge_decision (sx' sy' sx sy T : Q) :
  approx sum_error 4590 sx' sx -> approx sum_error 4590 sy' sy ->
  let m := fsqrt (rnd (rnd (sx' * sx') + rnd (sy' * sy'))) in
  (Math_sqrt_gt (sx * sx + sy * sy) (T + edge_tolerance) = true -> Qltb T m = true) /\
  (Math_sqrt_gt (sx * sx + sy * sy) (T - edge_tolerance) = false -> Qltb T m = false).
Proof.
  intros Hx Hy m.
  destruct (magnitude_fl_approx sx' sy' sx sy Hx Hy) as (Hm0 & Hm1 & Hm2).
  fold m in Hm0, Hm1, Hm2. unfold edge_tolerance, Math_sqrt_gt.
  set (S := sx * sx + sy * sy) in *. split.
  - intros H. apply Qltb_lt.
    destruct (Qlt_le_dec T 0) as [Hneg | Hpos]; [lra | ].
    destruct (Qltb (T + (1 # 1000)) 0) eqn:E0; [apply Qltb_lt in E0; lra | ].
    apply Qltb_lt in H.
    destruct (Qlt_le_dec T m) as [ | Hle]; [assumption | exfalso].
    pose proof (Qsquare_le m T Hm0 Hle).
    assert ((T + (1 # 1000)) * (T + (1 # 1000)) == T * T + (2 # 1000) * T + (1 # 1000000))
      by ring.
    lra.
  - intros H.
    destruct (Qltb (T - (1 # 1000)) 0) eqn:E0; [discriminate | ].
    apply Qltb_ge in E0.
    destruct (Qltb T m) eqn:E1; [exfalso | reflexivity].
    apply Qltb_lt in E1. apply Qltb_ge in H.
    pose proof (Qsquare_le T m ltac:(lra) ltac:(lra)).
    assert ((T - (1 # 1000)) * (T - (1 # 1000)) == T * T - (2 # 1000) * T + (1 # 1000000))
      by ring.
    lra.
Qed.

Lemma isEdge_fl_interior (d : list Z) (w h x y : Z) (T : Q) :
  length d = Z.to_nat (w * h * 4) -> Forall is_byte d -> interior w h x y ->
  (magnitude_exceeds d w x y (T + edge_tolerance) -> isEdge_fl rnd fsqrt d w T x y = true) /\
  (~ magnitude_exceeds d w x y (T - edge_tolerance) -> isEdge_fl rnd fsqrt d w T x y = false).
Proof.
  intros Hlen Hb Hin.
  destruct (sobel_sums_fl_interior d w h x y Hlen Hb Hin) as (sx & sy & E & Hsx & Hsy).
  unfold isEdge_fl, magnitude_exceeds. rewrite E.
  destruct (edge_decision sx sy _ _ T Hsx Hsy) as [D1 D2].
  set (S := gradient_x d w x y * gradient_x d w x y
            + gradient_y d w x y * gradient_y d w x y) in *.
  assert (HS : 0 <= S) by (unfold S; nra).
  split.
  - intros H. apply D1. apply Math_sqrt_gt_spec; assumption.
  - intros H. apply D2.
    destruct (Math_sqrt_gt S (T - edge_tolerance)) eqn:E1; [ | reflexivity].
    exfalso. apply H. apply Math_sqrt_gt_spec; assumption.
Qed.

End DoubleSobelFacts.

(** *** What the loops leave in [out], whatever decides the alpha byte *)

Section MaskLoop.

Variables (w h : Z) (verdict : Z -> Z -> bool).

Definition mask_pixel (o : list Z) (x y : Z) : list Z :=
  let q := idx w x y in
  let o := putZ o q 0 in
  let o := putZ o (q + 1) 0 in
  let o := putZ o (q + 2) 0 in
  putZ o (q + 3) (if verdict x y then 255 else 0).

Definition mask_alpha (x y : Z) : Z := if verdict x y then 255%Z else 0%Z.

Let step (o : list Z) (p : Z * Z) : list Z := mask_pixel o p.1 p.2.

Lemma mask_pixel_length (o : list Z) (x y : Z) :
  length (mask_pixel o x y) = length o.
Proof. unfold mask_pixel. cbv zeta. rewrite !putZ_length. reflexivity. Qed.

Lemma mask_pixel_lookup (o : list Z) (x y : Z) (j : nat) :
  length o = Z.to_nat (w * h * 4) -> (0 <= x < w)%Z -> (0 <= y < h)%Z ->
  mask_pixel o x y !! j =
    if decide (j = Z.to_nat (idx w x y + 3)) then Some (mask_alpha x y)
    else if decide (j = Z.to_nat (idx w x y) \/ j = Z.to_nat (idx w x y + 1)
                    \/ j = Z.to_nat (idx w x y + 2)) then Some 0%Z
    else o !! j.
Proof.
  intros Hlen Hx Hy.
  pose proof (idx_in_range w h x y 0 Hx Hy ltac:(lia)) as H0.
  pose proof (idx_in_range w h x y 3 Hx Hy ltac:(lia)) as H3.
  unfold mask_pixel. cbv zeta.
  rewrite !putZ_lookup by (rewrite ?putZ_length; lia).
  unfold mask_alpha.
  assert (E0 : toUint8Clamp 0 = 0%Z) by reflexivity.
  assert (E1 : toUint8Clamp 255 = 255%Z) by reflexivity.
  repeat case_decide; try lia; try reflexivity;
    try (destruct (verdict x y); congruence);
    try congruence.
  all: exfalso; intuition lia.
Qed.

Lemma mask_writes_length (ps : list (Z * Z)) (o : list Z) :
  length (foldl step o ps) = length o.
Proof.
  induction ps as [ | p ps IH] in o |- *; [reflexivity | ].
  cbn [foldl]. rewrite IH. apply mask_pixel_length.
Qed.

Lemma mask_writes (ps : list (Z * Z)) (o : list Z) :
  length o = Z.to_nat (w * h * 4) -> Forall (in_picture w h) ps ->
  let res := foldl step o ps in
  (forall x y, (x, y) ∈ ps ->
     res !! Z.to_nat (idx w x y + 3) = Some (mask_alpha x y) /\
     forall c, (0 <= c < 3)%Z -> res !! Z.to_nat (idx w x y + c) = Some 0%Z) /\
  (forall x y c, (0 <= x < w)%Z -> (0 <= y < h)%Z -> (0 <= c < 4)%Z ->
     (x, y) ∉ ps -> res !! Z.to_nat (idx w x y + c) = o !! Z.to_nat (idx w x y + c)).
Proof.
  intros Hlen. induction ps as [ | p ps IH] using rev_ind; intros Hall res.
  - split; [intros x y Hin; inversion Hin | reflexivity].
  - apply Forall_app in Hall as [Hps Hp]. apply Forall_inv in Hp.
    destruct p as [px py]. unfold in_picture in Hp.
    destruct Hp as [Hpx Hpy]. cbn [fst snd] in Hpx, Hpy.
    specialize (IH Hps). cbv zeta in IH. destruct IH as [IH1 IH2].
    subst res. rewrite foldl_app. cbn [foldl].
    assert (Hl : length (foldl step o ps) = Z.to_nat (w * h * 4))
      by (rewrite mask_writes_length; exact Hlen).
    set (prev := foldl step o ps) in *. unfold step. cbn [fst snd].
    split.
    + intros x y Hin.
      assert (Hxy : in_picture w h (x, y)).
      { eapply Forall_forall; [ | exact Hin]. apply Forall_app. split; [exact Hps | ].
        apply Forall_singleton. split; assumption. }
      unfold in_picture in Hxy. destruct Hxy as [Hx Hy]. cbn [fst snd] in Hx, Hy.
      destruct (decide ((x, y) = (px, py))) as [E | Hne].
      * injection E as -> ->. split.
        -- rewrite mask_pixel_lookup by assumption.
           case_decide; [reflexivity | lia].
        -- intros c Hc. rewrite mask_pixel_lookup by assumption.
           pose proof (idx_in_range w h px py c Hpx Hpy ltac:(lia)).
           assert (c = 0 \/ c = 1 \/ c = 2)%Z as [-> | [-> | ->]] by lia;
             rewrite ?Z.add_0_r; repeat case_decide; try reflexivity; try lia;
             exfalso; intuition lia.
      * assert (Hin' : (x, y) ∈ ps).
        { apply elem_of_app in Hin as [Hin | Hin]; [exact Hin | ].
          apply list_elem_of_singleton in Hin. contradiction. }
        assert (Hdiff : forall c c', (0 <= c < 4)%Z -> (0 <= c' < 4)%Z ->
                  Z.to_nat (idx w x y + c) <> Z.to_nat (idx w px py + c')).
        { intros c c' Hc Hc' E.
          pose proof (idx_in_range w h x y c Hx Hy Hc).
          pose proof (idx_in_range w h px py c' Hpx Hpy Hc').
          destruct (idx_inj w x y c px py c' Hx Hpx Hc Hc' ltac:(lia)) as (-> & -> & _).
          contradiction. }
        destruct (IH1 x y Hin') as [Ha Hc]. split.
        -- rewrite mask_pixel_lookup by assumption.
           pose proof (Hdiff 3 0)%Z. pose proof (Hdiff 3 1)%Z.
           pose proof (Hdiff 3 2)%Z. pose proof (Hdiff 3 3)%Z.
           rewrite Z.add_0_r in *.
           repeat case_decide; try (exfalso; intuition lia). exact Ha.
        -- intros c Hc3. rewrite mask_pixel_lookup by assumption.
           pose proof (Hdiff c 0)%Z. pose proof (Hdiff c 1)%Z.
           pose proof (Hdiff c 2)%Z. pose proof (Hdiff c 3)%Z.
           rewrite Z.add_0_r in *.
           repeat case_decide; try (exfalso; intuition lia). apply Hc, Hc3.
    + intros x y c Hx Hy Hc Hnot.
      assert (Hnot' : (x, y) ∉ ps).
      { intros Hin. apply Hnot. apply elem_of_app. now left. }
      assert (Hne : (x, y) <> (px, py)).
      { intros E. apply Hnot. apply elem_of_app. right.
        rewrite E. apply list_elem_of_singleton. reflexivity. }
      assert (Hdiff : forall c', (0 <= c' < 4)%Z ->
                Z.to_nat (idx w x y + c) <> Z.to_nat (idx w px py + c')).
      { intros c' Hc' E.
        pose proof (idx_in_range w h x y c Hx Hy Hc).
        pose proof (idx_in_range w h px py c' Hpx Hpy Hc').
        destruct (idx_inj w x y c px py c' Hx Hpx Hc Hc' ltac:(lia)) as (-> & -> & _).
        contradiction. }
      rewrite mask_pixel_lookup by assumption.
      pose proof (Hdiff 0)%Z. pose proof (Hdiff 1)%Z.
      pose proof (Hdiff 2)%Z. pose proof (Hdiff 3)%Z.
      rewrite Z.add_0_r in *.
      repeat case_decide; try (exfalso; intuition lia).
      apply IH2; assumption.
Qed.

(** The mask after the two loops: zero colour bytes, the verdict in the
    alpha byte of an interior pixel, zero in the alpha byte of the border. *)
Lemma mask_loops (o : list Z) :
  (3 <= w)%Z -> (3 <= h)%Z ->
  o = replicate (Z.to_nat (w * h * 4)) 0%Z ->
  let out := foldl (fun o y => foldl (fun o x => mask_pixel o x y) o (seqZ 1 (w - 2)))
               o (seqZ 1 (h - 2)) in
  length out = Z.to_nat (w * h * 4) /\
  (forall x y c, (0 <= x < w)%Z -> (0 <= y < h)%Z -> (0 <= c < 3)%Z ->
     out !! Z.to_nat (idx w x y + c) = Some 0%Z) /\
  (forall x y, interior w h x y ->
     out !! Z.to_nat (idx w x y + 3) = Some (mask_alpha x y)) /\
  (forall x y, on_border w h x y -> out !! Z.to_nat (idx w x y + 3) = Some 0%Z).
Proof.
  intros Hw Hh -> out. subst out.
  rewrite (foldl_nested (fun o x y => mask_pixel o x y)).
  fold (interior_positions w h). 
  set (o := replicate (Z.to_nat (w * h * 4)) 0%Z).
  assert (Ho : length o = Z.to_nat (w * h * 4)) by apply length_replicate.
  assert (Hall : Forall (in_picture w h) (interior_positions w h)).
  { apply Forall_forall. intros [x y] Hin.
    apply elem_of_interior_positions in Hin. destruct Hin. split; cbn; lia. }
  destruct (mask_writes (interior_positions w h) o Ho Hall) as [Hin Hout].
  fold step.
  assert (Hzero : forall x y c, (0 <= x < w)%Z -> (0 <= y < h)%Z -> (0 <= c < 4)%Z ->
            o !! Z.to_nat (idx w x y + c) = Some 0%Z).
  { intros x y c Hx Hy Hc. subst o. apply lookup_replicate_2.
    pose proof (idx_in_range w h x y c Hx Hy Hc). lia. }
  split; [rewrite mask_writes_length; exact Ho | ].
  split; [ | split].
  - intros x y c Hx Hy Hc.
    destruct (decide ((x, y) ∈ interior_positions w h)) as [Hi | Hni].
    + apply (Hin x y Hi). exact Hc.
    + rewrite Hout by (auto; lia). apply Hzero; lia.
  - intros x y Hi.
    pose proof (proj2 (elem_of_interior_positions w h x y) Hi) as Hmem.
    apply (Hin x y Hmem).
  - intros x y (Hx & Hy & Hb).
    assert (Hni : (x, y) ∉ interior_positions w h).
    { intros Hmem. apply elem_of_interior_positions in Hmem.
      unfold interior in Hmem. lia. }
    rewrite Hout by (auto; lia). apply Hzero; lia.
Qed.

End MaskLoop.

(** The edge detector on doubles. *)
Definition sobelEdges64 := sobelEdges_fl round64 sqrt64.

Lemma sobelEdges_fl_mask (rnd fsqrt : Q -> Q) (d : list Z) (w h : Z) (T : Q) :
  rounding rnd -> root fsqrt ->
  (3 <= w)%Z -> (3 <= h)%Z -> length d = Z.to_nat (w * h * 4) -> Forall is_byte d ->
  let out := sobelEdges_fl rnd fsqrt d w h T in
  length out = Z.to_nat (w * h * 4) /\
  (forall x y c, (0 <= x < w)%Z -> (0 <= y < h)%Z -> (0 <= c < 3)%Z ->
     out !! Z.to_nat (idx w x y + c) = Some 0%Z) /\
  (forall x y, interior w h x y ->
     out !! Z.to_nat (idx w x y + 3)
       = Some (if isEdge_fl rnd fsqrt d w T x y then 255%Z else 0%Z) /\
     (magnitude_exceeds d w x y (T + edge_tolerance) ->
        out !! Z.to_nat (idx w x y + 3) = Some 255%Z) /\
     (~ magnitude_exceeds d w x y (T - edge_tolerance) ->
        out !! Z.to_nat (idx w x y + 3) = Some 0%Z)) /\
  (forall x y, on_border w h x y -> out !! Z.to_nat (idx w x y + 3) = Some 0%Z).
Proof.
  intros Hrnd Hroot Hw Hh Hlen Hb out.
  destruct (mask_loops w h (isEdge_fl rnd fsqrt d w T) _ Hw Hh eq_refl)
    as (M1 & M2 & M3 & M4).
  change (foldl _ _ _) with out in M1, M2, M3, M4.
  split; [exact M1 | split; [exact M2 | split; [ | exact M4]]].
  intros x y Hi. rewrite (M3 x y Hi). unfold mask_alpha.
  destruct (isEdge_fl_interior rnd fsqrt Hrnd Hroot d w h x y T Hlen Hb Hi) as [E1 E2].
  split; [reflexivity | split].
  - intros H. rewrite (E1 H). reflexivity.
  - intros H. rewrite (E2 H). reflexivity.
Qed.

(** *** The mask of [sobelEdges] on doubles *)

Lemma magnitude_decidable (d : list Z) (w x y : Z) (T : Q) :
  magnitude_exceeds d w x y T \/ ~ magnitude_exceeds d w x y T.
Proof.
  unfold magnitude_exceeds.
  destruct (Rlt_dec (Q2R T)
              (sqrt (Q2R (gradient_x d w x y * gradient_x d w x y
                          + gradient_y d w x y * gradient_y d w x y)))) as [H | H].
  - left. exact H.
  - right. intros H'. apply H. exact H'.
Qed.

Lemma sobelEdges64_mask (d : list Z) (w h : Z) (T : Q) :
  (3 <= w)%Z -> (3 <= h)%Z -> length d = Z.to_nat (w * h * 4) -> Forall is_byte d ->
  let out := sobelEdges64 d w h T in
  length out = Z.to_nat (w * h * 4) /\
  (forall x y c, (0 <= x < w)%Z -> (0 <= y < h)%Z -> (0 <= c < 3)%Z ->
     out !! Z.to_nat (idx w x y + c) = Some 0%Z) /\
  (forall x y, interior w h x y ->
     let alpha := out !! Z.to_nat (idx w x y + 3) in
     (alpha = Some 255%Z \/ alpha = Some 0%Z) /\
     (magnitude_exceeds d w x y (T + edge_tolerance) -> alpha = Some 255%Z) /\
     (alpha = Some 255%Z -> magnitude_exceeds d w x y (T - edge_tolerance)) /\
     (~ magnitude_exceeds d w x y (T - edge_tolerance) -> alpha = Some 0%Z) /\
     (alpha = Some 0%Z -> ~ magnitude_exceeds d w x y (T + edge_tolerance))) /\
  (forall x y, on_border w h x y -> out !! Z.to_nat (idx w x y + 3) = Some 0%Z).
Proof.
  intros Hw Hh Hlen Hb out.
  destruct (sobelEdges_fl_mask round64 sqrt64 d w h T round64_spec sqrt64_spec
              Hw Hh Hlen Hb) as (M1 & M2 & M3 & M4).
  change (sobelEdges_fl round64 sqrt64 d w h T) with out in M1, M2, M3, M4.
  split; [exact M1 | split; [exact M2 | split; [ | exact M4]]].
  intros x y Hi alpha. destruct (M3 x y Hi) as (E & Hup & Hdown). fold alpha in E, Hup, Hdown.
  split; [ | split; [exact Hup | split; [ | split; [exact Hdown | ]]]].
  - rewrite E. destruct (isEdge_fl round64 sqrt64 d w T x y); [left | right]; reflexivity.
  - intros H255.
    destruct (magnitude_decidable d w x y (T - edge_tolerance)) as [H | H]; [exact H | ].
    rewrite (Hdown H) in H255. discriminate.
  - intros H0 H. rewrite (Hup H) in H0. discriminate.
Qed.




(** The hard edge of [sobel_hard_edge] on doubles. *)
Example sobelEdges64_hard_edge :
  channel 3 (sobelEdges64
               (grey_rows [[0; 0; 255; 255]; [0; 0; 255; 255]; [0; 0; 255; 255]]%Z) 4 3 50)
  = [0; 0; 0; 0;  0; 255; 255; 0;  0; 0; 0; 0]%Z.
Proof. vm_compute. reflexivity. Qed.

(** *** Flat areas *)

Lemma sobelEdges64_flat (d : list Z) (w h x y : Z) (T lum : Q) :
  length d = Z.to_nat (w * h * 4) -> Forall is_byte d -> interior w h x y ->
  edge_tolerance <= T ->
  (forall i j, (-1 <= i <= 1)%Z -> (-1 <= j <= 1)%Z ->
     luminance d w (x + i) (y + j) == lum) ->
  sobelEdges64 d w h T !! Z.to_nat (idx w x y + 3) = Some 0%Z.
Proof.
  intros Hlen Hb Hi HT Hflat.
  assert (Hw : (3 <= w)%Z) by (unfold interior in Hi; lia).
  assert (Hh : (3 <= h)%Z) by (unfold interior in Hi; lia).
  destruct (sobelEdges64_mask d w h T Hw Hh Hlen Hb) as (_ & _ & M & _).
  destruct (M x y Hi) as (_ & _ & _ & Hdown & _). apply Hdown.
  destruct (flat_gradient d w x y lum Hflat) as [Gx Gy].
  unfold magnitude_exceeds. intros H.
  apply Math_sqrt_gt_spec in H; [ | nra].
  rewrite (Math_sqrt_gt_Qeq _ 0) in H by (rewrite Gx, Gy; ring).
  unfold Math_sqrt_gt in H.
  destruct (Qltb (T - edge_tolerance) 0) eqn:E0; [apply Qltb_lt in E0; lra | ].
  apply Qltb_lt in H. nra.
Qed.

(** X15.  Where the picture is flat there is no edge: an interior pixel
    whose 3 x 3 neighbourhood has one luminance gets alpha 0 in the mask of
    [sobelEdges], for every threshold from 0.001 on ([stylize] uses
    thresholds from 20 to 100, [estimateEdgeDensity] uses 50).  Below that
    the rounding of the sums can mark a flat pixel; see
    [sobelEdges64_flat_zero]. *)
Theorem sobelEdges_flat (d : list Z) (w h x y : Z) (T lum : Q) :
  length d = Z.to_nat (w * h * 4) -> Forall is_byte d -> interior w h x y ->
  edge_tolerance <= T ->
  (forall i j, (-1 <= i <= 1)%Z -> (-1 <= j <= 1)%Z ->
     luminance d w (x + i) (y + j) == lum) ->
  sobelEdges64 d w h T !! Z.to_nat (idx w x y + 3) = Some 0%Z.
Proof.
  exact (sobelEdges64_flat d w h x y T lum).
Qed.

Lemma sobelEdges_flat_witness :
  sobelEdges64 (concat (replicate 9 [40; 80; 120; 255]%Z)) 3 3 20
    !! Z.to_nat (idx 3 1 1 + 3) = Some 0%Z.
Proof.
  apply (sobelEdges_flat (concat (replicate 9 [40; 80; 120; 255]%Z)) 3 3 1 1 20
           (luminance (concat (replicate 9 [40; 80; 120; 255]%Z)) 3 1 1)).
  - reflexivity.
  - repeat constructor; unfold is_byte; lia.
  - unfold interior. lia.
  - unfold edge_tolerance. lra.
  - intros i j Hi Hj.
    assert (Ei : i = (-1)%Z \/ i = 0%Z \/ i = 1%Z) by lia.
    assert (Ej : j = (-1)%Z \/ j = 0%Z \/ j = 1%Z) by lia.
    destruct Ei as [-> | [-> | ->]]; destruct Ej as [-> | [-> | ->]];
      vm_compute; reflexivity.
Defined.

(** At the threshold 0 a flat picture is marked: the nine products do not
    cancel in doubles, [sy] comes out as [2^-46], and that exceeds 0. *)
Example sobelEdges64_flat_zero :
  let d := concat (replicate 9 [40; 80; 120; 255]%Z) in
  sobel_sums_fl round64 d 3 1 1 = (Some 0, Some (1 # 70368744177664)) /\
  sobelEdges64 d 3 3 0 !! Z.to_nat (idx 3 1 1 + 3) = Some 255%Z.
Proof. split; vm_compute; reflexivity. Qed.

(** ** The size of the canvases on doubles *)

(** The sides [img.onload] gives both canvases for a picture of [w] by [h]
    pixels: the longer side is brought down to [maxSide = 768]. *)
Definition onload_size_fl (rnd : Q -> Q) (w h : Z) : Z * Z :=
  let maxSide := 768%Z in
  if (w >? h)%Z && (w >? maxSide)%Z
  then (maxSide, Math_round (rnd (rnd (inject_Z maxSide / inject_Z w) * inject_Z h)))
  else if (h >=? w)%Z && (h >? maxSide)%Z
  then (Math_round (rnd (rnd (inject_Z maxSide / inject_Z h) * inject_Z w)), maxSide)
  else (w, h).


Section DoubleSizes.

Variable rnd : Q -> Q.
Hypothesis rnd_rounding : rounding rnd.

Definition size_error : Q := 1 # 1000000000000.

(** The scaled short side [768 / b * a] as the doubles give it. *)
Lemma scaled_side_near (a b : Z) :
  (1 <= a)%Z -> (a <= b)%Z -> (768 < b)%Z -> (b <= 4294967296)%Z ->
  let e := 768 / inject_Z b * inject_Z a in
  let y := rnd (rnd (768 / inject_Z b) * inject_Z a) in
  0 <= y /\ e - size_error <= y <= e + size_error /\ 0 <= e <= 768 /\
  e * inject_Z b == 768 * inject_Z a.
Proof.
  intros Ha Hab Hb Hb2 e y.
  assert (QA : 1 <= inject_Z a) by (apply inject_Z_pos; exact Ha).
  assert (QB : 768 <= inject_Z b)
    by (change 768 with (inject_Z 768); rewrite <- Zle_Qle; lia).
  assert (QAB : inject_Z a <= inject_Z b) by (rewrite <- Zle_Qle; exact Hab).
  assert (QB2 : inject_Z b <= 4294967296)
    by (change 4294967296 with (inject_Z 4294967296); rewrite <- Zle_Qle; exact Hb2).
  set (A := inject_Z a) in *. set (B := inject_Z b) in *.
  set (c := 768 / B) in *.
  assert (Ec : c * B == 768) by (unfold c; field; lra).
  assert (Hc : 0 <= c <= 1).
  { clearbody c A B. split; nra. }
  assert (Ee : e * B == 768 * A).
  { unfold e. assert (X : c * A * B == c * B * A) by ring. rewrite X, Ec. reflexivity. }
  assert (He : 0 <= e <= 768).
  { unfold e. clearbody c A B. split; nra. }
  pose proof (rnd_within rnd rnd_rounding c c ltac:(split; lra)) as H1.
  pose proof (rnd_nonneg rnd rnd_rounding c ltac:(lra)) as H1p.
  set (c' := rnd c) in *.
  pose proof eta_small as Es. pose proof eta_pos as Ep.
  assert (HetaA : 0 <= eta * A <= (1 # 10000000000000000000000000000)).
  { clearbody A B c c'. clear - Es Ep QA QAB QB2.
    assert (0 <= eta * A) by (apply Qmult_le_0_compat; lra).
    assert (0 <= ((1 # 1000000000000000000000000000000000000000) - eta) * A)
      by (apply Qmult_le_0_compat; lra).
    split; lra. }
  assert (Hx : e - (u * e + eta * A) <= c' * A <= e + (u * e + eta * A)).
  { unfold e. clearbody c c' A B. clear - H1 QA.
    assert (0 <= (c' - (c - (u * c + eta))) * A) by (apply Qmult_le_0_compat; lra).
    assert (0 <= (c + (u * c + eta) - c') * A) by (apply Qmult_le_0_compat; lra).
    split; lra. }
  assert (Hx0 : 0 <= c' * A) by (apply Qmult_le_0_compat; lra).
  pose proof (rnd_within rnd rnd_rounding (c' * A) 769) as H2.
  pose proof (rnd_nonneg rnd rnd_rounding (c' * A) Hx0) as H2p.
  fold y in H2, H2p.
  clearbody e y c c' A B. unfold u in *. unfold size_error.
  specialize (H2 ltac:(split; lra)).
  split; [exact H2p | ]. split; [split; lra | ]. split; [exact He | exact Ee].
Qed.

Lemma short_side (a b : Z) :
  (1 <= a)%Z -> (a <= b)%Z -> (768 < b)%Z -> (b <= 4294967296)%Z ->
  let v := Math_round (rnd (rnd (768 / inject_Z b) * inject_Z a)) in
  (0 <= v <= 768)%Z /\
  ((1536 * a < b)%Z -> v = 0%Z) /\ ((b < 1536 * a)%Z -> (1 <= v)%Z) /\
  Qabs (inject_Z v - 768 * inject_Z a / inject_Z b) <= (1 # 2) + size_error.
Proof.
  intros Ha Hab Hb Hb2 v.
  destruct (scaled_side_near a b Ha Hab Hb Hb2) as (Hy0 & Hy & He & Ee).
  cbv zeta in Hy0, Hy, He, Ee. unfold size_error in *.
  assert (QB : 768 <= inject_Z b)
    by (change 768 with (inject_Z 768); rewrite <- Zle_Qle; lia).
  assert (QB2 : inject_Z b <= 4294967296)
    by (change 4294967296 with (inject_Z 4294967296); rewrite <- Zle_Qle; exact Hb2).
  assert (Eq : 768 * inject_Z a / inject_Z b == 768 / inject_Z b * inject_Z a)
    by (field; lra).
  unfold v, Math_round.
  set (y := rnd (rnd (768 / inject_Z b) * inject_Z a)) in *.
  set (e := 768 / inject_Z b * inject_Z a) in *.
  pose proof (Qfloor_le (y + (1 # 2))) as F1.
  pose proof (Qlt_floor (y + (1 # 2))) as F2.
  rewrite inject_Z_plus in F2. change (inject_Z 1) with 1 in F2.
  set (k := Qfloor (y + (1 # 2))) in *.
  assert (Hk : (0 <= k <= 768)%Z).
  { assert (A : inject_Z k < inject_Z 769) by (change (inject_Z 769) with 769; lra).
    assert (B : inject_Z (- 1) < inject_Z k) by (change (inject_Z (-1)) with (-1); lra).
    rewrite <- Zlt_Qlt in A, B. lia. }
  split; [exact Hk | ]. split; [ | split].
  - intros Hlt.
    assert (H1 : inject_Z (1536 * a) + 1 <= inject_Z b).
    { change 1 with (inject_Z 1). rewrite <- inject_Z_plus, <- Zle_Qle. lia. }
    rewrite inject_Z_mult in H1. change (inject_Z 1536) with 1536 in H1.
    assert (Hg : (1 # 8589934592) <= (1 # 2) - e).
    { clearbody e y k. set (B := inject_Z b) in *. set (A := inject_Z a) in *.
      clearbody A B. clear - H1 Ee QB QB2.
      assert (G : (1 # 2) <= ((1 # 2) - e) * B) by lra.
      destruct (Qlt_le_dec ((1 # 2) - e) (1 # 8589934592)) as [Hs | ]; [ | assumption].
      exfalso.
      assert (0 < (1 # 2) - e).
      { destruct (Qlt_le_dec 0 ((1 # 2) - e)); [assumption | exfalso; nra]. }
      assert (((1 # 2) - e) * B <= ((1 # 2) - e) * 4294967296).
      { assert (0 <= ((1 # 2) - e) * (4294967296 - B)) by (apply Qmult_le_0_compat; lra).
        lra. }
      lra. }
    assert (A : inject_Z k < inject_Z 1) by (change (inject_Z 1) with 1; lra).
    rewrite <- Zlt_Qlt in A. lia.
  - intros Hlt.
    assert (H1 : inject_Z b + 1 <= inject_Z (1536 * a)).
    { change 1 with (inject_Z 1). rewrite <- inject_Z_plus, <- Zle_Qle. lia. }
    rewrite inject_Z_mult in H1. change (inject_Z 1536) with 1536 in H1.
    assert (Hg : (1 # 8589934592) <= e - (1 # 2)).
    { clearbody e y k. set (B := inject_Z b) in *. set (A := inject_Z a) in *.
      clearbody A B. clear - H1 Ee QB QB2.
      assert (G : (1 # 2) <= (e - (1 # 2)) * B) by lra.
      destruct (Qlt_le_dec (e - (1 # 2)) (1 # 8589934592)) as [Hs | ]; [ | assumption].
      exfalso.
      assert (0 < e - (1 # 2)).
      { destruct (Qlt_le_dec 0 (e - (1 # 2))); [assumption | exfalso; nra]. }
      assert ((e - (1 # 2)) * B <= (e - (1 # 2)) * 4294967296).
      { assert (0 <= (e - (1 # 2)) * (4294967296 - B)) by (apply Qmult_le_0_compat; lra).
        lra. }
      lra. }
    assert (A : inject_Z 0 < inject_Z k) by (change (inject_Z 0) with 0; lra).
    rewrite <- Zlt_Qlt in A. lia.
  - apply Qabs_Qle_condition. rewrite Eq. split; lra.
Qed.

End DoubleSizes.

Lemma onload_size_fl_spec (rnd : Q -> Q) (w h : Z) :
  rounding rnd ->
  (1 <= w <= 4294967295)%Z -> (1 <= h <= 4294967295)%Z ->
  let s := onload_size_fl rnd w h in
  (0 <= s.1 <= 768)%Z /\ (0 <= s.2 <= 768)%Z /\
  ((w <= 768)%Z -> (h <= 768)%Z -> s = (w, h)) /\
  ((768 < w)%Z \/ (768 < h)%Z -> Z.max s.1 s.2 = 768%Z) /\
  ((1536 * w < h)%Z -> s.1 = 0%Z) /\ ((h < 1536 * w)%Z -> (1 <= s.1)%Z) /\
  ((1536 * h < w)%Z -> s.2 = 0%Z) /\ ((w < 1536 * h)%Z -> (1 <= s.2)%Z) /\
  ((h < w)%Z -> (768 < w)%Z ->
     Qabs (inject_Z s.2 - 768 * inject_Z h / inject_Z w) <= (1 # 2) + size_error) /\
  ((w <= h)%Z -> (768 < h)%Z ->
     Qabs (inject_Z s.1 - 768 * inject_Z w / inject_Z h) <= (1 # 2) + size_error).
Proof.
  intros Hrnd Hw Hh s. subst s. unfold onload_size_fl. cbv zeta.
  change (inject_Z 768) with 768.
  rewrite !Z.gtb_ltb, Z.geb_leb.
  destruct (Z.ltb_spec h w) as [Hhw | Hhw]; destruct (Z.ltb_spec 768 w) as [Hbig | Hsmall];
    cbn [andb fst snd].
  - destruct (short_side rnd Hrnd h w ltac:(lia) ltac:(lia) Hbig ltac:(lia))
      as (R0 & R1 & R2 & R3).
    cbv zeta in R0, R1, R2, R3.
    repeat split; try lia; auto; intros; try lia.
  - destruct (Z.leb_spec w h); [lia | ]. cbn [andb fst snd].
    repeat split; try lia; intros; try lia.
  - destruct (Z.leb_spec w h); [ | lia]. destruct (Z.ltb_spec 768 h) as [Hbig' | Hsmall'];
      cbn [andb fst snd].
    + destruct (short_side rnd Hrnd w h ltac:(lia) ltac:(lia) Hbig' ltac:(lia))
        as (R0 & R1 & R2 & R3).
      cbv zeta in R0, R1, R2, R3.
      repeat split; try lia; auto; intros; try lia.
    + repeat split; try lia; intros; try lia.
  - destruct (Z.leb_spec w h); [ | lia]. destruct (Z.ltb_spec 768 h) as [Hbig' | Hsmall'];
      cbn [andb fst snd].
    + destruct (short_side rnd Hrnd w h ltac:(lia) ltac:(lia) Hbig' ltac:(lia))
        as (R0 & R1 & R2 & R3).
      cbv zeta in R0, R1, R2, R3.
      repeat split; try lia; auto; intros; try lia.
    + repeat split; try lia; intros; try lia; f_equal; lia.
Qed.

(** The sizes on doubles. *)
Definition onload_size64 (w h : Z) : Z * Z := onload_size_fl round64 w h.

Example onload_size64_sample : onload_size64 1024 512 = (768, 384)%Z.
Proof. vm_compute. reflexivity. Qed.

(** A picture of 2000 by 1 pixels gets canvases of height 0. *)
Example onload_size64_flat : onload_size64 2000 1 = (768, 0)%Z.
Proof. vm_compute. reflexivity. Qed.

(** A picture exactly 1536 times longer than it is short: the scaled side
    is 1/2, which [Math.round] would bring to 1, but the product of the
    doubles is 0.49999999999999994 and the canvas gets a side of 0.  With
    5632 by 55 pixels the scaled side is 7.5 and comes out as 7. *)
Example onload_size64_ties :
  onload_size64 75264 49 = (768, 0)%Z /\ onload_size64 5632 55 = (768, 7)%Z /\
  round64 (round64 (768 / 75264) * 49) == 9007199254740991 # 18014398509481984.
Proof. repeat split; vm_compute; reflexivity. Qed.

(** X12.  The canvases [img.onload] sets up for a picture of [w] by [h]
    pixels (sides of at least 1 that fit an unsigned long, as
    [naturalWidth] and [naturalHeight] do): no side is above 768; a
    picture with no side above 768 keeps its size; otherwise the longer
    side becomes 768 and the other one is a whole number within 1/2, and
    the rounding of the doubles, of its scaled length.  That side is 0, an
    empty canvas, when the picture is more than 1536 times longer than it
    is short, and at least 1 when it is less than 1536 times longer; at
    exactly 1536 times the rounding decides ([onload_size64_ties]). *)
Theorem onload_size_spec (w h : Z) :
  (1 <= w <= 4294967295)%Z -> (1 <= h <= 4294967295)%Z ->
  let s := onload_size64 w h in
  (0 <= s.1 <= 768)%Z /\ (0 <= s.2 <= 768)%Z /\
  ((w <= 768)%Z -> (h <= 768)%Z -> s = (w, h)) /\
  ((768 < w)%Z \/ (768 < h)%Z -> Z.max s.1 s.2 = 768%Z) /\
  ((1536 * w < h)%Z -> s.1 = 0%Z) /\ ((h < 1536 * w)%Z -> (1 <= s.1)%Z) /\
  ((1536 * h < w)%Z -> s.2 = 0%Z) /\ ((w < 1536 * h)%Z -> (1 <= s.2)%Z) /\
  ((h < w)%Z -> (768 < w)%Z ->
     Qabs (inject_Z s.2 - 768 * inject_Z h / inject_Z w) <= (1 # 2) + size_error) /\
  ((w <= h)%Z -> (768 < h)%Z ->
     Qabs (inject_Z s.1 - 768 * inject_Z w / inject_Z h) <= (1 # 2) + size_error).
Proof.
  exact (onload_size_fl_spec round64 w h round64_spec).
Qed.

Lemma onload_size_spec_witness :
  let s := onload_size64 2000 1 in
  (0 <= s.1 <= 768)%Z /\ (0 <= s.2 <= 768)%Z /\
  ((2000 <= 768)%Z -> (1 <= 768)%Z -> s = (2000, 1)%Z) /\
  ((768 < 2000)%Z \/ (768 < 1)%Z -> Z.max s.1 s.2 = 768%Z) /\
  ((1536 * 2000 < 1)%Z -> s.1 = 0%Z) /\ ((1 < 1536 * 2000)%Z -> (1 <= s.1)%Z) /\
  ((1536 * 1 < 2000)%Z -> s.2 = 0%Z) /\ ((2000 < 1536 * 1)%Z -> (1 <= s.2)%Z) /\
  ((1 < 2000)%Z -> (768 < 2000)%Z ->
     Qabs (inject_Z s.2 - 768 * inject_Z 1 / inject_Z 2000) <= (1 # 2) + size_error) /\
  ((2000 <= 1)%Z -> (768 < 1)%Z ->
     Qabs (inject_Z s.1 - 768 * inject_Z 2000 / inject_Z 1) <= (1 # 2) + size_error).
Proof.
  apply (onload_size_spec 2000 1); lia.
Defined.

(** ** ColorSpace and Posterizer on doubles *)

Section DoublePoster.

Variable rnd : Q -> Q.

(** [rgbToHsl], [hslToRgb] and [posterizeAndSaturate] with every
    operation rounded. *)
Definition rgbToHsl_fl (r g b : Q) : HSL :=
  let r := rnd (r / 255) in
  let g := rnd (g / 255) in
  let b := rnd (b / 255) in
  let max := Math_max3 r g b in
  let min := Math_min3 r g b in
  let l := rnd (rnd (max + min) / 2) in
  if negb (Qeq_bool max min) then
    let d := rnd (max - min) in
    let s := if Qltb 0.5 l then rnd (d / rnd (rnd (2 - max) - min))
             else rnd (d / rnd (max + min)) in
    let h :=
      if Qeq_bool max r then
        rnd (rnd (rnd (g - b) / d) + (if Qltb g b then 6 else 0))
      else if Qeq_bool max g then rnd (rnd (rnd (b - r) / d) + 2)
      else if Qeq_bool max b then rnd (rnd (rnd (r - g) / d) + 4)
      else 0 in
    mkHSL (rnd (h / 6)) s l
  else mkHSL 0 0 l.

Definition hue2rgb_fl (p q t : Q) : Q :=
  let t := if Qltb t 0 then rnd (t + 1) else t in
  let t := if Qltb 1 t then rnd (t - 1) else t in
  if Qltb t (rnd (1 / 6)) then rnd (p + rnd (rnd (rnd (q - p) * 6) * t))
  else if Qltb t (rnd (1 / 2)) then q
  else if Qltb t (rnd (2 / 3)) then
    rnd (p + rnd (rnd (rnd (q - p) * rnd (rnd (2 / 3) - t)) * 6))
  else p.

Definition hslToRgb_unit_fl (h s l : Q) : Q * Q * Q :=
  if Qeq_bool s 0 then (l, l, l)
  else
    let q := if Qltb l 0.5 then rnd (l * rnd (1 + s))
             else rnd (rnd (l + s) - rnd (l * s)) in
    let p := rnd (rnd (2 * l) - q) in
    (hue2rgb_fl p q (rnd (h + rnd (1 / 3))), hue2rgb_fl p q h,
     hue2rgb_fl p q (rnd (h - rnd (1 / 3)))).

Definition hslToRgb_fl (h s l : Q) : RGB :=
  let '(r, g, b) := hslToRgb_unit_fl h s l in
  mkRGB (Math_round (rnd (r * 255))) (Math_round (rnd (g * 255)))
        (Math_round (rnd (b * 255))).

(** The colour of a pixel after the saturation boost, back in RGB. *)
Definition boosted_fl (satBoost : Q) (r g b : Z) : RGB :=
  let x := rgbToHsl_fl (inject_Z r) (inject_Z g) (inject_Z b) in
  let s2 := clamp01 (rnd (hsl_s x + rnd (satBoost * rnd (1 - hsl_s x)))) in
  hslToRgb_fl (hsl_h x) s2 (hsl_l x).

(** [Math.round(v / step)], and the number [Math.round(v / step) * step]. *)
Definition index_fl (step : Q) (v : Z) : Z := Math_round (rnd (inject_Z v / step)).
Definition quantize_fl (step : Q) (v : Z) : Q := rnd (inject_Z (index_fl step v) * step).

Definition posterize_pixel_fl (step satBoost : Q) (d : list Z) (i : nat) : list Z :=
  let r := d !!! i in
  let g := d !!! (i + 1)%nat in
  let b := d !!! (i + 2)%nat in
  let a := d !!! (i + 3)%nat in
  let x := rgbToHsl_fl (inject_Z r) (inject_Z g) (inject_Z b) in
  let s2 := clamp01 (rnd (hsl_s x + rnd (satBoost * rnd (1 - hsl_s x)))) in
  let c := hslToRgb_fl (hsl_h x) s2 (hsl_l x) in
  let d := put d i (rnd (inject_Z (Math_round (rnd (inject_Z (rgb_r c) / step))) * step)) in
  let d := put d (i + 1)
             (rnd (inject_Z (Math_round (rnd (inject_Z (rgb_g c) / step))) * step)) in
  let d := put d (i + 2)
             (rnd (inject_Z (Math_round (rnd (inject_Z (rgb_b c) / step))) * step)) in
  put d (i + 3) (inject_Z a).

Definition posterize_step_fl (levels : Z) : Q :=
  rnd (255 / Math_max 2 (inject_Z levels - 1)).

Definition posterize_data_fl (d : list Z) (levels : Z) (satBoost : Q) : list Z :=
  let step := posterize_step_fl levels in
  foldl (posterize_pixel_fl step satBoost) d (pixel_offsets (length d)).

End DoublePoster.

(** *** The colour after the boost is a colour *)

Section DoubleColorFacts.

Variable rnd : Q -> Q.
Hypothesis rnd_rounding : rounding rnd.

(** What one rounding can add to a number of size at most 8. *)
Definition fuzz : Q := 1 # 1000000000000000.

Lemma rnd_fuzz (x : Q) : - (8) <= x <= 8 -> x - fuzz <= rnd x <= x + fuzz.
Proof.
  intros H. pose proof (rnd_within rnd rnd_rounding x 8 H) as Hr.
  pose proof eta_small. pose proof eta_pos. unfold u in Hr. unfold fuzz. split; lra.
Qed.

Lemma rnd_between (x lo hi : Q) :
  lo <= x <= hi -> - (8) <= lo -> hi <= 8 -> lo - fuzz <= rnd x <= hi + fuzz.
Proof. intros [? ?] ? ?. pose proof (rnd_fuzz x ltac:(split; lra)). split; lra. Qed.

Lemma Qdiv_between (a d c : Q) :
  0 < d -> - (c * d) <= a <= c * d -> - c <= a / d <= c.
Proof.
  intros Hd [H1 H2]. split.
  - apply (Qle_shift_div_l (- c) a d Hd). lra.
  - apply (Qle_shift_div_r a d c Hd). lra.
Qed.

Lemma Qdiv_nonneg (a d : Q) : 0 < d -> 0 <= a -> 0 <= a / d.
Proof. intros Hd Ha. apply (Qle_shift_div_l 0 a d Hd). lra. Qed.

(** A channel [v / 255] of a byte, as a double. *)
Lemma unit_channel (v : Z) :
  is_byte v ->
  inject_Z v / 255 - fuzz <= rnd (inject_Z v / 255) <= inject_Z v / 255 + fuzz /\
  0 <= rnd (inject_Z v / 255) /\ 0 <= inject_Z v / 255 <= 1.
Proof.
  intros [H0 H1].
  assert (A : 0 <= inject_Z v) by (change 0 with (inject_Z 0); rewrite <- Zle_Qle; lia).
  assert (B : inject_Z v <= 255)
    by (change 255 with (inject_Z 255); rewrite <- Zle_Qle; lia).
  assert (C : 0 <= inject_Z v / 255 <= 1).
  { split; [apply Qle_shift_div_l | apply Qle_shift_div_r]; lra. }
  split; [apply rnd_fuzz; split; lra | ].
  split; [apply (rnd_nonneg rnd rnd_rounding); lra | exact C].
Qed.

(** Two bytes give the same channel or channels at least 1/300 apart. *)
Lemma unit_channel_apart (v w : Z) :
  is_byte v -> is_byte w ->
  rnd (inject_Z v / 255) == rnd (inject_Z w / 255) \/
  (1 # 300) <= rnd (inject_Z v / 255) - rnd (inject_Z w / 255) \/
  (1 # 300) <= rnd (inject_Z w / 255) - rnd (inject_Z v / 255).
Proof.
  intros Hv Hw.
  destruct (unit_channel v Hv) as ([V1 V2] & _ & _).
  destruct (unit_channel w Hw) as ([W1 W2] & _ & _).
  assert (E : forall a b : Z, (a + 1 <= b)%Z ->
            inject_Z a / 255 + (1 # 255) <= inject_Z b / 255).
  { intros a b H. rewrite Zle_Qle, inject_Z_plus in H. change (inject_Z 1) with 1 in H.
    assert (X : inject_Z a / 255 + (1 # 255) == (inject_Z a + 1) / 255) by field.
    rewrite X. apply Qle_shift_div_l; [reflexivity | ].
    assert (Y : (inject_Z a + 1) / 255 * 255 == inject_Z a + 1) by field. lra. }
  unfold fuzz in *.
  destruct (Z.lt_trichotomy v w) as [Hlt | [-> | Hgt]].
  - right. right. pose proof (E v w ltac:(lia)). lra.
  - left. reflexivity.
  - right. left. pose proof (E w v ltac:(lia)). lra.
Qed.

(** The hue before [h /= 6], for a difference [x] of two channels that is
    at most the span [D] of the three in size. *)
Lemma hue_ratio (x D : Q) :
  (1 # 300) <= D <= 2 -> - D <= x <= D ->
  - (12 # 10) <= rnd (rnd x / rnd D) <= 12 # 10 /\
  (0 <= x -> 0 <= rnd (rnd x / rnd D)).
Proof.
  intros [D1 D2] [X1 X2].
  pose proof (rnd_fuzz D ltac:(split; lra)) as Hd.
  pose proof (rnd_fuzz x ltac:(split; lra)) as Hx.
  unfold fuzz in Hd, Hx.
  assert (Hdpos : 0 < rnd D) by lra.
  pose proof (Qdiv_between (rnd x) (rnd D) (11 # 10) Hdpos ltac:(split; lra)) as Hq.
  split.
  - pose proof (rnd_fuzz (rnd x / rnd D) ltac:(split; lra)) as Hr. unfold fuzz in Hr.
    split; lra.
  - intros Hx0. apply (rnd_nonneg rnd rnd_rounding). apply Qdiv_nonneg; [exact Hdpos | ].
    apply (rnd_nonneg rnd rnd_rounding). exact Hx0.
Qed.

Lemma sixth (x : Q) : x / 6 == x * (1 # 6).
Proof. reflexivity. Qed.

Lemma rgbToHsl_fl_range (R G B : Z) :
  is_byte R -> is_byte G -> is_byte B ->
  let x := rgbToHsl_fl rnd (inject_Z R) (inject_Z G) (inject_Z B) in
  0 <= hsl_h x <= 2 /\ 0 <= hsl_l x <= 1 + (3 # 1000000000000000).
Proof.
  intros HR HG HB. unfold rgbToHsl_fl. cbv zeta.
  destruct (unit_channel R HR) as (_ & R0 & _).
  destruct (unit_channel G HG) as (_ & G0 & _).
  destruct (unit_channel B HB) as (_ & B0 & _).
  assert (R1 : rnd (inject_Z R / 255) <= 1 + fuzz)
    by (destruct (unit_channel R HR) as ([_ ?] & _ & [_ ?]); lra).
  assert (G1 : rnd (inject_Z G / 255) <= 1 + fuzz)
    by (destruct (unit_channel G HG) as ([_ ?] & _ & [_ ?]); lra).
  assert (B1 : rnd (inject_Z B / 255) <= 1 + fuzz)
    by (destruct (unit_channel B HB) as ([_ ?] & _ & [_ ?]); lra).
  pose proof (unit_channel_apart R G HR HG) as Arg.
  pose proof (unit_channel_apart G B HG HB) as Agb.
  set (r := rnd (inject_Z R / 255)) in *.
  set (g := rnd (inject_Z G / 255)) in *.
  set (b := rnd (inject_Z B / 255)) in *.
  clearbody r g b.
  assert (HM : r <= Math_max3 r g b /\ g <= Math_max3 r g b /\ b <= Math_max3 r g b
               /\ Math_max3 r g b <= 1 + fuzz).
  { unfold Math_max3.
    pose proof (Q.le_max_l r (Qmax g b)). pose proof (Q.le_max_r r (Qmax g b)).
    pose proof (Q.le_max_l g b). pose proof (Q.le_max_r g b).
    assert (Qmax g b <= 1 + fuzz) by (apply Q.max_lub; assumption).
    assert (Qmax r (Qmax g b) <= 1 + fuzz) by (apply Q.max_lub; assumption).
    repeat split; lra. }
  assert (Hm : Math_min3 r g b <= r /\ Math_min3 r g b <= g /\ Math_min3 r g b <= b
               /\ 0 <= Math_min3 r g b).
  { unfold Math_min3.
    pose proof (Q.le_min_l r (Qmin g b)). pose proof (Q.le_min_r r (Qmin g b)).
    pose proof (Q.le_min_l g b). pose proof (Q.le_min_r g b).
    assert (0 <= Qmin g b) by (apply Q.min_glb; assumption).
    assert (0 <= Qmin r (Qmin g b)) by (apply Q.min_glb; assumption).
    repeat split; lra. }
  set (M := Math_max3 r g b) in *. set (m := Math_min3 r g b) in *.
  destruct HM as (M1 & M2 & M3 & M4). destruct Hm as (m1 & m2 & m3 & m4).
  unfold fuzz in *.
  assert (Hl : 0 <= rnd (rnd (M + m) / 2) <= 1 + (3 # 1000000000000000)).
  { pose proof (rnd_fuzz (M + m) ltac:(split; lra)) as H1. unfold fuzz in H1.
    assert (E : rnd (M + m) / 2 == rnd (M + m) * (1 # 2)) by reflexivity.
    pose proof (rnd_nonneg rnd rnd_rounding (M + m) ltac:(lra)) as H2.
    pose proof (rnd_fuzz (rnd (M + m) / 2) ltac:(split; lra)) as H3. unfold fuzz in H3.
    split; [apply (rnd_nonneg rnd rnd_rounding); lra | lra]. }
  destruct (Qeq_bool M m) eqn:EMm; cbn [negb hsl_h hsl_l].
  { split; [split; lra | exact Hl]. }
  split; [ | exact Hl].
  apply Qeq_bool_neq in EMm.
  assert (HD : (1 # 300) <= M - m <= 2).
  { split; [ | lra].
    destruct Arg as [Erg | [Arg | Arg]]; [ | lra | lra].
    destruct Agb as [Egb | [Agb | Agb]]; [ | lra | lra].
    exfalso. apply EMm.
    assert (M <= r).
    { unfold M, Math_max3. apply Q.max_lub; [lra | apply Q.max_lub; lra]. }
    assert (r <= m).
    { unfold m, Math_min3. apply Q.min_glb; [lra | apply Q.min_glb; lra]. }
    lra. }
  set (d := rnd (M - m)).
  destruct (hue_ratio (g - b) (M - m) HD ltac:(split; lra)) as [Hgb1 Hgb2].
  destruct (hue_ratio (b - r) (M - m) HD ltac:(split; lra)) as [Hbr1 Hbr2].
  destruct (hue_ratio (r - g) (M - m) HD ltac:(split; lra)) as [Hrg1 Hrg2].
  fold d in Hgb1, Hgb2, Hbr1, Hbr2, Hrg1, Hrg2.
  set (h := if Qeq_bool M r
            then rnd (rnd (rnd (g - b) / d) + (if Qltb g b then 6 else 0))
            else if Qeq_bool M g then rnd (rnd (rnd (b - r) / d) + 2)
            else if Qeq_bool M b then rnd (rnd (rnd (r - g) / d) + 4) else 0).
  assert (Hh : 0 <= h <= 8 - (1 # 2)).
  { unfold h. destruct (Qeq_bool M r).
    - destruct (Qltb g b) eqn:Egb.
      + pose proof (rnd_fuzz (rnd (rnd (g - b) / d) + 6) ltac:(split; lra)) as H.
        unfold fuzz in H. split; lra.
      + apply Qltb_ge in Egb. specialize (Hgb2 ltac:(lra)).
        pose proof (rnd_fuzz (rnd (rnd (g - b) / d) + 0) ltac:(split; lra)) as H.
        unfold fuzz in H.
        split; [apply (rnd_nonneg rnd rnd_rounding); lra | lra].
    - destruct (Qeq_bool M g).
      + pose proof (rnd_fuzz (rnd (rnd (b - r) / d) + 2) ltac:(split; lra)) as H.
        unfold fuzz in H. split; lra.
      + destruct (Qeq_bool M b); [ | split; lra].
        pose proof (rnd_fuzz (rnd (rnd (r - g) / d) + 4) ltac:(split; lra)) as H.
        unfold fuzz in H. split; lra. }
  clearbody h. pose proof (sixth h) as E6.
  pose proof (rnd_fuzz (h / 6) ltac:(split; lra)) as H. unfold fuzz in H.
  split; [apply (rnd_nonneg rnd rnd_rounding); lra | lra].
Qed.

(** A blend [p + w * (q - p)] with a weight that may exceed 1 by [e]. *)
Lemma blend_between (p q w lo hi e : Q) :
  lo <= p <= hi -> lo <= q <= hi -> hi - lo <= 2 -> 0 <= e -> 0 <= w <= 1 + e ->
  lo - 2 * e <= p + w * (q - p) <= hi + 2 * e.
Proof.
  intros [P1 P2] [Q1 Q2] Hspan He [W1 W2].
  destruct (Qlt_le_dec 1 w) as [Hw | Hw].
  - assert (E : p + w * (q - p) == q + (w - 1) * (q - p)) by ring.
    pose proof (product_bound (w - 1) (q - p) e 2 ltac:(split; lra) ltac:(split; lra)).
    split; lra.
  - assert (E1 : p + w * (q - p) - lo == (1 - w) * (p - lo) + w * (q - lo)) by ring.
    assert (E2 : hi - (p + w * (q - p)) == (1 - w) * (hi - p) + w * (hi - q)) by ring.
    assert (0 <= (1 - w) * (p - lo)) by (apply Qmult_le_0_compat; lra).
    assert (0 <= w * (q - lo)) by (apply Qmult_le_0_compat; lra).
    assert (0 <= (1 - w) * (hi - p)) by (apply Qmult_le_0_compat; lra).
    assert (0 <= w * (hi - q)) by (apply Qmult_le_0_compat; lra).
    split; lra.
Qed.

Definition unit_slack : Q := 100 # 1000000000000000.

Lemma hue2rgb_fl_range (p q t lo hi : Q) :
  lo <= p <= hi -> lo <= q <= hi -> - (1 # 100) <= lo -> hi <= 1 + (1 # 100) ->
  - (1) <= t <= 4 ->
  lo - unit_slack <= hue2rgb_fl rnd p q t <= hi + unit_slack.
Proof.
  intros Hp Hq Hlo Hhi Ht. unfold hue2rgb_fl. cbv zeta. unfold unit_slack.
  set (t1 := if Qltb t 0 then rnd (t + 1) else t).
  assert (Ht1 : 0 <= t1 <= 4).
  { unfold t1. destruct (Qltb t 0) eqn:E; [apply Qltb_lt in E | apply Qltb_ge in E].
    - pose proof (rnd_fuzz (t + 1) ltac:(split; lra)) as H. unfold fuzz in H.
      split; [apply (rnd_nonneg rnd rnd_rounding); lra | lra].
    - lra. }
  clearbody t1.
  set (t2 := if Qltb 1 t1 then rnd (t1 - 1) else t1).
  assert (Ht2 : 0 <= t2 <= 4).
  { unfold t2. destruct (Qltb 1 t1) eqn:E; [apply Qltb_lt in E | apply Qltb_ge in E].
    - pose proof (rnd_fuzz (t1 - 1) ltac:(split; lra)) as H. unfold fuzz in H.
      split; [apply (rnd_nonneg rnd rnd_rounding); lra | lra].
    - lra. }
  clearbody t2.
  assert (E6 : 1 / 6 == 1 # 6) by reflexivity.
  assert (E2 : 1 / 2 == 1 # 2) by reflexivity.
  assert (E3 : 2 / 3 == 2 # 3) by reflexivity.
  pose proof (rnd_fuzz (1 / 6) ltac:(split; lra)) as H6.
  pose proof (rnd_fuzz (1 / 2) ltac:(split; lra)) as H2.
  pose proof (rnd_fuzz (2 / 3) ltac:(split; lra)) as H3.
  pose proof (rnd_fuzz (q - p) ltac:(split; lra)) as Ha.
  unfold fuzz in *.
  set (a := rnd (q - p)) in *.
  destruct (Qltb t2 (rnd (1 / 6))) eqn:EA.
  { apply Qltb_lt in EA.
    pose proof (rnd_fuzz (a * 6) ltac:(split; lra)) as Hb. unfold fuzz in Hb.
    set (b := rnd (a * 6)) in *.
    pose proof (product_bound b t2 7 (1 # 5) ltac:(split; lra) ltac:(split; lra)) as Pb.
    pose proof (rnd_fuzz (b * t2) ltac:(split; lra)) as Hc. unfold fuzz in Hc.
    set (c := rnd (b * t2)) in *.
    pose proof (product_bound (b - 6 * (q - p)) t2 (7 # 1000000000000000) (1 # 5)
                  ltac:(split; lra) ltac:(split; lra)) as Pd.
    pose proof (blend_between p q (6 * t2) lo hi (7 # 1000000000000000) Hp Hq
                  ltac:(lra) ltac:(lra) ltac:(split; lra)) as HV.
    pose proof (rnd_fuzz (p + c) ltac:(split; lra)) as Hr. unfold fuzz in Hr.
    split; lra. }
  destruct (Qltb t2 (rnd (1 / 2))) eqn:EB; [lra | ].
  apply Qltb_ge in EB.
  destruct (Qltb t2 (rnd (2 / 3))) eqn:EC; [ | lra].
  apply Qltb_lt in EC.
  pose proof (rnd_fuzz (rnd (2 / 3) - t2) ltac:(split; lra)) as Hz. unfold fuzz in Hz.
  pose proof (rnd_nonneg rnd rnd_rounding (rnd (2 / 3) - t2) ltac:(lra)) as Hz0.
  set (z := rnd (rnd (2 / 3) - t2)) in *.
  pose proof (product_bound a z 2 (1 # 5) ltac:(split; lra) ltac:(split; lra)) as Pa.
  pose proof (rnd_fuzz (a * z) ltac:(split; lra)) as Hb. unfold fuzz in Hb.
  set (b := rnd (a * z)) in *.
  pose proof (rnd_fuzz (b * 6) ltac:(split; lra)) as Hc. unfold fuzz in Hc.
  set (c := rnd (b * 6)) in *.
  pose proof (product_bound (a - (q - p)) z (1 # 1000000000000000) (1 # 5)
                ltac:(split; lra) ltac:(split; lra)) as Pd.
  pose proof (blend_between p q (6 * z) lo hi (20 # 1000000000000000) Hp Hq
                ltac:(lra) ltac:(lra) ltac:(split; lra)) as HV.
  pose proof (rnd_fuzz (p + c) ltac:(split; lra)) as Hr. unfold fuzz in Hr.
  split; lra.
Qed.

Definition in_unit (x : Q) : Prop :=
  - (200 # 1000000000000000) <= x <= 1 + (200 # 1000000000000000).

Lemma hslToRgb_unit_fl_range (h s l : Q) :
  0 <= h <= 2 -> 0 <= s <= 1 -> 0 <= l <= 1 + (3 # 1000000000000000) ->
  let c := hslToRgb_unit_fl rnd h s l in
  in_unit c.1.1 /\ in_unit c.1.2 /\ in_unit c.2.
Proof.
  intros Hh Hs Hl. unfold hslToRgb_unit_fl. cbv zeta. unfold in_unit.
  destruct (Qeq_bool s 0); cbn [fst snd]; [repeat split; lra | ].
  set (q := if Qltb l 0.5 then rnd (l * rnd (1 + s))
            else rnd (rnd (l + s) - rnd (l * s))).
  set (p := rnd (rnd (2 * l) - q)).
  assert (Hpq : (- (20 # 1000000000000000) <= q <= 1 + (20 # 1000000000000000)) /\
                (- (20 # 1000000000000000) <= p <= 1 + (20 # 1000000000000000))).
  { pose proof (rnd_fuzz (2 * l) ltac:(split; lra)) as H2l. unfold fuzz in H2l.
    unfold p, q. clear p q.
    destruct (Qltb l 0.5) eqn:E; [apply Qltb_lt in E | apply Qltb_ge in E].
    - pose proof (rnd_fuzz (1 + s) ltac:(split; lra)) as H1. unfold fuzz in H1.
      set (a := rnd (1 + s)) in *.
      assert (Hla : l * (1 + s) - (1 # 1000000000000000)
                    <= l * a <= l * (1 + s) + (1 # 1000000000000000)).
      { pose proof (product_bound l (a - (1 + s)) 1 (1 # 1000000000000000)
                      ltac:(split; lra) ltac:(split; lra)). split; lra. }
      assert (Hls : 0 <= l * s <= l) by (split; nra).
      pose proof (rnd_fuzz (l * a) ltac:(split; lra)) as Hq. unfold fuzz in Hq.
      set (q := rnd (l * a)) in *.
      pose proof (rnd_fuzz (rnd (2 * l) - q) ltac:(split; lra)) as Hp. unfold fuzz in Hp.
      split; split; lra.
    - pose proof (rnd_fuzz (l + s) ltac:(split; lra)) as H1. unfold fuzz in H1.
      assert (Hls : 0 <= l * s <= l) by (split; nra).
      assert (Hls2 : l * s <= s + (3 # 1000000000000000)).
      { pose proof (product_bound (l - 1) s 1 1 ltac:(split; lra) ltac:(split; lra)).
        assert (0 <= (1 + (3 # 1000000000000000) - l) * s)
          by (apply Qmult_le_0_compat; lra).
        lra. }
      pose proof (rnd_fuzz (l * s) ltac:(split; lra)) as H2. unfold fuzz in H2.
      pose proof (rnd_fuzz (rnd (l + s) - rnd (l * s)) ltac:(split; lra)) as Hq.
      unfold fuzz in Hq.
      set (q := rnd (rnd (l + s) - rnd (l * s))) in *.
      assert (Hs1 : 0 <= (1 - l) * s <= 1 - l \/ 0 <= (l - 1) * s <= 3 # 1000000000000000).
      { destruct (Qlt_le_dec l 1); [left | right].
        - assert (0 <= (1 - l) * (1 - s)) by (apply Qmult_le_0_compat; lra).
          assert (0 <= (1 - l) * s) by (apply Qmult_le_0_compat; lra). split; lra.
        - assert (0 <= (l - 1) * s) by (apply Qmult_le_0_compat; lra). split; lra. }
      pose proof (rnd_fuzz (rnd (2 * l) - q) ltac:(split; lra)) as Hp. unfold fuzz in Hp.
      destruct Hs1 as [Hs1 | Hs1]; split; split; lra. }
  destruct Hpq as [Hq Hp]. clearbody p q.
  pose proof (rnd_fuzz (1 / 3) ltac:(split; [ | ]; apply Qle_bool_iff; reflexivity)) as H3.
  assert (E3 : 1 / 3 == 1 # 3) by reflexivity. unfold fuzz in H3.
  pose proof (rnd_fuzz (h + rnd (1 / 3)) ltac:(split; lra)) as Ha. unfold fuzz in Ha.
  pose proof (rnd_fuzz (h - rnd (1 / 3)) ltac:(split; lra)) as Hb. unfold fuzz in Hb.
  pose proof (hue2rgb_fl_range p q (rnd (h + rnd (1 / 3))) _ _ Hp Hq
                ltac:(lra) ltac:(lra) ltac:(split; lra)) as C1.
  pose proof (hue2rgb_fl_range p q h _ _ Hp Hq
                ltac:(lra) ltac:(lra) ltac:(split; lra)) as C2.
  pose proof (hue2rgb_fl_range p q (rnd (h - rnd (1 / 3))) _ _ Hp Hq
                ltac:(lra) ltac:(lra) ltac:(split; lra)) as C3.
  unfold unit_slack in C1, C2, C3.
  split; [ | split]; split; lra.
Qed.

Lemma Math_round_unit (x : Q) : in_unit x -> is_byte (Math_round (rnd (x * 255))).
Proof.
  unfold in_unit. intros [H1 H2].
  pose proof (rnd_within rnd rnd_rounding (x * 255) 256 ltac:(split; lra)) as Hr.
  pose proof eta_small. pose proof eta_pos. unfold u in Hr.
  unfold Math_round, is_byte.
  pose proof (Qfloor_le (rnd (x * 255) + (1 # 2))) as F1.
  pose proof (Qlt_floor (rnd (x * 255) + (1 # 2))) as F2.
  rewrite inject_Z_plus in F2. change (inject_Z 1) with 1 in F2.
  set (k := Qfloor (rnd (x * 255) + (1 # 2))) in *.
  assert (A : inject_Z k < inject_Z 256) by (change (inject_Z 256) with 256; lra).
  assert (B : inject_Z (- 1) < inject_Z k) by (change (inject_Z (-1)) with (-1); lra).
  rewrite <- Zlt_Qlt in A, B. lia.
Qed.

Lemma clamp01_unit (v : Q) : 0 <= clamp01 v <= 1.
Proof.
  unfold clamp01, Math_max, Math_min. split.
  - apply Q.le_max_l.
  - apply Q.max_lub; [lra | apply Q.le_min_l].
Qed.

(** The boosted colour is a colour, whatever the boost. *)
Lemma boosted_fl_color (satBoost : Q) (r g b : Z) :
  is_byte r -> is_byte g -> is_byte b -> is_color (boosted_fl rnd satBoost r g b).
Proof.
  intros Hr Hg Hb. unfold boosted_fl. cbv zeta.
  destruct (rgbToHsl_fl_range r g b Hr Hg Hb) as [Hh Hl]. cbv zeta in Hh, Hl.
  set (x := rgbToHsl_fl rnd (inject_Z r) (inject_Z g) (inject_Z b)) in *.
  set (s2 := clamp01 (rnd (hsl_s x + rnd (satBoost * rnd (1 - hsl_s x))))).
  pose proof (clamp01_unit (rnd (hsl_s x + rnd (satBoost * rnd (1 - hsl_s x))))) as Hs.
  fold s2 in Hs.
  destruct (hslToRgb_unit_fl_range (hsl_h x) s2 (hsl_l x) Hh Hs Hl) as (C1 & C2 & C3).
  unfold hslToRgb_fl. destruct (hslToRgb_unit_fl rnd (hsl_h x) s2 (hsl_l x)) as [[cr cg] cb].
  cbn [fst snd] in C1, C2, C3. unfold is_color. cbn [rgb_r rgb_g rgb_b].
  split; [ | split]; apply Math_round_unit; assumption.
Qed.

End DoubleColorFacts.

Section DoublePosterFacts.

Variable rnd : Q -> Q.
Hypothesis rnd_rounding : rounding rnd.

Lemma posterize_pixel_fl_puts (step satBoost : Q) (d : list Z) (i : nat) :
  posterize_pixel_fl rnd step satBoost d i
  = let c := boosted_fl rnd satBoost (d !!! i) (d !!! (i + 1)%nat) (d !!! (i + 2)%nat) in
    put (put (put (put d i (quantize_fl rnd step (rgb_r c)))
                (i + 1) (quantize_fl rnd step (rgb_g c)))
           (i + 2) (quantize_fl rnd step (rgb_b c)))
        (i + 3) (inject_Z (d !!! (i + 3)%nat)).
Proof. reflexivity. Qed.

Lemma posterize_pixel_fl_length (step satBoost : Q) (d : list Z) (i : nat) :
  length (posterize_pixel_fl rnd step satBoost d i) = length d.
Proof. rewrite posterize_pixel_fl_puts. cbv zeta. rewrite !put_length. reflexivity. Qed.

Lemma posterize_pixel_fl_frame (step satBoost : Q) (d : list Z) (i j : nat) :
  (j < i \/ i + 4 <= j)%nat -> posterize_pixel_fl rnd step satBoost d i !! j = d !! j.
Proof.
  intros H. rewrite posterize_pixel_fl_puts. cbv zeta.
  rewrite !put_lookup. repeat case_decide; try lia. reflexivity.
Qed.

Lemma posterize_pixel_fl_local (step satBoost : Q) (d d' : list Z) (i j : nat) :
  length d = length d' ->
  (forall k, (i <= k < i + 4)%nat -> d !! k = d' !! k) ->
  (i <= j < i + 4)%nat ->
  posterize_pixel_fl rnd step satBoost d i !! j
  = posterize_pixel_fl rnd step satBoost d' i !! j.
Proof.
  intros Hlen Hsame Hj. rewrite !posterize_pixel_fl_puts. cbv zeta.
  rewrite (lookup_total_ext d d' i) by (apply Hsame; lia).
  rewrite (lookup_total_ext d d' (i + 1)) by (apply Hsame; lia).
  rewrite (lookup_total_ext d d' (i + 2)) by (apply Hsame; lia).
  rewrite (lookup_total_ext d d' (i + 3)) by (apply Hsame; lia).
  rewrite !put_lookup, !put_length, Hlen.
  repeat case_decide; try reflexivity; try lia. apply Hsame. lia.
Qed.

Lemma posterize_data_fl_loop (d : list Z) (levels : Z) (satBoost : Q) :
  posterize_data_fl rnd d levels satBoost
  = pixel_loop (posterize_pixel_fl rnd (posterize_step_fl rnd levels) satBoost)
      ((length d + 3) / 4) d.
Proof. reflexivity. Qed.

Lemma posterize_data_fl_length (d : list Z) (levels : Z) (satBoost : Q) :
  length (posterize_data_fl rnd d levels satBoost) = length d.
Proof.
  rewrite posterize_data_fl_loop. apply pixel_loop_length.
  apply posterize_pixel_fl_length.
Qed.

(** Byte [c] of pixel [k] after the call, from the bytes of pixel [k] before. *)
Lemma posterize_data_fl_lookup (d : list Z) (levels : Z) (satBoost : Q) (k c : nat) :
  (4 * k + 3 < length d)%nat -> (c < 4)%nat ->
  posterize_data_fl rnd d levels satBoost !! (4 * k + c)%nat
  = let col := boosted_fl rnd satBoost
                 (d !!! (4 * k)%nat) (d !!! (4 * k + 1)%nat) (d !!! (4 * k + 2)%nat) in
    let step := posterize_step_fl rnd levels in
    Some (toUint8Clamp
            match c with
            | 0%nat => quantize_fl rnd step (rgb_r col)
            | 1%nat => quantize_fl rnd step (rgb_g col)
            | 2%nat => quantize_fl rnd step (rgb_b col)
            | _ => inject_Z (d !!! (4 * k + 3)%nat)
            end).
Proof.
  intros Hk Hc. rewrite posterize_data_fl_loop.
  rewrite pixel_loop_lookup
    by eauto using posterize_pixel_fl_length, posterize_pixel_fl_frame,
         posterize_pixel_fl_local.
  assert (Hn : (4 * k + c < 4 * ((length d + 3) / 4))%nat).
  { pose proof (Nat.div_mod_eq (length d + 3) 4).
    pose proof (Nat.mod_upper_bound (length d + 3) 4). lia. }
  destruct (decide (4 * k + c < 4 * ((length d + 3) / 4))%nat); [ | lia].
  assert (Hq : ((4 * k + c) / 4 = k)%nat).
  { symmetry. apply (Nat.div_unique (4 * k + c) 4 k c); lia. }
  rewrite Hq, posterize_pixel_fl_puts. cbv zeta.
  rewrite !put_lookup, !put_length.
  destruct c as [ | [ | [ | [ | c]]]]; try lia;
    repeat case_decide; try lia; reflexivity.
Qed.

(** *** Rounding to a byte *)

Lemma Qfloor_between (y : Q) (k : Z) :
  inject_Z k <= y -> y < inject_Z k + 1 -> Qfloor y = k.
Proof.
  intros H1 H2. pose proof (Qfloor_le y) as F1. pose proof (Qlt_floor y) as F2.
  rewrite inject_Z_plus in F2. change (inject_Z 1) with 1 in F2.
  assert (A : inject_Z (Qfloor y) < inject_Z (k + 1)).
  { rewrite inject_Z_plus. change (inject_Z 1) with 1. lra. }
  assert (B : inject_Z k < inject_Z (Qfloor y + 1)).
  { rewrite inject_Z_plus. change (inject_Z 1) with 1. lra. }
  rewrite <- Zlt_Qlt in A, B. lia.
Qed.

Lemma toUint8Clamp_within (y : Q) :
  - (1 # 2) <= y <= 255 + (1 # 2) ->
  y - (1 # 2) <= inject_Z (toUint8Clamp y) <= y + (1 # 2).
Proof.
  intros [H1 H2]. unfold toUint8Clamp.
  destruct (Qle_bool y 0) eqn:E0.
  { apply Qle_bool_iff in E0. change (inject_Z 0) with 0. split; lra. }
  destruct (Qle_bool 255 y) eqn:E1.
  { apply Qle_bool_iff in E1. change (inject_Z 255) with 255. split; lra. }
  cbv zeta.
  pose proof (Qfloor_le y) as F1. pose proof (Qlt_floor y) as F2.
  rewrite inject_Z_plus in F2. change (inject_Z 1) with 1 in F2.
  destruct (Qltb (y - inject_Z (Qfloor y)) 0.5) eqn:A.
  - apply Qltb_lt in A. split; lra.
  - apply Qltb_ge in A.
    assert (Hup : y - (1 # 2) <= inject_Z (Qfloor y + 1) <= y + (1 # 2)).
    { rewrite inject_Z_plus. change (inject_Z 1) with 1. split; lra. }
    destruct (Qltb 0.5 (y - inject_Z (Qfloor y))) eqn:B; [exact Hup | ].
    apply Qltb_ge in B.
    destruct (Z.even (Qfloor y)); [split; lra | exact Hup].
Qed.

Lemma toUint8Clamp_at (y : Q) (z : Z) :
  is_byte z -> inject_Z z - (1 # 2) < y < inject_Z z + (1 # 2) ->
  toUint8Clamp y = z.
Proof.
  intros [Z0 Z1] [H1 H2].
  assert (B0 : 0 <= inject_Z z) by (change 0 with (inject_Z 0); rewrite <- Zle_Qle; lia).
  assert (B1 : inject_Z z <= 255)
    by (change 255 with (inject_Z 255); rewrite <- Zle_Qle; lia).
  assert (Hint : forall a b : Z, inject_Z a < inject_Z b + 1 -> (a <= b)%Z).
  { intros a b H. change 1 with (inject_Z 1) in H. rewrite <- inject_Z_plus in H.
    rewrite <- Zlt_Qlt in H. lia. }
  unfold toUint8Clamp.
  destruct (Qle_bool y 0) eqn:E0.
  { apply Qle_bool_iff in E0. specialize (Hint z 0%Z). change (inject_Z 0) with 0 in Hint.
    assert (z <= 0)%Z by (apply Hint; lra). lia. }
  destruct (Qle_bool 255 y) eqn:E1.
  { apply Qle_bool_iff in E1. specialize (Hint 255%Z z).
    change (inject_Z 255) with 255 in Hint.
    assert (255 <= z)%Z by (apply Hint; lra). lia. }
  cbv zeta.
  destruct (Qlt_le_dec y (inject_Z z)) as [Hlt | Hge].
  - assert (Ef : Qfloor y = (z - 1)%Z).
    { apply Qfloor_between; unfold Zminus; rewrite inject_Z_plus;
        change (inject_Z (- (1))) with (-1); lra. }
    rewrite Ef. unfold Zminus. rewrite inject_Z_plus. change (inject_Z (- (1))) with (-1).
    assert (A : Qltb (y - (inject_Z z + -1)) 0.5 = false) by (apply Qltb_ge; lra).
    assert (B : Qltb 0.5 (y - (inject_Z z + -1)) = true) by (apply Qltb_lt; lra).
    rewrite A, B. lia.
  - assert (Ef : Qfloor y = z) by (apply Qfloor_between; lra).
    rewrite Ef.
    assert (A : Qltb (y - inject_Z z) 0.5 = true) by (apply Qltb_lt; lra).
    rewrite A. reflexivity.
Qed.

(** If an integer is within a little more than 1/2 of a fraction of
    denominator [n], it is within 1/2 of it. *)
Lemma half_granular (b K n : Z) (s t : Q) :
  (0 < n)%Z -> s * inject_Z n == 255 -> 0 <= t -> inject_Z n * t <= 1 # 4 ->
  inject_Z K * s - ((1 # 2) + t) <= inject_Z b <= inject_Z K * s + ((1 # 2) + t) ->
  inject_Z K * s - (1 # 2) <= inject_Z b <= inject_Z K * s + (1 # 2).
Proof.
  intros Hn Hs Ht Hnt [H1 H2].
  assert (HN : 0 < inject_Z n) by (change 0 with (inject_Z 0); rewrite <- Zlt_Qlt; lia).
  set (N := inject_Z n) in *.
  assert (E : (inject_Z b - inject_Z K * s) * N
              == inject_Z (b * n - 255 * K)).
  { unfold Zminus. rewrite inject_Z_plus, inject_Z_opp, !inject_Z_mult. fold N.
    change (inject_Z 255) with 255.
    assert (X : (inject_Z b - inject_Z K * s) * N == inject_Z b * N - inject_Z K * (s * N))
      by ring.
    rewrite X, Hs. ring. }
  set (D := (b * n - 255 * K)%Z) in *.
  assert (D1 : inject_Z (2 * D) < inject_Z (n + 1)).
  { rewrite inject_Z_mult, inject_Z_plus. change (inject_Z 2) with 2.
    change (inject_Z 1) with 1. fold N. rewrite <- E. nra. }
  assert (D2 : inject_Z (- (n + 1)) < inject_Z (2 * D)).
  { rewrite inject_Z_opp, inject_Z_mult, inject_Z_plus. change (inject_Z 2) with 2.
    change (inject_Z 1) with 1. fold N. rewrite <- E. nra. }
  rewrite <- Zlt_Qlt in D1, D2.
  assert (D3 : (- n <= 2 * D <= n)%Z) by lia.
  destruct D3 as [D3 D4]. rewrite Zle_Qle in D3, D4.
  rewrite inject_Z_opp in D3. rewrite inject_Z_mult in D3, D4.
  change (inject_Z 2) with 2 in D3, D4. fold N in D3, D4. rewrite <- E in D3, D4.
  split; nra.
Qed.

(** *** The step and the stored multiples *)

(** What is stored for the multiple of index [K]. *)
Definition stored_fl (step : Q) (K : Z) : Z := toUint8Clamp (rnd (inject_Z K * step)).

Definition poster_step_error : Q := 2 # 100000000000000.

Lemma posterize_step_fl_near (levels : Z) :
  (Z.max 2 (levels - 1) <= 255)%Z ->
  let s := posterize_step_size levels in
  let s' := posterize_step_fl rnd levels in
  1 <= s <= 255 # 2 /\ s - poster_step_error <= s' <= s + poster_step_error.
Proof.
  intros Hn s s'.
  destruct (posterize_step_size_spec levels) as (Hn2 & Hs & Hpos). fold s in Hs, Hpos.
  assert (HN : inject_Z (Z.max 2 (levels - 1)) <= 255).
  { change 255 with (inject_Z 255). rewrite <- Zle_Qle. exact Hn. }
  pose proof (rnd_within rnd rnd_rounding s 128) as Hr.
  change (rnd s) with s' in Hr.
  set (N := inject_Z (Z.max 2 (levels - 1))) in *.
  assert (Hn2' : 2 <= N) by exact Hn2.
  clearbody s' s N.
  assert (Hs1 : 1 <= s).
  { clear Hr. assert (0 <= s * (255 - N)) by (apply Qmult_le_0_compat; lra). lra. }
  assert (Hs2 : s <= 255 # 2).
  { clear Hr. assert (0 <= s * (N - 2)) by (apply Qmult_le_0_compat; lra). lra. }
  split; [split; assumption | ].
  specialize (Hr ltac:(split; lra)).
  pose proof eta_small. pose proof eta_pos. unfold u in Hr. unfold poster_step_error. split; lra.
Qed.

Definition store_error : Q := 1 # 100000000000.

(** The product [K * step] of the code against the exact multiple. *)
Lemma multiple_fl_near (levels K : Z) :
  (Z.max 2 (levels - 1) <= 255)%Z -> (0 <= K <= Z.max 2 (levels - 1))%Z ->
  let s := posterize_step_size levels in
  let s' := posterize_step_fl rnd levels in
  0 <= inject_Z K * s <= 255 /\
  inject_Z K * s - store_error <= rnd (inject_Z K * s') <= inject_Z K * s + store_error.
Proof.
  intros Hn HK s s'.
  destruct (posterize_step_fl_near levels Hn) as ([Hs1 Hs2] & [Hs3 Hs4]).
  destruct (posterize_step_size_spec levels) as (Hn2 & Hs & Hpos).
  fold s in Hs1, Hs2, Hs3, Hs4, Hs, Hpos. fold s' in Hs3, Hs4.
  assert (HK0 : 0 <= inject_Z K) by (change 0 with (inject_Z 0); rewrite <- Zle_Qle; lia).
  assert (HK1 : inject_Z K <= inject_Z (Z.max 2 (levels - 1))) by (rewrite <- Zle_Qle; lia).
  assert (HN : inject_Z (Z.max 2 (levels - 1)) <= 255).
  { change 255 with (inject_Z 255). rewrite <- Zle_Qle. exact Hn. }
  set (N := inject_Z (Z.max 2 (levels - 1))) in *. set (k := inject_Z K) in *.
  assert (Hks : 0 <= k * s <= 255) by (split; nra).
  split; [exact Hks | ].
  assert (Hd : k * s - 255 * poster_step_error <= k * s' <= k * s + 255 * poster_step_error).
  { pose proof (product_bound k (s' - s) 255 poster_step_error ltac:(split; lra)
                  ltac:(split; lra)). split; lra. }
  pose proof (rnd_within rnd rnd_rounding (k * s') 256) as Hr.
  unfold poster_step_error in Hd.
  specialize (Hr ltac:(split; lra)).
  pose proof eta_small. pose proof eta_pos. unfold u in Hr. unfold store_error. split; lra.
Qed.

Lemma stored_fl_near (levels K : Z) :
  (Z.max 2 (levels - 1) <= 255)%Z -> (0 <= K <= Z.max 2 (levels - 1))%Z ->
  let s := posterize_step_size levels in
  inject_Z K * s - (1 # 2)
  <= inject_Z (stored_fl (posterize_step_fl rnd levels) K)
  <= inject_Z K * s + (1 # 2).
Proof.
  intros Hn HK s.
  destruct (multiple_fl_near levels K Hn HK) as (Hks & Hy). fold s in Hks, Hy.
  destruct (posterize_step_size_spec levels) as (Hn2 & Hs & Hpos). fold s in Hs.
  unfold stored_fl. set (y := rnd (inject_Z K * posterize_step_fl rnd levels)) in *.
  unfold store_error in Hy.
  pose proof (toUint8Clamp_within y ltac:(split; lra)) as Hb.
  assert (HN : inject_Z (Z.max 2 (levels - 1)) <= 255).
  { change 255 with (inject_Z 255). rewrite <- Zle_Qle. exact Hn. }
  apply (half_granular _ K (Z.max 2 (levels - 1)) s (1 # 100000000000));
    [lia | exact Hs | lra | lra | split; lra].
Qed.

Lemma stored_fl_clamped (levels K : Z) :
  (Z.max 2 (levels - 1) <= 255)%Z ->
  let s' := posterize_step_fl rnd levels in
  stored_fl s' K = stored_fl s' (Z.max 0 (Z.min (Z.max 2 (levels - 1)) K)).
Proof.
  intros Hn s'.
  destruct (posterize_step_fl_near levels Hn) as ([Hs1 Hs2] & [Hs3 Hs4]).
  destruct (posterize_step_size_spec levels) as (Hn2 & Hs & Hpos).
  fold s' in Hs3, Hs4. unfold poster_step_error in Hs3, Hs4.
  set (n := Z.max 2 (levels - 1)) in *. set (s := posterize_step_size levels) in *.
  assert (HK : (K < 0 \/ 0 <= K <= n \/ n < K)%Z) by lia.
  destruct HK as [HK | [HK | HK]].
  - replace (Z.max 0 (Z.min n K)) with 0%Z by lia.
    unfold stored_fl. rewrite !toUint8Clamp_low; [reflexivity | | ].
    + apply (rnd_nonpos rnd rnd_rounding). change (inject_Z 0) with 0. lra.
    + apply (rnd_nonpos rnd rnd_rounding).
      assert (inject_Z K <= 0) by (change 0 with (inject_Z 0); rewrite <- Zle_Qle; lia).
      nra.
  - replace (Z.max 0 (Z.min n K)) with K by lia. reflexivity.
  - replace (Z.max 0 (Z.min n K)) with n by lia.
    destruct (multiple_fl_near levels n Hn ltac:(lia)) as (_ & Hy).
    fold s s' in Hy. unfold store_error in Hy.
    unfold stored_fl.
    rewrite (toUint8Clamp_at (rnd (inject_Z n * s')) 255)
      by (unfold is_byte; try lia; change (inject_Z 255) with 255; split; lra).
    apply toUint8Clamp_high.
    assert (HKn : inject_Z n + 1 <= inject_Z K).
    { change 1 with (inject_Z 1). rewrite <- inject_Z_plus, <- Zle_Qle. lia. }
    assert (Hx : 255 + (1 # 2) <= inject_Z K * s') by nra.
    pose proof (rnd_rounding (inject_Z K * s')) as (Herr & _ & _).
    apply Qabs_Qle_condition in Herr.
    assert (Habs : Qabs (inject_Z K * s') == inject_Z K * s') by (apply Qabs_pos; lra).
    pose proof eta_small. pose proof eta_pos.
    destruct (Q.max_spec (u * Qabs (inject_Z K * s')) eta) as [[_ Em] | [_ Em]].
    + lra.
    + assert (Eu : u * Qabs (inject_Z K * s') == u * (inject_Z K * s'))
        by (rewrite Habs; reflexivity).
      unfold u in *. lra.
Qed.

(** The index of the multiple is the exact one: [v / step] is a fraction
    of denominator 255 and cannot be near a tie. *)
Lemma index_fl_exact (levels v : Z) :
  (Z.max 2 (levels - 1) <= 255)%Z -> is_byte v ->
  index_fl rnd (posterize_step_fl rnd levels) v
    = Math_round (inject_Z v / posterize_step_size levels) /\
  (0 <= Math_round (inject_Z v / posterize_step_size levels)
     <= Z.max 2 (levels - 1))%Z.
Proof.
  intros Hn [Hv0 Hv1].
  destruct (posterize_step_fl_near levels Hn) as ([Hs1 Hs2] & [Hs3 Hs4]).
  destruct (posterize_step_size_spec levels) as (Hn2 & Hs & Hpos).
  unfold poster_step_error in Hs3, Hs4. unfold index_fl, Math_round.
  set (n := Z.max 2 (levels - 1)) in *.
  set (s := posterize_step_size levels) in *.
  set (s' := posterize_step_fl rnd levels) in *.
  assert (HV0 : 0 <= inject_Z v) by (change 0 with (inject_Z 0); rewrite <- Zle_Qle; lia).
  assert (HV1 : inject_Z v <= 255)
    by (change 255 with (inject_Z 255); rewrite <- Zle_Qle; lia).
  assert (HN : inject_Z n <= 255)
    by (change 255 with (inject_Z 255); rewrite <- Zle_Qle; lia).
  set (x := inject_Z v / s). set (x' := inject_Z v / s').
  assert (Ex : x * s == inject_Z v) by (unfold x; field; lra).
  assert (Ex' : x' * s' == inject_Z v) by (unfold x'; field; lra).
  (* [x + 1/2] is an odd number of 510ths *)
  set (m := (2 * (v * n) + 255)%Z).
  assert (Em : (x + (1 # 2)) * 510 == inject_Z m).
  { unfold m. rewrite inject_Z_plus, !inject_Z_mult.
    change (inject_Z 2) with 2. change (inject_Z 255) with 255.
    assert (X : x * 255 == inject_Z v * inject_Z n).
    { rewrite <- Ex, <- Hs. ring. }
    assert (Y : (x + (1 # 2)) * 510 == 2 * (x * 255) + 255) by ring.
    rewrite Y, X. reflexivity. }
  set (k := (m / 510)%Z).
  assert (Hk : (510 * k + 1 <= m <= 510 * k + 509)%Z).
  { unfold k. pose proof (Z.div_mod m 510 ltac:(lia)).
    pose proof (Z.mod_pos_bound m 510 ltac:(lia)).
    assert (m mod 510 <> 0)%Z.
    { intros E0. assert (Hodd : (m mod 2 = 1)%Z).
      { unfold m. rewrite Z.add_comm, Z.mul_comm, Z.mod_add by lia. reflexivity. }
      rewrite E0 in H. rewrite H in Hodd.
      replace (510 * (m / 510) + 0)%Z with (255 * (m / 510) * 2)%Z in Hodd by lia.
      rewrite Z.mod_mul in Hodd by lia. discriminate. }
    lia. }
  destruct Hk as [Hk1 Hk2]. rewrite Zle_Qle in Hk1, Hk2.
  rewrite inject_Z_plus, inject_Z_mult in Hk1, Hk2. rewrite <- Em in Hk1, Hk2.
  change (inject_Z 510) with 510 in Hk1, Hk2. change (inject_Z 1) with 1 in Hk1.
  change (inject_Z 509) with 509 in Hk2.
  assert (Hx0 : 0 <= x <= inject_Z n).
  { clearbody x s n. split; nra. }
  (* the quotient of the code *)
  assert (Hd : x - (1 # 1000) <= x' <= x + (1 # 1000)).
  { assert (E : (x' - x) * s' == x * (s - s')).
    { assert (X : (x' - x) * s' == x' * s' - x * s') by ring.
      rewrite X, Ex', <- Ex. ring. }
    pose proof (product_bound x (s - s') 255 (2 # 100000000000000)
                  ltac:(split; lra) ltac:(split; lra)) as P.
    clearbody x x' s s'. split; nra. }
  pose proof (rnd_within rnd rnd_rounding x' 256 ltac:(split; lra)) as Hr.
  pose proof eta_small. pose proof eta_pos. unfold u in Hr.
  assert (F1 : Qfloor (rnd x' + (1 # 2)) = k).
  { apply Qfloor_between; lra. }
  assert (F2 : Qfloor (x + (1 # 2)) = k).
  { apply Qfloor_between; lra. }
  rewrite F1, F2. split; [reflexivity | ].
  assert (A : inject_Z k < inject_Z (n + 1)).
  { rewrite inject_Z_plus. change (inject_Z 1) with 1. lra. }
  assert (B : inject_Z (- 1) < inject_Z k).
  { change (inject_Z (-1)) with (-1). lra. }
  rewrite <- Zlt_Qlt in A, B. lia.
Qed.

(** From 256 levels on the step is at most 1 and every byte is within
    1/2 of a multiple of it. *)
Lemma byte_near_multiple (levels b : Z) :
  (255 <= Z.max 2 (levels - 1))%Z -> is_byte b ->
  exists k : Z, (0 <= k <= Z.max 2 (levels - 1))%Z /\
    inject_Z k * posterize_step_size levels - (1 # 2) <= inject_Z b
    <= inject_Z k * posterize_step_size levels + (1 # 2).
Proof.
  intros Hn [Hb0 Hb1].
  destruct (posterize_step_size_spec levels) as (Hn2 & Hs & Hpos).
  set (n := Z.max 2 (levels - 1)) in *. set (s := posterize_step_size levels) in *.
  assert (HN : 255 <= inject_Z n)
    by (change 255 with (inject_Z 255); rewrite <- Zle_Qle; lia).
  assert (HB0 : 0 <= inject_Z b) by (change 0 with (inject_Z 0); rewrite <- Zle_Qle; lia).
  assert (HB1 : inject_Z b <= 255)
    by (change 255 with (inject_Z 255); rewrite <- Zle_Qle; lia).
  set (x := inject_Z b / s).
  assert (Ex : x * s == inject_Z b) by (unfold x; field; lra).
  exists (Qfloor (x + (1 # 2))).
  pose proof (Qfloor_le (x + (1 # 2))) as F1.
  pose proof (Qlt_floor (x + (1 # 2))) as F2.
  rewrite inject_Z_plus in F2. change (inject_Z 1) with 1 in F2.
  set (k := Qfloor (x + (1 # 2))) in *.
  assert (Hs1 : s <= 1).
  { clearbody s n x k. assert (0 <= s * (inject_Z n - 255))
      by (apply Qmult_le_0_compat; lra). lra. }
  assert (Hx : 0 <= x <= inject_Z n).
  { clearbody x s n k. split; nra. }
  split.
  - assert (A : inject_Z k < inject_Z (n + 1)).
    { rewrite inject_Z_plus. change (inject_Z 1) with 1. lra. }
    assert (B : inject_Z (- 1) < inject_Z k).
    { change (inject_Z (-1)) with (-1). lra. }
    rewrite <- Zlt_Qlt in A, B. lia.
  - clearbody x s n k. split; nra.
Qed.

Definition poster_levels_fl (levels : Z) : list Z :=
  if (Z.max 2 (levels - 1) <=? 255)%Z then
    stored_fl (posterize_step_fl rnd levels) <$> seqZ 0 (Z.max 2 (levels - 1) + 1)
  else seqZ 0 256.

Lemma poster_levels_fl_length (levels : Z) :
  (length (poster_levels_fl levels) <= Z.to_nat (Z.max 3 levels))%nat.
Proof.
  unfold poster_levels_fl. destruct (Z.leb_spec (Z.max 2 (levels - 1)) 255).
  - rewrite length_fmap, length_seqZ. lia.
  - rewrite length_seqZ. lia.
Qed.

Lemma poster_levels_fl_closed (levels v : Z) :
  toUint8Clamp (quantize_fl rnd (posterize_step_fl rnd levels) v)
  ∈ poster_levels_fl levels.
Proof.
  unfold poster_levels_fl. destruct (Z.leb_spec (Z.max 2 (levels - 1)) 255) as [Hn | Hn].
  - change (toUint8Clamp (quantize_fl rnd (posterize_step_fl rnd levels) v))
      with (stored_fl (posterize_step_fl rnd levels)
              (index_fl rnd (posterize_step_fl rnd levels) v)).
    rewrite (stored_fl_clamped levels _ Hn). apply list_elem_of_fmap.
    eexists. split; [reflexivity | ]. apply elem_of_seqZ. lia.
  - pose proof (toUint8Clamp_range (quantize_fl rnd (posterize_step_fl rnd levels) v)) as Hb.
    unfold is_byte in Hb. apply elem_of_seqZ. lia.
Qed.

Lemma poster_levels_fl_near (levels v : Z) :
  let b := toUint8Clamp (quantize_fl rnd (posterize_step_fl rnd levels) v) in
  is_byte b /\
  exists k : Z, (0 <= k <= Z.max 2 (levels - 1))%Z /\
    Qabs (inject_Z b - inject_Z k * posterize_step_size levels) <= 1 # 2.
Proof.
  intros b. split; [apply toUint8Clamp_range | ].
  destruct (Z.le_gt_cases (Z.max 2 (levels - 1)) 255) as [Hn | Hn].
  - subst b.
    change (toUint8Clamp (quantize_fl rnd (posterize_step_fl rnd levels) v))
      with (stored_fl (posterize_step_fl rnd levels)
              (index_fl rnd (posterize_step_fl rnd levels) v)).
    rewrite (stored_fl_clamped levels _ Hn).
    set (K := Z.max 0 (Z.min (Z.max 2 (levels - 1))
                         (index_fl rnd (posterize_step_fl rnd levels) v))).
    assert (HK : (0 <= K <= Z.max 2 (levels - 1))%Z) by (unfold K; lia).
    exists K. split; [exact HK | ]. apply Qabs_Qle_condition.
    pose proof (stored_fl_near levels K Hn HK) as H. cbv zeta in H. split; lra.
  - destruct (byte_near_multiple levels b ltac:(lia) (toUint8Clamp_range _))
      as (k & Hk & H).
    exists k. split; [exact Hk | ]. apply Qabs_Qle_condition. split; lra.
Qed.

(** The posterizer on doubles, for any rounding. *)
Lemma posterize_data_fl_spec (d : list Z) (L : Z) (satBoost : Q) :
  Forall is_byte d -> (length d mod 4 = 0)%nat ->
  let out := posterize_data_fl rnd d L satBoost in
  let n := Z.max 2 (L - 1) in
  let step := posterize_step_size L in
  length out = length d /\
  channel 3 out = channel 3 d /\
  (forall c v, (c < 3)%nat -> v ∈ channel c out ->
     is_byte v /\
     exists k : Z, (0 <= k <= n)%Z /\ Qabs (inject_Z v - inject_Z k * step) <= 1 # 2) /\
  (forall c, (c < 3)%nat ->
     (distinct_values (channel c out) <= Z.to_nat (Z.max 3 L))%nat) /\
  ((3 <= L)%Z ->
     step == 255 / (inject_Z L - 1) /\
     forall c, (c < 3)%nat -> (distinct_values (channel c out) <= Z.to_nat L)%nat) /\
  ((L <= 256)%Z -> forall k, (k < length d / 4)%nat ->
     let col := boosted_fl rnd satBoost (d !!! (4 * k)%nat) (d !!! (4 * k + 1)%nat)
                  (d !!! (4 * k + 2)%nat) in
     is_color col /\
     exists b0 b1 b2 : Z,
       out !! (4 * k)%nat = Some b0 /\ out !! (4 * k + 1)%nat = Some b1 /\
       out !! (4 * k + 2)%nat = Some b2 /\
       Qabs (inject_Z b0 - quantize step (rgb_r col)) <= 1 # 2 /\
       Qabs (inject_Z b1 - quantize step (rgb_g col)) <= 1 # 2 /\
       Qabs (inject_Z b2 - quantize step (rgb_b col)) <= 1 # 2).
Proof.
  intros Hbytes Hlen out n step.
  assert (Hinrange : forall k, (k < length d / 4)%nat -> (4 * k + 3 < length d)%nat).
  { intros k Hk. pose proof (Nat.div_mod_eq (length d) 4). lia. }
  assert (Hmem : forall c v, (c < 3)%nat -> v ∈ channel c out ->
            exists r2, v = toUint8Clamp (quantize_fl rnd (posterize_step_fl rnd L) r2)).
  { intros c v Hc Hv. apply channel_lookup in Hv as (k & Hk & Hv).
    subst out. rewrite posterize_data_fl_length in Hk.
    rewrite posterize_data_fl_lookup in Hv by (try apply Hinrange; lia).
    cbv zeta in Hv. injection Hv as <-.
    destruct c as [ | [ | [ | c]]]; try lia; eexists; reflexivity. }
  assert (Hcount : forall c, (c < 3)%nat ->
            (distinct_values (channel c out) <= Z.to_nat (Z.max 3 L))%nat).
  { intros c Hc. etransitivity; [ | apply (poster_levels_fl_length L)].
    apply distinct_values_bound. intros v Hv.
    destruct (Hmem c v Hc Hv) as [r2 ->]. apply poster_levels_fl_closed. }
  split; [apply posterize_data_fl_length | ].
  split.
  { unfold channel. subst out. rewrite posterize_data_fl_length.
    apply omap_ext_in. intros k Hk. apply elem_of_seq in Hk.
    rewrite posterize_data_fl_lookup by (try apply Hinrange; lia). cbv zeta.
    assert (Hsome : is_Some (d !! (4 * k + 3)%nat))
      by (apply lookup_lt_is_Some; apply Hinrange; lia).
    destruct Hsome as [a Ha].
    rewrite (list_lookup_total_correct _ _ _ Ha), Ha.
    f_equal. apply toUint8Clamp_byte.
    eapply Forall_lookup_1; eauto. }
  split.
  { intros c v Hc Hv. destruct (Hmem c v Hc Hv) as [r2 ->].
    apply poster_levels_fl_near. }
  split; [exact Hcount | ].
  split.
  - intros HL. split.
    + unfold step, posterize_step_size. rewrite posterize_divisor.
      replace (Z.max 2 (L - 1)) with (L - 1)%Z by lia.
      unfold Zminus. rewrite inject_Z_plus. reflexivity.
    + intros c Hc. specialize (Hcount c Hc).
      replace (Z.max 3 L) with L in Hcount by lia. exact Hcount.
  - intros HL k Hk col. subst out.
    assert (Hcol : is_color col).
    { apply (boosted_fl_color rnd rnd_rounding); apply lookup_total_byte; exact Hbytes. }
    split; [exact Hcol | ].
    assert (Hn : (Z.max 2 (L - 1) <= 255)%Z) by lia.
    pose proof (posterize_data_fl_lookup d L satBoost k 0 (Hinrange k Hk) ltac:(lia)) as E0.
    pose proof (posterize_data_fl_lookup d L satBoost k 1 (Hinrange k Hk) ltac:(lia)) as E1.
    pose proof (posterize_data_fl_lookup d L satBoost k 2 (Hinrange k Hk) ltac:(lia)) as E2.
    rewrite Nat.add_0_r in E0. cbv zeta in E0, E1, E2. fold col in E0, E1, E2.
    assert (Hq : forall v, is_byte v ->
              Qabs (inject_Z (toUint8Clamp (quantize_fl rnd (posterize_step_fl rnd L) v))
                    - quantize step v) <= 1 # 2).
    { intros v Hv. destruct (index_fl_exact L v Hn Hv) as [Ei Hi].
      change (toUint8Clamp (quantize_fl rnd (posterize_step_fl rnd L) v))
        with (stored_fl (posterize_step_fl rnd L) (index_fl rnd (posterize_step_fl rnd L) v)).
      rewrite Ei. pose proof (stored_fl_near L _ Hn Hi) as H. cbv zeta in H.
      unfold quantize. fold step in H |- *.
      apply Qabs_Qle_condition. split; lra. }
    destruct Hcol as (Hr & Hg & Hb).
    eexists _, _, _. split; [exact E0 | split; [exact E1 | split; [exact E2 | ]]].
    split; [apply Hq, Hr | split; [apply Hq, Hg | apply Hq, Hb]].
Qed.

End DoublePosterFacts.

(** *** The posterizer on doubles *)

Definition boosted64 := boosted_fl round64.
Definition posterize_data64 := posterize_data_fl round64.

(** The pictures on which the exact arithmetic and the doubles part: with
    51 levels the step is 5.1 and [25 * 5.1] is 127.49999999999999 in
    doubles, so grey 125 is stored as 127 and not as 128; with a boost of
    0.065 grey 100 comes back from HSL as (100, 100, 100) and is stored as
    85 at 7 levels; [hslToRgb(0, 0.5, 0.2)] is (77, 25, 25). *)
Example posterize_data64_ties :
  posterize_data64 [125; 125; 125; 255]%Z 51 0 = [127; 127; 127; 255]%Z /\
  posterize_data [125; 125; 125; 255]%Z 51 0 = [128; 128; 128; 255]%Z /\
  posterize_data64 [100; 100; 100; 255]%Z 7 (round64 0.065) = [85; 85; 85; 255]%Z /\
  hslToRgb_fl round64 0 0.5 (round64 0.2) = mkRGB 77 25 25.
Proof. repeat split; vm_compute; reflexivity. Qed.

(** With 2 levels the doubles store the same three values as the exact
    arithmetic. *)
Example posterize_data64_two_levels :
  posterize_data64 [0; 0; 0; 255; 128; 128; 128; 255; 255; 255; 255; 255]%Z 2 0
  = [0; 0; 0; 255; 128; 128; 128; 255; 255; 255; 255; 255]%Z.
Proof. vm_compute. reflexivity. Qed.

Example posterize_data64_six_levels :
  posterize_data64 [10; 100; 200; 77; 128; 128; 128; 255]%Z 6 (round64 0.3)
  = [0; 102; 204; 77; 153; 102; 102; 255]%Z.
Proof. vm_compute. reflexivity. Qed.

(** C2, amended.  For every buffer of whole pixels, every level count [L]
    and every boost, [posterizeAndSaturate] keeps the length and the alpha
    bytes, and every red, green and blue byte it stores is within 1/2 of
    one of the [max(2, L - 1) + 1] multiples [k * step] of
    [step = 255 / max(2, L - 1)]; a channel shows at most [max(3, L)]
    distinct values, which is [L], with [step = 255 / (L - 1)], from
    [L = 3] on.  For [L <= 256] the byte stored for a channel is within
    1/2 of the multiple of the step nearest to that channel of the
    saturation-boosted colour (a colour again, with channels in [0,255]).
    Where that multiple ends in .5 either neighbour can be stored: the
    rounding of the product [k * step] decides. *)
Theorem posterize_quantizes (d : list Z) (L : Z) (satBoost : Q) :
  Forall is_byte d -> (length d mod 4 = 0)%nat ->
  let out := posterize_data64 d L satBoost in
  let n := Z.max 2 (L - 1) in
  let step := posterize_step_size L in
  length out = length d /\
  channel 3 out = channel 3 d /\
  (forall c v, (c < 3)%nat -> v ∈ channel c out ->
     is_byte v /\
     exists k : Z, (0 <= k <= n)%Z /\ Qabs (inject_Z v - inject_Z k * step) <= 1 # 2) /\
  (forall c, (c < 3)%nat ->
     (distinct_values (channel c out) <= Z.to_nat (Z.max 3 L))%nat) /\
  ((3 <= L)%Z ->
     step == 255 / (inject_Z L - 1) /\
     forall c, (c < 3)%nat -> (distinct_values (channel c out) <= Z.to_nat L)%nat) /\
  ((L <= 256)%Z -> forall k, (k < length d / 4)%nat ->
     let col := boosted64 satBoost (d !!! (4 * k)%nat) (d !!! (4 * k + 1)%nat)
                  (d !!! (4 * k + 2)%nat) in
     is_color col /\
     exists b0 b1 b2 : Z,
       out !! (4 * k)%nat = Some b0 /\ out !! (4 * k + 1)%nat = Some b1 /\
       out !! (4 * k + 2)%nat = Some b2 /\
       Qabs (inject_Z b0 - quantize step (rgb_r col)) <= 1 # 2 /\
       Qabs (inject_Z b1 - quantize step (rgb_g col)) <= 1 # 2 /\
       Qabs (inject_Z b2 - quantize step (rgb_b col)) <= 1 # 2) /\
  (forall v : Z, exists j : Z,
     quantize step v = inject_Z j * step /\
     forall j' : Z,
       Qabs (inject_Z j * step - inject_Z v) <= Qabs (inject_Z j' * step - inject_Z v)).
Proof.
  intros Hbytes Hlen out n step.
  destruct (posterize_data_fl_spec round64 round64_spec d L satBoost Hbytes Hlen)
    as (P1 & P2 & P3 & P4 & P5 & P6).
  split; [exact P1 | ]. split; [exact P2 | ]. split; [exact P3 | ].
  split; [exact P4 | ]. split; [exact P5 | ]. split; [exact P6 | ].
  intros v. destruct (posterize_step_size_spec L) as (_ & _ & Hpos).
  destruct (quantize_nearest (posterize_step_size L) v Hpos) as (j & Hj & _ & Hnear).
  exists j. split; [exact Hj | exact Hnear].
Qed.

Lemma posterize_quantizes_witness :
  let d := [10; 100; 200; 77; 125; 125; 125; 255]%Z in
  let satBoost := round64 0.3 in
  let out := posterize_data64 d 6 satBoost in
  let n := Z.max 2 (6 - 1) in
  let step := posterize_step_size 6 in
  length out = length d /\
  channel 3 out = channel 3 d /\
  (forall c v, (c < 3)%nat -> v ∈ channel c out ->
     is_byte v /\
     exists k : Z, (0 <= k <= n)%Z /\ Qabs (inject_Z v - inject_Z k * step) <= 1 # 2) /\
  (forall c, (c < 3)%nat ->
     (distinct_values (channel c out) <= Z.to_nat (Z.max 3 6))%nat) /\
  ((3 <= 6)%Z ->
     step == 255 / (inject_Z 6 - 1) /\
     forall c, (c < 3)%nat -> (distinct_values (channel c out) <= Z.to_nat 6)%nat) /\
  ((6 <= 256)%Z -> forall k, (k < length d / 4)%nat ->
     let col := boosted64 satBoost (d !!! (4 * k)%nat) (d !!! (4 * k + 1)%nat)
                  (d !!! (4 * k + 2)%nat) in
     is_color col /\
     exists b0 b1 b2 : Z,
       out !! (4 * k)%nat = Some b0 /\ out !! (4 * k + 1)%nat = Some b1 /\
       out !! (4 * k + 2)%nat = Some b2 /\
       Qabs (inject_Z b0 - quantize step (rgb_r col)) <= 1 # 2 /\
       Qabs (inject_Z b1 - quantize step (rgb_g col)) <= 1 # 2 /\
       Qabs (inject_Z b2 - quantize step (rgb_b col)) <= 1 # 2) /\
  (forall v : Z, exists j : Z,
     quantize step v = inject_Z j * step /\
     forall j' : Z,
       Qabs (inject_Z j * step - inject_Z v) <= Qabs (inject_Z j' * step - inject_Z v)).
Proof.
  apply (posterize_quantizes [10; 100; 200; 77; 125; 125; 125; 255]%Z 6 (round64 0.3)).
  - repeat constructor; unfold is_byte; lia.
  - reflexivity.
Defined.
